(** * Booking.com price calendar: the scheduling, statistics and merge core

    A shallow embedding of [content.js] (the price statistics, the price
    parser, the fetch queue with its cache, the calendar selection, the
    colour classification, the detail merge and the HTML escaper), and the
    properties of it that the specification states.

    Conventions of the embedding.
    - A JavaScript string is the list of its UTF-16 code units ([list N]).
    - A finite JavaScript number is the rational it denotes ([Q]); [NaN] is
      [None] where a function can produce it.  Where the source adds or
      divides numbers, or reads a number from a string, the result is a
      [number]: the exact result rounded to the nearest double, ties to even,
      or an infinity when that lies beyond the doubles ([rounded]).
      Comparisons and [Math.round] are exact on doubles and are taken on the
      rationals.  The sign of zero is not modelled.
    - An ISO date [YYYY-MM-DD] is its day number (days since the epoch), the
      value [new Date(s + 'T00:00:00Z') / 86_400_000] of the source.
    - The event loop is a transition system: every synchronous turn of the
      source (a handler, a timer callback, the continuation of an [await])
      is one step. *)

From Stdlib Require Import QArith Qround Qabs Qpower ZArith List Sorted Lia Lqa Ascii.
From stdpp Require Import gmap list strings.

(* ================================================================= *)
(** * Part I: the embedding *)

(* ----------------------------------------------------------------- *)
(** ** JavaScript strings and numbers *)

(** [str "abc"] is the JavaScript string with the code units of the ASCII
    literal. *)
Definition str (s : String.string) : list N :=
  map N_of_ascii (String.list_ascii_of_string s).
Arguments str s%_string.

(** The characters matched by [\s] (and removed by [trim]): the WhiteSpace
    and LineTerminator code points of ECMAScript. *)
Definition is_space (c : N) : bool :=
  ((9 <=? c) && (c <=? 13) || (c =? 32) || (c =? 160) || (c =? 5760)
   || (8192 <=? c) && (c <=? 8202) || (c =? 8232) || (c =? 8233)
   || (c =? 8239) || (c =? 8287) || (c =? 12288) || (c =? 65279))%N.

(** [\d] *)
Definition is_digit (c : N) : bool := ((48 <=? c) && (c <=? 57))%N.

Definition comma : N := 44.
Definition dot : N := 46.

Fixpoint drop_spaces (s : list N) : list N :=
  match s with
  | [] => []
  | c :: s' => if is_space c then drop_spaces s' else s
  end.

(** [String.prototype.trim]: white space removed at both ends. *)
Definition trim (s : list N) : list N :=
  rev (drop_spaces (rev (drop_spaces s))).

(** The doubles (IEEE 754 binary64): 53 bits of precision, [2^-1074] as the
    least unit in the last place, and magnitudes below [2^1024].  [pow2 e] is
    [2^e]. *)
Definition pow2 (e : Z) : Q := (2 ^ e)%Q.

(** The exponent of a positive number: [2^(Qlog2 x) <= x < 2^(Qlog2 x + 1)]. *)
Definition Qlog2 (x : Q) : Z :=
  let e0 := (Z.log2 (Qnum x) - Z.log2 (Zpos (Qden x)))%Z in
  if Qle_bool (pow2 e0) x then e0 else (e0 - 1)%Z.

(** The nearest integer, halves to the even one. *)
Definition round_half_even (x : Q) : Z :=
  let f := Qfloor x in
  match Qcompare (x - inject_Z f) (1 # 2) with
  | Lt => f
  | Gt => (f + 1)%Z
  | Eq => if Z.even f then f else (f + 1)%Z
  end.

(** The exponent of the unit in the last place of the doubles around [x]:
    52 below the exponent of [x], and -1074 for the subnormal numbers. *)
Definition ulp_exponent (x : Q) : Z := Z.max (Qlog2 (Qabs x) - 52) (-1074).

(** Rounding to nearest, ties to even, with 53 bits and no bound on the
    exponent from above. *)
Definition RN (x : Q) : Q :=
  if Qeq_bool x 0 then 0%Q
  else let e := ulp_exponent x in
       Qred (inject_Z (round_half_even (x / pow2 e)) * pow2 e).

(** A number that is not [NaN]: a double, or one of the infinities. *)
Inductive number :=
  | Finite (q : Q)
  | Infinity (negative : bool).

(** The number that an operation with the exact result [x] returns, and that
    a decimal literal of value [x] denotes: the nearest double, and the
    infinity of the sign of [x] when rounding takes [x] to [2^1024] or
    beyond. *)
Definition rounded (x : Q) : number :=
  let r := RN x in
  if Qle_bool (pow2 1024) (Qabs r) then Infinity (negb (Qle_bool 0 x))
  else Finite r.

(** The rationals that are doubles. *)
Definition is_double (x : Q) : Prop :=
  exists q, rounded x = Finite q /\ (q == x)%Q.

(** [a + b] and [a / b] for a finite [b] ([b] is positive where the source
    divides), and [a - b] and [a * b] for finite [a] and [b]. *)
Definition Number_add (a : number) (b : Q) : number :=
  match a with
  | Finite a => rounded (a + b)
  | Infinity negative => Infinity negative
  end.

Definition Number_divide (a : number) (b : Q) : number :=
  match a with
  | Finite a => rounded (a / b)
  | Infinity negative => Infinity negative
  end.

Definition Number_subtract (a b : Q) : number := rounded (a - b).
Definition Number_multiply (a b : Q) : number := rounded (a * b).

(** [x <= 0] on numbers. *)
Definition not_positive (x : number) : bool :=
  match x with
  | Finite q => Qle_bool q 0
  | Infinity negative => negative
  end.

(** The nearest integer, halves towards plus infinity. *)
Definition round_half_up (x : Q) : Q := inject_Z (Qfloor (x + (1 # 2))%Q).

(** [Math.round]: on a double it is exact. *)
Definition Math_round (x : number) : number :=
  match x with
  | Finite q => Finite (round_half_up q)
  | Infinity negative => Infinity negative
  end.

(** [Array.prototype.sort(cmp)] is a stable sort (ES2019); for a consistent
    comparator its result is the one of this stable insertion sort.  [cmp a b]
    is the number the comparator returns: [a] goes first when it is not
    positive. *)
Fixpoint sort_insert (cmp : Q -> Q -> Q) (x : Q) (l : list Q) : list Q :=
  match l with
  | [] => [x]
  | y :: l' => if Qle_bool (cmp x y) 0%Q then x :: l
               else y :: sort_insert cmp x l'
  end.

Definition sort (cmp : Q -> Q -> Q) (l : list Q) : list Q :=
  foldr (sort_insert cmp) [] l.

(** The comparator [(a, b) => a - b] of the source.  [sort] only looks at
    the sign of what the comparator returns, and the difference of two
    doubles keeps its sign when it is rounded (lemma [ascending_sign]), so
    the exact difference stands for it. *)
Definition ascending (a b : Q) : Q := (a - b)%Q.

(* ----------------------------------------------------------------- *)
(** ** Statistics: [calcStats] *)

(** The record [{ min, max, avg, count }]. *)
Record stats := mkStats {
  stat_min : Q;
  stat_max : Q;
  stat_avg : number;
  stat_count : nat
}.

(** [calcStats(prices)], for prices that are doubles.  On the empty list the
    source reads [sorted[0]] of an empty array ([undefined]) and divides by
    zero ([NaN]); that degenerate record is [None] here.  The sum is the one
    of [reduce]: the sorted prices are added to 0 from left to right, and
    every addition rounds. *)
Definition calcStats (prices : list Q) : option stats :=
  let sorted := sort ascending prices in
  let sum := fold_left (fun acc v => Number_add acc v) sorted (Finite 0) in
  match sorted with
  | [] => None
  | first :: _ =>
      Some {| stat_min := first;
              stat_max := List.last sorted first;
              stat_avg :=
                Math_round
                  (Number_divide sum (inject_Z (Z.of_nat (length sorted))));
              stat_count := length sorted |}
  end.

(* ----------------------------------------------------------------- *)
(** ** Price parsing: [parsePrice] *)

(** [text.replace(/\s/g, '')] *)
Definition strip_spaces (s : list N) : list N :=
  List.filter (fun c => negb (is_space c)) s.

(** The character class [[\d,.]]. *)
Definition is_price_char (c : N) : bool :=
  is_digit c || (c =? comma)%N || (c =? dot)%N.

Fixpoint take_while (p : N -> bool) (s : list N) : list N :=
  match s with
  | [] => []
  | c :: s' => if p c then c :: take_while p s' else []
  end.

Fixpoint drop_while (p : N -> bool) (s : list N) : list N :=
  match s with
  | [] => []
  | c :: s' => if p c then drop_while p s' else s
  end.

(** [cleaned.match(/[\d,.]+/)]: the leftmost run of price characters, taken
    as long as it goes; [None] when there is none ([null]). *)
Fixpoint match_price_run (s : list N) : option (list N) :=
  match s with
  | [] => None
  | c :: s' => if is_price_char c then Some (take_while is_price_char s)
               else match_price_run s'
  end.

(** The lookahead [(?=\d{3})]: the next three characters are digits. *)
Definition three_digits_follow (s : list N) : bool :=
  match s with
  | a :: b :: c :: _ => is_digit a && is_digit b && is_digit c
  | _ => false
  end.

(** [.replace(/,(?=\d{3})/g, '')]: every comma that three digits follow is
    removed. *)
Fixpoint remove_thousands (s : list N) : list N :=
  match s with
  | [] => []
  | c :: s' => if (c =? comma)%N && three_digits_follow s'
               then remove_thousands s'
               else c :: remove_thousands s'
  end.

(** [.replace(',', '.')]: a string pattern replaces the first occurrence
    only. *)
Fixpoint replace_first_comma (s : list N) : list N :=
  match s with
  | [] => []
  | c :: s' => if (c =? comma)%N then dot :: s'
               else c :: replace_first_comma s'
  end.

Definition digit_value (c : N) : Z := Z.of_N (c - 48).

Definition digits_value (ds : list N) : Z :=
  fold_left (fun acc c => 10 * acc + digit_value c)%Z ds 0%Z.

(** The number that a decimal literal with the integer digits [int_part]
    and the fraction digits [frac_part] denotes, before it is rounded. *)
Definition decimal_value (int_part frac_part : list N) : Q :=
  (inject_Z (digits_value int_part)
   + Qmake (digits_value frac_part)
           (Z.to_pos (10 ^ Z.of_nat (length frac_part))))%Q.

(** [parseFloat] on the strings [parsePrice] gives it, which hold digits,
    dots and commas only (no sign, exponent or white space): the longest
    prefix [digits], [digits.digits], [digits.] or [.digits] is read, and the
    result is [NaN] ([None]) when that prefix has no digit, and otherwise the
    number nearest to the decimal number read. *)
Definition parseFloat (s : list N) : option number :=
  let int_part := take_while is_digit s in
  let frac_part :=
    match drop_while is_digit s with
    | c :: rest => if (c =? dot)%N then take_while is_digit rest else []
    | [] => []
    end in
  match int_part, frac_part with
  | [], [] => None
  | _, _ => Some (rounded (decimal_value int_part frac_part))
  end.

(** [(n > 1 && n < 999_999) ? n : 0] *)
Definition price_or_zero (n : number) : Q :=
  match n with
  | Finite n =>
      if Qlt_le_dec 1 n
      then (if Qlt_le_dec n 999999 then n else 0%Q)
      else 0%Q
  | Infinity _ => 0%Q
  end.

(** [parsePrice(text)] *)
Definition parsePrice (text : list N) : Q :=
  match text with
  | [] => 0%Q
  | _ =>
      let cleaned := strip_spaces text in
      match match_price_run cleaned with
      | None => 0%Q
      | Some m =>
          let normalised := replace_first_comma (remove_thousands m) in
          match parseFloat normalised with
          | Some n => price_or_zero n
          | None => 0%Q
          end
      end
  end.

(* ----------------------------------------------------------------- *)
(** ** JavaScript values and HTML escaping: [esc] *)

(** The values the helpers of the comparison view are handed: the falsy
    values, strings, and any other truthy value (a non-zero number, [true],
    an object), which is given with the string [String(v)] makes of it. *)
Inductive value :=
  | VUndefined
  | VNull
  | VFalse
  | VZero
  | VNaN
  | VString (s : list N)
  | VOther (stringified : list N).

(** [!v] is false *)
Definition truthy (v : value) : bool :=
  match v with
  | VString [] => false
  | VString _ | VOther _ => true
  | _ => false
  end.

(** [String(v)] *)
Definition String_of (v : value) : list N :=
  match v with
  | VUndefined => str "undefined"
  | VNull => str "null"
  | VFalse => str "false"
  | VZero => str "0"
  | VNaN => str "NaN"
  | VString s => s
  | VOther s => s
  end.

(** [s.replace(/c/g, by)] for a one-character pattern. *)
Definition replace_all (c : N) (by_ : list N) (s : list N) : list N :=
  flat_map (fun x => if (x =? c)%N then by_ else [x]) s.

Definition char_amp : N := 38.
Definition char_lt : N := 60.
Definition char_gt : N := 62.
Definition char_quot : N := 34.

(** [esc(str)] *)
Definition esc (v : value) : list N :=
  if negb (truthy v) then []
  else replace_all char_quot (str "&quot;")
         (replace_all char_gt (str "&gt;")
            (replace_all char_lt (str "&lt;")
               (replace_all char_amp (str "&amp;") (String_of v)))).

(* ----------------------------------------------------------------- *)
(** ** The detail merger: [mergeUniqueStrings], [mergeFacilityGroups],
       [mergeAreaInfo] *)

(** [typeof v === 'string' ? v.trim() : ''] *)
Definition trimmed_text (v : value) : list N :=
  match v with
  | VString s => trim s
  | _ => []
  end.

(** A facility group, a point of interest and a category as a detail
    snapshot hands them in: any field may hold any value. *)
Record raw_group := RawGroup {
  raw_name : value;
  raw_description : value;
  raw_facilities : list value
}.

Record raw_poi := RawPoi {
  raw_poi_type : value;
  raw_poi_name : value;
  raw_poi_distance : value
}.

(** A [pois] field that is not an array counts as the empty list. *)
Record raw_category := RawCategory {
  raw_cat_name : value;
  raw_pois : list raw_poi
}.

(** The records the merger builds: [{ name, description, facilities }],
    [{ type, name, distance }] and [{ name, pois }]. *)
Record group := Group {
  group_name : list N;
  group_description : list N;
  group_facilities : list (list N)
}.

Record poi := Poi {
  poi_type : list N;
  poi_name : list N;
  poi_distance : list N
}.

Record category := Category {
  cat_name : list N;
  pois : list poi
}.




Definition is_empty {A} (l : list A) : bool :=
  match l with [] => true | _ => false end.

Definition vbar : N := 124.

Section Merge.
(** [String.prototype.toLowerCase], of which nothing is assumed. *)
Variable toLowerCase : list N -> list N.

(** The body of the inner [forEach] of [mergeUniqueStrings], on the pair
    of [merged] and [seen]. *)
Definition add_unique (acc : list (list N) * gset (list N)) (item : value)
  : list (list N) * gset (list N) :=
  let '(merged, seen) := acc in
  let text := trimmed_text item in
  if is_empty text then acc
  else
    let key := toLowerCase text in
    if decide (key ∈ seen) then acc
    else (merged ++ [text], {[key]} ∪ seen).

(** [mergeUniqueStrings(base, extra)] *)
Definition mergeUniqueStrings (base extra : list value) : list (list N) :=
  fst (fold_left add_unique extra (fold_left add_unique base ([], ∅))).

(** The body of [ingest] in [mergeFacilityGroups], on the pair of
    [mergedByName] and [order]. *)
Definition ingest_group (acc : gmap (list N) group * list (list N))
    (g : raw_group) : gmap (list N) group * list (list N) :=
  let '(mergedByName, order) := acc in
  let name := trimmed_text (raw_name g) in
  if is_empty name then acc
  else
    let key := toLowerCase name in
    let desc := trimmed_text (raw_description g) in
    let facs := mergeUniqueStrings [] (raw_facilities g) in
    match mergedByName !! key with
    | None => (<[key := Group name desc facs]> mergedByName, order ++ [key])
    | Some existing =>
        let description' :=
          if negb (is_empty desc)
             && (length (group_description existing) <? length desc)%nat
          then desc else group_description existing in
        (<[key := Group (group_name existing) description'
                    (mergeUniqueStrings
                       (VString <$> group_facilities existing)
                       (VString <$> facs))]> mergedByName,
         order)
    end.

(** [mergeFacilityGroups(base, extra)] *)
Definition mergeFacilityGroups (base extra : list raw_group) : list group :=
  let '(mergedByName, order) :=
    fold_left ingest_group extra (fold_left ingest_group base (∅, [])) in
  List.filter
    (fun g => negb (is_empty (group_facilities g))
              || negb (is_empty (group_description g)))
    (omap (fun key => mergedByName !! key) order).

(** The key under which a point of interest is remembered:
    [`${name.toLowerCase()}|${distance.toLowerCase()}`]. *)
Definition poi_key (name distance : list N) : list N :=
  toLowerCase name ++ vbar :: toLowerCase distance.

(** The body of [pois.forEach] in [mergeAreaInfo], on the pair of
    [target.pois] and [seenPoi]. *)
Definition add_poi (acc : list poi * gset (list N)) (p : raw_poi)
  : list poi * gset (list N) :=
  let '(target_pois, seenPoi) := acc in
  let poiName := trimmed_text (raw_poi_name p) in
  if is_empty poiName then acc
  else
    let poiType := trimmed_text (raw_poi_type p) in
    let poiDist := trimmed_text (raw_poi_distance p) in
    let poiKey := poi_key poiName poiDist in
    if decide (poiKey ∈ seenPoi) then acc
    else (target_pois ++ [Poi poiType poiName poiDist],
          {[poiKey]} ∪ seenPoi).

(** The body of [ingest] in [mergeAreaInfo], on the pair of
    [mergedByCategory] and [order].  The source mutates the [pois] array
    of the category object that the map holds; the map entry is written
    back here. *)
Definition ingest_category (acc : gmap (list N) category * list (list N))
    (c : raw_category) : gmap (list N) category * list (list N) :=
  let '(mergedByCategory, order) := acc in
  let name := trimmed_text (raw_cat_name c) in
  if is_empty name then acc
  else
    let key := toLowerCase name in
    let '(target, order') :=
      match mergedByCategory !! key with
      | None => (Category name [], order ++ [key])
      | Some existing => (existing, order)
      end in
    let seenPoi : gset (list N) :=
      list_to_set
        ((fun p => poi_key (poi_name p) (poi_distance p)) <$> pois target) in
    let target_pois := fst (fold_left add_poi (raw_pois c) (pois target, seenPoi)) in
    (<[key := Category (cat_name target) target_pois]> mergedByCategory,
     order').

(** [mergeAreaInfo(base, extra)] *)
Definition mergeAreaInfo (base extra : list raw_category) : list category :=
  let '(mergedByCategory, order) :=
    fold_left ingest_category extra
      (fold_left ingest_category base (∅, [])) in
  List.filter (fun c => negb (is_empty (pois c)))
    (omap (fun key => mergedByCategory !! key) order).
End Merge.


Record details := Details {
  merged_popularFacilities : list (list N);
  merged_facilityGroups : list group;
  merged_facilityLines : list (list N);
  merged_areaInfo : list category
}.




(* ----------------------------------------------------------------- *)
(** ** Dates, the price cache and the fetch queue *)

Definition MAX_CONCURRENT : Z := 2.
Definition FETCH_DELAY_MS : Z := 900.
Definition SCRAPE_DELAY_MS : Z := 3000.

(** A date string [YYYY-MM-DD] is its day number, so that [addDays] and
    [daysBetween], which go through [Date] in the source, are sums and
    differences. *)
Definition addDays (dateStr : Z) (n : Z) : Z := dateStr + n.
Definition daysBetween (a b : Z) : Z := b - a.

(** [cacheKey(checkin, checkout)] is the string [`${checkin}/${checkout}`],
    which determines both dates: the pair of them. *)
Definition cacheKey (checkin checkout : Z) : Z * Z := (checkin, checkout).

(** A fetch job [{ key, checkin, checkout }]. *)
Record job := Job {
  job_key : Z * Z;
  job_checkin : Z;
  job_checkout : Z
}.

(** A value of [priceCache]: [{ loading: true }], [null] or a statistics
    record. *)
Inductive entry :=
  | Loading
  | Empty
  | Stats (st : stats).

(** The fields of [searchParams] that the scheduler reads (the destination
    and occupancy fields only go into the URL of a request). *)
Record params := Params {
  sp_checkin : Z;
  sp_checkout : Z;
  sp_nights : Z
}.

(** What a pending [setTimeout] will run. *)
Inductive task :=
  | TScrape                (* scrapeCurrentPage *)
  | TDrain                 (* drain *)
  | TResume                (* the rest of drain after await sleep(180) *)
  | TRetry (j : job)       (* the callback of a rate-limited doFetch *)
  | TClosePicker.          (* the callback of closeDatePicker *)

(** What a [fetch] comes back with: a rejection (of [fetch] or of
    [res.text()]), or a response with its status and the prices that
    [extractPricesFromDoc] finds in its body. *)
Inductive response :=
  | TransportError
  | Http (status : Z) (prices : list Q).

(** [res.ok] *)
Definition ok (status : Z) : bool := (200 <=? status)%Z && (status <=? 299)%Z.

(** The mutable state of the content script, with what the event loop
    holds for it: the [doFetch] calls that await their response
    ([inflight]), the number of [doFetch] promises that are resolved and whose
    [finally] callback has not run yet ([settled]), the pending timers with
    their delay in milliseconds, and the pending [fetchHomepagePrice] calls
    with the [checkinSnap] and [key] their [then] callback closes over. *)
Record state := State {
  searchParams : option params;
  selectedCheckin : option Z;
  priceCache : gmap (Z * Z) entry;
  fetchQueue : list job;
  activeFetches : Z;
  inflight : list job;
  settled : nat;
  timers : list (Z * task);
  homepage : list (Z * (Z * Z))
}.

Definition set_selectedCheckin (v : option Z) (s : state) : state :=
  State (searchParams s) v (priceCache s) (fetchQueue s) (activeFetches s)
        (inflight s) (settled s) (timers s) (homepage s).

Definition set_priceCache (v : gmap (Z * Z) entry) (s : state) : state :=
  State (searchParams s) (selectedCheckin s) v (fetchQueue s)
        (activeFetches s) (inflight s) (settled s) (timers s) (homepage s).

Definition set_fetchQueue (v : list job) (s : state) : state :=
  State (searchParams s) (selectedCheckin s) (priceCache s) v
        (activeFetches s) (inflight s) (settled s) (timers s) (homepage s).

Definition set_timers (v : list (Z * task)) (s : state) : state :=
  State (searchParams s) (selectedCheckin s) (priceCache s) (fetchQueue s)
        (activeFetches s) (inflight s) (settled s) v (homepage s).

Definition set_homepage (v : list (Z * (Z * Z))) (s : state) : state :=
  State (searchParams s) (selectedCheckin s) (priceCache s) (fetchQueue s)
        (activeFetches s) (inflight s) (settled s) (timers s) v.

(** [setTimeout(task, ms)] *)
Definition setTimeout (t : task) (ms : Z) (s : state) : state :=
  set_timers (timers s ++ [(ms, t)]) s.

(** [priceCache.set(key, v)] *)
Definition cache_set (key : Z * Z) (v : entry) (s : state) : state :=
  set_priceCache (<[key := v]> (priceCache s)) s.

(** [priceCache.has(key)] *)
Definition has (cache : gmap (Z * Z) entry) (key : Z * Z) : bool :=
  bool_decide (is_Some (cache !! key)).

(** [fetchQueue.find(j => j.key === key)] finds a job. *)
Definition queued (key : Z * Z) (queue : list job) : bool :=
  existsb (fun j => bool_decide (job_key j = key)) queue.

(** The statement
    [if (!priceCache.has(key) && !fetchQueue.find(j => j.key === key))
       fetchQueue.push({ key, checkin, checkout })]
    of [handleDateClick] and [queueFetchesForCells]. *)
Definition enqueue (checkin checkout : Z) (s : state) : state :=
  let key := cacheKey checkin checkout in
  if negb (has (priceCache s) key) && negb (queued key (fetchQueue s))
  then set_fetchQueue (fetchQueue s ++ [Job key checkin checkout]) s
  else s.

(** [for (let i = 1; i <= 10; i++) body(i)] *)
Definition for_1_to_10 (body : Z -> state -> state) (s : state) : state :=
  fold_left (fun s i => body i s) (seqZ 1 10) s.

(** The loop that queues the next ten checkout dates of a check-in. *)
Definition enqueue_window (checkin : Z) (s : state) : state :=
  for_1_to_10 (fun i => enqueue checkin (addDays checkin i)) s.

(** The dispatch of [drain]: [activeFetches++] and the call of [doFetch],
    which runs up to its [await fetch(url)]. *)
Definition dispatch (item : job) (s : state) : state :=
  State (searchParams s) (selectedCheckin s) (priceCache s) (fetchQueue s)
        (activeFetches s + 1) (inflight s ++ [item]) (settled s) (timers s)
        (homepage s).

(** The loop of [drain], run on [queue] (the value of [fetchQueue]) until it
    ends or reaches [await sleep(180)], whose continuation is the timer
    [TResume]. *)
Fixpoint drain_loop (queue : list job) (s : state) : state :=
  match queue with
  | [] => set_fetchQueue [] s
  | item :: rest =>
      if (activeFetches s <? MAX_CONCURRENT)%Z then
        if has (priceCache s) (job_key item) then drain_loop rest s
        else
          let s' := dispatch item (set_fetchQueue rest s) in
          if is_empty rest then s' else setTimeout TResume 180 s'
      else set_fetchQueue queue s
  end.

(** [drain()], up to its first [await]. *)
Definition drain (s : state) : state := drain_loop (fetchQueue s) s.

(** [prices.length > 0 ? calcStats(prices) : null] *)
Definition fetched_entry (prices : list Q) : entry :=
  if is_empty prices then Empty
  else match calcStats prices with
       | Some st => Stats st
       | None => Empty
       end.

(** [doFetch] from the arrival of the response to its end. *)
Definition doFetch_settle (j : job) (r : response) (s : state) : state :=
  match r with
  | Http status prices =>
      if (status =? 429)%Z || (status =? 503)%Z
      then setTimeout (TRetry j) 5000 s
      else if negb (ok status) then cache_set (job_key j) Empty s
      else cache_set (job_key j) (fetched_entry prices) s
  | TransportError => cache_set (job_key j) Empty s
  end.

(** The callback [() => { if (!priceCache.has(key)) fetchQueue.push(...);
    drain(); }] of a rate-limited [doFetch]. *)
Definition retry (j : job) (s : state) : state :=
  drain (if has (priceCache s) (job_key j) then s
         else set_fetchQueue (fetchQueue s ++ [j]) s).

(** The callback of [doFetch(item).finally]. *)
Definition finally (s : state) : state :=
  let s' :=
    State (searchParams s) (selectedCheckin s) (priceCache s) (fetchQueue s)
          (activeFetches s - 1) (inflight s) (settled s) (timers s)
          (homepage s) in
  if is_empty (fetchQueue s') then s' else setTimeout TDrain FETCH_DELAY_MS s'.

(** The value [fetchHomepagePrice] resolves to. *)
Definition fetchHomepagePrice_result (r : response) : entry :=
  match r with
  | Http status prices => if ok status then fetched_entry prices else Empty
  | TransportError => Empty
  end.

(** [handleDateClick(date)]; [dest] tells whether [getDestinationValue()]
    is a non-empty string. *)
Definition handleDateClick (date : Z) (dest : bool) (s : state) : state :=
  let first_or_earlier :=
    match selectedCheckin s with
    | None => true
    | Some selected => (daysBetween selected date <=? 0)%Z
    end in
  if first_or_earlier then
    let s := set_selectedCheckin (Some date) s in
    match searchParams s with
    | Some _ => drain (enqueue_window date s)
    | None =>
        if dest then
          let checkinSnap := date in
          let s :=
            for_1_to_10 (fun i s =>
              let key := cacheKey checkinSnap (addDays checkinSnap i) in
              if has (priceCache s) key then s else cache_set key Loading s) s in
          for_1_to_10 (fun i s =>
            let key := cacheKey checkinSnap (addDays checkinSnap i) in
            set_homepage (homepage s ++ [(checkinSnap, key)]) s) s
        else s
    end
  else setTimeout TClosePicker 150 (set_selectedCheckin None s).

(** The [then] callback of a [fetchHomepagePrice] call. *)
Definition homepage_settle (checkinSnap : Z) (key : Z * Z) (r : response)
    (s : state) : state :=
  if bool_decide (selectedCheckin s = Some checkinSnap)
  then cache_set key (fetchHomepagePrice_result r) s
  else s.

(** [queueFetchesForCells(cells)]; a cell is given by what [getCellDate]
    makes of it. *)
Definition queueFetchesForCells (cells : list (option Z)) (s : state) : state :=
  match searchParams s with
  | None => s
  | Some sp =>
      let s :=
        fold_left (fun s cell =>
          match cell with
          | None => s
          | Some date => enqueue date (addDays date (sp_nights sp)) s
          end) cells s in
      let s :=
        match selectedCheckin s with
        | Some selected => enqueue_window selected s
        | None => s
        end in
      drain s
  end.

(** [scrapeCurrentPage()]; [prices] is what [extractPricesFromDoc(document)]
    returns.  Without [searchParams] the source throws before it writes. *)
Definition scrapeCurrentPage (prices : list Q) (s : state) : state :=
  if is_empty prices then setTimeout TScrape 2500 s
  else match searchParams s with
       | Some sp =>
           cache_set (cacheKey (sp_checkin sp) (sp_checkout sp))
                     (fetched_entry prices) s
       | None => s
       end.

(** The observer of [watchNavigation] on a soft navigation to a results page
    whose parameters parse to [fresh]. *)
Definition navigate (fresh : params) (s : state) : state :=
  let changed :=
    match searchParams s with
    | Some sp => negb (bool_decide (sp_checkin fresh = sp_checkin sp))
                 || negb (bool_decide (sp_checkout fresh = sp_checkout sp))
    | None => true
    end in
  let queue := if changed then [] else fetchQueue s in
  setTimeout TScrape SCRAPE_DELAY_MS
    (State (Some fresh) None (priceCache s) queue (activeFetches s)
           (inflight s) (settled s) (timers s) (homepage s)).

(** The turns of the event loop. *)
Inductive event :=
  | EvClick (date : Z) (dest : bool)
  | EvRefresh (cells : list (option Z))
  | EvScrape (i : nat) (prices : list Q)
  | EvTimer (i : nat)
  | EvResponse (i : nat) (r : response)
  | EvFinally
  | EvHomepageResponse (i : nat) (r : response)
  | EvNavigate (fresh : params).

(** One turn; [None] when the event cannot happen in the state. *)
Definition step (s : state) (ev : event) : option state :=
  match ev with
  | EvClick date dest => Some (handleDateClick date dest s)
  | EvRefresh cells => Some (queueFetchesForCells cells s)
  | EvScrape i prices =>
      match timers s !! i with
      | Some (_, TScrape) =>
          Some (scrapeCurrentPage prices (set_timers (delete i (timers s)) s))
      | _ => None
      end
  | EvTimer i =>
      match timers s !! i with
      | Some (_, t) =>
          let s := set_timers (delete i (timers s)) s in
          match t with
          | TDrain | TResume => Some (drain s)
          | TRetry j => Some (retry j s)
          | TClosePicker => Some s
          | TScrape => None
          end
      | None => None
      end
  | EvResponse i r =>
      match inflight s !! i with
      | Some j =>
          let s := doFetch_settle j r s in
          Some (State (searchParams s) (selectedCheckin s) (priceCache s)
                      (fetchQueue s) (activeFetches s)
                      (delete i (inflight s)) (S (settled s)) (timers s)
                      (homepage s))
      | None => None
      end
  | EvFinally =>
      match settled s with
      | O => None
      | S n =>
          Some (finally
                  (State (searchParams s) (selectedCheckin s) (priceCache s)
                         (fetchQueue s) (activeFetches s) (inflight s) n
                         (timers s) (homepage s)))
      end
  | EvHomepageResponse i r =>
      match homepage s !! i with
      | Some (checkinSnap, key) =>
          Some (homepage_settle checkinSnap key r
                  (set_homepage (delete i (homepage s)) s))
      | None => None
      end
  | EvNavigate fresh => Some (navigate fresh s)
  end.

(** A sequence of turns. *)
Fixpoint run (s : state) (evs : list event) : option state :=
  match evs with
  | [] => Some s
  | ev :: evs' =>
      match step s ev with
      | Some s' => run s' evs'
      | None => None
      end
  end.

(** The state [init] leaves: the search parameters of the page if it has
    any, with the first scrape scheduled. *)
Definition init (sp : option params) : state :=
  State sp None ∅ [] 0 [] 0
        (match sp with
         | Some _ => [(SCRAPE_DELAY_MS, TScrape)]
         | None => []
         end)
        [].

(* ----------------------------------------------------------------- *)
(** ** Badges and colour classification *)

(** [getBadgeDates(badge)], from the date of the badge: the pair of check-in
    and checkout whose price the badge shows, or [null]. *)
Definition getBadgeDates (date : Z) (s : state) : option (Z * Z) :=
  let in_window :=
    match selectedCheckin s with
    | Some selected =>
        let diff := daysBetween selected date in
        if (1 <=? diff)%Z && (diff <=? 10)%Z then Some (selected, date)
        else None
    | None => None
    end in
  match in_window with
  | Some dates => Some dates
  | None =>
      match searchParams s with
      | None => None
      | Some sp => Some (date, addDays date (sp_nights sp))
      end
  end.

(** [priceCache.get(cacheKey(dates.checkin, dates.checkout))?.min] for the
    dates of a badge; [None] is [undefined] (no dates, no entry, [null], or
    the pending marker, which has no [min]). *)
Definition badge_min (s : state) (date : Z) : option Q :=
  match getBadgeDates date s with
  | None => None
  | Some (checkin, checkout) =>
      match priceCache s !! cacheKey checkin checkout with
      | Some (Stats st) => Some (stat_min st)
      | _ => None
      end
  end.

Definition is_null {A} (o : option A) : bool :=
  match o with None => true | Some _ => false end.

(** The classes [bpc-green], [bpc-yellow] and [bpc-orange]. *)
Inductive color := Green | Yellow | Orange.

(** [Math.floor(n * 0.33)] and [Math.floor(n * 0.66)].  The doubles 0.33 and
    0.66 lie just above 33/100 and 66/100, and for the lengths of an array
    the floor of the product of doubles is the floor of the exact
    product (lemmas [rank33_of_doubles] and [rank66_of_doubles]). *)
Definition rank33 (n : nat) : nat := n * 33 / 100.
Definition rank66 (n : nat) : nat := n * 66 / 100.

(** The colour of one badge against the two cutoffs. *)
Definition classify (lo hi min : Q) : color :=
  if Qle_bool min lo then Green
  else if Qle_bool hi min then Orange
  else Yellow.

(** [applyColorCoding()]; [loaded] holds the dates of the badges with class
    [bpc-loaded], in document order.  [None]: the function returns before it
    touches a badge.  Otherwise one result per badge: [None] when the badge
    is skipped, and the colour that replaces its colour classes. *)
Definition applyColorCoding (loaded : list Z) (s : state)
  : option (list (option color)) :=
  if is_null (searchParams s) && is_null (selectedCheckin s) then None
  else if (length loaded <? 3)%nat then None
  else
    let mins := sort ascending (omap (badge_min s) loaded) in
    if (length mins <? 3)%nat then None
    else
      let lo := List.nth (rank33 (length mins)) mins 0%Q in
      let hi := List.nth (rank66 (length mins)) mins 0%Q in
      Some ((fun date => classify lo hi <$> badge_min s date) <$> loaded).
(* ----------------------------------------------------------------- *)
(** ** The comparison list: [toggleCompare] and the handlers of the bar *)

Definition MAX_COMPARE : nat := 4.

(** What [extractHotelData] reads off a property card. *)
Record card_data := CardData {
  cd_name : list N;
  cd_url : list N;
  cd_img : list N;
  cd_stars : Z;
  cd_score : list N;
  cd_scoreLabel : list N;
  cd_reviewCount : list N;
  cd_location : list N;
  cd_distance : list N;
  cd_price : list N;
  cd_origPrice : list N;
  cd_nights : list N;
  cd_room : list N;
  cd_payment : list N
}.

(** An element [{ id, ...extractHotelData(card) }] of [compareList]. *)
Record hotel := Hotel {
  hotel_id : list N;
  hotel_data : card_data
}.

(** [Array.prototype.findIndex]; [None] is [-1]. *)
Fixpoint findIndex {A} (p : A -> bool) (l : list A) : option nat :=
  match l with
  | [] => None
  | x :: l' => if p x then Some O else S <$> findIndex p l'
  end.

(** [toggleCompare(card)] on [compareList]; [id] is what [getHotelId(card)]
    returns ([None] is [null]) and [data] what [extractHotelData(card)]
    returns.  At the limit the source shows a toast and leaves the list as
    it is. *)
Definition toggleCompare (id : option (list N)) (data : card_data)
    (compareList : list hotel) : list hotel :=
  match id with
  | None => compareList
  | Some id =>
      if is_empty id then compareList
      else
        match findIndex (fun h => bool_decide (hotel_id h = id)) compareList with
        | Some idx => delete idx compareList
        | None =>
            if (MAX_COMPARE <=? length compareList)%nat then compareList
            else compareList ++ [Hotel id data]
        end
  end.

(** The click handler of a remove button (of the bar and of the table):
    [compareList = compareList.filter(h => h.id !== id)]. *)
Definition removeCompare (id : list N) (compareList : list hotel) : list hotel :=
  List.filter (fun h => negb (bool_decide (hotel_id h = id))) compareList.

(** What the user can do to the list. *)
Inductive compare_action :=
  | ActToggle (id : option (list N)) (data : card_data)
  | ActRemove (id : list N)
  | ActClear.

Definition compare_step (compareList : list hotel) (a : compare_action)
  : list hotel :=
  match a with
  | ActToggle id data => toggleCompare id data compareList
  | ActRemove id => removeCompare id compareList
  | ActClear => []
  end.

(** A slot of the bar: a hotel with its remove button, or the placeholder
    [+ Add hotel]. *)
Inductive slot :=
  | SlotHotel (h : hotel)
  | SlotEmpty.

(** What [renderCompareBar] draws in the bar: the slots, whether the
    [Compare] button is disabled, and the count that it shows. *)
Record compare_bar := CompareBar {
  bar_slots : list slot;
  bar_compare_disabled : bool;
  bar_count : nat
}.

(** [emptySlots] of [renderCompareBar]. *)
Definition emptySlots (compareList : list hotel) : Z :=
  Z.of_nat MAX_COMPARE - Z.of_nat (length compareList).

(** [renderCompareBar()]: the bar that the page has afterwards.  With an
    empty list the bar is removed and the function returns ([None]).
    Otherwise the bar gets one slot per hotel and then
    [Array.from({ length: emptySlots })], which is empty for a negative
    length. *)
Definition renderCompareBar (compareList : list hotel) : option compare_bar :=
  if (length compareList =? 0)%nat then None
  else
    Some {| bar_slots :=
              (SlotHotel <$> compareList)
              ++ replicate (Z.to_nat (emptySlots compareList)) SlotEmpty;
            bar_compare_disabled := (length compareList <? 2)%nat;
            bar_count := length compareList |}.
(* ----------------------------------------------------------------- *)
(** ** Facility lines and comparison values: [normalizeFacilityText],
       [uniqueFacilityLines], [flattenFacilityGroupLines],
       [normalizeCompareValue], [hasCompareDifferences] *)

Definition space : N := 32.

(** [s.replace(/\s+/g, ' ')]: every maximal run of white space becomes one
    space, which is written when the last character of the run is read. *)
Fixpoint collapse_spaces (s : list N) : list N :=
  match s with
  | [] => []
  | c :: s' =>
      if is_space c then
        match s' with
        | c' :: _ =>
            if is_space c' then collapse_spaces s'
            else space :: collapse_spaces s'
        | [] => [space]
        end
      else c :: collapse_spaces s'
  end.

(** [normalizeFacilityText(text)] *)
Definition normalizeFacilityText (text : value) : list N :=
  match text with
  | VString s => trim (collapse_spaces s)
  | _ => []
  end.

(** [v || ''] *)
Definition or_empty (v : value) : value :=
  if truthy v then v else VString [].

Section FacilityLines.
Variable toLowerCase : list N -> list N.

(** The body of the [forEach] of [uniqueFacilityLines], on the pair of
    [out] and [seen]. *)
Definition add_line (acc : list (list N) * gset (list N)) (line : value)
  : list (list N) * gset (list N) :=
  let '(out, seen) := acc in
  let text := normalizeFacilityText line in
  if is_empty text then acc
  else
    let key := toLowerCase text in
    if decide (key ∈ seen) then acc
    else (out ++ [text], {[key]} ∪ seen).

(** [uniqueFacilityLines(lines)] *)
Definition uniqueFacilityLines (lines : list value) : list (list N) :=
  fst (fold_left add_line lines ([], ∅)).

(** What one group adds to [lines] in [flattenFacilityGroupLines]: its
    name and its description when they are not empty, then its facilities
    as they are. *)
Definition group_lines (g : raw_group) : list value :=
  let name := normalizeFacilityText (or_empty (raw_name g)) in
  let description := normalizeFacilityText (or_empty (raw_description g)) in
  (if is_empty name then [] else [VString name])
  ++ (if is_empty description then [] else [VString description])
  ++ raw_facilities g.

(** [flattenFacilityGroupLines(groups)] *)
Definition flattenFacilityGroupLines (groups : list raw_group)
  : list (list N) :=
  uniqueFacilityLines (flat_map group_lines groups).

(** A value of a comparison row: [undefined], [null], a boolean, or any
    other value, which is given with the string [String(v)] makes of it. *)
Inductive cell :=
  | CUndefined
  | CNull
  | CBool (b : bool)
  | COther (stringified : list N).

(** [normalizeCompareValue(value)] *)
Definition normalizeCompareValue (v : cell) : list N :=
  match v with
  | CUndefined | CNull => []
  | CBool b => if b then str "1" else str "0"
  | COther s => toLowerCase (trim (collapse_spaces s))
  end.

(** [hasCompareDifferences(values)] on an array. *)
Definition hasCompareDifferences (values : list cell) : bool :=
  match values with
  | [] => false
  | first :: _ =>
      if (length values <=? 1)%nat then false
      else
        let baseline := normalizeCompareValue first in
        existsb
          (fun v => negb (bool_decide (normalizeCompareValue v = baseline)))
          values
  end.
End FacilityLines.
(* ----------------------------------------------------------------- *)
(** ** Badge rendering: [setBadgeContent] and [renderBadge] *)

(** The markup [renderBadge] hands to [setBadgeContent]: the empty string,
    the loader [<div class="bpc-loading"></div>], or the price block, which
    is written from the currency symbol, the statistics and, when the badge
    is a checkout date of the window, the number of nights of its title. *)
Inductive markup :=
  | Blank
  | Loader
  | PriceBlock (symbol : list N) (st : stats) (title_nights : option Z).

(** [html.includes('bpc-loading')], and [badge.querySelector('.bpc-loading')]
    on a badge whose content is that markup.  The price block holds the
    class name nowhere: it is written from fixed markup without it, the
    currency symbol (a symbol of the table, or three capital letters and a
    space) and numbers. *)
Definition has_loader (html : markup) : bool :=
  match html with Loader => true | _ => false end.

(** A badge: its content, whether it has the class [bpc-loaded], whether its
    loader has the class [bpc-loading-exit], and its entry of
    [badgeCloseTransitions], whose timer of 170 ms is pending as long as the
    entry is there. *)
Record badge := Badge {
  shown : markup;
  loaded : bool;
  exiting : bool;
  pending : option (markup * bool)
}.

(** The badge [injectBadge] creates. *)
Definition new_badge : badge := Badge Blank false false None.

(** [setBadgeContent(badge, html, isLoaded)] *)
Definition setBadgeContent (html : markup) (isLoaded : bool) (b : badge)
  : badge :=
  if has_loader html then
    (* the pending timer, if any, is cleared with its entry *)
    Badge html false false None
  else if has_loader (shown b) then
    match pending b with
    | Some _ => Badge (shown b) (loaded b) (exiting b) (Some (html, isLoaded))
    | None => Badge (shown b) (loaded b) true (Some (html, isLoaded))
    end
  else Badge html isLoaded false (pending b).

(** The callback of the timer of a close transition. *)
Definition transition_end (b : badge) : badge :=
  match pending b with
  | None => b
  | Some (html, isLoaded) => Badge html isLoaded false None
  end.

(** The markup and the flag [renderBadge(badge)] passes on, for a badge of
    the date [date] ([None]: no [data-date]) under the currency symbol
    [symbol]. *)
Definition badge_markup (symbol : list N) (date : option Z) (s : state)
  : markup * bool :=
  match date with
  | None => (Blank, false)
  | Some date =>
      match getBadgeDates date s with
      | None => (Blank, false)
      | Some (checkin, checkout) =>
          match priceCache s !! cacheKey checkin checkout with
          | None =>
              if is_null (searchParams s) then (Blank, false)
              else (Loader, false)
          | Some Loading => (Loader, false)
          | Some Empty => (Blank, false)
          | Some (Stats st) =>
              (PriceBlock symbol st
                 (if bool_decide (checkin = date) then None
                  else Some (daysBetween checkin checkout)),
               true)
          end
      end
  end.

(** [renderBadge(badge)] *)
Definition renderBadge (symbol : list N) (date : option Z) (s : state)
    (b : badge) : badge :=
  setBadgeContent (badge_markup symbol date s).1
                  (badge_markup symbol date s).2 b.

(** What happens to a badge: it is rendered in some state of the page, or
    the timer of its close transition fires. *)
Inductive badge_event :=
  | BadgeRender (symbol : list N) (s : state)
  | BadgeTimer.

Definition badge_step (date : option Z) (b : badge) (ev : badge_event)
  : badge :=
  match ev with
  | BadgeRender symbol s => renderBadge symbol date s b
  | BadgeTimer => transition_end b
  end.
(* ----------------------------------------------------------------- *)
(** ** Photo lists: [mergePhotoUrls] *)

Section Photos.
(** [normalizeHotelPhotoUrl] and [getHotelPhotoKey] go through the [URL]
    parser of the browser; nothing is assumed of them. *)
Variable normalizeHotelPhotoUrl : value -> list N.
Variable getHotelPhotoKey : list N -> list N.

(** The body of the inner [forEach] of [mergePhotoUrls], on the pair of
    [out] and [seen]. *)
Definition add_photo (acc : list (list N) * gset (list N)) (url : value)
  : list (list N) * gset (list N) :=
  let '(out, seen) := acc in
  let normalized := normalizeHotelPhotoUrl url in
  if is_empty normalized then acc
  else
    let key := getHotelPhotoKey normalized in
    if decide (key ∈ seen) then acc
    else (out ++ [normalized], {[key]} ∪ seen).

(** [mergePhotoUrls(base, extra, maxCount)]; [maxCount] is a count (12
    when it is left out, as every call of the source does). *)
Definition mergePhotoUrls (base extra : list value) (maxCount : nat)
  : list (list N) :=
  take maxCount
    (fst (fold_left add_photo extra (fold_left add_photo base ([], ∅)))).
End Photos.
(* ----------------------------------------------------------------- *)
(** ** Price extraction: [detectCurrency] and [extractPricesFromDoc] *)

(** The record [{ symbol, code }]. *)
Record currency_info := Currency {
  cur_symbol : list N;
  cur_code : list N
}.

(** The value [currency] starts with. *)
Definition USD : currency_info := Currency [36%N] (str "USD").

(** [Object.entries(CURRENCY_MAP)], in the order of the literal; every key
    is one UTF-16 code unit. *)
Definition CURRENCY_MAP : list (N * currency_info) :=
  [ (8364%N, Currency [8364%N] (str "EUR"));
    (163%N,  Currency [163%N]  (str "GBP"));
    (165%N,  Currency [165%N]  (str "JPY"));
    (8377%N, Currency [8377%N] (str "INR"));
    (8361%N, Currency [8361%N] (str "KRW"));
    (3647%N, Currency [3647%N] (str "THB"));
    (36%N,   Currency [36%N]   (str "USD")) ].

(** [text.includes(sym)] for a symbol of one code unit. *)
Definition includes (sym : N) (text : list N) : bool :=
  existsb (N.eqb sym) text.

(** [[A-Z]] and [\w]. *)
Definition is_upper (c : N) : bool := ((65 <=? c) && (c <=? 90))%N.

Definition is_word (c : N) : bool :=
  (is_upper c || (97 <=? c) && (c <=? 122) || is_digit c || (c =? 95))%N.

(** [\b] after the three letters: the text ends or goes on with a character
    that is not of a word. *)
Definition word_ends (s : list N) : bool :=
  match s with
  | [] => true
  | c :: _ => negb (is_word c)
  end.

(** [text.match(/\b([A-Z]{3})\b/)]: the leftmost three capital letters
    that stand as a word of their own; [prev_word] tells whether the
    character before [s] is of a word. *)
Fixpoint match_code (prev_word : bool) (s : list N) : option (list N) :=
  match s with
  | [] => None
  | c :: s' =>
      let here :=
        match s with
        | a :: b :: d :: rest =>
            negb prev_word && is_upper a && is_upper b && is_upper d
            && word_ends rest
        | _ => false
        end in
      if here then Some (take 3 s) else match_code (is_word c) s'
  end.

(** U+202F, the narrow no-break space. *)
Definition narrow_space : N := 8239.

(** [detectCurrency(text)], on the variable [currency]. *)
Definition detectCurrency (text : list N) (currency : currency_info)
  : currency_info :=
  if is_empty text then currency
  else
    match List.find (fun entry => includes entry.1 text) CURRENCY_MAP with
    | Some (_, info) => info
    | None =>
        match match_code false text with
        | Some code => Currency (code ++ [narrow_space]) code
        | None => currency
        end
    end.

(** What [extractPricesFromDoc] reads of a document: for each selector of
    its list, in order, the [textContent] of the nodes the selector finds;
    and what [extractFromJsonLD] and [extractFromNextData] return for
    it. *)
Record document := Document {
  selector_texts : list (list (list N));
  json_ld : list Q;
  next_data : list Q
}.

(** The local state of the selector loop: [prices], [seen] and the variable
    [currency]. *)
Record scan := Scan {
  scan_prices : list Q;
  scan_seen : list Q;
  scan_currency : currency_info
}.

(** [seen.has(p)]; a number is found when an equal number was added. *)
Definition seen_has (seen : list Q) (p : Q) : bool := existsb (Qeq_bool p) seen.

(** The body of [nodes.forEach] on the [textContent] of a node. *)
Definition scan_node (acc : scan) (text : list N) : scan :=
  let p := parsePrice text in
  if negb (Qle_bool p 0) && negb (seen_has (scan_seen acc) p) then
    let prices := scan_prices acc ++ [p] in
    Scan prices (scan_seen acc ++ [p])
         (if (length prices =? 1)%nat
          then detectCurrency text (scan_currency acc)
          else scan_currency acc)
  else acc.

(** The loop over the selectors, with its [continue] and its [break]. *)
Fixpoint scan_selectors (found : list (list (list N))) (acc : scan) : scan :=
  match found with
  | [] => acc
  | nodes :: rest =>
      if is_empty nodes then scan_selectors rest acc
      else
        let acc' := fold_left scan_node nodes acc in
        if (3 <=? length (scan_prices acc'))%nat then acc'
        else scan_selectors rest acc'
  end.

(** [extractPricesFromDoc(doc)]: the prices it returns and the value it
    leaves in [currency]. *)
Definition extractPricesFromDoc (doc : document) (currency : currency_info)
  : list Q * currency_info :=
  let acc := scan_selectors (selector_texts doc) (Scan [] [] currency) in
  let prices := scan_prices acc in
  let prices := if is_empty prices then prices ++ json_ld doc else prices in
  let prices := if is_empty prices then prices ++ next_data doc else prices in
  (prices, scan_currency acc).
(* ----------------------------------------------------------------- *)
(** ** The filters of the comparison table: [applyCompareFilters] *)

(** A row of the table, that is an element with the attribute
    [data-bpc-row-kind]: that attribute, the attributes [data-bpc-section]
    and [data-bpc-diff] ([None] when the row has none) and the property
    [hidden]. *)
Record row := Row {
  row_kind : list N;
  row_section : option (list N);
  row_diff : option (list N);
  row_hidden : bool
}.

Definition set_hidden (h : bool) (r : row) : row :=
  Row (row_kind r) (row_section r) (row_diff r) h.

(** The comparison modal as [applyCompareFilters] reads it: the attributes
    [data-bpc-active-tab] and [data-bpc-diff-only], the rows in document
    order, and the tab buttons with their attribute [data-bpc-tab] and
    whether they are marked active.  Between two rows that are not siblings
    next to each other (the end of a table body, or an element without
    [data-bpc-row-kind] between them) the list of rows holds [None]: there a
    walk along [nextElementSibling] ends. *)
Record modal := Modal {
  active_tab : option (list N);
  diff_only : option (list N);
  modal_rows : list (option row);
  tab_buttons : list (list N * bool)
}.

(** [attribute || fallback] *)
Definition or_default (attribute : option (list N)) (fallback : list N)
  : list N :=
  match attribute with
  | Some (c :: s) => c :: s
  | _ => fallback
  end.

Definition kind_is (kind : list N) (r : row) : bool :=
  bool_decide (row_kind r = kind).

(** [row.getAttribute('data-bpc-section') || 'general'] *)
Definition section_of (r : row) : list N :=
  or_default (row_section r) (str "general").

(** [activeTab === 'all' || activeTab === section] *)
Definition tab_shows (activeTab section : list N) : bool :=
  bool_decide (activeTab = str "all") || bool_decide (activeTab = section).

(** The rows the first loop leaves alone. *)
Definition is_header (r : row) : bool :=
  kind_is (str "section") r || kind_is (str "subsection") r
  || kind_is (str "feature-empty-diff") r.

(** The value of [visible] at the end of the body of the first loop. *)
Definition row_visible (activeTab : list N) (differencesOnly : bool) (r : row)
  : bool :=
  let visible := tab_shows activeTab (section_of r) in
  if visible && differencesOnly
     && (kind_is (str "field") r || kind_is (str "feature-field") r)
  then bool_decide (row_diff r = Some (str "1"))
  else visible.

(** The first loop on one row: [row.hidden = !visible]. *)
Definition filter_row (activeTab : list N) (differencesOnly : bool) (r : row)
  : row :=
  if is_header r then r
  else set_hidden (negb (row_visible activeTab differencesOnly r)) r.

(** [map.set(section, (map.get(section) || 0) + 1)] *)
Definition count_up (section : list N) (m : gmap (list N) nat)
  : gmap (list N) nat :=
  <[section := S (default O (m !! section))]> m.

(** The first loop on [visibleRowsBySection]. *)
Definition count_row (activeTab : list N) (differencesOnly : bool)
    (m : gmap (list N) nat) (r : row) : gmap (list N) nat :=
  if is_header r then m
  else if row_visible activeTab differencesOnly r
       then count_up (section_of r) m
       else m.

(** The rows, [Array.from(modal.querySelectorAll('[data-bpc-row-kind]'))]. *)
Definition rows_of (items : list (option row)) : list row :=
  omap (fun item => item) items.

(** A loop that assigns to every row. *)
Definition on_rows (f : row -> row) (items : list (option row))
  : list (option row) :=
  (fun item : option row => f <$> item) <$> items.

(** The first row that satisfies [p] is replaced by its image under [f]:
    an assignment to [modal.querySelector(...)]. *)
Fixpoint update_first (p : row -> bool) (f : row -> row)
    (items : list (option row)) : list (option row) :=
  match items with
  | [] => []
  | Some r :: items' =>
      if p r then Some (f r) :: items'
      else Some r :: update_first p f items'
  | None :: items' => None :: update_first p f items'
  end.

(** The walk of the third loop from [row.nextElementSibling]: whether a row
    that is not hidden comes before the next section or subsection row and
    before the end of the siblings with [data-bpc-row-kind]. *)
Fixpoint has_visible_rows (next : list (option row)) : bool :=
  match next with
  | Some r :: next' =>
      if kind_is (str "subsection") r || kind_is (str "section") r then false
      else if negb (row_hidden r) then true
      else has_visible_rows next'
  | _ => false
  end.

(** The third loop: the subsection rows, in document order. *)
Fixpoint filter_subsections (activeTab : list N) (items : list (option row))
  : list (option row) :=
  match items with
  | [] => []
  | Some r :: items' =>
      (if kind_is (str "subsection") r then
         Some (set_hidden
                 (if tab_shows activeTab (section_of r)
                  then negb (has_visible_rows items')
                  else true) r)
       else Some r) :: filter_subsections activeTab items'
  | None :: items' => None :: filter_subsections activeTab items'
  end.

(** The fourth loop on one row. *)
Definition filter_section (activeTab : list N) (counts : gmap (list N) nat)
    (r : row) : row :=
  if kind_is (str "section") r then
    set_hidden
      (negb (tab_shows activeTab (section_of r)
             && (0 <? default O (counts !! section_of r))%nat)) r
  else r.

(** [showDiffEmpty], from the rows as the first loop leaves them. *)
Definition showDiffEmpty (activeTab : list N) (differencesOnly : bool)
    (rows : list row) : bool :=
  let featureTabVisible := tab_shows activeTab (str "features") in
  let hasFeatureRows := existsb (kind_is (str "feature-field")) rows in
  let visibleFeatureRows :=
    existsb (fun r => kind_is (str "feature-field") r
                      && negb (row_hidden r)) rows in
  featureTabVisible && differencesOnly && hasFeatureRows
  && negb visibleFeatureRows.

(** [applyCompareFilters(modal)] *)
Definition applyCompareFilters (m : modal) : modal :=
  let activeTab := or_default (active_tab m) (str "all") in
  let differencesOnly := bool_decide (diff_only m = Some (str "1")) in
  let rows := rows_of (modal_rows m) in
  let items1 := on_rows (filter_row activeTab differencesOnly) (modal_rows m) in
  let counts1 := fold_left (count_row activeTab differencesOnly) rows ∅ in
  let featureDiffEmpty :=
    existsb (kind_is (str "feature-empty-diff")) (rows_of items1) in
  let show := showDiffEmpty activeTab differencesOnly (rows_of items1) in
  let items2 :=
    update_first (kind_is (str "feature-empty-diff"))
                 (set_hidden (negb show)) items1 in
  let counts2 :=
    if featureDiffEmpty && show then count_up (str "features") counts1
    else counts1 in
  let items3 := filter_subsections activeTab items2 in
  let items4 := on_rows (filter_section activeTab counts2) items3 in
  Modal (active_tab m) (diff_only m) items4
        ((fun btn : list N * bool => (btn.1, bool_decide (btn.1 = activeTab)))
           <$> tab_buttons m).
(* ----------------------------------------------------------------- *)
(** ** Prices of embedded data: [collectPricesFromObject] *)

(** A value that [JSON.parse] returns: [null], a string, number or boolean
    (an atom, of which only [parseFloat] is taken), an array or an
    object with its entries in the order of [Object.entries]. *)
#[warnings="-register-all"]
Inductive json (A : Type) :=
  | JNull
  | JAtom (a : A)
  | JArray (items : list (json A))
  | JObject (entries : list (list N * json A)).
Arguments JNull {A}.
Arguments JAtom {A} a.
Arguments JArray {A} items.
Arguments JObject {A} entries.

(** [String.prototype.toLowerCase] on the letters A to Z; the pattern of
    the key test holds such letters only, and no other character matches
    one of them when case is ignored. *)
Definition lower_ascii (c : N) : N :=
  if ((65 <=? c) && (c <=? 90))%N then (c + 32)%N else c.

Fixpoint starts_with (pattern s : list N) : bool :=
  match pattern, s with
  | [], _ => true
  | p :: pattern', c :: s' => (p =? lower_ascii c)%N && starts_with pattern' s'
  | _ :: _, [] => false
  end.

(** The lower-case [pattern] occurs in [s], case ignored. *)
Fixpoint occurs (pattern s : list N) : bool :=
  starts_with pattern s
  || match s with
     | [] => false
     | _ :: s' => occurs pattern s'
     end.

(** [/price|amount|rate|lowestPrice|minPrice/i.test(key)] *)
Definition price_like (key : list N) : bool :=
  existsb (fun pattern => occurs pattern key)
    [str "price"; str "amount"; str "rate"; str "lowestprice"; str "minprice"].

Section Collect.
Variable A : Type.
(** [parseFloat(val)] on any value ([None] is [NaN]); it goes through the
    string the value is turned into, and nothing is assumed of it. *)
Variable parseFloat_of : json A -> option Q.

(** [typeof val === 'object'] *)
Definition is_object (val : json A) : bool :=
  match val with
  | JAtom _ => false
  | _ => true
  end.

(** The test and the [push] of the loop body for one entry. *)
Definition collect_entry (matches : bool) (val : json A) (prices : list Q)
  : list Q :=
  if matches then
    match parseFloat_of val with
    | Some n =>
        if Qlt_le_dec 1 n
        then (if Qlt_le_dec n 999999 then prices ++ [n] else prices)
        else prices
    | None => prices
    end
  else prices.

(** The loop [for (const [key, val] of Object.entries(obj))], with the
    recursive call given as [recurse]. *)
Definition collect_entries (recurse : json A -> list Q -> list Q)
    (entries : list (list N * json A)) (prices : list Q) : list Q :=
  fold_left
    (fun prices entry =>
       let prices := collect_entry (price_like entry.1) entry.2 prices in
       if is_object entry.2 then recurse entry.2 prices else prices)
    entries prices.

(** The same loop on an array: its keys are its indices, which the pattern
    does not match. *)
Definition collect_items (recurse : json A -> list Q -> list Q)
    (items : list (json A)) (prices : list Q) : list Q :=
  fold_left
    (fun prices val =>
       let prices := collect_entry false val prices in
       if is_object val then recurse val prices else prices)
    items prices.

(** [collectPricesFromObject(obj, prices, depth)]; the result is the array
    [prices] after the call. *)
Fixpoint collectPricesFromObject (obj : json A) (prices : list Q) (depth : nat)
  : list Q :=
  if (12 <? depth)%nat || (60 <? length prices)%nat then prices
  else
    match obj with
    | JNull => prices
    | JAtom _ => prices
    | JArray items =>
        collect_items
          (fun val prices => collectPricesFromObject val prices (S depth))
          items prices
    | JObject entries =>
        collect_entries
          (fun val prices => collectPricesFromObject val prices (S depth))
          entries prices
    end.

(** [extractFromNextData(doc)]; [root] is what [JSON.parse] makes of the
    script [__NEXT_DATA__], [None] when there is no such script or its
    text does not parse. *)
Definition extractFromNextData (root : option (json A)) : list Q :=
  match root with
  | Some root => collectPricesFromObject root [] 0
  | None => []
  end.
End Collect.
(* ----------------------------------------------------------------- *)
(** ** Dates of the search URL: [resolveDate] *)

Definition hyphen : N := 45.
Definition digit_zero : N := 48.

(** [/^\d{4}-\d{2}-\d{2}$/.test(s)] *)
Definition is_iso_date (s : list N) : bool :=
  match s with
  | [y1; y2; y3; y4; h1; m1; m2; h2; d1; d2] =>
      is_digit y1 && is_digit y2 && is_digit y3 && is_digit y4
      && (h1 =? hyphen)%N && is_digit m1 && is_digit m2
      && (h2 =? hyphen)%N && is_digit d1 && is_digit d2
  | _ => false
  end.

(** [s.padStart(2, '0')] *)
Definition padStart2 (s : list N) : list N :=
  replicate (2 - length s) digit_zero ++ s.

(** [resolveDate(sp, key)]; [get name] is [sp.get(name)], the first value
    of the parameter or [null]. *)
Definition resolveDate (get : list N -> option (list N)) (key : list N)
  : option (list N) :=
  let legacy :=
    match get (key ++ str "_year"), get (key ++ str "_month"),
          get (key ++ str "_monthday") with
    | Some y, Some m, Some d =>
        if negb (is_empty y) && negb (is_empty m) && negb (is_empty d)
        then Some (y ++ hyphen :: padStart2 m ++ hyphen :: padStart2 d)
        else None
    | _, _, _ => None
    end in
  match get key with
  | Some iso =>
      if negb (is_empty iso) && is_iso_date iso then Some iso else legacy
  | None => legacy
  end.
(* ----------------------------------------------------------------- *)
(** ** The cache of hotel details: [fetchHotelDetails] *)

Section DetailsCache.
(** The details object a call ends with; how it is extracted and merged
    is the matter of the functions above. *)
Variable D : Type.

(** [detailsCache], keyed by the cleaned URL: an entry is [null] ([None])
    or a details object; with it, the calls of [fetchHotelDetails] that
    have written their mark and await their pages. *)
Record details_state := DetailsState {
  detailsCache : gmap (list N) (option D);
  fetching : list (list N)
}.

(** What a call does at once: it returns the entry of the cache, or it
    marks the URL and starts to fetch. *)
Inductive call_outcome :=
  | Returned (value : option D)
  | Started.

(** [fetchHotelDetails(url)] up to its first [await], for the cleaned URL
    [cleanUrl]. *)
Definition fetchHotelDetails_call (cleanUrl : list N) (s : details_state)
  : details_state * call_outcome :=
  match detailsCache s !! cleanUrl with
  | Some value => (s, Returned value)
  | None =>
      (DetailsState (<[cleanUrl := None]> (detailsCache s))
                    (fetching s ++ [cleanUrl]),
       Started)
  end.

(** The end of a call that fetches: with a details object, which is
    cached and returned, or with [null] (a page that is not ok, or an
    exception), which leaves the mark. *)
Definition fetchHotelDetails_end (cleanUrl : list N) (result : option D)
    (s : details_state) : details_state :=
  match result with
  | Some details => DetailsState (<[cleanUrl := Some details]> (detailsCache s))
                                 (fetching s)
  | None => s
  end.

Inductive details_event :=
  | DetailsCall (cleanUrl : list N)
  | DetailsEnd (i : nat) (result : option D).

(** One turn, with what a call returns or starts; [None] when the event
    cannot happen. *)
Definition details_step (s : details_state) (ev : details_event)
  : option (details_state * option call_outcome) :=
  match ev with
  | DetailsCall cleanUrl =>
      let '(s', outcome) := fetchHotelDetails_call cleanUrl s in
      Some (s', Some outcome)
  | DetailsEnd i result =>
      match fetching s !! i with
      | Some cleanUrl =>
          Some (fetchHotelDetails_end cleanUrl result
                  (DetailsState (detailsCache s) (delete i (fetching s))),
                None)
      | None => None
      end
  end.

(** A sequence of turns, with the outcomes of its calls. *)
Fixpoint details_run (s : details_state) (evs : list details_event)
  : option (details_state * list (list N * call_outcome)) :=
  match evs with
  | [] => Some (s, [])
  | ev :: evs' =>
      match details_step s ev with
      | Some (s', outcome) =>
          match details_run s' evs' with
          | Some (s'', outcomes) =>
              Some (s'',
                    match ev, outcome with
                    | DetailsCall cleanUrl, Some o => (cleanUrl, o) :: outcomes
                    | _, _ => outcomes
                    end)
          | None => None
          end
      | None => None
      end
  end.

(** The state of a page that has just been loaded. *)
Definition details_init : details_state := DetailsState ∅ [].
End DetailsCache.

(* ================================================================= *)
(** * Part II: the properties *)
(* ----------------------------------------------------------------- *)
(** ** Numbers: rounding to the nearest double *)

Section Pow2.
Local Open Scope Q_scope.

Lemma pow2_pos e : 0 < pow2 e.
Proof. apply Qpower_0_lt. reflexivity. Qed.

Lemma pow2_add a b : pow2 (a + b) == pow2 a * pow2 b.
Proof. apply Qpower_plus. discriminate. Qed.

Lemma pow2_le a b : (a <= b)%Z -> pow2 a <= pow2 b.
Proof. intros H. apply Qpower_le_compat_l; [done|]. discriminate. Qed.

Lemma pow2_lt a b : (a < b)%Z -> pow2 a < pow2 b.
Proof. intros H. apply Qpower_lt_compat_l; [done|]. reflexivity. Qed.

Lemma pow2_lt_inv a b : pow2 a < pow2 b -> (a < b)%Z.
Proof. intros H. eapply Qpower_lt_compat_l_inv; [exact H|]. reflexivity. Qed.

Lemma pow2_Z n : (0 <= n)%Z -> pow2 n == inject_Z (2 ^ n).
Proof. intros H. unfold pow2. by rewrite (Zpower_Qpower 2 n H). Qed.

Lemma pow2_succ a : pow2 (a + 1) == 2 * pow2 a.
Proof. rewrite pow2_add. change (pow2 1) with 2. ring. Qed.

Lemma pow2_pred a : 2 * pow2 (a - 1) == pow2 a.
Proof. rewrite <- pow2_succ. by replace (a - 1 + 1)%Z with a by lia. Qed.

Lemma Qlog2_spec x : 0 < x -> pow2 (Qlog2 x) <= x /\ x < pow2 (Qlog2 x + 1).
Proof.
  intros Hx. destruct x as [n d]. unfold Qlog2. cbn [Qnum Qden].
  assert (0 < n)%Z as Hn. { unfold Qlt in Hx. simpl in Hx. lia. }
  pose proof (Z.log2_spec n Hn) as [Ha1 Ha2].
  pose proof (Z.log2_spec (Zpos d) eq_refl) as [Hb1 Hb2].
  pose proof (Z.log2_nonneg n) as Ha0.
  pose proof (Z.log2_nonneg (Zpos d)) as Hb0.
  set (a := Z.log2 n) in *. set (b := Z.log2 (Zpos d)) in *.
  rewrite <- Z.add_1_r in Ha2, Hb2.
  assert (pow2 a <= inject_Z n) as HA1 by (rewrite pow2_Z by done; by rewrite <- Zle_Qle).
  assert (inject_Z n < 2 * pow2 a) as HA2.
  { rewrite <- pow2_succ, pow2_Z by lia. by rewrite <- Zlt_Qlt. }
  assert (pow2 b <= inject_Z (Zpos d)) as HB1 by (rewrite pow2_Z by done; by rewrite <- Zle_Qle).
  assert (inject_Z (Zpos d) < 2 * pow2 b) as HB2.
  { rewrite <- pow2_succ, pow2_Z by lia. by rewrite <- Zlt_Qlt. }
  assert (pow2 (a - b) * pow2 b == pow2 a) as Hp.
  { rewrite <- pow2_add. by replace (a - b + b)%Z with a by lia. }
  assert ((n # d) * inject_Z (Zpos d) == inject_Z n) as Hxd.
  { rewrite (Qmake_Qdiv n d). field. discriminate. }
  pose proof (pow2_pos (a - b)) as Hpp. pose proof (pow2_pos b) as Hbp.
  assert (0 < inject_Z (Zpos d)) as HD by reflexivity.
  set (x := n # d) in *. set (D := inject_Z (Z.pos d)) in *.
  set (N := inject_Z n) in *. set (p := pow2 (a - b)) in *.
  set (A := pow2 a) in *. set (B := pow2 b) in *.
  assert (x < 2 * p) as Hup.
  { apply Qnot_le_lt. intros Hle.
    assert (2 * p * B <= x * D) by nra. nra. }
  assert (p < 2 * x) as Hlo.
  { apply Qnot_le_lt. intros Hle.
    assert (2 * x * D <= p * D) by nra. nra. }
  destruct (Qle_bool p x) eqn:E.
  - apply Qle_bool_iff in E. split; [done|]. by rewrite pow2_succ.
  - assert (x < p) as Hlt.
    { apply Qnot_le_lt. intros Hle. apply Qle_bool_iff in Hle. congruence. }
    replace (a - b - 1 + 1)%Z with (a - b)%Z by lia. split; [|done].
    pose proof (pow2_pred (a - b)) as Hpred. fold p in Hpred. lra.
Qed.

Lemma Qlog2_unique x E : pow2 E <= x -> x < pow2 (E + 1) -> Qlog2 x = E.
Proof.
  intros H1 H2.
  assert (0 < x) as Hx by (pose proof (pow2_pos E); lra).
  destruct (Qlog2_spec x Hx) as [H3 H4].
  assert (Qlog2 x < E + 1)%Z by (apply pow2_lt_inv; lra).
  assert (E < Qlog2 x + 1)%Z by (apply pow2_lt_inv; lra).
  lia.
Qed.

Lemma Qlog2_comp x y : 0 < x -> x == y -> Qlog2 x = Qlog2 y.
Proof.
  intros Hx Hxy. destruct (Qlog2_spec x Hx) as [H1 H2].
  symmetry. apply Qlog2_unique; lra.
Qed.

Lemma Qlog2_mono x y : 0 < x -> x <= y -> (Qlog2 x <= Qlog2 y)%Z.
Proof.
  intros Hx Hxy. destruct (Qlog2_spec x Hx) as [H1 H2].
  destruct (Qlog2_spec y) as [H3 H4]; [lra|].
  assert (Qlog2 x < Qlog2 y + 1)%Z by (apply pow2_lt_inv; lra). lia.
Qed.

Lemma Qlog2_Z z : (0 < z)%Z -> Qlog2 (inject_Z z) = Z.log2 z.
Proof.
  intros Hz. pose proof (Z.log2_spec z Hz) as [H1 H2].
  pose proof (Z.log2_nonneg z). rewrite <- Z.add_1_r in H2.
  apply Qlog2_unique; rewrite pow2_Z by lia; [by rewrite <- Zle_Qle|by rewrite <- Zlt_Qlt].
Qed.
End Pow2.

Section Nearest.
Local Open Scope Q_scope.

Lemma Qfloor_bounds x : inject_Z (Qfloor x) <= x /\ x < inject_Z (Qfloor x) + 1.
Proof.
  split; [apply Qfloor_le|]. pose proof (Qlt_floor x) as H.
  by rewrite inject_Z_plus in H.
Qed.

Lemma Qfloor_unique x z : inject_Z z <= x -> x < inject_Z z + 1 -> Qfloor x = z.
Proof.
  intros H1 H2. destruct (Qfloor_bounds x) as [H3 H4].
  assert (Qfloor x < z + 1)%Z.
  { rewrite Zlt_Qlt, inject_Z_plus. change (inject_Z 1) with 1. lra. }
  assert (z < Qfloor x + 1)%Z.
  { rewrite Zlt_Qlt, inject_Z_plus. change (inject_Z 1) with 1. lra. }
  lia.
Qed.

Lemma round_half_even_cases x :
  let f := Qfloor x in
  (x - inject_Z f < 1 # 2 /\ round_half_even x = f) \/
  (1 # 2 < x - inject_Z f /\ round_half_even x = (f + 1)%Z) \/
  (x - inject_Z f == 1 # 2 /\
   round_half_even x = if Z.even f then f else (f + 1)%Z).
Proof.
  intros f. unfold round_half_even. fold f.
  destruct (Qcompare_spec (x - inject_Z f) (1 # 2)) as [H|H|H]; auto.
Qed.

Lemma round_half_even_near x :
  x - (1 # 2) <= inject_Z (round_half_even x) /\
  inject_Z (round_half_even x) <= x + (1 # 2).
Proof.
  destruct (Qfloor_bounds x) as [H1 H2].
  destruct (round_half_even_cases x) as [[H ->]|[[H ->]|[H ->]]];
    [| |destruct (Z.even _)]; rewrite ?inject_Z_plus;
    change (inject_Z 1) with 1; lra.
Qed.

Lemma round_half_even_Z x z : x == inject_Z z -> round_half_even x = z.
Proof.
  intros Hx.
  assert (Qfloor x = z) as Hf by (apply Qfloor_unique; lra).
  destruct (round_half_even_cases x) as [[H ->]|[[H ->]|[H ->]]];
    rewrite ?Hf in *; [done|lra|lra].
Qed.

Lemma round_half_even_comp x y : x == y -> round_half_even x = round_half_even y.
Proof.
  intros H. unfold round_half_even. rewrite (Qfloor_comp x y H).
  assert ((x - inject_Z (Qfloor y) ?= 1 # 2) = (y - inject_Z (Qfloor y) ?= 1 # 2))
    as ->; [|done].
  apply Qcompare_comp; [by rewrite H|reflexivity].
Qed.

Lemma round_half_even_mono x y :
  x <= y -> (round_half_even x <= round_half_even y)%Z.
Proof.
  intros Hxy. pose proof (Qfloor_resp_le x y Hxy) as Hf.
  destruct (Qfloor_bounds x) as [Hx1 Hx2]. destruct (Qfloor_bounds y) as [Hy1 Hy2].
  destruct (Z.eq_dec (Qfloor x) (Qfloor y)) as [He|Hne].
  - destruct (round_half_even_cases x) as [[H ->]|[[H ->]|[H ->]]];
      destruct (round_half_even_cases y) as [[H' ->]|[[H' ->]|[H' ->]]];
      rewrite <- ?He in *; try lia; try lra;
      destruct (Z.even (Qfloor x)); try lia; lra.
  - assert (Qfloor x + 1 <= Qfloor y)%Z by lia.
    assert (round_half_even x <= Qfloor x + 1)%Z.
    { destruct (round_half_even_cases x) as [[H' ->]|[[H' ->]|[H' ->]]];
        [lia|lia|destruct (Z.even _); lia]. }
    assert (Qfloor y <= round_half_even y)%Z.
    { destruct (round_half_even_cases y) as [[H' ->]|[[H' ->]|[H' ->]]];
        [lia|lia|destruct (Z.even _); lia]. }
    lia.
Qed.
End Nearest.

Section RN.
Local Open Scope Q_scope.

Lemma ulp_exponent_pos x :
  0 < x -> ulp_exponent x = Z.max (Qlog2 x - 52) (-1074).
Proof.
  intros Hx. unfold ulp_exponent. f_equal. f_equal.
  apply Qlog2_comp; [|apply Qabs_pos; lra].
  rewrite Qabs_pos; lra.
Qed.

Lemma RN_0 x : x == 0 -> RN x = 0.
Proof. intros H. unfold RN. apply Qeq_bool_iff in H. by rewrite H. Qed.

Lemma RN_nonzero x :
  ~ x == 0 ->
  RN x == inject_Z (round_half_even (x / pow2 (ulp_exponent x)))
          * pow2 (ulp_exponent x).
Proof.
  intros H. unfold RN. destruct (Qeq_bool x 0) eqn:E.
  - by apply Qeq_bool_iff in E.
  - apply Qred_correct.
Qed.

Lemma ulp_exponent_comp x y : ~ x == 0 -> x == y -> ulp_exponent x = ulp_exponent y.
Proof.
  intros Hx Hxy. unfold ulp_exponent. f_equal. f_equal.
  assert (Qabs x == Qabs y) as Ha by by rewrite Hxy.
  apply Qlog2_comp; [|done].
  apply Qabs_case; intros H; lra.
Qed.

Lemma RN_comp x y : x == y -> RN x = RN y.
Proof.
  intros Hxy. unfold RN.
  destruct (Qeq_bool x 0) eqn:Ex; destruct (Qeq_bool y 0) eqn:Ey; [done| | |].
  - apply Qeq_bool_iff in Ex. apply Qeq_bool_neq in Ey. lra.
  - apply Qeq_bool_iff in Ey. apply Qeq_bool_neq in Ex. lra.
  - apply Qeq_bool_neq in Ex. cbv zeta.
    rewrite <- (ulp_exponent_comp x y Ex Hxy). apply Qred_complete.
    rewrite (round_half_even_comp (x / pow2 (ulp_exponent x))
               (y / pow2 (ulp_exponent x))); [reflexivity|].
    unfold Qdiv. apply Qmult_comp; [exact Hxy|reflexivity].
Qed.

(** The scaled value of a positive number lies below [2^53], and, unless
    the number is subnormal, above [2^52]. *)
Lemma scaled_upper x :
  0 < x -> x / pow2 (ulp_exponent x) < inject_Z (2 ^ 53).
Proof.
  intros Hx. rewrite (ulp_exponent_pos x Hx).
  destruct (Qlog2_spec x Hx) as [_ H2].
  set (e := Z.max (Qlog2 x - 52) (-1074)).
  apply Qlt_shift_div_r; [apply pow2_pos|].
  rewrite <- (pow2_Z 53) by lia. rewrite <- pow2_add.
  eapply Qlt_le_trans; [exact H2|]. apply pow2_le. lia.
Qed.

Lemma scaled_lower x :
  0 < x -> (-1074 < ulp_exponent x)%Z ->
  inject_Z (2 ^ 52) <= x / pow2 (ulp_exponent x).
Proof.
  intros Hx. rewrite (ulp_exponent_pos x Hx). intros He.
  destruct (Qlog2_spec x Hx) as [H1 _].
  apply Qle_shift_div_l; [apply pow2_pos|].
  rewrite <- (pow2_Z 52) by lia. rewrite <- pow2_add.
  eapply Qle_trans; [|exact H1]. apply pow2_le. lia.
Qed.

Lemma RN_pos_upper x :
  0 < x -> RN x <= pow2 (ulp_exponent x + 53).
Proof.
  intros Hx. rewrite RN_nonzero by lra.
  rewrite Z.add_comm, pow2_add. rewrite (pow2_Z 53) by lia.
  apply Qmult_le_compat_r; [|apply Qlt_le_weak, pow2_pos].
  rewrite <- Zle_Qle.
  rewrite <- (round_half_even_Z (inject_Z (2 ^ 53)) (2 ^ 53)) by reflexivity.
  apply round_half_even_mono, Qlt_le_weak, scaled_upper, Hx.
Qed.

Lemma RN_pos_lower x :
  0 < x -> (-1074 < ulp_exponent x)%Z -> pow2 (ulp_exponent x + 52) <= RN x.
Proof.
  intros Hx He. rewrite RN_nonzero by lra.
  rewrite Z.add_comm, pow2_add. rewrite (pow2_Z 52) by lia.
  apply Qmult_le_compat_r; [|apply Qlt_le_weak, pow2_pos].
  rewrite <- Zle_Qle.
  rewrite <- (round_half_even_Z (inject_Z (2 ^ 52)) (2 ^ 52)) by reflexivity.
  by apply round_half_even_mono, scaled_lower.
Qed.

Lemma RN_nonneg x : 0 <= x -> 0 <= RN x.
Proof.
  intros Hx. destruct (Qeq_dec x 0) as [H0|Hne].
  - rewrite (RN_0 x H0). lra.
  - rewrite RN_nonzero by done.
    apply Qmult_le_0_compat; [|apply Qlt_le_weak, pow2_pos].
    rewrite <- (Zle_Qle 0).
    rewrite <- (round_half_even_Z 0 0) by reflexivity.
    apply round_half_even_mono. apply Qle_shift_div_l; [apply pow2_pos|]. lra.
Qed.

(** Rounding is monotone (on the numbers that are not negative). *)
Lemma RN_mono x y : 0 <= x -> x <= y -> RN x <= RN y.
Proof.
  intros Hx Hxy. destruct (Qeq_dec x 0) as [H0|Hne].
  { rewrite (RN_0 x H0). apply RN_nonneg. lra. }
  assert (0 < x) as Hx' by lra. assert (0 < y) as Hy' by lra.
  pose proof (Qlog2_mono x y Hx' Hxy) as Hlog.
  pose proof (ulp_exponent_pos x Hx') as Hex.
  pose proof (ulp_exponent_pos y Hy') as Hey.
  destruct (Z.eq_dec (ulp_exponent x) (ulp_exponent y)) as [He|Hne'].
  - rewrite (RN_nonzero x), (RN_nonzero y) by lra. rewrite <- He.
    apply Qmult_le_compat_r; [|apply Qlt_le_weak, pow2_pos].
    rewrite <- Zle_Qle. apply round_half_even_mono.
    apply Qmult_le_compat_r; [done|].
    apply Qlt_le_weak, Qinv_lt_0_compat, pow2_pos.
  - assert (ulp_exponent x < ulp_exponent y)%Z as Hlt by lia.
    eapply Qle_trans; [apply RN_pos_upper, Hx'|].
    eapply Qle_trans; [|apply RN_pos_lower; [done|lia]].
    apply pow2_le. lia.
Qed.

(** The integers below [2^53] are doubles. *)
Lemma RN_Z z : (0 <= z < 2 ^ 53)%Z -> RN (inject_Z z) == inject_Z z.
Proof.
  intros [Hz0 Hz]. destruct (Z.eq_dec z 0%Z) as [->|Hne]; [done|].
  assert (0 < z)%Z as Hpos by lia.
  assert (0 < inject_Z z) as Hq by (by rewrite <- (Zlt_Qlt 0)).
  rewrite RN_nonzero by lra.
  rewrite (ulp_exponent_pos _ Hq), (Qlog2_Z z Hpos).
  pose proof (Z.log2_nonneg z) as Hl0.
  assert (Z.log2 z < 53)%Z as Hl by (apply Z.log2_lt_pow2; lia).
  rewrite Z.max_l by lia.
  set (k := (52 - Z.log2 z)%Z).
  assert (pow2 (Z.log2 z - 52) * pow2 k == 1) as Hinv.
  { rewrite <- pow2_add. by replace (Z.log2 z - 52 + k)%Z with 0%Z by lia. }
  pose proof (pow2_pos (Z.log2 z - 52)) as Hp.
  rewrite (round_half_even_Z _ (z * 2 ^ k)).
  - rewrite inject_Z_mult. rewrite <- (pow2_Z k) by lia.
    assert (forall a p q : Q, p * q == 1 -> a * q * p == a) as Hring.
    { intros a p q H. assert (a * q * p == a * (p * q)) as -> by ring.
      rewrite H. ring. }
    by apply Hring.
  - rewrite inject_Z_mult. rewrite <- (pow2_Z k) by lia.
    assert (forall a p q : Q, 0 < p -> p * q == 1 -> a / p == a * q) as Hdiv.
    { intros a p q Hp0 H.
      assert (a * q == a * (p * q) / p) as -> by (field; lra).
      rewrite H. field. lra. }
    by apply Hdiv.
Qed.

(** The error of one rounding: half a unit in the last place, which is at
    most [2^-53] of the number once it is not subnormal. *)
Lemma RN_error x M :
  0 <= x -> x <= M -> pow2 (-1022) <= M ->
  x - M * pow2 (-53) <= RN x /\ RN x <= x + M * pow2 (-53).
Proof.
  intros Hx HM Hbig. destruct (Qeq_dec x 0) as [H0|Hne].
  { rewrite (RN_0 x H0). pose proof (pow2_pos (-1022)). pose proof (pow2_pos (-53)).
    assert (0 <= M * pow2 (-53)) by (apply Qmult_le_0_compat; lra). lra. }
  assert (0 < x) as Hx' by lra.
  rewrite RN_nonzero by done.
  set (e := ulp_exponent x).
  pose proof (pow2_pos e) as Hpe.
  destruct (round_half_even_near (x / pow2 e)) as [H1 H2].
  set (r := inject_Z (round_half_even (x / pow2 e))) in *.
  assert (x / pow2 e * pow2 e == x) as Hx2 by (field; lra).
  assert (2 * pow2 (-53) == pow2 (-52)) as H53 by reflexivity.
  pose proof (pow2_pos (-52)) as Hp52.
  assert (pow2 e <= M * pow2 (-52)) as Hulp.
  { unfold e. rewrite (ulp_exponent_pos x Hx').
    destruct (Qlog2_spec x Hx') as [Hl _].
    destruct (Z.max_spec (Qlog2 x - 52) (-1074)) as [[Hlt ->]|[Hge ->]].
    - change (-1074)%Z with (-1022 + -52)%Z. rewrite pow2_add.
      apply Qmult_le_compat_r; [exact Hbig|lra].
    - replace (Qlog2 x - 52)%Z with (Qlog2 x + -52)%Z by lia.
      rewrite pow2_add.
      apply Qmult_le_compat_r; [lra|lra]. }
  assert (M * pow2 (-52) == 2 * (M * pow2 (-53))) as Hu.
  { rewrite <- H53. ring. }
  split; nra.
Qed.
(** The numbers [m * 2^k] with [m] below [2^53] and [k] from -1074 on are
    doubles. *)
Lemma RN_dyadic m k :
  (0 <= m < 2 ^ 53)%Z -> (-1074 <= k)%Z ->
  RN (inject_Z m * pow2 k) == inject_Z m * pow2 k.
Proof.
  intros [Hm0 Hm] Hk. destruct (Z.eq_dec m 0%Z) as [->|Hne].
  { rewrite RN_0; [ring|ring]. }
  assert (0 < m)%Z as Hpos by lia.
  pose proof (pow2_pos k) as Hpk.
  assert (0 < inject_Z m) as Hq by (by rewrite <- (Zlt_Qlt 0)).
  assert (0 < inject_Z m * pow2 k) as Hx by nra.
  pose proof (Z.log2_spec m Hpos) as [Hl1 Hl2].
  pose proof (Z.log2_nonneg m) as Hl0. rewrite <- Z.add_1_r in Hl2.
  assert (Z.log2 m < 53)%Z as Hl by (apply Z.log2_lt_pow2; lia).
  assert (Qlog2 (inject_Z m * pow2 k) = (Z.log2 m + k)%Z) as Hlog.
  { apply Qlog2_unique.
    - rewrite pow2_add. apply Qmult_le_compat_r; [|lra].
      rewrite pow2_Z by done. by rewrite <- Zle_Qle.
    - replace (Z.log2 m + k + 1)%Z with (Z.log2 m + 1 + k)%Z by lia.
      rewrite pow2_add. apply Qmult_lt_r; [done|].
      rewrite pow2_Z by lia. by rewrite <- Zlt_Qlt. }
  rewrite RN_nonzero by lra.
  rewrite (ulp_exponent_pos _ Hx), Hlog.
  set (e := Z.max (Z.log2 m + k - 52) (-1074)).
  assert (e <= k)%Z as Hek by (unfold e; lia).
  set (j := (k - e)%Z).
  assert (pow2 k == pow2 j * pow2 e) as Hkj.
  { rewrite <- pow2_add. by replace (j + e)%Z with k by (unfold j; lia). }
  pose proof (pow2_pos e) as Hpe.
  assert (inject_Z m * pow2 k / pow2 e == inject_Z (m * 2 ^ j)) as Hscaled.
  { rewrite inject_Z_mult. rewrite <- (pow2_Z j) by (unfold j; lia).
    rewrite Hkj. field. lra. }
  rewrite (round_half_even_Z _ _ Hscaled).
  rewrite inject_Z_mult. rewrite <- (pow2_Z j) by (unfold j; lia).
  rewrite Hkj. ring.
Qed.

Lemma RN_nonpos x : x <= 0 -> RN x <= 0.
Proof.
  intros Hx. destruct (Qeq_dec x 0) as [H0|Hne].
  - rewrite (RN_0 x H0). lra.
  - rewrite RN_nonzero by done.
    pose proof (pow2_pos (ulp_exponent x)) as Hp.
    assert (inject_Z (round_half_even (x / pow2 (ulp_exponent x))) <= 0) as Hr.
    { rewrite <- (Zle_Qle _ 0).
      apply Z.le_trans with (round_half_even 0);
        [|by rewrite (round_half_even_Z 0 0)].
      apply round_half_even_mono.
      apply Qle_shift_div_r; [done|]. lra. }
    nra.
Qed.

(** Every number that rounding leaves alone is a multiple of [2^-1074]. *)
Lemma RN_fixed_grid x :
  RN x == x -> exists M : Z, x == inject_Z M * pow2 (-1074).
Proof.
  intros Hx. destruct (Qeq_dec x 0) as [H0|Hne].
  { exists 0%Z. rewrite H0. ring. }
  rewrite RN_nonzero in Hx by done.
  set (e := ulp_exponent x) in *.
  assert (-1074 <= e)%Z as He by (unfold e, ulp_exponent; lia).
  exists (round_half_even (x / pow2 e) * 2 ^ (e + 1074))%Z.
  rewrite inject_Z_mult. rewrite <- (pow2_Z (e + 1074)) by lia.
  set (r := inject_Z (round_half_even (x / pow2 e))) in *. clearbody r.
  assert (pow2 e == pow2 (e + 1074) * pow2 (-1074)) as Hp.
  { rewrite <- pow2_add. by replace (e + 1074 + -1074)%Z with e by lia. }
  rewrite <- Hx, Hp. ring.
Qed.

(** The difference of two such numbers keeps its sign when it is rounded. *)
Lemma RN_difference_sign a b :
  RN a == a -> RN b == b ->
  Qle_bool (RN (a - b)) 0 = Qle_bool (a - b) 0.
Proof.
  intros [Ma Ha]%RN_fixed_grid [Mb Hb]%RN_fixed_grid.
  destruct (Qle_bool (a - b) 0) eqn:E.
  - apply Qle_bool_iff in E. by apply Qle_bool_iff, RN_nonpos.
  - assert (0 < a - b) as Hpos.
    { apply Qnot_le_lt. intros H. apply Qle_bool_iff in H. congruence. }
    pose proof (pow2_pos (-1074)) as Hp.
    assert (a - b == inject_Z (Ma - Mb) * pow2 (-1074)) as Hd.
    { unfold Zminus. rewrite inject_Z_plus, inject_Z_opp, Ha, Hb. ring. }
    assert (1 <= Ma - Mb)%Z as Hk.
    { assert (0 < Ma - Mb)%Z; [|lia]. rewrite Zlt_Qlt.
      change (inject_Z 0) with 0. rewrite Hd in Hpos. nra. }
    assert (pow2 (-1074) <= a - b) as Hge.
    { rewrite Hd. rewrite Zle_Qle in Hk. change (inject_Z 1) with 1 in Hk. nra. }
    assert (pow2 (-1074) <= RN (a - b)) as Hr.
    { assert (pow2 (-1074) == inject_Z 1 * pow2 (-1074)) as H1 by ring.
      rewrite H1 at 1. rewrite <- (RN_dyadic 1 (-1074)) by done.
      apply RN_mono; [|by rewrite <- H1]. rewrite <- H1. lra. }
    destruct (Qle_bool (RN (a - b)) 0) eqn:E'; [|done].
    apply Qle_bool_iff in E'. lra.
Qed.
End RN.

Section Numbers.
Local Open Scope Q_scope.

Lemma Qle_bool_comp x y x' y' :
  x == x' -> y == y' -> Qle_bool x y = Qle_bool x' y'.
Proof.
  intros Hx Hy. destruct (Qle_bool x' y') eqn:E.
  - apply Qle_bool_iff in E. apply Qle_bool_iff. lra.
  - destruct (Qle_bool x y) eqn:E'; [|done].
    apply Qle_bool_iff in E'. assert (x' <= y') as H by lra.
    apply Qle_bool_iff in H. congruence.
Qed.

Lemma rounded_comp x y : x == y -> rounded x = rounded y.
Proof.
  intros H. unfold rounded. rewrite (RN_comp x y H).
  by rewrite (Qle_bool_comp 0 x 0 y).
Qed.

Lemma rounded_cases x :
  (rounded x = Finite (RN x) /\ Qabs (RN x) < pow2 1024) \/
  (rounded x = Infinity (negb (Qle_bool 0 x)) /\ pow2 1024 <= Qabs (RN x)).
Proof.
  unfold rounded. destruct (Qle_bool (pow2 1024) (Qabs (RN x))) eqn:E.
  - right. split; [done|]. by apply Qle_bool_iff.
  - left. split; [done|]. apply Qnot_le_lt. intros H.
    apply Qle_bool_iff in H. congruence.
Qed.

(** No overflow below [2^53]. *)
Lemma rounded_small x z :
  0 <= x -> x <= inject_Z z -> (z < 2 ^ 53)%Z -> rounded x = Finite (RN x).
Proof.
  intros Hx Hz Hbig.
  destruct (rounded_cases x) as [[H _]|[_ H]]; [done|].
  assert (0 <= z)%Z as Hz0. { rewrite Zle_Qle. change (inject_Z 0) with 0. lra. }
  pose proof (RN_nonneg x Hx) as Hr0.
  pose proof (RN_mono x (inject_Z z) Hx Hz) as Hr.
  rewrite (RN_Z z) in Hr by lia.
  rewrite Qabs_pos in H by done.
  assert (inject_Z z < pow2 1024) as Hlt.
  { apply Qlt_le_trans with (pow2 53); [|by apply pow2_le].
    rewrite (pow2_Z 53) by lia. by rewrite <- Zlt_Qlt. }
  lra.
Qed.

Lemma is_double_RN x : is_double x -> RN x == x.
Proof.
  intros (q & Hq & Hx).
  destruct (rounded_cases x) as [[H _]|[H _]]; congruence.
Qed.

(** The difference of two doubles keeps its sign when it is rounded, also
    when it overflows: what the comparator [(a, b) => a - b] tells
    [sort]. *)
Lemma ascending_sign a b :
  is_double a -> is_double b ->
  not_positive (Number_subtract a b) = Qle_bool (ascending a b) 0.
Proof.
  intros Ha%is_double_RN Hb%is_double_RN. unfold Number_subtract, ascending.
  destruct (rounded_cases (a - b)) as [[-> _]|[-> Hbig]]; simpl.
  - by apply RN_difference_sign.
  - pose proof (pow2_pos 1024) as Hp.
    destruct (Qle_bool 0 (a - b)) eqn:E; simpl.
    + apply Qle_bool_iff in E.
      destruct (Qle_bool (a - b) 0) eqn:E'; [|done].
      apply Qle_bool_iff in E'.
      assert (a - b == 0) as H0 by lra.
      rewrite (RN_0 _ H0) in Hbig. change (Qabs 0) with 0 in Hbig. lra.
    + symmetry. apply Qle_bool_iff.
      destruct (Qlt_le_dec (a - b) 0) as [?|Hge]; [lra|].
      apply Qle_bool_iff in Hge. congruence.
Qed.
End Numbers.

(* ----------------------------------------------------------------- *)
(** ** [calcStats] *)

Section Sorting.
Local Open Scope Q_scope.

Lemma sort_insert_perm x l : sort_insert ascending x l ≡ₚ x :: l.
Proof.
  induction l as [|y l IH]; simpl; [done|].
  destruct (Qle_bool _ _); [done|].
  rewrite IH. apply perm_swap.
Qed.

Lemma sort_perm l : sort ascending l ≡ₚ l.
Proof.
  induction l as [|x l IH]; simpl; [done|].
  rewrite sort_insert_perm. by rewrite IH.
Qed.

Lemma ascending_le a b : Qle_bool (ascending a b) 0 = true <-> a <= b.
Proof.
  rewrite Qle_bool_iff. unfold ascending.
  rewrite (Qle_minus_iff (a - b) 0), (Qle_minus_iff a b).
  assert (0 + - (a - b) == b + - a) as -> by ring. reflexivity.
Qed.

Lemma sort_insert_sorted x l :
  StronglySorted Qle l -> StronglySorted Qle (sort_insert ascending x l).
Proof.
  induction 1 as [|y l Hs IH Hy]; simpl.
  - repeat constructor.
  - destruct (Qle_bool (ascending x y) 0) eqn:E.
    + apply ascending_le in E. constructor.
      * by constructor.
      * constructor; [done|].
        eapply Forall_impl; [exact Hy|]. intros z Hz. by eapply Qle_trans.
    + assert (y <= x) as Hyx.
      { apply Qlt_le_weak, Qnot_le_lt. intros Hxy.
        apply ascending_le in Hxy. congruence. }
      constructor; [done|].
      rewrite sort_insert_perm. by constructor.
Qed.

Lemma sort_sorted l : StronglySorted Qle (sort ascending l).
Proof.
  induction l as [|x l IH]; simpl; [constructor|].
  by apply sort_insert_sorted.
Qed.

Lemma sorted_head_least x l :
  StronglySorted Qle (x :: l) -> forall y, y ∈ x :: l -> x <= y.
Proof.
  intros Hs y Hy. apply StronglySorted_inv in Hs as [_ Hall].
  apply elem_of_cons in Hy as [->|Hy]; [apply Qle_refl|].
  rewrite Forall_forall in Hall. by apply Hall.
Qed.

Lemma sorted_last_greatest l d :
  StronglySorted Qle l -> forall y, y ∈ l -> y <= List.last l d.
Proof.
  induction 1 as [|x l Hs IH Hx]; intros y Hy; [by apply elem_of_nil in Hy|].
  destruct l as [|x' l'].
  - apply list_elem_of_singleton in Hy as ->. apply Qle_refl.
  - change (List.last (x :: x' :: l') d) with (List.last (x' :: l') d).
    apply elem_of_cons in Hy as [->|Hy]; [|by apply IH].
    eapply Qle_trans; [|apply IH; left].
    rewrite Forall_forall in Hx. apply Hx. left.
Qed.

Lemma last_elem_of (x d : Q) l : List.last (x :: l) d ∈ x :: l.
Proof.
  revert x. induction l as [|y l IH]; intros x; [left|].
  change (List.last (x :: y :: l) d) with (List.last (y :: l) d).
  right. apply IH.
Qed.
End Sorting.

Section Mean.
Local Open Scope Q_scope.

(** The sum and the mean of a list, as the specification words them. *)
Definition Qsum (l : list Q) : Q := foldr Qplus 0 l.
Definition Qlen (l : list Q) : Q := inject_Z (Z.of_nat (length l)).
Definition mean (l : list Q) : Q := Qsum l / Qlen l.

(** A number is an integer when it is the image of one. *)
Definition is_integer (x : Q) : Prop := exists z : Z, x == inject_Z z.

Lemma fold_left_Qplus l a : fold_left Qplus l a == a + Qsum l.
Proof.
  revert a. induction l as [|x l IH]; intros a; simpl.
  - unfold Qsum. simpl. ring.
  - rewrite IH. unfold Qsum. simpl. ring.
Qed.

Lemma Qsum_perm l1 l2 : l1 ≡ₚ l2 -> Qsum l1 == Qsum l2.
Proof.
  induction 1 as [|x l1 l2 _ IH|x y l|l1 l2 l3 _ IH1 _ IH2]; unfold Qsum in *; simpl.
  - reflexivity.
  - by rewrite IH.
  - ring.
  - by rewrite IH1.
Qed.

Lemma Qlen_cons x l : Qlen (x :: l) == 1 + Qlen l.
Proof.
  unfold Qlen. simpl length. rewrite Nat2Z.inj_succ, <- Z.add_1_l.
  by rewrite inject_Z_plus.
Qed.

Lemma Qlen_pos x l : 0 < Qlen (x :: l).
Proof.
  unfold Qlen. rewrite <- (Zlt_Qlt 0). simpl length. lia.
Qed.

Lemma Qsum_lower m l : (forall x, x ∈ l -> m <= x) -> m * Qlen l <= Qsum l.
Proof.
  induction l as [|x l IH]; intros H.
  - unfold Qlen, Qsum. simpl. rewrite Qmult_0_r. apply Qle_refl.
  - rewrite Qlen_cons. unfold Qsum in *. simpl.
    assert (m * (1 + Qlen l) == m + m * Qlen l) as -> by ring.
    apply Qplus_le_compat; [apply H; left|].
    apply IH. intros y Hy. apply H. by right.
Qed.

Lemma Qsum_upper m l : (forall x, x ∈ l -> x <= m) -> Qsum l <= m * Qlen l.
Proof.
  induction l as [|x l IH]; intros H.
  - unfold Qlen, Qsum. simpl. rewrite Qmult_0_r. apply Qle_refl.
  - rewrite Qlen_cons. unfold Qsum in *. simpl.
    assert (m * (1 + Qlen l) == m + m * Qlen l) as -> by ring.
    apply Qplus_le_compat; [apply H; left|].
    apply IH. intros y Hy. apply H. by right.
Qed.

Lemma mean_lower m x l : (forall y, y ∈ x :: l -> m <= y) -> m <= mean (x :: l).
Proof.
  intros H. unfold mean. apply Qle_shift_div_l; [apply Qlen_pos|].
  by apply Qsum_lower.
Qed.

Lemma mean_upper m x l : (forall y, y ∈ x :: l -> y <= m) -> mean (x :: l) <= m.
Proof.
  intros H. unfold mean. apply Qle_shift_div_r; [apply Qlen_pos|].
  by apply Qsum_upper.
Qed.

Lemma round_half_up_mono x y : x <= y -> round_half_up x <= round_half_up y.
Proof.
  intros H. unfold round_half_up. rewrite <- Zle_Qle.
  apply Qfloor_resp_le. apply Qplus_le_compat; [done|apply Qle_refl].
Qed.

Lemma round_half_up_comp x y : x == y -> round_half_up x = round_half_up y.
Proof.
  intros H. unfold round_half_up. f_equal. apply Qfloor_comp. by rewrite H.
Qed.

Lemma round_half_up_integer x : is_integer x -> round_half_up x == x.
Proof.
  intros [z Hz]. rewrite (round_half_up_comp _ _ Hz), Hz. unfold round_half_up.
  apply inject_Z_injective.
  assert (inject_Z z + (1 # 2) == (2 * z + 1 # 2)) as ->.
  { unfold Qeq, Qplus, inject_Z. simpl. lia. }
  unfold Qfloor. symmetry. apply Z.div_unique with (r := 1%Z); lia.
Qed.
End Mean.

Section FloatMean.
Local Open Scope Q_scope.

(** The sum that [reduce] computes from the accumulator [a], and the mean
    that [calcStats] rounds: every addition and the division round. *)
Definition number_sum (l : list Q) (a : number) : number :=
  fold_left (fun acc v => Number_add acc v) l a.
Definition number_mean (l : list Q) : number :=
  Number_divide (number_sum l (Finite 0)) (Qlen l).

(** The same sum and mean as long as nothing overflows. *)
Definition float_sum (l : list Q) (a : Q) : Q :=
  fold_left (fun acc v => RN (acc + v)) l a.
Definition float_mean (l : list Q) : Q := RN (float_sum l 0 / Qlen l).

Lemma inject_Z_succ z : inject_Z (z + 1) == inject_Z z + 1.
Proof. by rewrite inject_Z_plus. Qed.

(** Prices between two integers: the computed sum lies between the exact
    sums of the bounds, which are doubles. *)
Lemma float_sum_bounds l a (lo hi A_lo A_hi : Z) :
  (0 <= lo)%Z -> (0 <= A_lo)%Z ->
  (forall x, x ∈ l -> inject_Z lo <= x /\ x <= inject_Z hi) ->
  inject_Z A_lo <= a -> a <= inject_Z A_hi ->
  (A_hi + Z.of_nat (length l) * hi < 2 ^ 53)%Z ->
  inject_Z (A_lo + Z.of_nat (length l) * lo) <= float_sum l a /\
  float_sum l a <= inject_Z (A_hi + Z.of_nat (length l) * hi).
Proof.
  revert a A_lo A_hi.
  induction l as [|x l IH]; intros a A_lo A_hi Hlo HA Hall Ha1 Ha2 Hbig.
  { simpl. rewrite !Z.add_0_r. by split. }
  destruct (Hall x) as [Hx1 Hx2]; [left|].
  assert (lo <= hi)%Z as Hlohi by (rewrite Zle_Qle; lra).
  assert (A_lo <= A_hi)%Z as HAA by (rewrite Zle_Qle; lra).
  assert (0 <= Z.of_nat (length l) * hi)%Z as Hnh by nia.
  cbn [length] in *. rewrite Nat2Z.inj_succ in *.
  assert (0 <= inject_Z (A_lo + lo)) as H0.
  { rewrite <- (Zle_Qle 0). lia. }
  assert (inject_Z (A_lo + lo) <= a + x) as Hs1 by (rewrite inject_Z_plus; lra).
  assert (a + x <= inject_Z (A_hi + hi)) as Hs2 by (rewrite inject_Z_plus; lra).
  destruct (IH (RN (a + x)) (A_lo + lo)%Z (A_hi + hi)%Z) as [H1 H2];
    [done|lia| | | |lia|].
  - intros y Hy. apply Hall. by right.
  - rewrite <- (RN_Z (A_lo + lo)) by lia.
    apply RN_mono; [done|done].
  - rewrite <- (RN_Z (A_hi + hi)) by lia.
    apply RN_mono; [lra|done].
  - simpl. fold (float_sum l (RN (a + x))). split.
    + eapply Qle_trans; [|exact H1]. rewrite <- Zle_Qle. lia.
    + eapply Qle_trans; [exact H2|]. rewrite <- Zle_Qle. lia.
Qed.

(** The rounding error of the computed sum: each of the additions is off by
    at most [2^-53] of the bound [M] on the sums. *)
Lemma float_sum_error l a (B A M : Z) :
  (forall x, x ∈ l -> 0 <= x /\ x <= inject_Z B) ->
  0 <= a -> a <= inject_Z A ->
  (1 <= M)%Z -> (M < 2 ^ 53)%Z ->
  (A + Z.of_nat (length l) * B <= M)%Z ->
  a + Qsum l - inject_Z (Z.of_nat (length l)) * (inject_Z M * pow2 (-53))
    <= float_sum l a /\
  float_sum l a
    <= a + Qsum l + inject_Z (Z.of_nat (length l)) * (inject_Z M * pow2 (-53)).
Proof.
  intros Hall Ha0 Ha HM1 HM2.
  assert (pow2 (-1022) <= inject_Z M) as Hnormal.
  { apply Qle_trans with 1; [by apply (pow2_le (-1022) 0)|].
    by rewrite <- (Zle_Qle 1). }
  assert (forall x, 0 <= x -> x <= inject_Z M ->
            x - inject_Z M * pow2 (-53) <= RN x /\
            RN x <= x + inject_Z M * pow2 (-53)) as Herr.
  { intros x Hx0 HxM. by apply RN_error. }
  clear Hnormal. set (u := inject_Z M * pow2 (-53)) in *. clearbody u.
  revert a A Ha0 Ha.
  induction l as [|x l IH]; intros a A Ha0 Ha Hbig.
  { unfold Qsum, float_sum. cbn [fold_left foldr length].
    change (inject_Z (Z.of_nat 0)) with 0. split; lra. }
  destruct (Hall x) as [Hx1 Hx2]; [left|].
  assert (0 <= B)%Z as HB by (rewrite Zle_Qle; change (inject_Z 0) with 0; lra).
  assert (0 <= A)%Z as HA by (rewrite Zle_Qle; change (inject_Z 0) with 0; lra).
  cbn [length] in *. rewrite Nat2Z.inj_succ in *.
  assert (0 <= Z.of_nat (length l) * B)%Z as Hnb by nia.
  assert (a + x <= inject_Z (A + B)) as Hs by (rewrite inject_Z_plus; lra).
  assert (inject_Z (A + B) <= inject_Z M) as HABM by (rewrite <- Zle_Qle; lia).
  destruct (Herr (a + x)) as [He1 He2]; [lra|lra|].
  destruct (IH ltac:(intros y Hy; apply Hall; by right)
              (RN (a + x)) (A + B)%Z) as [H1 H2].
  - apply RN_nonneg. lra.
  - rewrite <- (RN_Z (A + B)) by lia.
    apply RN_mono; [lra|done].
  - lia.
  - simpl. fold (float_sum l (RN (a + x))).
    unfold Qsum in *. simpl. rewrite <- Z.add_1_r, inject_Z_succ.
    split; lra.
Qed.

Lemma number_sum_Qred l a : number_sum (Qred <$> l) a = number_sum l a.
Proof.
  revert a. induction l as [|x l IH]; intros a; simpl; [done|].
  fold (number_sum (Qred <$> l) (Number_add a (Qred x))).
  fold (number_sum l (Number_add a x)).
  rewrite IH. f_equal. destruct a as [a|]; [|done]. simpl.
  apply rounded_comp. by rewrite Qred_correct.
Qed.

(** Sums of prices between 0 and [B] that stay below [2^53] do not
    overflow. *)
Lemma number_sum_finite l a (B A : Z) :
  (forall x, x ∈ l -> 0 <= x /\ x <= inject_Z B) ->
  0 <= a -> a <= inject_Z A ->
  (A + Z.of_nat (length l) * B < 2 ^ 53)%Z ->
  number_sum l (Finite a) = Finite (float_sum l a).
Proof.
  revert a A. induction l as [|x l IH]; intros a A Hall Ha0 Ha Hbig; [done|].
  destruct (Hall x) as [Hx1 Hx2]; [left|].
  assert (0 <= B)%Z as HB by (rewrite Zle_Qle; change (inject_Z 0) with 0; lra).
  assert (0 <= A)%Z as HA by (rewrite Zle_Qle; change (inject_Z 0) with 0; lra).
  cbn [length] in Hbig. rewrite Nat2Z.inj_succ in Hbig.
  assert (0 <= Z.of_nat (length l) * B)%Z as Hnb by nia.
  assert (a + x <= inject_Z (A + B)) as Hs by (rewrite inject_Z_plus; lra).
  simpl. fold (number_sum l (rounded (a + x))).
  fold (float_sum l (RN (a + x))).
  rewrite (rounded_small (a + x) (A + B)) by (lra || lia).
  apply (IH _ (A + B)%Z).
  - intros y Hy. apply Hall. by right.
  - apply RN_nonneg. lra.
  - rewrite <- (RN_Z (A + B)) by lia. apply RN_mono; [lra|done].
  - lia.
Qed.

Lemma round_half_up_succ x : round_half_up (x + 1) == round_half_up x + 1.
Proof.
  unfold round_half_up. rewrite <- inject_Z_succ. apply inject_Z_injective.
  destruct (Qfloor_bounds (x + (1 # 2))) as [H1 H2].
  apply Qfloor_unique; rewrite inject_Z_succ; lra.
Qed.
End FloatMean.

Section CalcStats.
Local Open Scope Q_scope.

Lemma calcStats_nonempty P :
  P <> [] -> exists st, calcStats P = Some st.
Proof.
  intros Hne. unfold calcStats. pose proof (sort_perm P) as Hp.
  destruct (sort ascending P); [|by eexists].
  by apply Permutation_nil in Hp.
Qed.

Lemma calcStats_avg_number P st :
  calcStats P = Some st ->
  stat_avg st = Math_round (number_mean (sort ascending P)).
Proof.
  unfold calcStats. destruct (sort ascending P) as [|first rest]; [done|].
  by intros [= <-].
Qed.

Lemma calcStats_extrema P st :
  calcStats P = Some st ->
  (stat_min st ∈ P /\ forall x, x ∈ P -> stat_min st <= x) /\
  (stat_max st ∈ P /\ forall x, x ∈ P -> x <= stat_max st).
Proof.
  unfold calcStats. pose proof (sort_perm P) as Hp.
  pose proof (sort_sorted P) as Hs.
  destruct (sort ascending P) as [|first rest] eqn:E; [done|].
  intros [= <-]. simpl. repeat split.
  - rewrite <- Hp. left.
  - intros x Hx. apply (sorted_head_least _ _ Hs). by rewrite Hp.
  - rewrite <- Hp. apply last_elem_of.
  - intros x Hx. apply (sorted_last_greatest _ _ Hs). by rewrite Hp.
Qed.

(** The computed mean of prices between two integers lies between them. *)
Lemma float_mean_bounds l (lo hi : Z) :
  l <> [] -> (0 <= lo)%Z ->
  (forall x, x ∈ l -> inject_Z lo <= x /\ x <= inject_Z hi) ->
  (Z.of_nat (length l) * hi < 2 ^ 53)%Z ->
  inject_Z lo <= float_mean l /\ float_mean l <= inject_Z hi.
Proof.
  intros Hne Hlo Hall Hbig.
  destruct (float_sum_bounds l 0 lo hi 0 0) as [H1 H2];
    [done|done|done|done|done|by rewrite Z.add_0_l|].
  rewrite !Z.add_0_l, !inject_Z_mult in H1, H2. fold (Qlen l) in H1, H2.
  assert (0 < Qlen l) as Hn by (destruct l; [done|apply Qlen_pos]).
  assert (lo <= hi)%Z as Hlohi.
  { destruct l as [|x l]; [done|]. destruct (Hall x); [left|].
    rewrite Zle_Qle. lra. }
  assert (1 <= Z.of_nat (length l))%Z as Hlen by (destruct l; [done|simpl; lia]).
  unfold float_mean.
  rewrite <- (RN_Z lo), <- (RN_Z hi) by nia.
  split; apply RN_mono.
  - by rewrite <- (Zle_Qle 0).
  - apply Qle_shift_div_l; [done|]. lra.
  - apply Qle_shift_div_l; [done|]. rewrite Qmult_0_l.
    eapply Qle_trans; [|exact H1]. apply Qmult_le_0_compat; [lra|].
    by rewrite <- (Zle_Qle 0).
  - apply Qle_shift_div_r; [done|]. lra.
Qed.

(** The computed mean against the exact one. *)
Lemma float_mean_error l (B : Z) :
  l <> [] -> (1 <= B)%Z ->
  (forall x, x ∈ l -> 0 <= x /\ x <= inject_Z B) ->
  (Z.of_nat (length l) * B <= 2 ^ 52)%Z ->
  mean l - inject_Z (Z.of_nat (length l) * B) * pow2 (-52) <= float_mean l /\
  float_mean l <= mean l + inject_Z (Z.of_nat (length l) * B) * pow2 (-52).
Proof.
  intros Hne HB Hall Hbig.
  assert (1 <= Z.of_nat (length l))%Z as Hlen by (destruct l; [done|simpl; lia]).
  set (M := (Z.of_nat (length l) * B)%Z) in *.
  assert (1 <= M)%Z as HM1 by (unfold M; nia).
  destruct (float_sum_error l 0 B 0 M) as [H1 H2];
    [done|lra|done|done|lia|lia|].
  destruct (float_sum_bounds l 0 0 B 0 0) as [H3 H4];
    [done|done|done|done|done|fold M; lia|].
  rewrite !Z.add_0_l, inject_Z_mult in H3, H4.
  change (inject_Z 0) with 0 in H3.
  fold (Qlen l) in H1, H2, H3, H4.
  assert (0 < Qlen l) as Hn by (destruct l; [done|apply Qlen_pos]).
  assert (1 <= Qlen l) as Hn1 by (unfold Qlen; by rewrite <- (Zle_Qle 1)).
  assert (0 < inject_Z B) as HBq by (rewrite <- (Zlt_Qlt 0); lia).
  assert (inject_Z M == Qlen l * inject_Z B) as HMq
    by (unfold M, Qlen; by rewrite inject_Z_mult).
  pose proof (pow2_pos (-53)) as Hu.
  assert (2 * pow2 (-53) == pow2 (-52)) as H53 by reflexivity.
  set (s := float_sum l 0) in *. set (u := inject_Z M * pow2 (-53)) in *.
  assert (0 <= u) as Hu0.
  { unfold u. apply Qmult_le_0_compat; [|lra]. rewrite HMq. nra. }
  assert (inject_Z M * pow2 (-52) == 2 * u) as -> by (unfold u; rewrite <- H53; ring).
  assert (mean l - u <= s / Qlen l /\ s / Qlen l <= mean l + u) as [Hq1 Hq2].
  { unfold mean. split.
    - apply Qle_shift_div_l; [done|].
      assert ((Qsum l / Qlen l - u) * Qlen l == Qsum l - Qlen l * u) as ->
        by (field; lra).
      lra.
    - apply Qle_shift_div_r; [done|].
      assert ((Qsum l / Qlen l + u) * Qlen l == Qsum l + Qlen l * u) as ->
        by (field; lra).
      lra. }
  assert (0 <= s / Qlen l) as Hq0.
  { apply Qle_shift_div_l; [done|]. lra. }
  assert (s / Qlen l <= inject_Z M) as HqM.
  { apply Qle_shift_div_r; [done|]. rewrite HMq. nra. }
  destruct (RN_error (s / Qlen l) (inject_Z M)) as [He1 He2]; [done|done| |].
  { apply Qle_trans with 1; [by apply (pow2_le (-1022) 0)|].
    by rewrite <- (Zle_Qle 1). }
  fold u in He1, He2. unfold float_mean. fold s. split; lra.
Qed.

(** The mean of prices between 0 and [B] with [|l| * B] below [2^53] does
    not overflow. *)
Lemma number_mean_finite l (B : Z) :
  l <> [] ->
  (forall x, x ∈ l -> 0 <= x /\ x <= inject_Z B) ->
  (Z.of_nat (length l) * B < 2 ^ 53)%Z ->
  number_mean l = Finite (float_mean l).
Proof.
  intros Hne Hall Hbig. unfold number_mean, float_mean.
  rewrite (number_sum_finite l 0 B 0) by (done || lra || lia).
  simpl.
  destruct (float_sum_bounds l 0 0 B 0 0) as [H3 H4];
    [done|done|done|done|done|lia|].
  rewrite !Z.add_0_l, inject_Z_mult in H3, H4.
  change (inject_Z 0) with 0 in H3. fold (Qlen l) in H3, H4.
  assert (0 < Qlen l) as Hn by (destruct l; [done|apply Qlen_pos]).
  assert (1 <= Z.of_nat (length l))%Z as Hlen by (destruct l; [done|simpl; lia]).
  assert (0 <= B)%Z as HB.
  { destruct l as [|x l]; [done|]. destruct (Hall x); [left|].
    rewrite Zle_Qle. change (inject_Z 0) with 0. lra. }
  apply (rounded_small _ B); [| |nia].
  - apply Qle_shift_div_l; [done|]. lra.
  - apply Qle_shift_div_r; [done|]. lra.
Qed.
End CalcStats.

(** C4, as the code has it.  For a nonempty list [P] of numbers,
    [calcStats P] returns a record whose [count] is the length of [P], whose
    [min] is an element of [P] below all others, whose [max] is an element of
    [P] above all others and whose [avg] is [Math.round] of the mean as the
    doubles give it: the ascending prices added from left to right and
    divided by the count, every operation rounded.  For prices between 0 and
    an integer [B] with [|P| * B <= 2^52], the average is an integer that
    lies between the minimum rounded down and the maximum rounded up, hence
    between the minimum and the maximum themselves as soon as these are
    integers; it is within 1 of the exact mean rounded to the nearest
    integer, and it is that number unless the exact mean lies within
    [|P| * B / 2^52] of a half-integer. *)
Theorem calcStats_spec (P : list Q) :
  P <> [] ->
  exists st, calcStats P = Some st /\
    stat_count st = length P /\
    (stat_min st ∈ P /\ forall x, x ∈ P -> (stat_min st <= x)%Q) /\
    (stat_max st ∈ P /\ forall x, x ∈ P -> (x <= stat_max st)%Q) /\
    stat_avg st = Math_round (number_mean (sort ascending P)) /\
    forall B : Z,
      (1 <= B)%Z -> (Z.of_nat (length P) * B <= 2 ^ 52)%Z ->
      (forall x, x ∈ P -> (0 <= x)%Q /\ (x <= inject_Z B)%Q) ->
      let delta := (inject_Z (Z.of_nat (length P) * B) * pow2 (-52))%Q in
      exists avg : Q,
        stat_avg st = Finite avg /\
        is_integer avg /\
        (inject_Z (Qfloor (stat_min st)) <= avg)%Q /\
        (avg <= inject_Z (Qceiling (stat_max st)))%Q /\
        (is_integer (stat_min st) -> (stat_min st <= avg)%Q) /\
        (is_integer (stat_max st) -> (avg <= stat_max st)%Q) /\
        (round_half_up (mean P) - 1 <= avg)%Q /\
        (avg <= round_half_up (mean P) + 1)%Q /\
        ((round_half_up (mean P) - (1 # 2) + delta <= mean P)%Q ->
         (mean P < round_half_up (mean P) + (1 # 2) - delta)%Q ->
         avg = round_half_up (mean P)).
Proof.
  intros Hne. destruct (calcStats_nonempty P Hne) as [st E].
  exists st. split; [done|].
  pose proof (calcStats_extrema P st E) as [[Hmin Hle] [Hmax Hge]].
  pose proof (calcStats_avg_number P st E) as Havg.
  pose proof (sort_perm P) as Hp.
  assert (length (sort ascending P) = length P) as Hlen
    by by apply Permutation_length.
  split.
  { unfold calcStats in E. destruct (sort ascending P) eqn:Es; [done|].
    injection E as <-. exact Hlen. }
  split; [done|]. split; [done|]. split; [done|].
  intros B HB Hbig Hall delta.
  assert (sort ascending P <> []) as Hne'.
  { intros Hnil. rewrite Hnil in Hlen. by destruct P. }
  assert (forall x, x ∈ sort ascending P -> (0 <= x)%Q /\ (x <= inject_Z B)%Q)
    as Hall'.
  { intros x Hx. apply Hall. by rewrite <- Hp. }
  rewrite (number_mean_finite (sort ascending P) B) in Havg
    by (done || rewrite Hlen; lia).
  simpl in Havg.
  exists (round_half_up (float_mean (sort ascending P))).
  split; [done|]. split; [by eexists|].
  assert (mean (sort ascending P) == mean P)%Q as Hmean.
  { unfold mean, Qlen. by rewrite (Qsum_perm _ _ Hp), Hlen. }
  destruct (float_mean_error (sort ascending P) B) as [He1 He2];
    [done|done|done|by rewrite Hlen|].
  rewrite Hlen in He1, He2. fold delta in He1, He2.
  assert (0 <= Qfloor (stat_min st))%Z as Hfloor.
  { rewrite <- (Qfloor_Z 0). apply Qfloor_resp_le. by apply Hall. }
  assert (Qceiling (stat_max st) <= B)%Z as Hceil.
  { rewrite <- (Qceiling_Z B). apply Qceiling_resp_le. by apply Hall. }
  assert (1 <= Z.of_nat (length P))%Z as Hn by (destruct P; [done|simpl; lia]).
  destruct (float_mean_bounds (sort ascending P)
              (Qfloor (stat_min st)) (Qceiling (stat_max st)))
    as [Hb1 Hb2]; [done|done| |rewrite Hlen; nia|].
  { intros x Hx. rewrite Hp in Hx. split.
    - eapply Qle_trans; [apply Qfloor_le|by apply Hle].
    - eapply Qle_trans; [by apply Hge|apply Qle_ceiling]. }
  set (fm := float_mean (sort ascending P)) in *.
  assert (inject_Z (Qfloor (stat_min st)) <= round_half_up fm)%Q as Hlo.
  { rewrite <- (round_half_up_integer (inject_Z (Qfloor (stat_min st))))
      by by eexists.
    by apply round_half_up_mono. }
  assert (round_half_up fm <= inject_Z (Qceiling (stat_max st)))%Q as Hhi.
  { rewrite <- (round_half_up_integer (inject_Z (Qceiling (stat_max st))))
      by by eexists.
    by apply round_half_up_mono. }
  assert (delta <= 1)%Q as Hdelta.
  { unfold delta. apply Qle_trans with (inject_Z (2 ^ 52) * pow2 (-52))%Q.
    - apply Qmult_le_compat_r; [by rewrite <- Zle_Qle|].
      apply Qlt_le_weak, pow2_pos.
    - by vm_compute. }
  split; [done|]. split; [done|]. split; [|split; [|split; [|split]]].
  - intros [z Hz]. rewrite Hz in *. by rewrite Qfloor_Z in Hlo.
  - intros [z Hz]. rewrite Hz in *. by rewrite Qceiling_Z in Hhi.
  - assert (round_half_up (mean P) - 1
            == round_half_up (mean P - 1 + 1) - 1)%Q as ->.
    { rewrite (round_half_up_comp (mean P - 1 + 1) (mean P)); [reflexivity|ring]. }
    rewrite round_half_up_succ.
    assert (round_half_up (mean P - 1) + 1 - 1
            == round_half_up (mean P - 1))%Q as -> by ring.
    apply round_half_up_mono. lra.
  - rewrite <- round_half_up_succ. apply round_half_up_mono. lra.
  - intros Hd1 Hd2. unfold round_half_up in *. f_equal.
    destruct (Qfloor_bounds (mean P + (1 # 2))) as [Hf1 Hf2].
    apply Qfloor_unique; lra.
Qed.

(** The statistics of the specification's end-to-end example: the prices lie
    between 0 and 210, their exact mean is 137, and so is the average. *)
Lemma calcStats_spec_witness :
  [89; 104; 97; 210; 185]%Q <> [] /\
  exists st, calcStats [89; 104; 97; 210; 185]%Q = Some st /\
    stat_count st = 5%nat /\ stat_min st = 89%Q /\ stat_max st = 210%Q /\
    stat_avg st = Finite (round_half_up (mean [89; 104; 97; 210; 185]%Q)) /\
    stat_avg st = Finite 137.
Proof.
  split; [done|].
  destruct (calcStats_spec [89; 104; 97; 210; 185]%Q)
    as (st & E & _ & _ & _ & _ & Hbound); [done|].
  destruct (Hbound 210%Z) as (avg & Havg & _ & _ & _ & _ & _ & _ & _ & Hexact).
  - lia.
  - simpl. lia.
  - intros x Hx.
    repeat (apply elem_of_cons in Hx as [->|Hx];
            [split; apply Qle_bool_iff; reflexivity|]).
    by apply elem_of_nil in Hx.
  - exists st. split; [exact E|].
    rewrite Havg, Hexact; [|apply Qle_bool_iff; by vm_compute|].
    + vm_compute in E. injection E as <-. by repeat split.
    + apply Qnot_le_lt. intros H. apply Qle_bool_iff in H. by vm_compute in H.
Defined.

(** C4 as the specification states it fails on prices that are not integers:
    the rounded average of the single price 2.5 is 3, above the maximum. *)
Lemma calcStats_avg_exceeds_max :
  exists st, calcStats [5 # 2]%Q = Some st /\
    stat_avg st = Finite 3 /\ stat_max st = (5 # 2)%Q /\
    ~ (3 <= stat_max st)%Q.
Proof.
  eexists. split; [by vm_compute|]. simpl. split; [done|]. split; [done|].
  intros H. by vm_compute in H.
Qed.

(** The average is rounded from the mean of the doubles, not from the exact
    mean: for the prices 105.24 and 385.76 the doubles add up to 491 and the
    average is 246, while the exact mean of the two doubles lies just below
    245.5. *)
Lemma calcStats_avg_of_doubles :
  let P := [RN (38576 # 100); RN (10524 # 100)]%Q in
  (exists st, calcStats P = Some st /\ stat_avg st = Finite 246) /\
  round_half_up (mean P) = 245%Q.
Proof. split; [eexists; split|]; by vm_compute. Qed.

(** Beyond the doubles the sum is infinite, and so is the average. *)
Lemma calcStats_avg_overflow :
  exists st, calcStats [pow2 1023; pow2 1023] = Some st /\
    stat_avg st = Infinity false.
Proof. eexists. split; by vm_compute. Qed.

(* ----------------------------------------------------------------- *)
(** ** [parsePrice] *)

Section ParsePrice.
Local Open Scope Q_scope.

(** What [parsePrice] does with the text once white space is gone. *)
Definition price_of_cleaned (cleaned : list N) : Q :=
  match match_price_run cleaned with
  | None => 0
  | Some m =>
      match parseFloat (replace_first_comma (remove_thousands m)) with
      | Some n => price_or_zero n
      | None => 0
      end
  end.

Lemma parsePrice_cleaned text :
  parsePrice text = price_of_cleaned (strip_spaces text).
Proof. by destruct text. Qed.

Lemma strip_spaces_idemp s : strip_spaces (strip_spaces s) = strip_spaces s.
Proof.
  unfold strip_spaces. induction s as [|c s IH]; simpl; [done|].
  destruct (is_space c) eqn:E; simpl; [done|]. by rewrite E, IH.
Qed.

Lemma strip_spaces_app s t :
  strip_spaces (s ++ t) = strip_spaces s ++ strip_spaces t.
Proof. apply List.filter_app. Qed.

Lemma price_char_not_space c : is_price_char c = true -> is_space c = false.
Proof.
  unfold is_price_char, is_digit, is_space, comma, dot.
  rewrite !orb_true_iff, andb_true_iff, !N.leb_le, !N.eqb_eq.
  intros H. rewrite !orb_false_iff, !andb_false_iff, !N.leb_gt, !N.eqb_neq.
  lia.
Qed.

Lemma digit_price_char c : is_digit c = true -> is_price_char c = true.
Proof. unfold is_price_char. by intros ->. Qed.

Lemma digit_not_comma c : is_digit c = true -> (c =? comma)%N = false.
Proof.
  unfold is_digit, comma. rewrite andb_true_iff, !N.leb_le, N.eqb_neq. lia.
Qed.

Lemma strip_spaces_price_chars s :
  forallb is_price_char s = true -> strip_spaces s = s.
Proof.
  unfold strip_spaces. induction s as [|c s IH]; simpl; [done|].
  rewrite andb_true_iff. intros [Hc Hs].
  by rewrite (price_char_not_space _ Hc), IH.
Qed.

Lemma forallb_digit_price s :
  forallb is_digit s = true -> forallb is_price_char s = true.
Proof.
  induction s as [|c s IH]; simpl; [done|].
  rewrite !andb_true_iff. intros [Hc Hs].
  split; [by apply digit_price_char|by apply IH].
Qed.

Lemma three_digits_follow_strip t :
  three_digits_follow t = true -> three_digits_follow (strip_spaces t) = true.
Proof.
  destruct t as [|a [|b [|c t]]]; simpl; try done.
  rewrite !andb_true_iff. intros [[Ha Hb] Hc]. unfold strip_spaces. simpl.
  rewrite !price_char_not_space by by apply digit_price_char.
  simpl. by rewrite Ha, Hb, Hc.
Qed.

Lemma three_digits_follow_take t :
  three_digits_follow t = true ->
  three_digits_follow (take_while is_price_char t) = true.
Proof.
  destruct t as [|a [|b [|c t]]]; simpl; try done.
  rewrite !andb_true_iff. intros [[Ha Hb] Hc].
  rewrite !digit_price_char by done. simpl. by rewrite Ha, Hb, Hc.
Qed.

Lemma match_price_run_skip pre s :
  forallb (fun c => negb (is_price_char c)) pre = true ->
  match_price_run (strip_spaces pre ++ s) = match_price_run s.
Proof.
  unfold strip_spaces. induction pre as [|c pre IH]; simpl; [done|].
  rewrite andb_true_iff, negb_true_iff. intros [Hc Hpre].
  destruct (is_space c); simpl; [by apply IH|]. rewrite Hc. by apply IH.
Qed.

Lemma match_price_run_head c s :
  is_price_char c = true ->
  match_price_run (c :: s) = Some (take_while is_price_char (c :: s)).
Proof. simpl. by intros ->. Qed.

Lemma take_while_app a s :
  forallb is_price_char a = true ->
  take_while is_price_char (a ++ s) = a ++ take_while is_price_char s.
Proof.
  induction a as [|c a IH]; simpl; [done|].
  rewrite andb_true_iff. intros [-> Ha]. by rewrite IH.
Qed.

Lemma take_while_all a :
  forallb is_price_char a = true -> take_while is_price_char a = a.
Proof.
  intros H. rewrite <- (app_nil_r a) at 1. rewrite take_while_app by done.
  apply app_nil_r.
Qed.

Lemma remove_thousands_digits a s :
  forallb is_digit a = true ->
  remove_thousands (a ++ s) = a ++ remove_thousands s.
Proof.
  induction a as [|c a IH]; simpl; [done|].
  rewrite andb_true_iff. intros [Hc Ha].
  by rewrite (digit_not_comma _ Hc), IH.
Qed.

Lemma replace_first_comma_digits a s :
  forallb is_digit a = true ->
  replace_first_comma (a ++ s) = a ++ replace_first_comma s.
Proof.
  induction a as [|c a IH]; simpl; [done|].
  rewrite andb_true_iff. intros [Hc Ha].
  by rewrite (digit_not_comma _ Hc), IH.
Qed.

Lemma price_run_of_digits_then a c s :
  forallb is_digit a = true -> is_price_char c = true ->
  match_price_run (a ++ c :: s)
  = Some (a ++ take_while is_price_char (c :: s)).
Proof.
  intros Ha Hc. destruct a as [|d a].
  - by apply match_price_run_head.
  - simpl in Ha. apply andb_true_iff in Ha as [Hd Ha].
    change ((d :: a) ++ c :: s) with (d :: (a ++ c :: s)).
    rewrite match_price_run_head by by apply digit_price_char.
    change (d :: a ++ c :: s) with ((d :: a) ++ c :: s).
    rewrite take_while_app; [done|]. simpl.
    by rewrite (digit_price_char _ Hd), forallb_digit_price.
Qed.

Lemma parsePrice_thousands_sep pre a t :
  forallb (fun c => negb (is_price_char c)) pre = true ->
  forallb is_digit a = true ->
  three_digits_follow t = true ->
  parsePrice (pre ++ a ++ comma :: t) = parsePrice (pre ++ a ++ t).
Proof.
  intros Hpre Ha Ht. rewrite !parsePrice_cleaned, !strip_spaces_app.
  change (comma :: t) with ([comma] ++ t). rewrite strip_spaces_app.
  rewrite (strip_spaces_price_chars a) by by apply forallb_digit_price.
  change (strip_spaces [comma]) with [comma].
  pose proof (three_digits_follow_strip _ Ht) as Ht'.
  destruct (strip_spaces t) as [|d t'] eqn:Et; [done|].
  assert (is_price_char d = true) as Hd.
  { destruct t' as [|? [|? ?]]; simpl in Ht'; try done.
    apply digit_price_char. by destruct (is_digit d). }
  unfold price_of_cleaned. rewrite !match_price_run_skip by done.
  simpl app. rewrite !price_run_of_digits_then by done.
  rewrite !remove_thousands_digits by done.
  do 2 f_equal. change (take_while is_price_char (comma :: d :: t'))
    with (comma :: take_while is_price_char (d :: t')).
  change (remove_thousands (comma :: ?x)) with
    (if three_digits_follow x then remove_thousands x
     else comma :: remove_thousands x).
  by rewrite (three_digits_follow_take _ Ht').
Qed.

Lemma remove_thousands_short b :
  forallb is_digit b = true -> remove_thousands b = b.
Proof.
  intros H. rewrite <- (app_nil_r b) at 1.
  rewrite remove_thousands_digits by done. apply app_nil_r.
Qed.

Lemma replace_first_comma_none b :
  forallb is_digit b = true -> replace_first_comma b = b.
Proof.
  intros H. rewrite <- (app_nil_r b) at 1.
  rewrite replace_first_comma_digits by done. apply app_nil_r.
Qed.

Lemma match_price_run_skip_raw pre s :
  forallb (fun c => negb (is_price_char c)) pre = true ->
  match_price_run (pre ++ s) = match_price_run s.
Proof.
  induction pre as [|c pre IH]; simpl; [done|].
  rewrite andb_true_iff, negb_true_iff. intros [-> Hpre]. by apply IH.
Qed.

(** What may follow the digits after a decimal comma: nothing, or a
    character that is neither a digit nor a comma that three digits follow
    (that comma is dropped, and its digits carry the fraction on). *)
Definition ends_number (rest : list N) : bool :=
  match rest with
  | [] => true
  | c :: r => negb (is_digit c) && negb ((c =? comma)%N && three_digits_follow r)
  end.

Definition starts_without_digit (s : list N) : bool :=
  match s with
  | [] => true
  | c :: _ => negb (is_digit c)
  end.

Lemma not_price_char_not_digit c : is_price_char c = false -> is_digit c = false.
Proof. unfold is_price_char. by destruct (is_digit c). Qed.

Lemma three_digits_follow_take_eq r :
  three_digits_follow (take_while is_price_char r) = three_digits_follow r.
Proof.
  destruct r as [|x [|y [|z r]]]; simpl; [done|..].
  - by destruct (is_price_char x).
  - destruct (is_price_char x) eqn:Hx; [by destruct (is_price_char y)|done].
  - destruct (is_price_char x) eqn:Hx; simpl.
    + destruct (is_price_char y) eqn:Hy; simpl.
      * destruct (is_price_char z) eqn:Hz; simpl; [done|].
        by rewrite (not_price_char_not_digit z Hz), andb_false_r.
      * by rewrite (not_price_char_not_digit y Hy), andb_false_r.
    + by rewrite (not_price_char_not_digit x Hx).
Qed.

Lemma three_digits_follow_short b r :
  (length b < 3)%nat -> starts_without_digit r = true ->
  three_digits_follow (b ++ r) = false.
Proof.
  intros Hlen Hr. destruct b as [|x [|y [|z b]]]; simpl in *; [| | |lia].
  - destruct r as [|c [|? [|? ?]]]; simpl in *; try done;
      apply negb_true_iff in Hr; by rewrite Hr.
  - destruct r as [|c [|? ?]]; simpl in *; try done;
      apply negb_true_iff in Hr; by rewrite Hr, andb_false_r.
  - destruct r as [|c ?]; simpl in *; try done.
    apply negb_true_iff in Hr. by rewrite Hr, andb_false_r.
Qed.

Lemma take_while_digit_app b r :
  forallb is_digit b = true -> starts_without_digit r = true ->
  take_while is_digit (b ++ r) = b.
Proof.
  intros Hb Hr. induction b as [|c b IH]; simpl in *.
  - destruct r as [|c r]; [done|]. simpl in *.
    apply negb_true_iff in Hr. by rewrite Hr.
  - apply andb_true_iff in Hb as [-> Hb]. by rewrite IH.
Qed.

Lemma drop_while_digit_app a c r :
  forallb is_digit a = true -> is_digit c = false ->
  drop_while is_digit (a ++ c :: r) = c :: r.
Proof.
  intros Ha Hc. induction a as [|d a IH]; simpl in *; [by rewrite Hc|].
  apply andb_true_iff in Ha as [-> Ha]. by apply IH.
Qed.

Lemma dot_not_digit : is_digit dot = false.
Proof. reflexivity. Qed.

(** [parseFloat] stops where the fraction digits end. *)
Lemma parseFloat_decimal a b r :
  forallb is_digit a = true -> forallb is_digit b = true ->
  starts_without_digit r = true ->
  parseFloat (a ++ dot :: b ++ r)
  = match a, b with
    | [], [] => None
    | _, _ => Some (rounded (decimal_value a b))
    end.
Proof.
  intros Ha Hb Hr. unfold parseFloat.
  assert (take_while is_digit (a ++ dot :: b ++ r) = a) as ->.
  { apply (take_while_digit_app a (dot :: b ++ r)); done. }
  rewrite (drop_while_digit_app a dot (b ++ r)) by done.
  rewrite N.eqb_refl. by rewrite (take_while_digit_app b r).
Qed.

Lemma remove_thousands_ends rest :
  ends_number rest = true ->
  starts_without_digit (remove_thousands (take_while is_price_char rest)) = true.
Proof.
  destruct rest as [|c r]; [done|]. simpl.
  rewrite andb_true_iff, !negb_true_iff. intros [Hc Hsep].
  destruct (is_price_char c); [|done]. simpl.
  rewrite three_digits_follow_take_eq, Hsep. simpl. by rewrite Hc.
Qed.

Lemma starts_without_digit_price r :
  starts_without_digit r = true ->
  starts_without_digit (take_while is_price_char r) = true.
Proof.
  destruct r as [|c r]; [done|]. simpl. by destruct (is_price_char c).
Qed.

(** The price that a run of price characters gives. *)
Definition price_of_run (m : list N) : Q :=
  match parseFloat (replace_first_comma (remove_thousands m)) with
  | Some n => price_or_zero n
  | None => 0
  end.

Lemma price_of_cleaned_run pre a c s :
  forallb (fun c => negb (is_price_char c)) pre = true ->
  forallb is_digit a = true -> is_price_char c = true ->
  price_of_cleaned (pre ++ a ++ c :: s)
  = price_of_run (a ++ take_while is_price_char (c :: s)).
Proof.
  intros Hpre Ha Hc. unfold price_of_cleaned.
  by rewrite match_price_run_skip_raw, price_run_of_digits_then.
Qed.

Lemma comma_price_char : is_price_char comma = true.
Proof. reflexivity. Qed.

Lemma dot_price_char : is_price_char dot = true.
Proof. reflexivity. Qed.

(** A comma after the leading digits that fewer than three digits follow is
    the decimal point, whatever comes after the number. *)
Lemma parsePrice_decimal_comma text pre a b rest :
  strip_spaces text = pre ++ a ++ comma :: b ++ rest ->
  forallb (fun c => negb (is_price_char c)) pre = true ->
  forallb is_digit a = true ->
  forallb is_digit b = true ->
  (length b < 3)%nat ->
  ends_number rest = true ->
  parsePrice text = parsePrice (a ++ dot :: b) /\
  parsePrice text
  = match parseFloat (a ++ dot :: b) with
    | Some n => price_or_zero n
    | None => 0
    end.
Proof.
  intros Htext Hpre Ha Hb Hlen Hrest.
  assert (parseFloat (a ++ dot :: b)
          = match a, b with
            | [], [] => None
            | _, _ => Some (rounded (decimal_value a b))
            end) as Hplain.
  { rewrite <- (app_nil_r b) at 1. by apply parseFloat_decimal. }
  assert (parsePrice text
          = match parseFloat (a ++ dot :: b) with
            | Some n => price_or_zero n
            | None => 0
            end) as Hleft.
  { rewrite parsePrice_cleaned, Htext.
    rewrite (price_of_cleaned_run pre a comma (b ++ rest))
      by (done || apply comma_price_char).
    unfold price_of_run.
    change (take_while is_price_char (comma :: b ++ rest))
      with (comma :: take_while is_price_char (b ++ rest)).
    rewrite (take_while_app b rest) by by apply forallb_digit_price.
    rewrite remove_thousands_digits by done.
    change (remove_thousands (comma :: ?x)) with
      (if three_digits_follow x then remove_thousands x
       else comma :: remove_thousands x).
    rewrite three_digits_follow_short;
      [|done|apply starts_without_digit_price;
             destruct rest; [done|]; simpl in *;
             by apply andb_true_iff in Hrest as [-> _]].
    rewrite replace_first_comma_digits by done.
    change (replace_first_comma (comma :: ?x)) with (dot :: x).
    rewrite remove_thousands_digits by done.
    rewrite (parseFloat_decimal a b) by (done || by apply remove_thousands_ends).
    by rewrite Hplain. }
  split; [|exact Hleft].
  rewrite Hleft, parsePrice_cleaned.
  rewrite strip_spaces_price_chars.
  2:{ rewrite forallb_app. cbn [forallb].
      by rewrite dot_price_char, !forallb_digit_price. }
  rewrite <- (app_nil_l (a ++ dot :: b)).
  rewrite (price_of_cleaned_run [] a dot b) by (done || apply dot_price_char).
  unfold price_of_run.
  rewrite (take_while_all (dot :: b)).
  2:{ cbn [forallb]. by rewrite dot_price_char, forallb_digit_price. }
  rewrite remove_thousands_digits by done.
  assert (remove_thousands (dot :: b) = dot :: remove_thousands b) as ->
    by reflexivity.
  rewrite (remove_thousands_short b) by done.
  rewrite replace_first_comma_digits by done.
  assert (replace_first_comma (dot :: b) = dot :: replace_first_comma b) as ->
    by reflexivity.
  by rewrite (replace_first_comma_none b).
Qed.

Lemma parsePrice_range text :
  parsePrice text = 0 \/ (1 < parsePrice text /\ parsePrice text < 999999).
Proof.
  rewrite parsePrice_cleaned. unfold price_of_cleaned.
  destruct (match_price_run _); [|by left].
  destruct (parseFloat _) as [[n|]|]; [|by left..]. simpl.
  destruct (Qlt_le_dec 1 n); [|by left].
  destruct (Qlt_le_dec n 999999); [|by left].
  by right.
Qed.
End ParsePrice.

(** C5, as the code has it.  [parsePrice] satisfies the vectors
    ["1,234.56"] (1234.56, the double), ["abc"] (0) and ["0.5"] (0); white
    space in the text is ignored; a comma after the leading digits of the
    number that at least three digits follow is dropped as a thousands
    separator; a comma after the leading digits that fewer than three digits
    follow is read as the decimal point, whatever text comes after the number:
    the price is the double nearest to the decimal number, if that double
    lies strictly between 1 and 999,999, and 0 otherwise; and every result is
    either 0 or a value strictly between 1 and 999,999.  The vector
    ["1,234.56"] is stated on the double that the literal [1234.56]
    denotes. *)
Theorem parsePrice_spec :
  (parsePrice (str "1,234.56") = RN (123456 # 100) /\
   (parsePrice (str "abc") == 0)%Q /\
   (parsePrice (str "0.5") == 0)%Q) /\
  (forall text, parsePrice (strip_spaces text) = parsePrice text) /\
  (forall pre a t,
     forallb (fun c => negb (is_price_char c)) pre = true ->
     forallb is_digit a = true ->
     three_digits_follow t = true ->
     parsePrice (pre ++ a ++ comma :: t) = parsePrice (pre ++ a ++ t)) /\
  (forall text pre a b rest,
     strip_spaces text = pre ++ a ++ comma :: b ++ rest ->
     forallb (fun c => negb (is_price_char c)) pre = true ->
     forallb is_digit a = true ->
     forallb is_digit b = true ->
     (length b < 3)%nat ->
     ends_number rest = true ->
     parsePrice text = parsePrice (a ++ dot :: b) /\
     parsePrice text
     = match a, b with
       | [], [] => 0%Q
       | _, _ => price_or_zero (rounded (decimal_value a b))
       end) /\
  (forall text,
     parsePrice text = 0%Q \/
     (1 < parsePrice text)%Q /\ (parsePrice text < 999999)%Q).
Proof.
  split; [by vm_compute|].
  split; [intros text; by rewrite !parsePrice_cleaned, strip_spaces_idemp|].
  split; [apply parsePrice_thousands_sep|].
  split; [|apply parsePrice_range].
  intros text pre a b rest Htext Hpre Ha Hb Hlen Hrest.
  destruct (parsePrice_decimal_comma text pre a b rest) as [H1 H2]; try done.
  split; [done|]. rewrite H2.
  rewrite <- (app_nil_r b) at 1. rewrite parseFloat_decimal by done.
  by destruct a, b.
Qed.

(** The general parts of C5 at concrete texts: the comma of ["€ 1,234"] is a
    thousands separator, the comma of ["12,50 kr"] a decimal point. *)
Lemma parsePrice_spec_witness :
  parsePrice (str "€ 1,234") = parsePrice (str "€ 1234") /\
  parsePrice (str "12,50 kr") = parsePrice (str "12.50") /\
  (parsePrice (str "12,50 kr") == 25 # 2)%Q.
Proof.
  destruct parsePrice_spec as (_ & _ & Hthousands & Hdecimal & _). split.
  - apply (Hthousands (str "€ ") (str "1") (str "234")); reflexivity.
  - destruct (Hdecimal (str "12,50 kr") [] (str "12") (str "50") (str "kr"))
      as [H1 H2]; [reflexivity..|simpl; lia|reflexivity|].
    split; [exact H1|]. rewrite H2. by vm_compute.
Defined.

(** C5 as the specification states it fails twice.  The vector ["1.234,56"]
    is read as 1.234: no dot is ever taken for a thousands separator, and
    [parseFloat] stops at the second dot.  And a comma is dropped as soon as
    three digits follow it, also when more than three do: ["1,2345"] is
    12345, not 1.2345. *)
Lemma parsePrice_vector_fails :
  parsePrice (str "1.234,56") = RN (1234 # 1000) /\
  ~ (parsePrice (str "1.234,56") == RN (123456 # 100))%Q /\
  (parsePrice (str "1,2345") == 12345)%Q /\
  ~ (parsePrice (str "1,2345") == RN (12345 # 10000))%Q.
Proof. by vm_compute. Qed.

(** The bounds are tested on the double: the text ["999998.99999999999"] is
    read as 999999 and gives no price. *)
Lemma parsePrice_rounds_to_bound :
  parseFloat (str "999998.99999999999") = Some (Finite 999999) /\
  (parsePrice (str "999998.99999999999") == 0)%Q.
Proof. by vm_compute. Qed.

(* ----------------------------------------------------------------- *)
(** ** [esc] *)

Section Esc.
(** The entity that stands for a character, or the character itself. *)
Definition entity (c : N) : list N :=
  if (c =? char_amp)%N then str "&amp;"
  else if (c =? char_lt)%N then str "&lt;"
  else if (c =? char_gt)%N then str "&gt;"
  else if (c =? char_quot)%N then str "&quot;"
  else [c].

(** A character that would open or close markup or an attribute value. *)
Definition is_markup (c : N) : bool :=
  ((c =? char_lt) || (c =? char_gt) || (c =? char_quot))%N.

Lemma flat_map_flat_map {A B C} (f : A -> list B) (g : B -> list C) l :
  flat_map g (flat_map f l) = flat_map (fun x => flat_map g (f x)) l.
Proof.
  induction l as [|x l IH]; simpl; [done|].
  by rewrite flat_map_app, IH.
Qed.

Lemma esc_char c :
  replace_all char_quot (str "&quot;")
    (replace_all char_gt (str "&gt;")
       (replace_all char_lt (str "&lt;")
          (replace_all char_amp (str "&amp;") [c]))) = entity c.
Proof.
  unfold entity, replace_all. simpl flat_map at 4.
  destruct (N.eqb_spec c char_amp) as [->|Hamp]; [done|].
  simpl. destruct (N.eqb_spec c char_lt) as [->|Hlt]; [done|].
  simpl. destruct (N.eqb_spec c char_gt) as [->|Hgt]; [done|].
  simpl. by destruct (N.eqb_spec c char_quot) as [->|Hquot].
Qed.

Lemma esc_entities s :
  replace_all char_quot (str "&quot;")
    (replace_all char_gt (str "&gt;")
       (replace_all char_lt (str "&lt;")
          (replace_all char_amp (str "&amp;") s))) = flat_map entity s.
Proof.
  induction s as [|c s IH]; [done|].
  change (c :: s) with ([c] ++ s).
  unfold replace_all in *. rewrite !flat_map_app, IH.
  f_equal. pose proof (esc_char c) as H. unfold replace_all in H.
  rewrite H. simpl. by rewrite app_nil_r.
Qed.

Lemma entity_no_markup c x : x ∈ entity c -> is_markup x = false.
Proof.
  unfold entity.
  destruct (N.eqb_spec c char_amp); [|destruct (N.eqb_spec c char_lt);
    [|destruct (N.eqb_spec c char_gt); [|destruct (N.eqb_spec c char_quot)]]].
  1-4: intros H; vm_compute in H; repeat (apply elem_of_cons in H as [->|H]; [done|]);
       by apply elem_of_nil in H.
  intros ->%list_elem_of_singleton. unfold is_markup.
  rewrite !orb_false_iff, !N.eqb_neq. done.
Qed.
End Esc.

(** C10.  For every input value, [esc] returns a string with no raw [<],
    [>] or ["]; a falsy input gives the empty string; and for a truthy input
    the result is the stringified input with every [&], [<], [>] and ["]
    replaced by its HTML entity and every other character kept. *)
Theorem esc_spec (v : value) :
  (forall c, c ∈ esc v -> c <> char_lt /\ c <> char_gt /\ c <> char_quot) /\
  (truthy v = false -> esc v = []) /\
  (truthy v = true -> esc v = flat_map entity (String_of v)).
Proof.
  assert (truthy v = true -> esc v = flat_map entity (String_of v)) as Htrue.
  { intros Ht. unfold esc. rewrite Ht. simpl. apply esc_entities. }
  assert (truthy v = false -> esc v = []) as Hfalse.
  { intros Hf. unfold esc. by rewrite Hf. }
  split; [|done].
  intros c Hc. destruct (truthy v) eqn:Ht.
  - rewrite Htrue in Hc by done. apply list_elem_of_In, in_flat_map in Hc.
    destruct Hc as (x & _ & Hx). apply list_elem_of_In in Hx.
    apply entity_no_markup in Hx. unfold is_markup in Hx.
    rewrite !orb_false_iff, !N.eqb_neq in Hx. tauto.
  - rewrite Hfalse in Hc by done. by apply elem_of_nil in Hc.
Qed.

(** C10 on a scraped hotel name that carries markup. *)
Lemma esc_spec_witness :
  esc (VString (str "<b>R&B" ++ char_quot :: str "</b>"))
  = str "&lt;b&gt;R&amp;B&quot;&lt;/b&gt;" /\
  esc (VString []) = [] /\ esc VNull = [].
Proof.
  destruct (esc_spec (VString (str "<b>R&B" ++ char_quot :: str "</b>")))
    as (_ & _ & H1).
  destruct (esc_spec (VString [])) as (_ & H2 & _).
  destruct (esc_spec VNull) as (_ & H3 & _).
  split; [by rewrite H1|]. split; [by apply H2|by apply H3].
Defined.

(* ----------------------------------------------------------------- *)
(** ** The detail merger *)

Section Trim.
Lemma drop_spaces_suffix s : exists w, s = w ++ drop_spaces s.
Proof.
  induction s as [|c s [w IH]]; simpl; [by exists []|].
  destruct (is_space c); [|by exists []].
  exists (c :: w). simpl. by f_equal.
Qed.

Lemma drop_spaces_head s c r :
  drop_spaces s = c :: r -> is_space c = false.
Proof.
  induction s as [|d s IH]; simpl; [done|].
  destruct (is_space d) eqn:E; [done|]. by intros [= <- _].
Qed.

Lemma drop_spaces_fixed c r :
  is_space c = false -> drop_spaces (c :: r) = c :: r.
Proof. simpl. by intros ->. Qed.

Lemma drop_spaces_idemp s : drop_spaces (drop_spaces s) = drop_spaces s.
Proof.
  destruct (drop_spaces s) as [|c r] eqn:E; [done|].
  apply drop_spaces_fixed. by eapply drop_spaces_head.
Qed.

(** [trim] is idempotent. *)
Lemma trim_idemp s : trim (trim s) = trim s.
Proof.
  unfold trim. set (u := drop_spaces s). set (v := drop_spaces (rev u)).
  assert (drop_spaces (rev v) = rev v) as ->.
  { destruct (drop_spaces_suffix (rev u)) as [w Hw]. fold v in Hw.
    apply (f_equal (@rev N)) in Hw. rewrite rev_involutive, rev_app_distr in Hw.
    destruct (rev v) as [|c r] eqn:Ev; [done|].
    apply drop_spaces_fixed. apply (drop_spaces_head s c (r ++ rev w)).
    fold u. by rewrite Hw. }
  rewrite rev_involutive. unfold v. by rewrite drop_spaces_idemp.
Qed.
End Trim.

Section MergeStrings.
Variable toLowerCase : list N -> list N.

Local Abbreviation add := (add_unique toLowerCase).
Local Abbreviation keys := (fmap (M := list) toLowerCase).

(** An item adds nothing when it has no text or its key was seen. *)
Definition covered (seen : gset (list N)) (item : value) : Prop :=
  trimmed_text item = [] \/ toLowerCase (trimmed_text item) ∈ seen.

Lemma is_empty_true {A} (l : list A) : is_empty l = true <-> l = [].
Proof. by destruct l. Qed.

Lemma is_empty_false {A} (l : list A) : is_empty l = false <-> l <> [].
Proof. by destruct l. Qed.

Lemma add_unique_seen_mono st item k :
  k ∈ st.2 -> k ∈ (add st item).2.
Proof.
  destruct st as [merged seen]. unfold add_unique. simpl.
  destruct (is_empty _); [done|]. destruct (decide _); [done|].
  simpl. set_solver.
Qed.

Lemma add_unique_covers st item : covered (add st item).2 item.
Proof.
  destruct st as [merged seen]. unfold add_unique, covered.
  destruct (is_empty (trimmed_text item)) eqn:E.
  { left. by apply is_empty_true. }
  right. destruct (decide _); simpl; set_solver.
Qed.

Lemma add_unique_noop st item : covered st.2 item -> add st item = st.
Proof.
  destruct st as [merged seen]. unfold add_unique, covered. simpl.
  intros [->|H]; [done|]. destruct (is_empty _); [done|].
  by rewrite decide_True.
Qed.

Lemma fold_add_unique_seen_mono l st k :
  k ∈ st.2 -> k ∈ (fold_left add l st).2.
Proof.
  revert st. induction l as [|x l IH]; intros st H; simpl; [done|].
  by apply IH, add_unique_seen_mono.
Qed.

Lemma fold_add_unique_covers l st item :
  item ∈ l -> covered (fold_left add l st).2 item.
Proof.
  revert st. induction l as [|x l IH]; intros st H; simpl.
  { by apply elem_of_nil in H. }
  apply elem_of_cons in H as [->|H]; [|by apply IH].
  destruct (add_unique_covers st x) as [He|Hk]; [by left|].
  right. by apply fold_add_unique_seen_mono.
Qed.

Lemma fold_add_unique_noop l st :
  (forall item, item ∈ l -> covered st.2 item) -> fold_left add l st = st.
Proof.
  induction l as [|x l IH]; intros H; simpl; [done|].
  rewrite add_unique_noop by (apply H; left).
  apply IH. intros item Hi. apply H. by right.
Qed.

(** Merging a list of strings with itself adds nothing to it. *)
Lemma mergeUniqueStrings_self s :
  mergeUniqueStrings toLowerCase s s = mergeUniqueStrings toLowerCase s [].
Proof.
  unfold mergeUniqueStrings. simpl. f_equal.
  apply fold_add_unique_noop. intros item Hi.
  by apply fold_add_unique_covers.
Qed.

(** The lists [mergeUniqueStrings] builds: trimmed texts that are not
    empty, with keys that differ. *)
Definition normal_strings (l : list (list N)) : Prop :=
  Forall (fun t => trim t = t /\ t <> []) l /\ NoDup (keys l).

Definition strings_inv (st : list (list N) * gset (list N)) : Prop :=
  normal_strings st.1 /\ forall k, k ∈ st.2 <-> k ∈ keys st.1.

Lemma trimmed_text_trim item : trim (trimmed_text item) = trimmed_text item.
Proof. destruct item; try done. apply trim_idemp. Qed.

Lemma add_unique_inv st item : strings_inv st -> strings_inv (add st item).
Proof.
  destruct st as [merged seen]. intros [[Hall Hnd] Hseen]. simpl in *.
  unfold add_unique. destruct (is_empty _) eqn:E; [done|].
  destruct (decide _) as [Hin|Hnin]; [done|].
  apply is_empty_false in E. split; [split|]; simpl.
  - apply Forall_app. split; [done|]. constructor; [|done].
    split; [apply trimmed_text_trim|done].
  - rewrite fmap_app. apply NoDup_app. split; [done|]. split.
    + intros k Hk ->%list_elem_of_singleton. by apply Hnin, Hseen.
    + apply NoDup_singleton.
  - intros k. rewrite fmap_app, elem_of_app, elem_of_union, Hseen.
    simpl. rewrite list_elem_of_singleton, elem_of_singleton. tauto.
Qed.

Lemma fold_add_unique_inv l st :
  strings_inv st -> strings_inv (fold_left add l st).
Proof.
  revert st. induction l as [|x l IH]; intros st H; simpl; [done|].
  by apply IH, add_unique_inv.
Qed.

Lemma strings_inv_empty : strings_inv ([], ∅).
Proof.
  split; [split|]; simpl; [constructor|constructor|]. set_solver.
Qed.

Lemma mergeUniqueStrings_normal a b :
  normal_strings (mergeUniqueStrings toLowerCase a b).
Proof.
  unfold mergeUniqueStrings.
  apply (fold_add_unique_inv b), (fold_add_unique_inv a), strings_inv_empty.
Qed.

Lemma mergeUniqueStrings_keys a b item :
  item ∈ a ++ b ->
  trimmed_text item = [] \/
  toLowerCase (trimmed_text item) ∈ keys (mergeUniqueStrings toLowerCase a b).
Proof.
  unfold mergeUniqueStrings. rewrite <- fold_left_app. intros Hi.
  pose proof (fold_add_unique_inv (a ++ b) _ strings_inv_empty) as [_ Hs].
  destruct (fold_add_unique_covers (a ++ b) ([], ∅) item Hi) as [?|Hk];
    [by left|right]. by apply Hs.
Qed.

Lemma fold_add_unique_normal l st :
  strings_inv st -> normal_strings (st.1 ++ l) ->
  (fold_left add (VString <$> l) st).1 = st.1 ++ l.
Proof.
  revert st. induction l as [|t l IH]; intros st Hinv Hn.
  { simpl. by rewrite app_nil_r. }
  change (fold_left add (VString <$> t :: l) st)
    with (fold_left add (VString <$> l) (add st (VString t))).
  destruct st as [merged seen]. simpl in Hn.
  destruct Hn as [Hall Hnd]. pose proof Hall as Hall0.
  apply Forall_app in Hall as [_ Hall].
  apply Forall_cons in Hall as [[Ht Hne] _].
  assert (add (merged, seen) (VString t) = (merged ++ [t], {[toLowerCase t]} ∪ seen)) as Hadd.
  { unfold add_unique. simpl. rewrite Ht.
    apply is_empty_false in Hne. rewrite Hne.
    rewrite decide_False; [done|]. intros Hin.
    destruct Hinv as [_ Hseen]. apply Hseen in Hin. simpl in Hin.
    rewrite fmap_app in Hnd. apply NoDup_app in Hnd as (_ & Hd & _).
    apply (Hd _ Hin). simpl. left. }
  pose proof (add_unique_inv _ (VString t) Hinv) as Hinv'.
  rewrite Hadd in *. rewrite IH.
  - simpl. by rewrite <- app_assoc.
  - done.
  - simpl. rewrite <- app_assoc. by split.
Qed.

(** A normal list absorbs every list whose keys it holds. *)
Lemma mergeUniqueStrings_absorb e f :
  normal_strings e ->
  (forall t, t ∈ f -> trim t = [] \/ toLowerCase (trim t) ∈ keys e) ->
  mergeUniqueStrings toLowerCase (VString <$> e) (VString <$> f) = e.
Proof.
  intros Hn Hf. unfold mergeUniqueStrings.
  pose proof (fold_add_unique_normal e ([], ∅) strings_inv_empty Hn) as He.
  pose proof (fold_add_unique_inv (VString <$> e) _ strings_inv_empty) as [_ Hs].
  rewrite fold_add_unique_noop; [exact He|].
  intros item (t & -> & Ht)%list_elem_of_fmap. unfold covered. simpl.
  destruct (Hf t Ht) as [?|Hk]; [by left|right].
  apply Hs. by rewrite He.
Qed.
End MergeStrings.

Section MergeGroups.
Variable toLowerCase : list N -> list N.

Local Abbreviation ingest := (ingest_group toLowerCase).
Local Abbreviation keys := (fmap (M := list) toLowerCase).
Local Abbreviation merge_strings := (mergeUniqueStrings toLowerCase).
Local Abbreviation gstate := (gmap (list N) group * list (list N))%type.

Definition gname (g : raw_group) : list N := trimmed_text (raw_name g).
Definition gdesc (g : raw_group) : list N :=
  trimmed_text (raw_description g).
Definition gfacs (g : raw_group) : list (list N) :=
  merge_strings [] (raw_facilities g).

Definition groups_inv (st : gstate) : Prop :=
  forall key e, st.1 !! key = Some e ->
    normal_strings toLowerCase (group_facilities e).





Lemma normal_strings_elem l t :
  normal_strings toLowerCase l -> t ∈ l -> trim t = t /\ t <> [].
Proof.
  intros [Hall _] Ht. rewrite Forall_forall in Hall. by apply Hall.
Qed.


Lemma ingest_group_cases st g :
  (gname g = [] /\ ingest st g = st) \/
  (gname g <> [] /\ st.1 !! toLowerCase (gname g) = None /\
   ingest st g =
     (<[toLowerCase (gname g) := Group (gname g) (gdesc g) (gfacs g)]> st.1,
      st.2 ++ [toLowerCase (gname g)])) \/
  (exists e, gname g <> [] /\ st.1 !! toLowerCase (gname g) = Some e /\
   ingest st g =
     (<[toLowerCase (gname g) :=
          Group (group_name e)
            (if negb (is_empty (gdesc g))
                && (length (group_description e) <? length (gdesc g))%nat
             then gdesc g else group_description e)
            (merge_strings (VString <$> group_facilities e)
                           (VString <$> gfacs g))]> st.1,
      st.2)).
Proof.
  destruct st as [m order]. unfold ingest_group. fold (gname g).
  destruct (is_empty (gname g)) eqn:E.
  { left. by apply is_empty_true in E. }
  apply is_empty_false in E. right. simpl.
  destruct (m !! toLowerCase (gname g)) as [e|] eqn:Hm.
  - right. by exists e.
  - by left.
Qed.

Lemma ingest_group_inv st g : groups_inv st -> groups_inv (ingest st g).
Proof.
  intros Hinv.
  destruct (ingest_group_cases st g)
    as [[_ ->]|[(_ & _ & ->)|(e & _ & _ & ->)]]; [done|..];
    intros key e' He'; simpl in He';
    (apply lookup_insert_Some in He' as [[_ <-]|[_ He']];
     [apply mergeUniqueStrings_normal|by eapply Hinv]).
Qed.










End MergeGroups.

Section MergeArea.
Variable toLowerCase : list N -> list N.

Local Abbreviation ingest := (ingest_category toLowerCase).
Local Abbreviation add := (add_poi toLowerCase).
Local Abbreviation cstate := (gmap (list N) category * list (list N))%type.

Definition pname (p : raw_poi) : list N := trimmed_text (raw_poi_name p).
Definition pdist (p : raw_poi) : list N :=
  trimmed_text (raw_poi_distance p).
Definition cname (c : raw_category) : list N :=
  trimmed_text (raw_cat_name c).

(** The keys of the points of interest a category holds. *)
Definition pkeys (ps : list poi) : list (list N) :=
  (fun p => poi_key toLowerCase (poi_name p) (poi_distance p)) <$> ps.

Definition poi_covered (seen : gset (list N)) (p : raw_poi) : Prop :=
  pname p = [] \/ poi_key toLowerCase (pname p) (pdist p) ∈ seen.

Definition pois_inv (st : list poi * gset (list N)) : Prop :=
  forall k, k ∈ st.2 <-> k ∈ pkeys st.1.

Lemma add_poi_inv st p : pois_inv st -> pois_inv (add st p).
Proof.
  destruct st as [ps seen]. unfold add_poi, pois_inv. simpl. intros H.
  destruct (is_empty _); [done|]. destruct (decide _); [done|].
  simpl. intros k. unfold pkeys. rewrite fmap_app, elem_of_app.
  rewrite elem_of_union, H. simpl.
  rewrite list_elem_of_singleton, elem_of_singleton. tauto.
Qed.

Lemma add_poi_seen_mono st p k : k ∈ st.2 -> k ∈ (add st p).2.
Proof.
  destruct st as [ps seen]. unfold add_poi. simpl.
  destruct (is_empty _); [done|]. destruct (decide _); [done|].
  simpl. set_solver.
Qed.

Lemma add_poi_covers st p : poi_covered (add st p).2 p.
Proof.
  destruct st as [ps seen]. unfold add_poi, poi_covered.
  fold (pname p) (pdist p).
  destruct (is_empty (pname p)) eqn:E.
  { left. by apply is_empty_true. }
  right. destruct (decide _); simpl; set_solver.
Qed.


Lemma fold_add_poi_inv l st : pois_inv st -> pois_inv (fold_left add l st).
Proof.
  revert st. induction l as [|x l IH]; intros st H; simpl; [done|].
  by apply IH, add_poi_inv.
Qed.

Lemma fold_add_poi_seen_mono l st k :
  k ∈ st.2 -> k ∈ (fold_left add l st).2.
Proof.
  revert st. induction l as [|x l IH]; intros st H; simpl; [done|].
  by apply IH, add_poi_seen_mono.
Qed.

Lemma fold_add_poi_covers l st p :
  p ∈ l -> poi_covered (fold_left add l st).2 p.
Proof.
  revert st. induction l as [|x l IH]; intros st H; simpl.
  { by apply elem_of_nil in H. }
  apply elem_of_cons in H as [->|H]; [|by apply IH].
  destruct (add_poi_covers st x) as [He|Hk]; [by left|].
  right. by apply fold_add_poi_seen_mono.
Qed.


(** The [pois] of a category after one [ingest] of [c], from the [pois] it
    held before. *)
Definition merged_pois (old : list poi) (c : raw_category) : list poi :=
  (fold_left add (raw_pois c) (old, list_to_set (pkeys old))).1.

Lemma pois_inv_start old : pois_inv (old, list_to_set (pkeys old)).
Proof. intros k. simpl. apply elem_of_list_to_set. Qed.

Lemma merged_pois_mono old c k :
  k ∈ pkeys old -> k ∈ pkeys (merged_pois old c).
Proof.
  intros Hk. unfold merged_pois.
  apply (fold_add_poi_inv (raw_pois c) _ (pois_inv_start old)).
  apply fold_add_poi_seen_mono. simpl. by apply elem_of_list_to_set.
Qed.

Lemma merged_pois_covers old c p :
  p ∈ raw_pois c ->
  pname p = [] \/
  poi_key toLowerCase (pname p) (pdist p) ∈ pkeys (merged_pois old c).
Proof.
  intros Hp. unfold merged_pois.
  destruct (fold_add_poi_covers (raw_pois c) (old, list_to_set (pkeys old)) p Hp)
    as [?|Hk]; [by left|right].
  by apply (fold_add_poi_inv (raw_pois c) _ (pois_inv_start old)).
Qed.


Definition category_covered (st : cstate) (c : raw_category) : Prop :=
  cname c = [] \/
  exists e, st.1 !! toLowerCase (cname c) = Some e /\
    forall p, p ∈ raw_pois c ->
      pname p = [] \/
      poi_key toLowerCase (pname p) (pdist p) ∈ pkeys (pois e).

Definition categories_le (st st' : cstate) : Prop :=
  forall key e, st.1 !! key = Some e ->
    exists e', st'.1 !! key = Some e' /\
      forall k, k ∈ pkeys (pois e) -> k ∈ pkeys (pois e').

Lemma categories_le_refl st : categories_le st st.
Proof. intros key e He. by exists e. Qed.

Lemma categories_le_trans st1 st2 st3 :
  categories_le st1 st2 -> categories_le st2 st3 -> categories_le st1 st3.
Proof.
  intros H12 H23 key e He.
  destruct (H12 key e He) as (e2 & He2 & Hf2).
  destruct (H23 key e2 He2) as (e3 & He3 & Hf3).
  exists e3. split; [done|]. auto.
Qed.

Lemma ingest_category_cases st c :
  (cname c = [] /\ ingest st c = st) \/
  (cname c <> [] /\ st.1 !! toLowerCase (cname c) = None /\
   ingest st c =
     (<[toLowerCase (cname c) :=
          Category (cname c) (merged_pois [] c)]> st.1,
      st.2 ++ [toLowerCase (cname c)])) \/
  (exists e, cname c <> [] /\ st.1 !! toLowerCase (cname c) = Some e /\
   ingest st c =
     (<[toLowerCase (cname c) :=
          Category (cat_name e) (merged_pois (pois e) c)]> st.1,
      st.2)).
Proof.
  destruct st as [m order]. unfold ingest_category. fold (cname c).
  destruct (is_empty (cname c)) eqn:E.
  { left. by apply is_empty_true in E. }
  apply is_empty_false in E. right. simpl.
  destruct (m !! toLowerCase (cname c)) as [e|] eqn:Hm.
  - right. by exists e.
  - by left.
Qed.

Lemma ingest_category_le st c : categories_le st (ingest st c).
Proof.
  destruct (ingest_category_cases st c)
    as [[_ ->]|[(_ & Hnone & ->)|(e & _ & Hsome & ->)]].
  - apply categories_le_refl.
  - intros key e He. exists e. simpl. split; [|done].
    rewrite lookup_insert_ne; [done|congruence].
  - intros key e0 He0. simpl.
    destruct (decide (toLowerCase (cname c) = key)) as [<-|Hne].
    + rewrite Hsome in He0. injection He0 as <-.
      eexists. split; [apply lookup_insert_eq|]. simpl.
      apply merged_pois_mono.
    + exists e0. by rewrite lookup_insert_ne.
Qed.

Lemma ingest_category_covers st c : category_covered (ingest st c) c.
Proof.
  destruct (ingest_category_cases st c)
    as [[Hn ->]|[(_ & Hnone & ->)|(e & _ & Hsome & ->)]].
  - by left.
  - right. eexists. simpl. split; [apply lookup_insert_eq|]. simpl.
    apply merged_pois_covers.
  - right. eexists. simpl. split; [apply lookup_insert_eq|]. simpl.
    apply merged_pois_covers.
Qed.

Lemma category_covered_mono st st' c :
  categories_le st st' -> category_covered st c -> category_covered st' c.
Proof.
  intros Hle [Hn|(e & He & Hf)]; [by left|right].
  destruct (Hle _ _ He) as (e' & He' & Hf').
  exists e'. split; [done|]. intros p Hp.
  destruct (Hf p Hp) as [?|Hk]; [by left|right]. by apply Hf'.
Qed.


Lemma fold_ingest_category_le l st :
  categories_le st (fold_left ingest l st).
Proof.
  revert st. induction l as [|c l IH]; intros st; simpl.
  { apply categories_le_refl. }
  eapply categories_le_trans; [apply ingest_category_le|apply IH].
Qed.

Lemma fold_ingest_category_covers l st c :
  c ∈ l -> category_covered (fold_left ingest l st) c.
Proof.
  revert st. induction l as [|x l IH]; intros st Hc; simpl.
  { by apply elem_of_nil in Hc. }
  apply elem_of_cons in Hc as [->|Hc]; [|by apply IH].
  eapply category_covered_mono; [apply fold_ingest_category_le|].
  apply ingest_category_covers.
Qed.


End MergeArea.

(** *** The merged lists are normal, and normal lists are fixed points *)

Section MergeNormal.
Variable toLowerCase : list N -> list N.

Local Abbreviation keys := (fmap (M := list) toLowerCase).



Lemma elem_of_filter_list {A} (p : A -> bool) (l : list A) x :
  x ∈ List.filter p l <-> x ∈ l /\ p x = true.
Proof. rewrite !list_elem_of_In. apply filter_In. Qed.

Lemma elem_of_omap_lookup {A} (m : gmap (list N) A) (order : list (list N)) x :
  x ∈ omap (fun k => m !! k) order <-> exists k, k ∈ order /\ m !! k = Some x.
Proof. apply list_elem_of_omap. Qed.



(** **** Strings *)

Lemma mergeUniqueStrings_fixed l :
  normal_strings toLowerCase l ->
  mergeUniqueStrings toLowerCase (VString <$> l) (VString <$> l) = l.
Proof.
  intros Hn. apply mergeUniqueStrings_absorb; [done|].
  intros t Ht. right.
  destruct (normal_strings_elem toLowerCase l t Hn Ht) as [-> _].
  by apply list_elem_of_fmap_2.
Qed.

Lemma mergeUniqueStrings_nil_fixed l :
  normal_strings toLowerCase l ->
  mergeUniqueStrings toLowerCase [] (VString <$> l) = l.
Proof.
  intros Hn. unfold mergeUniqueStrings. simpl.
  by rewrite (fold_add_unique_normal toLowerCase l ([], ∅)
                (strings_inv_empty toLowerCase)).
Qed.

(** **** Facility groups *)

Definition group_key (g : group) : list N := toLowerCase (group_name g).

Definition normal_group (g : group) : Prop :=
  trim (group_name g) = group_name g /\ group_name g <> [] /\
  trim (group_description g) = group_description g /\
  normal_strings toLowerCase (group_facilities g).


Definition groups_inv' (st : gmap (list N) group * list (list N)) : Prop :=
  NoDup st.2 /\
  (forall key, key ∈ st.2 <-> is_Some (st.1 !! key)) /\
  forall key e, st.1 !! key = Some e -> group_key e = key /\ normal_group e.

Lemma ingest_group_inv' st g :
  groups_inv' st -> groups_inv' (ingest_group toLowerCase st g).
Proof.
  intros (Hnd & Hdom & Hent).
  destruct (ingest_group_cases toLowerCase st g)
    as [[_ ->]|[(Hne & Hnone & ->)|(e & Hne & Hsome & ->)]]; [done|..].
  - split; [|split]; simpl.
    + apply NoDup_app. split; [done|]. split; [|apply NoDup_singleton].
      intros k Hk ->%list_elem_of_singleton.
      apply Hdom in Hk as [? Hk]. congruence.
    + intros key. rewrite elem_of_app, list_elem_of_singleton, Hdom.
      rewrite lookup_insert_is_Some.
      destruct (decide (toLowerCase (gname g) = key)); intuition congruence.
    + intros key e He. apply lookup_insert_Some in He as [[<- <-]|[_ He]];
        [|by apply Hent].
      split; [done|]. unfold normal_group. simpl.
      split; [apply trimmed_text_trim|]. split; [done|].
      split; [apply trimmed_text_trim|apply mergeUniqueStrings_normal].
  - destruct (Hent _ _ Hsome) as (Hkey & Hname & Hnonempty & Hdesc & _).
    split; [|split]; simpl; [done| |].
    + intros key. rewrite Hdom, lookup_insert_is_Some.
      destruct (decide (toLowerCase (gname g) = key)) as [<-|];
        [|intuition congruence].
      split; [by left|by rewrite Hsome].
    + intros key e' He'. apply lookup_insert_Some in He' as [[<- <-]|[_ He']];
        [|by apply Hent].
      split; [done|]. unfold normal_group. simpl.
      split; [done|]. split; [done|].
      split; [|apply mergeUniqueStrings_normal].
      destruct (_ && _); [apply trimmed_text_trim|done].
Qed.

Lemma fold_ingest_group_inv' l st :
  groups_inv' st -> groups_inv' (fold_left (ingest_group toLowerCase) l st).
Proof.
  revert st. induction l as [|g l IH]; intros st H; simpl; [done|].
  by apply IH, ingest_group_inv'.
Qed.





(** **** Categories of points of interest *)

Definition category_key (c : category) : list N := toLowerCase (cat_name c).

Definition normal_poi (p : poi) : Prop :=
  trim (poi_name p) = poi_name p /\ poi_name p <> [] /\
  trim (poi_type p) = poi_type p /\
  trim (poi_distance p) = poi_distance p.

Definition normal_pois (ps : list poi) : Prop :=
  Forall normal_poi ps /\ NoDup (pkeys toLowerCase ps).

Definition normal_category (c : category) : Prop :=
  trim (cat_name c) = cat_name c /\ cat_name c <> [] /\
  normal_pois (pois c).


Definition pois_inv' (st : list poi * gset (list N)) : Prop :=
  normal_pois st.1 /\ pois_inv toLowerCase st.

Lemma add_poi_inv' st p : pois_inv' st -> pois_inv' (add_poi toLowerCase st p).
Proof.
  intros [[Hall Hnd] Hseen]. split; [|by apply add_poi_inv].
  destruct st as [ps seen]. unfold add_poi. simpl in *.
  destruct (is_empty _) eqn:E; [done|].
  destruct (decide _) as [Hin|Hnin]; [done|].
  apply is_empty_false in E. simpl. split.
  - apply Forall_app. split; [done|]. constructor; [|done].
    unfold normal_poi. simpl.
    split; [apply trimmed_text_trim|]. split; [done|].
    split; apply trimmed_text_trim.
  - unfold pkeys. rewrite fmap_app. apply NoDup_app. split; [done|].
    split; [|apply NoDup_singleton].
    intros k Hk ->%list_elem_of_singleton. simpl in Hnin.
    by apply Hnin, Hseen.
Qed.

Lemma fold_add_poi_inv' l st :
  pois_inv' st -> pois_inv' (fold_left (add_poi toLowerCase) l st).
Proof.
  revert st. induction l as [|x l IH]; intros st H; simpl; [done|].
  by apply IH, add_poi_inv'.
Qed.

Lemma merged_pois_normal old c :
  normal_pois old -> normal_pois (merged_pois toLowerCase old c).
Proof.
  intros Hold. unfold merged_pois.
  apply (fold_add_poi_inv' (raw_pois c)). split; [done|].
  apply pois_inv_start.
Qed.


Definition categories_inv' (st : gmap (list N) category * list (list N))
  : Prop :=
  NoDup st.2 /\
  (forall key, key ∈ st.2 <-> is_Some (st.1 !! key)) /\
  forall key e, st.1 !! key = Some e ->
    category_key e = key /\ normal_category e.

Lemma normal_pois_nil : normal_pois [].
Proof. split; constructor. Qed.

Lemma ingest_category_inv' st c :
  categories_inv' st -> categories_inv' (ingest_category toLowerCase st c).
Proof.
  intros (Hnd & Hdom & Hent).
  destruct (ingest_category_cases toLowerCase st c)
    as [[_ ->]|[(Hne & Hnone & ->)|(e & Hne & Hsome & ->)]]; [done|..].
  - split; [|split]; simpl.
    + apply NoDup_app. split; [done|]. split; [|apply NoDup_singleton].
      intros k Hk ->%list_elem_of_singleton.
      apply Hdom in Hk as [? Hk]. congruence.
    + intros key. rewrite elem_of_app, list_elem_of_singleton, Hdom.
      rewrite lookup_insert_is_Some.
      destruct (decide (toLowerCase (cname c) = key)); intuition congruence.
    + intros key e He. apply lookup_insert_Some in He as [[<- <-]|[_ He]];
        [|by apply Hent].
      split; [done|]. unfold normal_category. simpl.
      split; [apply trimmed_text_trim|]. split; [done|].
      apply merged_pois_normal, normal_pois_nil.
  - destruct (Hent _ _ Hsome) as (Hkey & Hname & Hnonempty & Hpois).
    split; [|split]; simpl; [done| |].
    + intros key. rewrite Hdom, lookup_insert_is_Some.
      destruct (decide (toLowerCase (cname c) = key)) as [<-|];
        [|intuition congruence].
      split; [by left|by rewrite Hsome].
    + intros key e' He'. apply lookup_insert_Some in He' as [[<- <-]|[_ He']];
        [|by apply Hent].
      split; [done|]. unfold normal_category. simpl.
      split; [done|]. split; [done|]. by apply merged_pois_normal.
Qed.

Lemma fold_ingest_category_inv' l st :
  categories_inv' st ->
  categories_inv' (fold_left (ingest_category toLowerCase) l st).
Proof.
  revert st. induction l as [|c l IH]; intros st H; simpl; [done|].
  by apply IH, ingest_category_inv'.
Qed.




End MergeNormal.

Section MergeOrder.
Variable toLowerCase : list N -> list N.

Lemma add_unique_cases st x :
  (add_unique toLowerCase st x).1 = st.1 \/
  (add_unique toLowerCase st x).1 = st.1 ++ [trimmed_text x].
Proof.
  destruct st as [merged seen]. unfold add_unique.
  destruct (is_empty _); [by left|]. destruct (decide _); [by left|by right].
Qed.

Lemma fold_add_unique_order l st :
  exists l', (fold_left (add_unique toLowerCase) l st).1 = st.1 ++ l' /\
             l' `sublist_of` (trimmed_text <$> l).
Proof.
  revert st. induction l as [|x l IH]; intros st; simpl.
  { exists []. by rewrite app_nil_r. }
  destruct (IH (add_unique toLowerCase st x)) as (l' & -> & Hsub).
  destruct (add_unique_cases st x) as [->| ->].
  - exists l'. split; [done|]. by apply sublist_cons.
  - exists (trimmed_text x :: l'). rewrite <- app_assoc.
    split; [done|]. by apply sublist_skip.
Qed.

(** The merged strings come in the order in which they were first seen. *)
Lemma mergeUniqueStrings_order a b :
  mergeUniqueStrings toLowerCase a b `sublist_of` (trimmed_text <$> a ++ b).
Proof.
  unfold mergeUniqueStrings. rewrite <- fold_left_app.
  by destruct (fold_add_unique_order (a ++ b) ([], ∅)) as (l' & -> & Hsub).
Qed.






End MergeOrder.

Section MergeKeeps.
Variable toLowerCase : list N -> list N.

Local Abbreviation keys := (fmap (M := list) toLowerCase).
Local Abbreviation ingest := (ingest_group toLowerCase).

Lemma groups_inv_empty : groups_inv toLowerCase (∅, []).
Proof. intros key e He. done. Qed.

Lemma mergeFacilityGroups_elem a b e :
  e ∈ mergeFacilityGroups toLowerCase a b <->
  (group_facilities e <> [] \/ group_description e <> []) /\
  exists key,
    (fold_left ingest (a ++ b) (∅, [])).1 !! key = Some e.
Proof.
  unfold mergeFacilityGroups. rewrite <- fold_left_app.
  pose proof (fold_ingest_group_inv' toLowerCase (a ++ b) (∅, [])) as Hinv.
  destruct (fold_left ingest (a ++ b) (∅, [])) as [m order]. simpl in *.
  destruct Hinv as (_ & Hdom & _).
  { split; [constructor|]. split; [|done]. intros key. simpl.
    rewrite lookup_empty, elem_of_nil. split; [done|by intros [? ?]]. }
  rewrite elem_of_filter_list, elem_of_omap_lookup. split.
  - intros [(key & _ & Hk) Hp]. split; [|by exists key].
    apply orb_true_iff in Hp as [Hp|Hp]; [left|right];
      by apply negb_true_iff, is_empty_false in Hp.
  - intros [Hp (key & Hk)]. split.
    + exists key. split; [|done]. apply Hdom. by eexists.
    + destruct Hp as [Hp|Hp]; apply is_empty_false in Hp; rewrite Hp; [done|].
      apply orb_true_r.
Qed.



End MergeKeeps.




(* ----------------------------------------------------------------- *)
(** ** The fetch scheduler and the price cache *)

Section Frames.
(** What the helpers leave alone. *)

Lemma fold_left_invariant {A} (P : state -> Prop) (f : state -> A -> state)
    (l : list A) s :
  (forall s x, P s -> P (f s x)) -> P s -> P (fold_left f l s).
Proof.
  intros Hf. revert s. induction l as [|x l IH]; intros s Hs; simpl; [done|].
  by apply IH, Hf.
Qed.

Lemma for_1_to_10_invariant (P : state -> Prop) body s :
  (forall i s, P s -> P (body i s)) -> P s -> P (for_1_to_10 body s).
Proof.
  intros Hb. unfold for_1_to_10. apply fold_left_invariant.
  intros s' i. apply Hb.
Qed.

Lemma enqueue_invariant (P : state -> Prop) checkin checkout s :
  (forall q s, P s -> P (set_fetchQueue q s)) -> P s ->
  P (enqueue checkin checkout s).
Proof. intros Hq Hs. unfold enqueue. destruct (_ && _); auto. Qed.

Lemma enqueue_window_invariant (P : state -> Prop) checkin s :
  (forall q s, P s -> P (set_fetchQueue q s)) -> P s ->
  P (enqueue_window checkin s).
Proof.
  intros Hq. apply for_1_to_10_invariant. intros i s'.
  by apply enqueue_invariant.
Qed.

Lemma drain_loop_invariant (P : state -> Prop) queue s :
  (forall q s, P s -> P (set_fetchQueue q s)) ->
  (forall t ms s, P s -> P (setTimeout t ms s)) ->
  (forall item s, (activeFetches s < MAX_CONCURRENT)%Z -> P s ->
                  P (dispatch item s)) ->
  P s -> P (drain_loop queue s).
Proof.
  intros Hq Ht Hd. revert s. induction queue as [|item rest IH]; intros s Hs.
  { simpl. by apply Hq. }
  simpl. destruct (Z.ltb_spec (activeFetches s) MAX_CONCURRENT); [|by apply Hq].
  destruct (has _ _); [by apply IH|].
  assert (P (dispatch item (set_fetchQueue rest s))) by (apply Hd; [done|by apply Hq]).
  destruct (is_empty rest); [done|by apply Ht].
Qed.
End Frames.

Section Concurrency.
(** The counter [activeFetches] counts the [doFetch] calls that are under
    way, and it stays within the ceiling. *)
Definition slots_inv (s : state) : Prop :=
  activeFetches s = Z.of_nat (length (inflight s) + settled s) /\
  (activeFetches s <= MAX_CONCURRENT)%Z.

Lemma slots_inv_frame s s' :
  activeFetches s' = activeFetches s -> inflight s' = inflight s ->
  settled s' = settled s -> slots_inv s -> slots_inv s'.
Proof. unfold slots_inv. by intros -> -> ->. Qed.

Lemma slots_inv_set_fetchQueue q s :
  slots_inv s -> slots_inv (set_fetchQueue q s).
Proof. by apply slots_inv_frame. Qed.

Lemma slots_inv_setTimeout t ms s :
  slots_inv s -> slots_inv (setTimeout t ms s).
Proof. by apply slots_inv_frame. Qed.

Lemma slots_inv_cache_set key v s :
  slots_inv s -> slots_inv (cache_set key v s).
Proof. by apply slots_inv_frame. Qed.

Lemma slots_inv_dispatch item s :
  (activeFetches s < MAX_CONCURRENT)%Z -> slots_inv s ->
  slots_inv (dispatch item s).
Proof.
  unfold slots_inv. simpl. intros Hlt [Heq Hle].
  rewrite length_app. simpl. lia.
Qed.

Lemma slots_inv_drain s : slots_inv s -> slots_inv (drain s).
Proof.
  apply drain_loop_invariant;
    auto using slots_inv_set_fetchQueue, slots_inv_setTimeout,
      slots_inv_dispatch.
Qed.

Lemma slots_inv_enqueue_window checkin s :
  slots_inv s -> slots_inv (enqueue_window checkin s).
Proof.
  apply enqueue_window_invariant. apply slots_inv_set_fetchQueue.
Qed.

Lemma slots_inv_handleDateClick date dest s :
  slots_inv s -> slots_inv (handleDateClick date dest s).
Proof.
  intros Hs. unfold handleDateClick.
  destruct (match selectedCheckin s with Some _ => _ | None => _ end).
  - assert (slots_inv (set_selectedCheckin (Some date) s)) as Hs'
      by by apply (slots_inv_frame s).
    simpl. destruct (searchParams s).
    + by apply slots_inv_drain, slots_inv_enqueue_window.
    + destruct dest; [|done].
      apply for_1_to_10_invariant; [by intros; apply (slots_inv_frame s0)|].
      apply for_1_to_10_invariant; [|done].
      intros i s0 Hs0. destruct (has _ _); [done|].
      by apply slots_inv_cache_set.
  - apply slots_inv_setTimeout. by apply (slots_inv_frame s).
Qed.

Lemma slots_inv_queueFetchesForCells cells s :
  slots_inv s -> slots_inv (queueFetchesForCells cells s).
Proof.
  intros Hs. unfold queueFetchesForCells.
  destruct (searchParams s) as [sp|]; [|done].
  apply slots_inv_drain.
  set (s1 := fold_left _ cells s).
  assert (slots_inv s1) as Hs1.
  { apply fold_left_invariant; [|done]. intros s0 [date|] Hs0; [|done].
    apply enqueue_invariant; [apply slots_inv_set_fetchQueue|done]. }
  destruct (selectedCheckin s1); [|done].
  by apply slots_inv_enqueue_window.
Qed.

Lemma slots_inv_step s ev s' :
  step s ev = Some s' -> slots_inv s -> slots_inv s'.
Proof.
  intros Hstep Hs. destruct ev as [date dest|cells|i prices|i|i r| |i r|fresh];
    simpl in Hstep.
  - injection Hstep as <-. by apply slots_inv_handleDateClick.
  - injection Hstep as <-. by apply slots_inv_queueFetchesForCells.
  - destruct (timers s !! i) as [[ms []]|]; try done.
    injection Hstep as <-. unfold scrapeCurrentPage.
    assert (slots_inv (set_timers (delete i (timers s)) s)) as Hs'
      by by apply (slots_inv_frame s).
    destruct (is_empty prices); [by apply slots_inv_setTimeout|].
    simpl. destruct (searchParams s); [|done].
    by apply slots_inv_cache_set.
  - destruct (timers s !! i) as [[ms t]|]; [|done].
    assert (slots_inv (set_timers (delete i (timers s)) s)) as Hs'
      by by apply (slots_inv_frame s).
    destruct t; try done; injection Hstep as <-; try done;
      try by apply slots_inv_drain.
    unfold retry. apply slots_inv_drain.
    destruct (has _ _); [done|by apply slots_inv_set_fetchQueue].
  - destruct (inflight s !! i) as [j|] eqn:Hi; [|done].
    injection Hstep as <-.
    assert (slots_inv (doFetch_settle j r s)) as [Heq Hle].
    { unfold doFetch_settle. destruct r as [|status prices].
      - by apply slots_inv_cache_set.
      - destruct (_ || _); [by apply slots_inv_setTimeout|].
        destruct (negb _); by apply slots_inv_cache_set. }
    assert (inflight (doFetch_settle j r s) = inflight s) as Hin.
    { unfold doFetch_settle. destruct r as [|status prices]; [done|].
      destruct (_ || _); [done|]. by destruct (negb _). }
    split; simpl; [|done]. rewrite Heq, Hin.
    rewrite length_delete by by eexists.
    apply lookup_lt_Some in Hi. lia.
  - destruct (settled s) as [|n] eqn:Hn; [done|]. injection Hstep as <-.
    destruct Hs as [Heq Hle]. unfold finally. simpl.
    assert (forall s0, activeFetches s0 = (activeFetches s - 1)%Z ->
              inflight s0 = inflight s -> settled s0 = n -> slots_inv s0) as H.
    { intros s0 Ha Hi Hse. unfold slots_inv. rewrite Ha, Hi, Hse. lia. }
    destruct (is_empty (fetchQueue s)); by apply H.
  - destruct (homepage s !! i) as [[checkinSnap key]|]; [|done].
    injection Hstep as <-. unfold homepage_settle.
    assert (slots_inv (set_homepage (delete i (homepage s)) s)) as Hs'
      by by apply (slots_inv_frame s).
    destruct (bool_decide _); [by apply slots_inv_cache_set|done].
  - injection Hstep as <-. unfold navigate.
    apply slots_inv_setTimeout. by apply (slots_inv_frame s).
Qed.

Lemma slots_inv_run s evs s' :
  run s evs = Some s' -> slots_inv s -> slots_inv s'.
Proof.
  revert s. induction evs as [|ev evs IH]; intros s Hrun Hs; simpl in Hrun.
  { by injection Hrun as <-. }
  destruct (step s ev) as [s1|] eqn:Hstep; [|done].
  eapply IH; [done|]. by eapply slots_inv_step.
Qed.

Lemma slots_inv_init sp : slots_inv (init sp).
Proof. split; simpl; unfold MAX_CONCURRENT; lia. Qed.
End Concurrency.

(** C6.  In every state that the page reaches from [init], by whatever
    sequence of clicks, calendar refreshes, timers, responses and
    navigations, [activeFetches] is the number of [doFetch] calls under way
    (awaiting their response or their [finally] callback) and does not exceed
    [MAX_CONCURRENT], which is 2; so no more than 2 fetches of the queue are
    in flight at any instant. *)
Theorem activeFetches_bounded (sp : option params) (evs : list event) (s : state) :
  run (init sp) evs = Some s ->
  MAX_CONCURRENT = 2%Z /\
  activeFetches s = Z.of_nat (length (inflight s) + settled s) /\
  (activeFetches s <= MAX_CONCURRENT)%Z /\
  (length (inflight s) <= 2)%nat.
Proof.
  intros Hrun. split; [done|].
  destruct (slots_inv_run _ _ _ Hrun (slots_inv_init sp)) as [Heq Hle].
  split; [done|]. split; [done|]. unfold MAX_CONCURRENT in Hle. lia.
Qed.

(** C6 on a calendar of seven days: the first refresh dispatches one fetch,
    the continuation of [drain] a second one, and five jobs wait. *)
Lemma activeFetches_bounded_witness :
  exists s,
    run (init (Some (Params 100 101 1)))
        [EvRefresh ((fun d => Some d) <$> seqZ 200 7); EvTimer 1] = Some s /\
    activeFetches s = 2%Z /\ length (fetchQueue s) = 5%nat /\
    (activeFetches s <= MAX_CONCURRENT)%Z.
Proof.
  eexists. split; [vm_compute; reflexivity|].
  split; [reflexivity|]. split; [reflexivity|].
  eapply activeFetches_bounded with
    (sp := Some (Params 100 101 1))
    (evs := [EvRefresh ((fun d => Some d) <$> seqZ 200 7); EvTimer 1]).
  vm_compute. reflexivity.
Defined.

Section Cache.
(** An entry that is final: [null] or a statistics record. *)
Definition terminal (e : option entry) : Prop :=
  e = Some Empty \/ exists st, e = Some (Stats st).

(** How the cache may change: no key is removed, and a key is pending
    afterwards only if it was pending or absent before. *)
Definition cache_le (c c' : gmap (Z * Z) entry) : Prop :=
  forall k,
    (is_Some (c !! k) -> is_Some (c' !! k)) /\
    (c' !! k = Some Loading -> c !! k = None \/ c !! k = Some Loading).

Definition cache_step (s s' : state) : Prop :=
  cache_le (priceCache s) (priceCache s').

Lemma cache_le_refl c : cache_le c c.
Proof. intros k. split; [done|]. by right. Qed.

Lemma cache_le_trans c1 c2 c3 :
  cache_le c1 c2 -> cache_le c2 c3 -> cache_le c1 c3.
Proof.
  intros H12 H23 k. destruct (H12 k) as [Hd12 Hl12].
  destruct (H23 k) as [Hd23 Hl23]. split; [auto|].
  intros H3. destruct (Hl23 H3) as [Hn|Hl]; [|auto].
  left. destruct (c1 !! k) eqn:E; [|done].
  destruct Hd12 as [? ?]; [done|congruence].
Qed.

Lemma cache_le_insert_final c key v :
  v <> Loading -> cache_le c (<[key := v]> c).
Proof.
  intros Hv k. destruct (decide (key = k)) as [->|Hne].
  - rewrite lookup_insert_eq. split; [by eexists|]. congruence.
  - rewrite lookup_insert_ne by done. split; [done|]. by right.
Qed.

Lemma cache_le_insert_absent c key v :
  c !! key = None -> cache_le c (<[key := v]> c).
Proof.
  intros Hc k. destruct (decide (key = k)) as [->|Hne].
  - rewrite lookup_insert_eq. split; [by eexists|]. by left.
  - rewrite lookup_insert_ne by done. split; [done|]. by right.
Qed.

Lemma fetched_entry_final prices : fetched_entry prices <> Loading.
Proof.
  unfold fetched_entry. destruct (is_empty prices); [done|].
  by destruct (calcStats prices).
Qed.

Lemma has_false c key : has c key = false -> c !! key = None.
Proof.
  unfold has. intros H%bool_decide_eq_false.
  destruct (c !! key) eqn:E; [|done]. destruct H. by eexists.
Qed.

Lemma has_true c key : has c key = true -> is_Some (c !! key).
Proof. unfold has. by intros H%bool_decide_eq_true. Qed.

(** From a fixed state [s0], what may follow. *)
Lemma cache_step_frame s0 s s' :
  priceCache s' = priceCache s -> cache_step s0 s -> cache_step s0 s'.
Proof. unfold cache_step. by intros ->. Qed.

Lemma cache_step_set_final s0 key v s :
  v <> Loading -> cache_step s0 s -> cache_step s0 (cache_set key v s).
Proof.
  intros Hv Hs. eapply cache_le_trans; [exact Hs|].
  by apply cache_le_insert_final.
Qed.

Lemma cache_step_drain s0 s : cache_step s0 s -> cache_step s0 (drain s).
Proof.
  apply (drain_loop_invariant (cache_step s0)); intros;
    by eapply cache_step_frame; [|eassumption].
Qed.

Lemma cache_step_enqueue_window s0 checkin s :
  cache_step s0 s -> cache_step s0 (enqueue_window checkin s).
Proof.
  apply enqueue_window_invariant. intros.
  by eapply cache_step_frame; [|eassumption].
Qed.

Lemma cache_step_handleDateClick s0 date dest s :
  cache_step s0 s -> cache_step s0 (handleDateClick date dest s).
Proof.
  intros Hs. unfold handleDateClick.
  destruct (match selectedCheckin s with Some _ => _ | None => _ end).
  - assert (cache_step s0 (set_selectedCheckin (Some date) s)) as Hs'
      by by apply (cache_step_frame s0 s).
    simpl. destruct (searchParams s).
    + by apply cache_step_drain, cache_step_enqueue_window.
    + destruct dest; [|done].
      apply for_1_to_10_invariant;
        [by intros; eapply cache_step_frame; [|eassumption]|].
      apply for_1_to_10_invariant; [|done].
      intros i s1 Hs1. destruct (has _ _) eqn:Hhas; [done|].
      eapply cache_le_trans; [exact Hs1|].
      by apply cache_le_insert_absent, has_false.
  - by apply (cache_step_frame s0 s).
Qed.

Lemma cache_step_queueFetchesForCells s0 cells s :
  cache_step s0 s -> cache_step s0 (queueFetchesForCells cells s).
Proof.
  intros Hs. unfold queueFetchesForCells.
  destruct (searchParams s) as [sp|]; [|done].
  apply cache_step_drain.
  set (s1 := fold_left _ cells s).
  assert (cache_step s0 s1) as Hs1.
  { apply fold_left_invariant; [|done]. intros s2 [date|] Hs2; [|done].
    apply enqueue_invariant; [|done]. intros.
    by eapply cache_step_frame; [|eassumption]. }
  destruct (selectedCheckin s1); [|done].
  by apply cache_step_enqueue_window.
Qed.

Lemma cache_step_doFetch_settle s0 j r s :
  cache_step s0 s -> cache_step s0 (doFetch_settle j r s).
Proof.
  intros Hs. unfold doFetch_settle. destruct r as [|status prices].
  - by apply cache_step_set_final.
  - destruct (_ || _); [by apply (cache_step_frame s0 s)|].
    destruct (negb _); apply cache_step_set_final; try done.
    apply fetched_entry_final.
Qed.

Lemma cache_step_step s ev s' : step s ev = Some s' -> cache_step s s'.
Proof.
  pose proof (cache_le_refl (priceCache s) : cache_step s s) as Hs.
  intros Hstep. destruct ev as [date dest|cells|i prices|i|i r| |i r|fresh];
    simpl in Hstep.
  - injection Hstep as <-. by apply cache_step_handleDateClick.
  - injection Hstep as <-. by apply cache_step_queueFetchesForCells.
  - destruct (timers s !! i) as [[ms []]|]; try done.
    injection Hstep as <-. unfold scrapeCurrentPage.
    destruct (is_empty prices); [done|].
    simpl. destruct (searchParams s); [|done].
    apply cache_step_set_final; [apply fetched_entry_final|done].
  - destruct (timers s !! i) as [[ms t]|]; [|done].
    destruct t; try done; injection Hstep as <-; try done;
      try by apply cache_step_drain.
    unfold retry. apply cache_step_drain. by destruct (has _ _).
  - destruct (inflight s !! i) as [j|] eqn:Hi; [|done].
    injection Hstep as <-.
    apply (cache_step_frame s (doFetch_settle j r s)); [done|].
    by apply cache_step_doFetch_settle.
  - destruct (settled s) as [|n] eqn:Hn; [done|]. injection Hstep as <-.
    unfold finally. simpl. by destruct (is_empty (fetchQueue s)).
  - destruct (homepage s !! i) as [[checkinSnap key]|]; [|done].
    injection Hstep as <-. unfold homepage_settle.
    destruct (bool_decide _); [|done].
    apply cache_step_set_final; [|done].
    destruct r as [|status prices]; simpl; [done|].
    destruct (ok status); [apply fetched_entry_final|done].
  - by injection Hstep as <-.
Qed.

Lemma cache_step_run s evs s' : run s evs = Some s' -> cache_step s s'.
Proof.
  revert s. induction evs as [|ev evs IH]; intros s Hrun; simpl in Hrun.
  { injection Hrun as <-. apply cache_le_refl. }
  destruct (step s ev) as [s1|] eqn:Hstep; [|done].
  eapply cache_le_trans; [by eapply cache_step_step|by apply IH].
Qed.
End Cache.

(** C2.  Along every sequence of turns from any state: a key whose cache
    entry is terminal ([null] or a statistics record) keeps a terminal entry,
    so it is never pending again; and a key that is pending at the end was
    pending or had no entry at all at the start, so the marker
    [{ loading: true }] is only ever written where there is no entry. *)
Theorem terminal_never_pending (s : state) (evs : list event) (s' : state)
    (key : Z * Z) :
  run s evs = Some s' ->
  (terminal (priceCache s !! key) -> terminal (priceCache s' !! key)) /\
  (priceCache s' !! key = Some Loading ->
   priceCache s !! key = None \/ priceCache s !! key = Some Loading).
Proof.
  intros Hrun. destruct (cache_step_run _ _ _ Hrun key) as [Hdom Hload].
  split; [|done]. intros Ht.
  assert (is_Some (priceCache s !! key)) as Hsome.
  { destruct Ht as [->|[st ->]]; by eexists. }
  destruct (Hdom Hsome) as [e He]. destruct e as [| |st].
  - destruct (Hload He) as [Hn|Hl]; destruct Ht as [Ht|[st Ht]]; congruence.
  - by left.
  - right. by exists st.
Qed.

(** C2 on the homepage: a click on day 5 marks ten keys pending; the answer
    for the first makes it terminal; a click on day 9 (the checkout) and a new
    click on day 5, which marks the absent keys of its window pending again,
    leave that entry terminal. *)
Lemma terminal_never_pending_witness :
  exists s s',
    run (init None) [EvClick 5 true; EvHomepageResponse 0 (Http 200 [])]
      = Some s /\
    run s [EvClick 9 true; EvClick 5 true] = Some s' /\
    priceCache s !! (5, 6)%Z = Some Empty /\
    terminal (priceCache s' !! (5, 6)%Z).
Proof.
  destruct (run (init None) [EvClick 5 true; EvHomepageResponse 0 (Http 200 [])])
    as [s|] eqn:E1; [|vm_compute in E1; discriminate].
  assert (priceCache s !! (5, 6)%Z = Some Empty) as Hk.
  { vm_compute in E1. injection E1 as <-. vm_compute. reflexivity. }
  destruct (run s [EvClick 9 true; EvClick 5 true]) as [s'|] eqn:E2.
  - exists s, s'. split; [reflexivity|]. split; [exact E2|]. split; [exact Hk|].
    apply (proj1 (terminal_never_pending s _ s' (5, 6)%Z E2)).
    left. exact Hk.
  - exfalso. vm_compute in E1. injection E1 as <-. vm_compute in E2.
    discriminate.
Defined.

Section Responses.
Lemma set_fetchQueue_same s : set_fetchQueue (fetchQueue s) s = s.
Proof. by destruct s. Qed.

Lemma fetched_entry_cases prices :
  (prices = [] -> fetched_entry prices = Empty) /\
  (prices <> [] ->
   exists st, calcStats prices = Some st /\ fetched_entry prices = Stats st).
Proof.
  split; [by intros ->|]. intros Hne.
  destruct (calcStats_nonempty prices Hne) as [st Hst]. exists st.
  split; [done|]. unfold fetched_entry. rewrite Hst.
  by destruct prices.
Qed.

(** What the callback of a rate-limited fetch does when its timer fires:
    the job goes back to the queue if its key is still not cached, and
    the queue is drained. *)
Lemma retry_timer_fires (t : state) n ms j :
  timers t !! n = Some (ms, TRetry j) ->
  step t (EvTimer n)
  = Some (drain (set_fetchQueue
                   (if has (priceCache t) (job_key j) then fetchQueue t
                    else fetchQueue t ++ [j])
                   (set_timers (delete n (timers t)) t))).
Proof.
  intros Ht. simpl. rewrite Ht. unfold retry. simpl.
  destruct (has _ _); [|done]. by destruct t.
Qed.
End Responses.

(** C3, as the code has it.  When the response of a dispatched job [j]
    arrives, the queue is left as it is and:
    - on status 429 or 503 no cache entry is written and the retry callback
      of [j] is registered with a delay of 5000 ms;
    - on a success the key of [j] is written [null] when no price was found
      and the statistics of the prices otherwise, and no timer is registered;
    - on any other status and on a transport error the key of [j] is written
      [null] and no timer is registered.
    When the retry callback fires, the job is pushed back on the queue unless
    its key has been cached in the meantime, and the queue is drained. *)
Theorem doFetch_response_handling (s : state) (i : nat) (j : job) (r : response) :
  inflight s !! i = Some j ->
  (exists s', step s (EvResponse i r) = Some s' /\
     fetchQueue s' = fetchQueue s /\
     match r with
     | Http status prices =>
         if (status =? 429)%Z || (status =? 503)%Z then
           priceCache s' = priceCache s /\
           timers s' = timers s ++ [(5000%Z, TRetry j)]
         else if ok status then
           timers s' = timers s /\
           priceCache s' = <[job_key j := fetched_entry prices]> (priceCache s) /\
           (prices = [] -> fetched_entry prices = Empty) /\
           (prices <> [] ->
            exists st, calcStats prices = Some st /\
                       fetched_entry prices = Stats st)
         else
           timers s' = timers s /\
           priceCache s' = <[job_key j := Empty]> (priceCache s)
     | TransportError =>
         timers s' = timers s /\
         priceCache s' = <[job_key j := Empty]> (priceCache s)
     end) /\
  (forall (t : state) n ms,
     timers t !! n = Some (ms, TRetry j) ->
     step t (EvTimer n)
     = Some (drain (set_fetchQueue
                      (if has (priceCache t) (job_key j) then fetchQueue t
                       else fetchQueue t ++ [j])
                      (set_timers (delete n (timers t)) t)))).
Proof.
  intros Hi. split; [|intros t n ms; apply retry_timer_fires].
  simpl. rewrite Hi. eexists. split; [reflexivity|].
  destruct r as [|status prices]; simpl; [done|].
  destruct ((status =? 429)%Z || (status =? 503)%Z); simpl; [done|].
  destruct (ok status); simpl; [|done].
  split; [done|]. split; [done|]. split; [done|].
  apply fetched_entry_cases.
Qed.

(** C3 on a calendar of seven days whose first fetch is rate-limited: the
    cache is left as it is and the retry is registered for 5000 ms. *)
Lemma doFetch_response_handling_witness :
  exists s s',
    run (init (Some (Params 100 101 1)))
        [EvRefresh ((fun d => Some d) <$> seqZ 100 7)] = Some s /\
    inflight s !! 0%nat = Some (Job (100, 101)%Z 100 101) /\
    step s (EvResponse 0 (Http 429 [])) = Some s' /\
    priceCache s' = priceCache s /\
    timers s' = timers s ++ [(5000%Z, TRetry (Job (100, 101)%Z 100 101))].
Proof.
  destruct (run (init (Some (Params 100 101 1)))
              [EvRefresh ((fun d => Some d) <$> seqZ 100 7)])
    as [s|] eqn:E; [|vm_compute in E; discriminate].
  assert (inflight s !! 0%nat = Some (Job (100, 101)%Z 100 101)) as Hi.
  { vm_compute in E. injection E as <-. reflexivity. }
  destruct (doFetch_response_handling s 0 _ (Http 429 []) Hi)
    as [(s' & Hstep & _ & Hcache & Htimers) _].
  exists s, s'. split; [reflexivity|]. split; [exact Hi|].
  split; [exact Hstep|]. split; [exact Hcache|exact Htimers].
Defined.

(** C3 as the specification states it fails when the key of a rate-limited
    job is cached during the cool-down.  On a results page for the nights
    100 to 101 the calendar queues that very range; its fetch is answered
    429; the scrape of the page then caches the range; when the retry
    callback fires the job is not put back: it is neither queued nor in
    flight, and no retry is left. *)
Lemma retry_skipped_when_cached :
  exists s s',
    run (init (Some (Params 100 101 1)))
        [EvRefresh ((fun d => Some d) <$> seqZ 100 7);
         EvResponse 0 (Http 429 []); EvFinally;
         EvScrape 0 [120; 80]%Q] = Some s /\
    timers s !! 1%nat = Some (5000%Z, TRetry (Job (100, 101)%Z 100 101)) /\
    step s (EvTimer 1) = Some s' /\
    queued (100, 101)%Z (fetchQueue s') = false /\
    job_key <$> inflight s' = [(101, 102)%Z] /\
    snd <$> timers s' = [TResume; TDrain; TResume].
Proof.
  eexists. eexists. split; [vm_compute; reflexivity|].
  split; [reflexivity|]. split; [vm_compute; reflexivity|].
  split; [reflexivity|]. split; reflexivity.
Qed.

(** C1 fails on the code: the check before a push looks at the cache and at
    the queue, not at the jobs in flight.  A calendar of seven days is
    refreshed twice (the observer of the calendar runs [refreshBadges] on
    every mutation, also on those that the insertion of the badges makes).
    After the second refresh the first range is in flight and queued again;
    when the other six ranges are answered while the first is still awaited,
    the queued copy is dispatched too, and two fetches of the same key are in
    flight with nothing cached for it. *)
Lemma enqueue_misses_job_in_flight :
  (exists s,
     run (init (Some (Params 100 101 1)))
         [EvRefresh ((fun d => Some d) <$> seqZ 200 7);
          EvRefresh ((fun d => Some d) <$> seqZ 200 7)] = Some s /\
     job_key <$> inflight s = [(200, 201); (201, 202)]%Z /\
     job_key <$> fetchQueue s
     = [(202, 203); (203, 204); (204, 205); (205, 206); (206, 207);
        (200, 201)]%Z) /\
  (exists s,
     run (init (Some (Params 100 101 1)))
         ([EvRefresh ((fun d => Some d) <$> seqZ 200 7);
           EvRefresh ((fun d => Some d) <$> seqZ 200 7)]
          ++ concat (replicate 6 [EvResponse 1 (Http 200 [90]%Q);
                                  EvFinally; EvTimer 1])) = Some s /\
     job_key <$> inflight s = [(200, 201); (200, 201)]%Z /\
     priceCache s !! (200, 201)%Z = None /\
     activeFetches s = 2%Z).
Proof.
  split.
  - eexists. split; [vm_compute; reflexivity|]. split; reflexivity.
  - eexists. split; [vm_compute; reflexivity|].
    split; [reflexivity|]. split; [vm_compute; reflexivity|reflexivity].
Qed.

Section Selection.
(** A key is covered when it is cached, queued or in flight. *)
Definition covered_key (key : Z * Z) (s : state) : Prop :=
  has (priceCache s) key = true \/
  queued key (fetchQueue s) = true \/
  key ∈ job_key <$> inflight s.

Lemma queued_app key q1 q2 :
  queued key (q1 ++ q2) = queued key q1 || queued key q2.
Proof. unfold queued. apply existsb_app. Qed.

(** The check-and-push statement does nothing for a key that is cached
    or queued. *)
Lemma enqueue_noop checkin checkout s :
  has (priceCache s) (cacheKey checkin checkout) = true \/
  queued (cacheKey checkin checkout) (fetchQueue s) = true ->
  enqueue checkin checkout s = s.
Proof.
  unfold enqueue. intros [-> | ->]; [done|]. by rewrite andb_false_r.
Qed.

Lemma enqueue_covers checkin checkout s :
  covered_key (cacheKey checkin checkout) (enqueue checkin checkout s).
Proof.
  unfold enqueue, covered_key.
  destruct (has (priceCache s) (cacheKey checkin checkout)) eqn:Hh; simpl;
    [by left|].
  destruct (queued (cacheKey checkin checkout) (fetchQueue s)) eqn:Hq; simpl;
    [by right; left|].
  right. left. rewrite queued_app. simpl.
  rewrite bool_decide_eq_true_2 by done. by rewrite orb_true_r.
Qed.

Lemma enqueue_covered key checkin checkout s :
  covered_key key s -> covered_key key (enqueue checkin checkout s).
Proof.
  unfold enqueue, covered_key. intros H.
  destruct (_ && _); [|done]. simpl.
  destruct H as [H|[H|H]]; [by left| |by right; right].
  right. left. by rewrite queued_app, H.
Qed.

Lemma drain_loop_covered key queue s :
  has (priceCache s) key = true \/ queued key queue = true \/
    key ∈ job_key <$> inflight s ->
  covered_key key (drain_loop queue s).
Proof.
  revert s. induction queue as [|item rest IH]; intros s H; simpl.
  { destruct H as [H|[H|H]]; [by left|done|by right; right]. }
  destruct (Z.ltb_spec (activeFetches s) MAX_CONCURRENT); [|done].
  destruct (has (priceCache s) (job_key item)) eqn:Hitem.
  - apply IH. destruct H as [H|[H|H]]; [by left| |by right; right].
    simpl in H. apply orb_true_iff in H as [H|H]; [|by right; left].
    apply bool_decide_eq_true in H. left. by rewrite <- H.
  - assert (covered_key key (dispatch item (set_fetchQueue rest s))) as Hc.
    { unfold covered_key. simpl. rewrite fmap_app, elem_of_app. simpl.
      destruct H as [H|[H|H]]; [by left| |by right; right; left].
      apply orb_true_iff in H as [H|H]; [|by right; left].
      apply bool_decide_eq_true in H. right. right. right.
      rewrite H. left. }
    by destruct (is_empty rest).
Qed.

Lemma drain_covered key s : covered_key key s -> covered_key key (drain s).
Proof. apply drain_loop_covered. Qed.

Lemma for_1_to_10_each (P : Z -> state -> Prop) body s :
  (forall i s, P i (body i s)) ->
  (forall i j s, P j s -> P j (body i s)) ->
  forall i, (1 <= i <= 10)%Z -> P i (for_1_to_10 body s).
Proof.
  intros Hest Hkeep i Hi. unfold for_1_to_10.
  assert (i ∈ seqZ 1 10) as Hin by (apply elem_of_seqZ; lia).
  revert s Hin. generalize (seqZ 1 10). intros l.
  induction l as [|x l IH]; intros s Hin; simpl.
  { by apply elem_of_nil in Hin. }
  apply elem_of_cons in Hin as [->|Hin]; [|by apply IH].
  apply fold_left_invariant; [|apply Hest]. intros s' y. apply Hkeep.
Qed.

Lemma selectedCheckin_drain s : selectedCheckin (drain s) = selectedCheckin s.
Proof.
  apply (drain_loop_invariant
           (fun s' => selectedCheckin s' = selectedCheckin s)); by intros.
Qed.

Lemma selectedCheckin_enqueue_window checkin s :
  selectedCheckin (enqueue_window checkin s) = selectedCheckin s.
Proof.
  apply (enqueue_window_invariant
           (fun s' => selectedCheckin s' = selectedCheckin s)); by intros.
Qed.

(** A pick at or before the selected check-in, or with none selected. *)
Definition picks_checkin (date : Z) (s : state) : Prop :=
  selectedCheckin s = None \/
  exists d, selectedCheckin s = Some d /\ (date <= d)%Z.

Lemma handleDateClick_checkin date dest s :
  picks_checkin date s ->
  selectedCheckin (handleDateClick date dest s) = Some date.
Proof.
  intros Hp. unfold handleDateClick.
  assert ((match selectedCheckin s with
           | Some selected => (daysBetween selected date <=? 0)%Z
           | None => true
           end) = true) as ->.
  { destruct Hp as [->|(d & -> & Hd)]; [done|].
    apply Z.leb_le. unfold daysBetween. lia. }
  simpl. destruct (searchParams s).
  - by rewrite selectedCheckin_drain, selectedCheckin_enqueue_window.
  - destruct dest; [|done].
    apply (for_1_to_10_invariant (fun s' => selectedCheckin s' = Some date));
      [by intros|].
    apply (for_1_to_10_invariant (fun s' => selectedCheckin s' = Some date));
      [|done].
    intros i s' Hs'. by destruct (has _ _).
Qed.

Lemma handleDateClick_checkout date dest s d :
  selectedCheckin s = Some d -> (d < date)%Z ->
  handleDateClick date dest s
  = setTimeout TClosePicker 150 (set_selectedCheckin None s).
Proof.
  intros Hs Hd. unfold handleDateClick. rewrite Hs.
  destruct (Z.leb_spec (daysBetween d date) 0); [|done].
  unfold daysBetween in *. lia.
Qed.

Lemma handleDateClick_window date dest s :
  picks_checkin date s -> is_Some (searchParams s) ->
  forall i, (1 <= i <= 10)%Z ->
    covered_key (cacheKey date (addDays date i)) (handleDateClick date dest s).
Proof.
  intros Hp [sp Hsp] i Hi. unfold handleDateClick.
  assert ((match selectedCheckin s with
           | Some selected => (daysBetween selected date <=? 0)%Z
           | None => true
           end) = true) as ->.
  { destruct Hp as [->|(d & -> & Hd)]; [done|].
    apply Z.leb_le. unfold daysBetween. lia. }
  simpl. rewrite Hsp. apply drain_covered.
  apply (for_1_to_10_each
           (fun i s => covered_key (cacheKey date (addDays date i)) s));
    [|by intros; apply enqueue_covered|done].
  intros. apply enqueue_covers.
Qed.

Lemma handleDateClick_homepage date s :
  picks_checkin date s -> searchParams s = None ->
  forall i, (1 <= i <= 10)%Z ->
    is_Some (priceCache (handleDateClick date true s)
               !! cacheKey date (addDays date i)) /\
    (date, cacheKey date (addDays date i))
      ∈ homepage (handleDateClick date true s).
Proof.
  intros Hp Hsp i Hi. unfold handleDateClick.
  assert ((match selectedCheckin s with
           | Some selected => (daysBetween selected date <=? 0)%Z
           | None => true
           end) = true) as ->.
  { destruct Hp as [->|(d & -> & Hd)]; [done|].
    apply Z.leb_le. unfold daysBetween. lia. }
  simpl. rewrite Hsp. split.
  - apply (for_1_to_10_invariant
             (fun s' => is_Some (priceCache s' !! cacheKey date (addDays date i))));
      [by intros|].
    apply (for_1_to_10_each
             (fun i s' => is_Some (priceCache s' !! cacheKey date (addDays date i))));
      [| |done].
    + intros j s'. destruct (has _ _) eqn:Hh; [by apply has_true|].
      simpl. rewrite lookup_insert_eq. by eexists.
    + intros j k s' Hk. destruct (has _ _); [done|]. simpl.
      rewrite lookup_insert_is_Some. destruct (decide
        (cacheKey date (addDays date j) = cacheKey date (addDays date k)));
        [by left|by right].
  - apply (for_1_to_10_each
             (fun i s' => (date, cacheKey date (addDays date i)) ∈ homepage s'));
      [| |done].
    + intros j s'. simpl. apply elem_of_app. right. left.
    + intros j k s' Hk. simpl. apply elem_of_app. by left.
Qed.

(** The keys of the ten stays that start on [date]. *)
Definition window_keys (date : Z) : list (Z * Z) :=
  (fun i => cacheKey date (addDays date i)) <$> seqZ 1 10.

(** The bodies of the two loops of the homepage branch. *)
Definition mark_pending (date : Z) (s : state) (i : Z) : state :=
  if has (priceCache s) (cacheKey date (addDays date i)) then s
  else cache_set (cacheKey date (addDays date i)) Loading s.

Definition fire_homepage (date : Z) (s : state) (i : Z) : state :=
  set_homepage (homepage s ++ [(date, cacheKey date (addDays date i))]) s.

Lemma picks_checkin_test date s :
  picks_checkin date s ->
  match selectedCheckin s with
  | Some selected => (daysBetween selected date <=? 0)%Z
  | None => true
  end = true.
Proof.
  intros [->|(d & -> & Hd)]; [done|].
  apply Z.leb_le. unfold daysBetween. lia.
Qed.

Lemma handleDateClick_homepage_loops date s :
  picks_checkin date s -> searchParams s = None ->
  handleDateClick date true s
  = fold_left (fire_homepage date) (seqZ 1 10)
      (fold_left (mark_pending date) (seqZ 1 10)
         (set_selectedCheckin (Some date) s)).
Proof.
  intros Hp Hsp. unfold handleDateClick.
  rewrite (picks_checkin_test _ _ Hp). cbv zeta.
  change (searchParams (set_selectedCheckin (Some date) s))
    with (searchParams s).
  rewrite Hsp. reflexivity.
Qed.

(** The first loop: a key of the loop gets the pending marker unless it has
    an entry, and nothing else is written. *)
Lemma mark_pending_lookup date l s key :
  priceCache (fold_left (mark_pending date) l s) !! key
  = if decide (key ∈ (fun i => cacheKey date (addDays date i)) <$> l)
    then Some (default Loading (priceCache s !! key))
    else priceCache s !! key.
Proof.
  revert s. induction l as [|i l IH]; intros s; cbn [fold_left].
  { rewrite fmap_nil. by rewrite decide_False by apply not_elem_of_nil. }
  rewrite fmap_cons, IH. clear IH. unfold mark_pending.
  set (ki := cacheKey date (addDays date i)).
  set (keys := (fun i => cacheKey date (addDays date i)) <$> l).
  destruct (decide (key = ki)) as [->|Hne].
  - rewrite (decide_True (P := ki ∈ ki :: keys)) by left.
    destruct (has (priceCache s) ki) eqn:Hh.
    + apply has_true in Hh as [e He]. rewrite He. simpl.
      by case_decide.
    + apply has_false in Hh. rewrite Hh. simpl. rewrite lookup_insert_eq.
      by case_decide.
  - assert (priceCache (if has (priceCache s) ki then s
                        else cache_set ki Loading s) !! key
            = priceCache s !! key) as ->.
    { destruct (has _ _); [done|]. simpl. by rewrite lookup_insert_ne. }
    destruct (decide (key ∈ keys)) as [Hin|Hnin].
    + by rewrite decide_True by by right.
    + rewrite decide_False; [done|].
      intros [?|?]%elem_of_cons; done.
Qed.

Lemma mark_pending_frame date l s :
  let s' := fold_left (mark_pending date) l s in
  selectedCheckin s' = selectedCheckin s /\ fetchQueue s' = fetchQueue s /\
  inflight s' = inflight s /\ timers s' = timers s /\
  homepage s' = homepage s /\ activeFetches s' = activeFetches s.
Proof.
  apply (fold_left_invariant
           (fun s' => selectedCheckin s' = selectedCheckin s /\
                      fetchQueue s' = fetchQueue s /\
                      inflight s' = inflight s /\ timers s' = timers s /\
                      homepage s' = homepage s /\
                      activeFetches s' = activeFetches s)); [|done].
  intros s1 i H. unfold mark_pending. by destruct (has (priceCache s1) _).
Qed.

(** The second loop: one direct fetch per key, in order, and nothing
    else. *)
Lemma fire_homepage_spec date l s :
  let s' := fold_left (fire_homepage date) l s in
  homepage s'
  = homepage s ++ ((fun i => (date, cacheKey date (addDays date i))) <$> l) /\
  priceCache s' = priceCache s /\
  selectedCheckin s' = selectedCheckin s /\ fetchQueue s' = fetchQueue s /\
  inflight s' = inflight s /\ timers s' = timers s /\
  activeFetches s' = activeFetches s.
Proof.
  split.
  - revert s. induction l as [|i l IH]; intros s; cbn [fold_left].
    { by rewrite fmap_nil, app_nil_r. }
    rewrite IH, fmap_cons. unfold fire_homepage. cbn [homepage set_homepage].
    by rewrite <- app_assoc.
  - apply (fold_left_invariant
             (fun s' => priceCache s' = priceCache s /\
                        selectedCheckin s' = selectedCheckin s /\
                        fetchQueue s' = fetchQueue s /\
                        inflight s' = inflight s /\ timers s' = timers s /\
                        activeFetches s' = activeFetches s)); [|done].
    by intros s1 i H.
Qed.

(** The homepage branch as a whole. *)
Lemma handleDateClick_homepage_exact date s :
  picks_checkin date s -> searchParams s = None ->
  let s' := handleDateClick date true s in
  (forall key : Z * Z,
     priceCache s' !! key
     = if decide (key ∈ (fun i => cacheKey date (addDays date i)) <$> seqZ 1 10)
       then Some (default Loading (priceCache s !! key))
       else priceCache s !! key) /\
  homepage s'
  = homepage s
    ++ ((fun i => (date, cacheKey date (addDays date i))) <$> seqZ 1 10) /\
  fetchQueue s' = fetchQueue s /\ inflight s' = inflight s /\
  timers s' = timers s /\ activeFetches s' = activeFetches s.
Proof.
  intros Hp Hsp s'. unfold s'.
  rewrite (handleDateClick_homepage_loops date s Hp Hsp).
  set (s0 := set_selectedCheckin (Some date) s).
  destruct (fire_homepage_spec date (seqZ 1 10)
              (fold_left (mark_pending date) (seqZ 1 10) s0))
    as (Hh & Hc & _ & Hq & Hi & Ht & Ha).
  destruct (mark_pending_frame date (seqZ 1 10) s0)
    as (_ & Hq1 & Hi1 & Ht1 & Hh1 & Ha1).
  rewrite Hh, Hc, Hq, Hi, Ht, Ha, Hh1, Hq1, Hi1, Ht1, Ha1.
  split; [|done].
  intros key. apply (mark_pending_lookup date (seqZ 1 10) s0 key).
Qed.

(** Without search parameters and without a destination the pick only
    selects the check-in. *)
Lemma handleDateClick_no_context date s :
  picks_checkin date s -> searchParams s = None ->
  handleDateClick date false s = set_selectedCheckin (Some date) s.
Proof.
  intros Hp Hsp. unfold handleDateClick.
  rewrite (picks_checkin_test _ _ Hp). simpl. by rewrite Hsp.
Qed.
End Selection.

(** C7, as the code has it.  A pick with no check-in selected, or at or before
    the selected check-in, selects the picked date as check-in.  When the
    page has search parameters, each of the next 10 checkout dates paired
    with it is then cached, queued or in flight.  When it has none but a
    destination is typed, each of the ten pairs keeps the cache entry it has
    or gets the pending marker, and gets one direct fetch, in order; no other
    cache entry is written and nothing is queued or dispatched.  When it has
    neither, the selection is all that changes: nothing is queued, fetched or
    cached.  A pick strictly after the selected check-in clears the
    selection, asks for the picker to be closed and leaves queue and cache as
    they are.  So a pick of [D1] after which [D2 > D1] is picked ends with no
    selection when none was there before, and a pick of [D1] followed by a
    pick of [D0 < D1] ends with [D0] selected. *)
Theorem handleDateClick_spec (date : Z) (dest : bool) (s : state) :
  (picks_checkin date s ->
     selectedCheckin (handleDateClick date dest s) = Some date /\
     (is_Some (searchParams s) ->
      forall i, (1 <= i <= 10)%Z ->
        covered_key (cacheKey date (addDays date i))
                    (handleDateClick date dest s)) /\
     (searchParams s = None -> dest = true ->
      (forall i, (1 <= i <= 10)%Z ->
         priceCache (handleDateClick date dest s)
           !! cacheKey date (addDays date i)
         = Some (default Loading
                   (priceCache s !! cacheKey date (addDays date i))) /\
         (date, cacheKey date (addDays date i))
           ∈ homepage (handleDateClick date dest s)) /\
      (forall key, key ∉ window_keys date ->
         priceCache (handleDateClick date dest s) !! key
         = priceCache s !! key) /\
      homepage (handleDateClick date dest s)
      = homepage s
        ++ ((fun i => (date, cacheKey date (addDays date i))) <$> seqZ 1 10) /\
      fetchQueue (handleDateClick date dest s) = fetchQueue s /\
      inflight (handleDateClick date dest s) = inflight s) /\
     (searchParams s = None -> dest = false ->
      handleDateClick date dest s = set_selectedCheckin (Some date) s /\
      fetchQueue (handleDateClick date dest s) = fetchQueue s /\
      inflight (handleDateClick date dest s) = inflight s /\
      homepage (handleDateClick date dest s) = homepage s /\
      priceCache (handleDateClick date dest s) = priceCache s)) /\
  (forall d, selectedCheckin s = Some d -> (d < date)%Z ->
     selectedCheckin (handleDateClick date dest s) = None /\
     (150%Z, TClosePicker) ∈ timers (handleDateClick date dest s) /\
     fetchQueue (handleDateClick date dest s) = fetchQueue s /\
     priceCache (handleDateClick date dest s) = priceCache s) /\
  (forall D2 dest2, selectedCheckin s = None -> (date < D2)%Z ->
     selectedCheckin (handleDateClick D2 dest2 (handleDateClick date dest s))
     = None) /\
  (forall D0 dest0, (D0 < date)%Z ->
     selectedCheckin (handleDateClick D0 dest0 (handleDateClick date dest s))
     = Some D0).
Proof.
  split; [|split; [|split]].
  - intros Hp. split; [by apply handleDateClick_checkin|].
    split; [by apply handleDateClick_window|]. split.
    + intros Hsp ->.
      destruct (handleDateClick_homepage_exact date s Hp Hsp)
        as (Hcache & Hhome & Hq & Hi & _).
      split; [|split; [|done]].
      * intros i Hi'. split; [|by apply handleDateClick_homepage].
        rewrite Hcache. apply decide_True.
        apply list_elem_of_fmap. exists i. split; [done|].
        apply elem_of_seqZ. lia.
      * intros key Hkey. rewrite Hcache. by apply decide_False.
    + intros Hsp ->. by rewrite (handleDateClick_no_context date s Hp Hsp).
  - intros d Hs Hd. rewrite (handleDateClick_checkout _ _ _ _ Hs Hd). simpl.
    split; [done|]. split; [|done]. apply elem_of_app. right. left.
  - intros D2 dest2 Hs Hlt.
    rewrite (handleDateClick_checkout D2 dest2 _ date); [done| |done].
    apply handleDateClick_checkin. by left.
  - intros D0 dest0 Hlt. apply handleDateClick_checkin.
    destruct (selectedCheckin s) as [d|] eqn:Hs.
    + destruct (Z.le_gt_cases date d) as [Hle|Hgt].
      * right. exists date. split; [|lia].
        apply handleDateClick_checkin. right. by exists d.
      * left. by rewrite (handleDateClick_checkout _ _ _ _ Hs Hgt).
    + right. exists date. split; [|lia].
      apply handleDateClick_checkin. by left.
Qed.

(** C7 on a results page: day 5 is picked, then day 3. *)
Lemma handleDateClick_spec_witness :
  selectedCheckin (handleDateClick 5 false (init (Some (Params 100 101 1))))
    = Some 5%Z /\
  covered_key (cacheKey 5 (addDays 5 10))
    (handleDateClick 5 false (init (Some (Params 100 101 1)))) /\
  selectedCheckin
    (handleDateClick 3 false
       (handleDateClick 5 false (init (Some (Params 100 101 1)))))
    = Some 3%Z.
Proof.
  destruct (handleDateClick_spec 5 false (init (Some (Params 100 101 1))))
    as (Hpick & _ & _ & Hearlier).
  destruct Hpick as (Hsel & Hwin & _); [by left|].
  split; [exact Hsel|]. split.
  - apply Hwin; [by eexists|lia].
  - apply Hearlier. lia.
Defined.

(** The homepage branch of C7 when one of the ten keys is cached: the price
    of the stay of days 5 to 7 is kept, the other nine keys are marked
    pending, and ten direct fetches are under way. *)
Lemma handleDateClick_homepage_example :
  let st := mkStats 80 80 (Finite 80) 1 in
  let s0 := cache_set (cacheKey 5 7) (Stats st) (init None) in
  let s := handleDateClick 5 true s0 in
  priceCache s !! cacheKey 5 7 = Some (Stats st) /\
  priceCache s !! cacheKey 5 6 = Some Loading /\
  priceCache s !! cacheKey 5 16 = None /\
  length (homepage s) = 10%nat /\ fetchQueue s = [].
Proof. by vm_compute. Qed.

(** C7 as the specification states it fails on a page without search
    parameters and without a typed destination: the pick is taken as
    check-in, and nothing is queued, fetched or marked. *)
Lemma handleDateClick_without_context :
  let s := handleDateClick 5 false (init None) in
  selectedCheckin s = Some 5%Z /\
  fetchQueue s = [] /\ inflight s = [] /\ homepage s = [] /\
  priceCache s = ∅ /\
  ~ covered_key (cacheKey 5 (addDays 5 1)) s.
Proof.
  repeat split. intros [H|[H|H]]; [done..|].
  by apply elem_of_nil in H.
Qed.

(* ----------------------------------------------------------------- *)
(** ** Colour classification *)

Section Ranks.
Local Open Scope Q_scope.

(** The ranks as the source computes them.  For a length [n] below [2^32]
    and a percentage [p], the floor of the rounded product of [n] and a
    double [c] that lies at most [2^-54] above [p / 100] is the floor of
    [n * p / 100]. *)
Lemma rank_of_doubles (p : Z) (c : Q) (n : nat) :
  (0 <= p <= 100)%Z ->
  inject_Z p / 100 <= c -> c <= inject_Z p / 100 + pow2 (-54) ->
  (Z.of_nat n < 2 ^ 32)%Z ->
  exists r, Number_multiply (inject_Z (Z.of_nat n)) c = Finite r /\
            Qfloor r = (Z.of_nat n * p / 100)%Z.
Proof.
  intros Hp Hc1 Hc2 Hn. set (N := Z.of_nat n) in *.
  assert (0 <= N)%Z as HN by (unfold N; lia).
  set (k := (N * p / 100)%Z).
  pose proof (Z.div_mod (N * p) 100 ltac:(lia)) as Hdm.
  pose proof (Z.mod_pos_bound (N * p) 100 ltac:(lia)) as Hmod.
  fold k in Hdm.
  assert (0 <= k)%Z as Hk0 by (apply Z.div_pos; nia).
  assert (k < 2 ^ 32)%Z as Hk by (apply Z.div_lt_upper_bound; nia).
  assert (100 * k <= N * p)%Z as Hlo by lia.
  assert (N * p <= 100 * k + 99)%Z as Hhi by lia.
  assert (100 * inject_Z k <= inject_Z N * inject_Z p) as Hlo'.
  { rewrite Zle_Qle, !inject_Z_mult in Hlo. exact Hlo. }
  assert (inject_Z N * inject_Z p <= 100 * inject_Z k + 99) as Hhi'.
  { rewrite Zle_Qle, inject_Z_plus, !inject_Z_mult in Hhi. exact Hhi. }
  assert (0 <= inject_Z N) as HNq by (by rewrite <- (Zle_Qle 0)).
  assert (inject_Z N <= inject_Z (2 ^ 32)) as HNhi by (rewrite <- Zle_Qle; lia).
  assert (0 <= inject_Z k) as Hkq by (by rewrite <- (Zle_Qle 0)).
  assert (pow2 (-54) == 1 # 18014398509481984) as Hu by reflexivity.
  change (inject_Z (2 ^ 32)) with (4294967296 # 1) in HNhi.
  set (x := inject_Z N * c).
  assert (inject_Z k <= x) as Hx1.
  { unfold x. assert (inject_Z N * (inject_Z p / 100) <= inject_Z N * c) by nra.
    assert (inject_Z N * (inject_Z p / 100) == inject_Z N * inject_Z p / 100) as Heq
      by (field; done).
    rewrite Heq in H. apply Qle_trans with (inject_Z N * inject_Z p / 100); [|done].
    apply Qle_shift_div_l; [reflexivity|]. lra. }
  assert (x <= inject_Z (128 * k + 127) * pow2 (-7)) as Hx2.
  { assert (inject_Z (128 * k + 127) * pow2 (-7) == inject_Z k + (127 # 128)) as ->.
    { rewrite inject_Z_plus, inject_Z_mult. change (pow2 (-7)) with (1 # 128).
      change (inject_Z 128) with 128. change (inject_Z 127) with 127. field. }
    unfold x.
    assert (inject_Z N * c
            <= inject_Z N * (inject_Z p / 100) + inject_Z N * (1 # 18014398509481984)) as H1.
    { rewrite Hu in Hc2. nra. }
    assert (inject_Z N * (inject_Z p / 100) == inject_Z N * inject_Z p / 100) as Heq
      by (field; done).
    assert (inject_Z N * inject_Z p / 100 <= inject_Z k + (99 # 100)) as H2.
    { apply Qle_shift_div_r; [reflexivity|]. lra. }
    assert (inject_Z N * (1 # 18014398509481984) <= 1 # 4194304) as H3 by lra.
    rewrite Heq in H1. lra. }
  assert (inject_Z (128 * k + 127) * pow2 (-7) < inject_Z k + 1) as Hlt.
  { rewrite inject_Z_plus, inject_Z_mult. change (pow2 (-7)) with (1 # 128).
    change (inject_Z 128) with 128. change (inject_Z 127) with 127. lra. }
  unfold Number_multiply. fold x. exists (RN x). split.
  - apply (rounded_small x (k + 1)); [lra| |lia].
    rewrite inject_Z_plus. change (inject_Z 1) with 1. lra.
  - apply Qfloor_unique.
    + rewrite <- (RN_Z k) by lia. by apply RN_mono.
    + apply Qle_lt_trans with (inject_Z (128 * k + 127) * pow2 (-7)); [|done].
      rewrite <- (RN_dyadic (128 * k + 127) (-7)) by lia.
      apply RN_mono; [lra|done].
Qed.

(** [Math.floor(n * 0.33)] and [Math.floor(n * 0.66)] on doubles are
    [rank33] and [rank66]. *)
Lemma rank33_of_doubles (n : nat) :
  (Z.of_nat n < 2 ^ 32)%Z ->
  exists r, Number_multiply (inject_Z (Z.of_nat n)) (RN (33 # 100)) = Finite r /\
            Qfloor r = Z.of_nat (rank33 n).
Proof.
  intros Hn. destruct (rank_of_doubles 33 (RN (33 # 100)) n) as (r & Hr & Hf);
    [lia|apply Qle_bool_iff; by vm_compute..|done|].
  exists r. split; [done|].
  unfold rank33. by rewrite Nat2Z.inj_div, Nat2Z.inj_mul.
Qed.

Lemma rank66_of_doubles (n : nat) :
  (Z.of_nat n < 2 ^ 32)%Z ->
  exists r, Number_multiply (inject_Z (Z.of_nat n)) (RN (66 # 100)) = Finite r /\
            Qfloor r = Z.of_nat (rank66 n).
Proof.
  intros Hn. destruct (rank_of_doubles 66 (RN (66 # 100)) n) as (r & Hr & Hf);
    [lia|apply Qle_bool_iff; by vm_compute..|done|].
  exists r. split; [done|].
  unfold rank66. by rewrite Nat2Z.inj_div, Nat2Z.inj_mul.
Qed.
End Ranks.

Section Colors.
Local Open Scope Q_scope.

Lemma badge_min_context s date m :
  badge_min s date = Some m ->
  is_null (searchParams s) && is_null (selectedCheckin s) = false.
Proof.
  unfold badge_min, getBadgeDates.
  destruct (selectedCheckin s); [by rewrite andb_false_r|].
  by destruct (searchParams s).
Qed.

Lemma length_omap_le {A B} (f : A -> option B) (l : list A) :
  (length (omap f l) <= length l)%nat.
Proof.
  induction l as [|x l IH]; simpl; [lia|].
  unfold omap in IH. destruct (f x); simpl; lia.
Qed.

Lemma nonempty_elem {A} (l : list A) :
  (0 < length l)%nat -> exists x, x ∈ l.
Proof. destruct l as [|x l]; simpl; [lia|]. exists x. left. Qed.

Lemma classify_green lo hi m : m <= lo -> classify lo hi m = Green.
Proof.
  intros H. unfold classify. by apply Qle_bool_iff in H as ->.
Qed.

Lemma Qle_bool_false x y : y < x -> Qle_bool x y = false.
Proof.
  intros H. destruct (Qle_bool x y) eqn:E; [|done].
  apply Qle_bool_iff in E. by apply Qle_not_lt in E.
Qed.

Lemma classify_orange lo hi m :
  lo < m -> hi <= m -> classify lo hi m = Orange.
Proof.
  intros Hlo Hhi. unfold classify. rewrite Qle_bool_false by done.
  by apply Qle_bool_iff in Hhi as ->.
Qed.

Lemma classify_yellow lo hi m :
  lo < m -> m < hi -> classify lo hi m = Yellow.
Proof.
  intros Hlo Hhi. unfold classify. by rewrite !Qle_bool_false.
Qed.

Lemma rank_lt n : (3 <= n)%nat ->
  (rank33 n < n)%nat /\ (rank66 n < n)%nat /\ (rank33 n <= rank66 n)%nat.
Proof.
  intros Hn. unfold rank33, rank66. repeat split.
  - apply Nat.Div0.div_lt_upper_bound. lia.
  - apply Nat.Div0.div_lt_upper_bound. lia.
  - apply Nat.Div0.div_le_mono. lia.
Qed.

Lemma sorted_nth_le l i j :
  StronglySorted Qle l -> (i <= j)%nat -> (j < length l)%nat ->
  List.nth i l 0 <= List.nth j l 0.
Proof.
  intros Hs. revert i j. induction Hs as [|x l Hs IH Hx]; intros i j Hij Hj.
  { simpl in Hj. lia. }
  destruct i as [|i], j as [|j]; simpl in *; try lia.
  - apply Qle_refl.
  - rewrite Forall_forall in Hx. apply Hx.
    apply list_elem_of_In, nth_In. lia.
  - apply IH; lia.
Qed.
End Colors.

(** C8, as the code has it.  Let [mins] be the minimum prices of the loaded
    badges that have one, in ascending order.  With fewer than three of them
    no badge is touched.  With three or more, the cutoffs [lo] and [hi] are
    the elements of [mins] at the ranks [floor(0.33 n)] and [floor(0.66 n)],
    [lo] is not above [hi], every badge without a minimum is skipped and
    every badge with a minimum [m] is coloured: green (low) when [m <= lo],
    orange (high) when [m > lo] and [m >= hi], yellow (mid) when
    [lo < m < hi].  So a minimum equal to the lower cutoff is low, and a
    minimum equal to the upper cutoff, when it is above the lower one, is
    high. *)
Theorem applyColorCoding_spec (loaded : list Z) (s : state) :
  let mins := sort ascending (omap (badge_min s) loaded) in
  let lo := List.nth (rank33 (length mins)) mins 0%Q in
  let hi := List.nth (rank66 (length mins)) mins 0%Q in
  mins ≡ₚ omap (badge_min s) loaded /\
  StronglySorted Qle mins /\
  ((length mins < 3)%nat -> applyColorCoding loaded s = None) /\
  ((3 <= length mins)%nat ->
     lo ∈ mins /\ hi ∈ mins /\ (lo <= hi)%Q /\
     exists colors,
       applyColorCoding loaded s = Some colors /\
       length colors = length loaded /\
       forall i date, loaded !! i = Some date ->
         match badge_min s date with
         | None => colors !! i = Some None
         | Some m =>
             exists c, colors !! i = Some (Some c) /\
               ((m <= lo)%Q -> c = Green) /\
               ((lo < m)%Q -> (hi <= m)%Q -> c = Orange) /\
               ((lo < m)%Q -> (m < hi)%Q -> c = Yellow) /\
               ((m == lo)%Q -> c = Green) /\
               ((m == hi)%Q -> (lo < m)%Q -> c = Orange)
         end).
Proof.
  intros mins lo hi.
  split; [apply sort_perm|]. split; [apply sort_sorted|]. split.
  - intros Hlt. unfold applyColorCoding.
    destruct (_ && _); [done|]. destruct (_ <? 3)%nat; [done|].
    fold mins. by apply Nat.ltb_lt in Hlt as ->.
  - intros Hge. destruct (rank_lt _ Hge) as (H33 & H66 & Hle).
    split; [apply list_elem_of_In, nth_In; done|].
    split; [apply list_elem_of_In, nth_In; done|].
    split; [apply sorted_nth_le; [apply sort_sorted|done..]|].
    assert (3 <= length loaded)%nat as Hloaded.
    { pose proof (length_omap_le (badge_min s) loaded) as Hl.
      pose proof (Permutation_length (sort_perm (omap (badge_min s) loaded))).
      unfold mins in Hge. lia. }
    assert (is_null (searchParams s) && is_null (selectedCheckin s) = false)
      as Hctx.
    { pose proof (Permutation_length (sort_perm (omap (badge_min s) loaded)))
        as Hlen. fold mins in Hlen.
      destruct (nonempty_elem (omap (badge_min s) loaded)) as [m Hm]; [lia|].
      apply list_elem_of_omap in Hm as (date & _ & Hm).
      by eapply badge_min_context. }
    eexists. split.
    { unfold applyColorCoding. rewrite Hctx.
      apply Nat.ltb_ge in Hloaded as ->. fold mins.
      apply Nat.ltb_ge in Hge as ->. fold lo hi. reflexivity. }
    split; [by rewrite length_fmap|].
    intros i date Hi. rewrite list_lookup_fmap, Hi. simpl.
    destruct (badge_min s date) as [m|]; simpl; [|done].
    eexists. split; [done|]. split; [apply classify_green|].
    split; [apply classify_orange|]. split; [apply classify_yellow|].
    split.
    + intros Heq. apply classify_green. rewrite Heq. apply Qle_refl.
    + intros Heq Hlt. apply classify_orange; [done|].
      rewrite Heq. apply Qle_refl.
Qed.

(** C8 on a calendar whose first three days are priced at 100, 200 and 300
    and whose fourth day is not priced yet. *)
Lemma applyColorCoding_spec_witness :
  exists s colors,
    run (init (Some (Params 1 2 1)))
        [EvRefresh ((fun d => Some d) <$> seqZ 1 7); EvTimer 1;
         EvResponse 0 (Http 200 [100; 150]%Q); EvFinally;
         EvResponse 0 (Http 200 [250; 200]%Q); EvFinally; EvTimer 1;
         EvResponse 0 (Http 200 [300]%Q)] = Some s /\
    applyColorCoding [1; 2; 3; 4]%Z s = Some colors /\
    length colors = 4%nat.
Proof.
  destruct (run (init (Some (Params 1 2 1))) _) as [s|] eqn:E;
    [|vm_compute in E; discriminate].
  destruct (applyColorCoding_spec [1; 2; 3; 4]%Z s) as (_ & _ & _ & H).
  destruct H as (_ & _ & _ & colors & Hc & Hlen & _).
  { vm_compute in E. injection E as <-. vm_compute. lia. }
  exists s, colors. split; [reflexivity|]. split; [exact Hc|exact Hlen].
Defined.

(** C8 as the specification states it fails at the upper cutoff.  With the
    minimums 100, 200 and 300 the cutoffs are 100 and 200; the badge whose
    minimum is the upper cutoff 200 is coloured orange (high), not yellow
    (mid), and no badge is mid. *)
Lemma upper_cutoff_is_high :
  exists s,
    run (init (Some (Params 1 2 1)))
        [EvRefresh ((fun d => Some d) <$> seqZ 1 7); EvTimer 1;
         EvResponse 0 (Http 200 [100; 150]%Q); EvFinally;
         EvResponse 0 (Http 200 [250; 200]%Q); EvFinally; EvTimer 1;
         EvResponse 0 (Http 200 [300]%Q)] = Some s /\
    sort ascending (omap (badge_min s) [1; 2; 3]%Z) = [100; 200; 300]%Q /\
    badge_min s 2%Z = Some 200%Q /\
    applyColorCoding [1; 2; 3]%Z s
    = Some [Some Green; Some Orange; Some Orange].
Proof.
  eexists. split; [vm_compute; reflexivity|].
  split; [vm_compute; reflexivity|]. split; vm_compute; reflexivity.
Qed.

(* ----------------------------------------------------------------- *)
(** ** More on the detail merger: nothing is lost, nothing is invented *)

Section MergeComplete.
Variable toLowerCase : list N -> list N.

Local Abbreviation keys := (fmap (M := list) toLowerCase).

Lemma mergeUniqueStrings_key_iff a b k :
  k ∈ keys (mergeUniqueStrings toLowerCase a b) <->
  exists item, item ∈ a ++ b /\ trimmed_text item <> [] /\
               toLowerCase (trimmed_text item) = k.
Proof.
  split.
  - intros (t & -> & Ht)%list_elem_of_fmap.
    pose proof (mergeUniqueStrings_normal toLowerCase a b) as Hn.
    destruct (normal_strings_elem toLowerCase _ t Hn Ht) as [_ Hne].
    pose proof (mergeUniqueStrings_order toLowerCase a b) as Hsub.
    pose proof (elem_of_sublist _ _ t Ht Hsub) as Hin.
    apply list_elem_of_fmap in Hin as (item & -> & Hitem).
    by exists item.
  - intros (item & Hitem & Hne & <-).
    by destruct (mergeUniqueStrings_keys toLowerCase a b item Hitem).
Qed.

Lemma fold_add_unique_prefix l st :
  st.1 `prefix_of` (fold_left (add_unique toLowerCase) l st).1.
Proof.
  destruct (fold_add_unique_order toLowerCase l st) as (l' & -> & _).
  by exists l'.
Qed.
End MergeComplete.

(** X1.  The keys of [mergeUniqueStrings(base, extra)] are exactly the
    lower-cased trimmed texts of the string items of [base] and [extra] that
    are not blank, each once; so both orders of the arguments give the same
    keys, up to their order. *)
Theorem mergeUniqueStrings_keys_union
    (toLowerCase : list N -> list N) (base extra : list value) :
  NoDup (toLowerCase <$> mergeUniqueStrings toLowerCase base extra) /\
  (forall k,
     k ∈ toLowerCase <$> mergeUniqueStrings toLowerCase base extra <->
     exists item, item ∈ base ++ extra /\ trimmed_text item <> [] /\
                  toLowerCase (trimmed_text item) = k) /\
  (toLowerCase <$> mergeUniqueStrings toLowerCase base extra)
    ≡ₚ (toLowerCase <$> mergeUniqueStrings toLowerCase extra base).
Proof.
  assert (forall a b,
            NoDup (toLowerCase <$> mergeUniqueStrings toLowerCase a b)) as Hnd.
  { intros a b. apply (mergeUniqueStrings_normal toLowerCase a b). }
  split; [apply Hnd|]. split; [apply mergeUniqueStrings_key_iff|].
  apply NoDup_Permutation; [apply Hnd..|].
  intros k. rewrite !mergeUniqueStrings_key_iff.
  split; intros (item & Hi & H); exists item; (split; [|done]);
    apply elem_of_app; apply elem_of_app in Hi; tauto.
Qed.

(** X2.  What [base] alone gives comes first in the merge with any [extra]:
    the second argument only appends. *)
Theorem mergeUniqueStrings_base_first
    (toLowerCase : list N -> list N) (base extra : list value) :
  mergeUniqueStrings toLowerCase base []
    `prefix_of` mergeUniqueStrings toLowerCase base extra.
Proof. unfold mergeUniqueStrings. simpl. apply fold_add_unique_prefix. Qed.

Section GroupsComplete.
Variable toLowerCase : list N -> list N.

Local Abbreviation keys := (fmap (M := list) toLowerCase).
Local Abbreviation ingest := (ingest_group toLowerCase).

(** Every record of the map comes from the groups seen so far. *)
Definition groups_sound (seen : list raw_group)
    (st : gmap (list N) group * list (list N)) : Prop :=
  forall key e, st.1 !! key = Some e ->
    (exists g, g ∈ seen /\ gname g <> [] /\ toLowerCase (gname g) = key /\
               gname g = group_name e) /\
    (exists g, g ∈ seen /\ gname g <> [] /\ toLowerCase (gname g) = key /\
               gdesc g = group_description e) /\
    (forall t, t ∈ group_facilities e ->
       exists g, g ∈ seen /\ gname g <> [] /\ toLowerCase (gname g) = key /\
                 t ∈ gfacs toLowerCase g).

Lemma groups_sound_mono seen seen' st :
  (forall g, g ∈ seen -> g ∈ seen') ->
  groups_sound seen st -> groups_sound seen' st.
Proof.
  intros Hsub Hs key e He. destruct (Hs key e He) as (Hn & Hd & Hf).
  split; [|split].
  - destruct Hn as (g & Hg & H). exists g. split; [by apply Hsub|done].
  - destruct Hd as (g & Hg & H). exists g. split; [by apply Hsub|done].
  - intros t Ht. destruct (Hf t Ht) as (g & Hg & H). exists g.
    split; [by apply Hsub|done].
Qed.

Lemma merged_strings_from e f t :
  normal_strings toLowerCase e -> normal_strings toLowerCase f ->
  t ∈ mergeUniqueStrings toLowerCase (VString <$> e) (VString <$> f) ->
  t ∈ e \/ t ∈ f.
Proof.
  intros He Hf Ht.
  pose proof (mergeUniqueStrings_order toLowerCase (VString <$> e) (VString <$> f))
    as Hsub.
  pose proof (elem_of_sublist _ _ t Ht Hsub) as Hin.
  apply list_elem_of_fmap in Hin as (item & -> & Hitem).
  apply elem_of_app in Hitem as [Hitem|Hitem];
    apply list_elem_of_fmap in Hitem as (u & -> & Hu); simpl.
  - left. by destruct (normal_strings_elem toLowerCase e u He Hu) as [-> _].
  - right. by destruct (normal_strings_elem toLowerCase f u Hf Hu) as [-> _].
Qed.

Lemma ingest_group_sound seen st g :
  groups_inv toLowerCase st -> groups_sound seen st ->
  groups_sound (seen ++ [g]) (ingest st g).
Proof.
  intros Hinv Hs.
  assert (groups_sound (seen ++ [g]) st) as Hs'.
  { eapply groups_sound_mono; [|exact Hs]. intros x Hx.
    apply elem_of_app. by left. }
  assert (g ∈ seen ++ [g]) as Hg by (apply elem_of_app; right; left).
  destruct (ingest_group_cases toLowerCase st g)
    as [[_ ->]|[(Hne & Hnone & ->)|(e & Hne & Hsome & ->)]]; [done|..].
  - intros key e He. simpl in He.
    apply lookup_insert_Some in He as [[<- <-]|[_ He]]; [|by apply Hs'].
    simpl. split; [by exists g|]. split; [by exists g|].
    intros t Ht. by exists g.
  - intros key e' He'. simpl in He'.
    apply lookup_insert_Some in He' as [[<- <-]|[_ He']]; [|by apply Hs'].
    destruct (Hs' _ _ Hsome) as (Hn & Hd & Hf). simpl.
    split; [done|]. split.
    + destruct (_ && _); [by exists g|done].
    + intros t Ht.
      apply merged_strings_from in Ht as [Ht|Ht];
        [by apply Hf|by exists g|by apply (Hinv _ _ Hsome)|].
      apply mergeUniqueStrings_normal.
Qed.

Lemma fold_ingest_group_sound l seen st :
  groups_inv toLowerCase st -> groups_sound seen st ->
  groups_sound (seen ++ l) (fold_left ingest l st).
Proof.
  revert seen st. induction l as [|g l IH]; intros seen st Hinv Hs; simpl.
  { by rewrite app_nil_r. }
  replace (seen ++ g :: l) with ((seen ++ [g]) ++ l)
    by by rewrite <- app_assoc.
  apply IH; [by apply ingest_group_inv|by apply ingest_group_sound].
Qed.

End GroupsComplete.


(** X4.  Nothing in a merged group is invented: its name and its description
    are the trimmed name and description of input groups with the same
    lower-cased name, and each of its facilities is a facility of such a
    group. *)
Theorem mergeFacilityGroups_sound
    (toLowerCase : list N -> list N) (base extra : list raw_group)
    (e : group) :
  e ∈ mergeFacilityGroups toLowerCase base extra ->
  (exists g, g ∈ base ++ extra /\
     toLowerCase (gname g) = group_key toLowerCase e /\
     gname g = group_name e) /\
  (exists g, g ∈ base ++ extra /\
     toLowerCase (gname g) = group_key toLowerCase e /\
     gdesc g = group_description e) /\
  (forall t, t ∈ group_facilities e ->
     exists g, g ∈ base ++ extra /\
       toLowerCase (gname g) = group_key toLowerCase e /\
       t ∈ gfacs toLowerCase g).
Proof.
  intros (_ & key & Hk)%mergeFacilityGroups_elem.
  pose proof (fold_ingest_group_inv' toLowerCase (base ++ extra) (∅, [])) as Hinv.
  destruct Hinv as (_ & _ & Hent).
  { split; [constructor|]. split; [|done]. intros k. simpl.
    rewrite lookup_empty, elem_of_nil. split; [done|by intros [? ?]]. }
  destruct (Hent _ _ Hk) as [Hkey _].
  destruct (fold_ingest_group_sound toLowerCase (base ++ extra) [] (∅, [])
              (groups_inv_empty toLowerCase)) with (key := key) (e := e)
    as (Hn & Hd & Hf); [done|done|].
  rewrite Hkey. simpl in *. split; [|split].
  - destruct Hn as (g & ? & ? & ? & ?). by exists g.
  - destruct Hd as (g & ? & ? & ? & ?). by exists g.
  - intros t Ht. destruct (Hf t Ht) as (g & ? & ? & ? & ?). by exists g.
Qed.


(** X4 on the same group. *)
Lemma mergeFacilityGroups_sound_witness :
  exists g,
    g ∈ [RawGroup (VString (str " Bath ")) (VString [])
                  [VString (str "Soap")]] ++ [] /\
    gname g = str "Bath".
Proof.
  destruct (mergeFacilityGroups_sound (fun s => s)
              [RawGroup (VString (str " Bath ")) (VString [])
                        [VString (str "Soap")]] []
              (Group (str "Bath") [] [str "Soap"]))
    as ((g & Hg & _ & Hn) & _); [vm_compute; left|].
  exists g. split; [exact Hg|exact Hn].
Defined.

(** X5.  No point of interest is lost: for every category of [base] or
    [extra] that has a name, every point of interest in it that has a name
    is, up to case of name and distance, in the category of the same
    lower-cased name of the merge. *)
Theorem mergeAreaInfo_complete
    (toLowerCase : list N -> list N) (base extra : list raw_category)
    (c : raw_category) (p : raw_poi) :
  c ∈ base ++ extra -> cname c <> [] ->
  p ∈ raw_pois c -> pname p <> [] ->
  exists e,
    e ∈ mergeAreaInfo toLowerCase base extra /\
    category_key toLowerCase e = toLowerCase (cname c) /\
    poi_key toLowerCase (pname p) (pdist p) ∈ pkeys toLowerCase (pois e).
Proof.
  intros Hc Hname Hp Hpname.
  destruct (fold_ingest_category_covers toLowerCase (base ++ extra) (∅, []) c Hc)
    as [?|(e & He & Hf)]; [done|].
  destruct (Hf p Hp) as [?|Hk]; [done|].
  pose proof (fold_ingest_category_inv' toLowerCase (base ++ extra) (∅, []))
    as Hinv.
  destruct Hinv as (_ & Hdom & Hent).
  { split; [constructor|]. split; [|done]. intros key. simpl.
    rewrite lookup_empty, elem_of_nil. split; [done|by intros [? ?]]. }
  exists e. split; [|split; [by apply (Hent _ _ He)|done]].
  unfold mergeAreaInfo. rewrite <- fold_left_app.
  destruct (fold_left _ (base ++ extra) _) as [m order]. simpl in *.
  apply elem_of_filter_list. split.
  - apply elem_of_omap_lookup. exists (toLowerCase (cname c)).
    split; [|done]. apply Hdom. by eexists.
  - destruct (pois e); [by apply elem_of_nil in Hk|done].
Qed.

(** X5 on a category with one place. *)
Lemma mergeAreaInfo_complete_witness :
  exists e,
    e ∈ mergeAreaInfo (fun s => s)
          [RawCategory (VString (str "Top attractions"))
             [RawPoi VNull (VString (str "Zoo")) (VString (str "1 km"))]] [] /\
    cat_name e = str "Top attractions".
Proof.
  destruct (mergeAreaInfo_complete (fun s => s)
              [RawCategory (VString (str "Top attractions"))
                 [RawPoi VNull (VString (str "Zoo")) (VString (str "1 km"))]] []
              (RawCategory (VString (str "Top attractions"))
                 [RawPoi VNull (VString (str "Zoo")) (VString (str "1 km"))])
              (RawPoi VNull (VString (str "Zoo")) (VString (str "1 km"))))
    as (e & He & _);
    [left|vm_compute; discriminate|left|vm_compute; discriminate|].
  exists e. split; [exact He|].
  vm_compute in He. apply list_elem_of_singleton in He. by subst e.
Defined.
(* ----------------------------------------------------------------- *)
(** ** The comparison list *)

Section Compare.
Definition compare_inv (l : list hotel) : Prop :=
  (length l <= MAX_COMPARE)%nat /\ NoDup (hotel_id <$> l) /\
  Forall (fun h => hotel_id h <> []) l.

Lemma findIndex_None {A} (p : A -> bool) l :
  findIndex p l = None <-> Forall (fun x => p x = false) l.
Proof.
  induction l as [|x l IH]; simpl; [by split; [constructor|]|].
  destruct (p x) eqn:Hp.
  - split; [done|]. intros H. apply Forall_cons in H as [H _]. congruence.
  - destruct (findIndex p l); simpl.
    + split; [done|]. intros H. apply Forall_cons in H as [_ H].
      by apply IH in H.
    + split; [|done]. intros _. constructor; [done|]. by apply IH.
Qed.

Lemma findIndex_Some {A} (p : A -> bool) l i :
  findIndex p l = Some i ->
  exists x, l !! i = Some x /\ p x = true /\
            Forall (fun y => p y = false) (take i l).
Proof.
  revert i. induction l as [|x l IH]; intros i; simpl; [done|].
  destruct (p x) eqn:Hp.
  - intros [= <-]. exists x. by repeat split; [|constructor].
  - destruct (findIndex p l) as [k|]; simpl; [|done].
    intros [= <-]. destruct (IH k eq_refl) as (y & Hy & Hpy & Hpre).
    exists y. repeat split; try done. simpl. by constructor.
Qed.

Lemma removeCompare_fresh id l :
  id ∉ hotel_id <$> l -> removeCompare id l = l.
Proof.
  induction l as [|h l IH]; simpl; [done|]. intros Hnin.
  apply not_elem_of_cons in Hnin as [Hne Hnin].
  rewrite bool_decide_eq_false_2 by done. simpl. by rewrite IH.
Qed.

Lemma delete_first_is_filter id l idx :
  NoDup (hotel_id <$> l) ->
  findIndex (fun h => bool_decide (hotel_id h = id)) l = Some idx ->
  delete idx l = removeCompare id l.
Proof.
  revert idx. induction l as [|h l IH]; intros idx Hnd; simpl; [done|].
  apply NoDup_cons in Hnd as [Hnin Hnd].
  destruct (bool_decide (hotel_id h = id)) eqn:Hh.
  - intros [= <-]. simpl. apply bool_decide_eq_true in Hh. subst id.
    by rewrite removeCompare_fresh.
  - destruct (findIndex _ l) as [k|] eqn:Hk; simpl; [|done].
    intros [= <-]. simpl. f_equal. by apply IH.
Qed.

Lemma removeCompare_inv id l : compare_inv l -> compare_inv (removeCompare id l).
Proof.
  intros (Hlen & Hnd & Hne). unfold removeCompare.
  assert (sublist (List.filter
                     (fun h => negb (bool_decide (hotel_id h = id))) l) l)
    as Hsub.
  { clear. induction l as [|h l IH]; simpl; [done|].
    destruct (negb _); by constructor. }
  split; [|split].
  - apply sublist_length in Hsub. lia.
  - eapply sublist_NoDup; [exact Hnd|by apply fmap_sublist].
  - eapply Forall_forall. intros h Hh.
    eapply Forall_forall in Hne; [exact Hne|]. by eapply elem_of_sublist.
Qed.

Lemma toggleCompare_inv id data l :
  compare_inv l -> compare_inv (toggleCompare id data l).
Proof.
  intros Hinv. unfold toggleCompare. destruct id as [i|]; [|done].
  destruct (is_empty i) eqn:Hemp; [done|].
  assert (i <> []) as Hi by (by intros ->).
  destruct (findIndex _ l) as [idx|] eqn:Hidx.
  - destruct Hinv as (Hlen & Hnd & Hne).
    rewrite (delete_first_is_filter _ _ _ Hnd Hidx).
    by apply removeCompare_inv.
  - destruct (Nat.leb_spec MAX_COMPARE (length l)) as [Hfull|Hroom]; [done|].
    destruct Hinv as (Hlen & Hnd & Hne).
    apply findIndex_None in Hidx.
    split; [|split].
    + rewrite length_app. simpl. lia.
    + rewrite fmap_app. apply NoDup_app. split; [done|]. split.
      * intros x Hx Hx'. apply list_elem_of_singleton in Hx'. simpl in Hx'.
        subst x. apply list_elem_of_fmap in Hx as (h & Hh & Hin).
        eapply Forall_forall in Hidx; [|exact Hin]. simpl in Hidx.
        by apply bool_decide_eq_false in Hidx.
      * apply NoDup_singleton.
    + apply Forall_app. split; [done|]. by constructor.
Qed.

Lemma compare_step_inv l a : compare_inv l -> compare_inv (compare_step l a).
Proof.
  intros Hinv. destruct a as [id data|id|]; simpl.
  - by apply toggleCompare_inv.
  - by apply removeCompare_inv.
  - split; [simpl; lia|]. split; constructor.
Qed.
End Compare.

(** X6.  Whatever the user does (toggling cards, removing hotels, clearing),
    a comparison list that holds at most [MAX_COMPARE] = 4 hotels with
    distinct, non-empty ids keeps doing so.  [renderCompareBar] then leaves
    no bar when the list is empty, and otherwise a bar of exactly 4 slots:
    the hotels of the list in their order, then the empty slots; its
    [Compare] button is disabled below two hotels and shows their number. *)
Theorem compareList_bounded (compareList : list hotel) (acts : list compare_action) :
  (length compareList <= MAX_COMPARE)%nat ->
  NoDup (hotel_id <$> compareList) ->
  Forall (fun h => hotel_id h <> []) compareList ->
  let l := fold_left compare_step acts compareList in
  (length l <= 4)%nat /\ NoDup (hotel_id <$> l) /\
  Forall (fun h => hotel_id h <> []) l /\
  (renderCompareBar l = None <-> l = []) /\
  (forall bar, renderCompareBar l = Some bar ->
     length (bar_slots bar) = 4%nat /\
     bar_slots bar
     = (SlotHotel <$> l) ++ replicate (4 - length l) SlotEmpty /\
     (bar_compare_disabled bar = true <-> (length l < 2)%nat) /\
     bar_count bar = length l).
Proof.
  intros Hlen Hnd Hne.
  assert (compare_inv (fold_left compare_step acts compareList))
    as (Hlen' & Hnd' & Hne').
  { assert (compare_inv compareList) as Hinv by done.
    clear Hlen Hnd Hne. revert compareList Hinv.
    induction acts as [|a acts IH]; intros l Hinv; simpl; [done|].
    by apply IH, compare_step_inv. }
  cbv zeta. set (l := fold_left compare_step acts compareList) in *.
  unfold MAX_COMPARE in Hlen'.
  split; [done|]. split; [done|]. split; [done|].
  unfold renderCompareBar. split.
  - destruct l; [done|]. simpl. by split.
  - intros bar. destruct (Nat.eqb_spec (length l) 0); [done|].
    intros [= <-]. cbn [bar_slots bar_compare_disabled bar_count].
    assert (Z.to_nat (emptySlots l) = 4 - length l)%nat as ->.
    { unfold emptySlots, MAX_COMPARE. lia. }
    split; [|split; [done|split; [|done]]].
    + rewrite length_app, length_fmap, length_replicate. lia.
    + by rewrite Nat.ltb_lt.
Qed.

(** X6 from the empty list, with five hotels toggled in: the fifth is
    refused, and the bar shows the four hotels and no empty slot. *)
Lemma compareList_bounded_witness :
  let d := CardData [] [] [] 0 [] [] [] [] [] [] [] [] [] [] in
  let l := fold_left compare_step
             ((fun id => ActToggle (Some [id]) d) <$> [1; 2; 3; 4; 5]%N) [] in
  (length l <= 4)%nat /\ hotel_id <$> l = [[1]; [2]; [3]; [4]]%N /\
  (exists bar, renderCompareBar l = Some bar /\
     length (bar_slots bar) = 4%nat) /\
  renderCompareBar (fold_left compare_step [ActClear] l) = None.
Proof.
  intros d l.
  destruct (compareList_bounded []
              ((fun id => ActToggle (Some [id]) d) <$> [1; 2; 3; 4; 5]%N))
    as (H1 & _ & _ & _ & Hbar); [simpl; lia|constructor|constructor|].
  split; [exact H1|]. split; [reflexivity|]. split; [|reflexivity].
  destruct (renderCompareBar l) as [bar|] eqn:E; [|by vm_compute in E].
  exists bar. split; [done|]. by destruct (Hbar bar E) as (Hfour & _).
Defined.

(** X7.  [toggleCompare] on a card with an id: when the hotel is in the
    list (whose ids are distinct) it is removed, exactly as the remove
    button does, and the other hotels keep their order; when it is not in
    the list and the list is full the list is left as it is; when there is
    room the hotel is added at the end, and toggling the card once more
    gives the list back. *)
Theorem toggleCompare_spec (id : list N) (data data' : card_data)
    (compareList : list hotel) :
  id <> [] ->
  (id ∈ hotel_id <$> compareList -> NoDup (hotel_id <$> compareList) ->
   toggleCompare (Some id) data compareList = removeCompare id compareList /\
   id ∉ hotel_id <$> toggleCompare (Some id) data compareList) /\
  (id ∉ hotel_id <$> compareList ->
   (MAX_COMPARE <= length compareList)%nat ->
   toggleCompare (Some id) data compareList = compareList) /\
  (id ∉ hotel_id <$> compareList ->
   (length compareList < MAX_COMPARE)%nat ->
   toggleCompare (Some id) data compareList = compareList ++ [Hotel id data] /\
   toggleCompare (Some id) data'
     (toggleCompare (Some id) data compareList) = compareList).
Proof.
  intros Hid.
  assert (forall l, id ∉ hotel_id <$> l ->
            findIndex (fun h => bool_decide (hotel_id h = id)) l = None)
    as Hfresh.
  { intros l Hnin. apply findIndex_None, Forall_forall. intros h Hh.
    apply bool_decide_eq_false. intros <-. apply Hnin.
    apply list_elem_of_fmap. by exists h. }
  assert (forall l d, toggleCompare (Some id) d l
            = match findIndex (fun h => bool_decide (hotel_id h = id)) l with
              | Some idx => delete idx l
              | None => if (MAX_COMPARE <=? length l)%nat then l
                        else l ++ [Hotel id d]
              end) as Hunfold.
  { intros l d. unfold toggleCompare. by destruct id. }
  split; [|split].
  - intros Hin Hnd. rewrite Hunfold.
    destruct (findIndex _ compareList) as [idx|] eqn:Hidx.
    + rewrite (delete_first_is_filter _ _ _ Hnd Hidx). split; [done|].
      intros Hin'. apply list_elem_of_fmap in Hin' as (h & -> & Hh).
      apply elem_of_filter_list in Hh as [_ Hh].
      by rewrite bool_decide_eq_true_2 in Hh.
    + apply findIndex_None in Hidx.
      apply list_elem_of_fmap in Hin as (h & -> & Hh).
      eapply Forall_forall in Hidx; [|exact Hh]. simpl in Hidx.
      by rewrite bool_decide_eq_true_2 in Hidx.
  - intros Hnin Hfull. rewrite Hunfold, (Hfresh _ Hnin).
    by destruct (Nat.leb_spec MAX_COMPARE (length compareList)); [|lia].
  - intros Hnin Hroom. rewrite !Hunfold, (Hfresh _ Hnin).
    destruct (Nat.leb_spec MAX_COMPARE (length compareList)); [lia|].
    split; [done|].
    destruct (findIndex _ (compareList ++ _)) as [idx|] eqn:Hidx.
    + apply findIndex_Some in Hidx as (x & Hx & Hpx & Hpre).
      assert (idx = length compareList) as ->.
      { apply lookup_lt_Some in Hx as Hlt. rewrite length_app in Hlt.
        simpl in Hlt.
        destruct (decide (idx < length compareList)%nat) as [Hlt'|]; [|lia].
        rewrite lookup_app_l in Hx by done.
        apply bool_decide_eq_true in Hpx. subst id. exfalso. apply Hnin.
        apply list_elem_of_fmap. exists x. split; [done|].
        by eapply list_elem_of_lookup_2. }
      clear. induction compareList as [|h l IH]; simpl; [done|]. by f_equal.
    + apply findIndex_None in Hidx. apply Forall_app in Hidx as [_ Hidx].
      apply Forall_cons in Hidx as [Hidx _]. simpl in Hidx.
      by rewrite bool_decide_eq_true_2 in Hidx.
Qed.

(** X7 on a list of one hotel. *)
Lemma toggleCompare_spec_witness :
  let d := CardData [] [] [] 0 [] [] [] [] [] [] [] [] [] [] in
  toggleCompare (Some [7%N]) d [Hotel [7%N] d; Hotel [8%N] d] = [Hotel [8%N] d] /\
  toggleCompare (Some [7%N]) d (toggleCompare (Some [7%N]) d [Hotel [8%N] d])
  = [Hotel [8%N] d].
Proof.
  intros d.
  destruct (toggleCompare_spec [7%N] d d [Hotel [7%N] d; Hotel [8%N] d])
    as (Hin & _); [done|].
  destruct (toggleCompare_spec [7%N] d d [Hotel [8%N] d])
    as (_ & _ & Hroom); [done|].
  split.
  - destruct Hin as [-> _];
      [by left|by apply (bool_decide_unpack _)|reflexivity].
  - apply Hroom; [|unfold MAX_COMPARE; simpl; lia].
    intros H. apply list_elem_of_singleton in H. discriminate.
Defined.
(* ----------------------------------------------------------------- *)
(** ** Facility lines and comparison values *)

Section Tidy.
(** A white-space character of the string is a space that no white space
    follows. *)
Fixpoint single_spaced (s : list N) : bool :=
  match s with
  | [] => true
  | c :: s' =>
      (negb (is_space c)
       || (c =? space)%N
          && match s' with c' :: _ => negb (is_space c') | [] => true end)
      && single_spaced s'
  end.

Definition starts_clean (s : list N) : bool :=
  match s with c :: _ => negb (is_space c) | [] => true end.

(** Single spaces only, and none at either end. *)
Definition tidy (s : list N) : bool :=
  single_spaced s && starts_clean s && starts_clean (rev s).

Lemma collapse_spaces_head c s :
  is_space c = false -> collapse_spaces (c :: s) = c :: collapse_spaces s.
Proof. intros H. simpl. by rewrite H. Qed.

Lemma collapse_spaces_single s : single_spaced (collapse_spaces s) = true.
Proof.
  induction s as [|c s IH]; [done|].
  simpl. destruct (is_space c) eqn:Hc.
  - destruct s as [|c' s']; [done|].
    destruct (is_space c') eqn:Hc'; [done|].
    rewrite collapse_spaces_head in * by done.
    change (single_spaced (space :: c' :: collapse_spaces s') = true).
    cbn [single_spaced]. rewrite Hc'. cbn [single_spaced] in IH.
    rewrite Hc' in IH. simpl in IH. by rewrite IH.
  - cbn [single_spaced]. by rewrite Hc, IH.
Qed.

Lemma single_spaced_fixed s :
  single_spaced s = true -> collapse_spaces s = s.
Proof.
  induction s as [|c s IH]; [done|]. cbn [single_spaced].
  intros H. apply andb_true_iff in H as [Hc Hs]. specialize (IH Hs).
  simpl. destruct (is_space c) eqn:Hsp; [|by rewrite IH].
  simpl in Hc. apply andb_true_iff in Hc as [Heq Hnext].
  apply N.eqb_eq in Heq. subst c.
  destruct s as [|c' s']; [done|].
  apply negb_true_iff in Hnext. rewrite Hnext. by rewrite IH.
Qed.

Lemma single_spaced_app_r a b :
  single_spaced (a ++ b) = true -> single_spaced b = true.
Proof.
  induction a as [|c a IH]; [done|]. simpl. intros H.
  apply andb_true_iff in H as [_ H]. by apply IH.
Qed.

Lemma single_spaced_app_l a b :
  single_spaced (a ++ b) = true -> single_spaced a = true.
Proof.
  induction a as [|c a IH]; [done|]. simpl. intros H.
  apply andb_true_iff in H as [Hc H]. rewrite (IH H), andb_true_r.
  destruct (is_space c); [|done]. simpl in *.
  apply andb_true_iff in Hc as [-> Hnext]. simpl.
  by destruct a.
Qed.

Lemma trim_segment s : exists w1 w2, s = w1 ++ trim s ++ w2.
Proof.
  destruct (drop_spaces_suffix s) as [w1 H1].
  destruct (drop_spaces_suffix (rev (drop_spaces s))) as [w2 H2].
  exists w1, (rev w2). unfold trim. rewrite <- rev_app_distr, <- H2.
  by rewrite rev_involutive.
Qed.

Lemma starts_clean_drop_spaces s : starts_clean (drop_spaces s) = true.
Proof.
  destruct (drop_spaces s) as [|c r] eqn:H; [done|]. simpl.
  by rewrite (drop_spaces_head _ _ _ H).
Qed.

Lemma starts_clean_fixed s : starts_clean s = true -> drop_spaces s = s.
Proof.
  destruct s as [|c r]; [done|]. simpl. intros H.
  apply negb_true_iff in H. by rewrite H.
Qed.

Lemma trim_clean s :
  starts_clean (trim s) = true /\ starts_clean (rev (trim s)) = true.
Proof.
  split.
  - unfold trim.
    destruct (drop_spaces_suffix (rev (drop_spaces s))) as [w H].
    apply (f_equal (@rev N)) in H. rewrite rev_involutive, rev_app_distr in H.
    pose proof (starts_clean_drop_spaces s) as Hc. rewrite H in Hc.
    by destruct (rev (drop_spaces (rev (drop_spaces s)))).
  - unfold trim. rewrite rev_involutive. apply starts_clean_drop_spaces.
Qed.

Lemma trim_fixed s :
  starts_clean s = true -> starts_clean (rev s) = true -> trim s = s.
Proof.
  intros H1 H2. unfold trim.
  by rewrite (starts_clean_fixed _ H1), (starts_clean_fixed _ H2),
    rev_involutive.
Qed.

Lemma normalize_tidy s : tidy (trim (collapse_spaces s)) = true.
Proof.
  unfold tidy. destruct (trim_clean (collapse_spaces s)) as [-> ->].
  rewrite !andb_true_r.
  destruct (trim_segment (collapse_spaces s)) as (w1 & w2 & H).
  pose proof (collapse_spaces_single s) as Hs. rewrite H in Hs.
  by apply single_spaced_app_r, single_spaced_app_l in Hs.
Qed.

Lemma tidy_fixed s : tidy s = true -> trim (collapse_spaces s) = s.
Proof.
  unfold tidy. intros H. apply andb_true_iff in H as [H H3].
  apply andb_true_iff in H as [H1 H2].
  rewrite (single_spaced_fixed _ H1). by apply trim_fixed.
Qed.

Lemma tidy_trim s : tidy s = true -> trim s = s.
Proof.
  unfold tidy. intros H. apply andb_true_iff in H as [H H3].
  apply andb_true_iff in H as [H1 H2]. by apply trim_fixed.
Qed.
End Tidy.

(** X8.  [normalizeFacilityText] gives a tidy string: its white space is
    single spaces (U+0020) between other characters, with none at either
    end; the strings it leaves as they are are exactly the tidy ones, so it
    is idempotent; and a value that is not a string gives the empty
    string. *)
Theorem normalizeFacilityText_tidy (text : value) :
  tidy (normalizeFacilityText text) = true /\
  (forall s, normalizeFacilityText (VString s) = s <-> tidy s = true) /\
  normalizeFacilityText (VString (normalizeFacilityText text))
  = normalizeFacilityText text /\
  ((forall s, text <> VString s) -> normalizeFacilityText text = []).
Proof.
  assert (forall v, tidy (normalizeFacilityText v) = true) as Htidy.
  { intros [| | | | |s|s]; try done. apply normalize_tidy. }
  split; [done|]. split; [|split].
  - intros s. split; [|apply tidy_fixed].
    intros H. rewrite <- H. apply (Htidy (VString s)).
  - apply (tidy_fixed _ (Htidy text)).
  - intros H. destruct text; try done. by destruct (H s).
Qed.

(** X8 on a facility name with a tab, a line break and a no-break space. *)
Lemma normalizeFacilityText_tidy_witness :
  normalizeFacilityText
    (VString ([9; 70; 114; 101; 101; 32; 10; 160; 87; 105; 70; 105; 32]%N))
  = str "Free WiFi" /\
  normalizeFacilityText (VString (str "Free WiFi")) = str "Free WiFi".
Proof.
  split; [reflexivity|].
  apply (normalizeFacilityText_tidy VNull). reflexivity.
Defined.

Section Lines.
Variable toLowerCase : list N -> list N.

Lemma normalizeFacilityText_trim v :
  trim (normalizeFacilityText v) = normalizeFacilityText v.
Proof.
  destruct v; try done. apply tidy_trim, normalize_tidy.
Qed.

Lemma add_line_add_unique acc line :
  add_line toLowerCase acc line
  = add_unique toLowerCase acc (VString (normalizeFacilityText line)).
Proof.
  destruct acc as [out seen]. unfold add_line, add_unique.
  cbn [trimmed_text]. by rewrite normalizeFacilityText_trim.
Qed.

Lemma fold_add_line lines st :
  fold_left (add_line toLowerCase) lines st
  = fold_left (add_unique toLowerCase)
      ((fun line => VString (normalizeFacilityText line)) <$> lines) st.
Proof.
  revert st. induction lines as [|line lines IH]; intros st; simpl; [done|].
  by rewrite add_line_add_unique, IH.
Qed.

Lemma uniqueFacilityLines_merge lines :
  uniqueFacilityLines toLowerCase lines
  = mergeUniqueStrings toLowerCase []
      ((fun line => VString (normalizeFacilityText line)) <$> lines).
Proof. unfold uniqueFacilityLines, mergeUniqueStrings. by rewrite fold_add_line. Qed.

Lemma uniqueFacilityLines_normal lines :
  normal_strings toLowerCase (uniqueFacilityLines toLowerCase lines).
Proof. rewrite uniqueFacilityLines_merge. apply mergeUniqueStrings_normal. Qed.

Lemma uniqueFacilityLines_from lines t :
  t ∈ uniqueFacilityLines toLowerCase lines ->
  exists line, line ∈ lines /\ t = normalizeFacilityText line.
Proof.
  rewrite uniqueFacilityLines_merge. intros Ht.
  pose proof (mergeUniqueStrings_order toLowerCase []
                ((fun line => VString (normalizeFacilityText line)) <$> lines))
    as Hsub.
  pose proof (elem_of_sublist _ _ t Ht Hsub) as Hin. simpl in Hin.
  apply list_elem_of_fmap in Hin as (item & -> & Hitem).
  apply list_elem_of_fmap in Hitem as (line & -> & Hline).
  exists line. split; [done|]. cbn [trimmed_text].
  apply normalizeFacilityText_trim.
Qed.

Lemma uniqueFacilityLines_key_iff lines k :
  k ∈ toLowerCase <$> uniqueFacilityLines toLowerCase lines <->
  exists line, line ∈ lines /\ normalizeFacilityText line <> [] /\
               toLowerCase (normalizeFacilityText line) = k.
Proof.
  rewrite uniqueFacilityLines_merge, mergeUniqueStrings_key_iff. simpl.
  split.
  - intros (item & Hitem & Hne & <-).
    apply list_elem_of_fmap in Hitem as (line & -> & Hline).
    cbn [trimmed_text] in *. rewrite normalizeFacilityText_trim in *.
    by exists line.
  - intros (line & Hline & Hne & <-).
    exists (VString (normalizeFacilityText line)).
    cbn [trimmed_text]. rewrite normalizeFacilityText_trim.
    split; [|done]. apply list_elem_of_fmap. by exists line.
Qed.

Lemma uniqueFacilityLines_fixed l :
  normal_strings toLowerCase l -> Forall (fun t => tidy t = true) l ->
  uniqueFacilityLines toLowerCase (VString <$> l) = l.
Proof.
  intros Hn Ht. rewrite uniqueFacilityLines_merge.
  assert ((fun line => VString (normalizeFacilityText line)) <$> (VString <$> l)
          = VString <$> l) as ->.
  { revert Ht. clear. induction l as [|t l IH]; intros Ht; [done|].
    apply Forall_cons in Ht as [H1 H2]. rewrite !fmap_cons.
    f_equal; [|by apply IH]. f_equal. by apply tidy_fixed. }
  by apply mergeUniqueStrings_nil_fixed.
Qed.
End Lines.

(** X9.  The lines of [uniqueFacilityLines] are tidy and not empty, and
    their lower-cased forms are distinct: they are exactly the lower-cased
    normal forms of the lines given that are not blank.  The function leaves
    its own result as it is, and so does the merger of the detail
    snapshots. *)
Theorem uniqueFacilityLines_spec
    (toLowerCase : list N -> list N) (lines : list value) :
  let out := uniqueFacilityLines toLowerCase lines in
  Forall (fun t => tidy t = true /\ t <> []) out /\
  NoDup (toLowerCase <$> out) /\
  (forall k,
     k ∈ toLowerCase <$> out <->
     exists line, line ∈ lines /\ normalizeFacilityText line <> [] /\
                  toLowerCase (normalizeFacilityText line) = k) /\
  uniqueFacilityLines toLowerCase (VString <$> out) = out /\
  mergeUniqueStrings toLowerCase (VString <$> out) [] = out.
Proof.
  intros out.
  pose proof (uniqueFacilityLines_normal toLowerCase lines) as Hn.
  assert (Forall (fun t => tidy t = true) out) as Ht.
  { apply Forall_forall. intros t Hin.
    apply uniqueFacilityLines_from in Hin as (line & _ & ->).
    destruct line; try done. apply normalize_tidy. }
  split; [|split; [apply Hn|split]].
  - apply Forall_forall. intros t Hin. split.
    + eapply Forall_forall in Ht; [exact Ht|done].
    + by destruct (normal_strings_elem toLowerCase _ t Hn Hin).
  - apply uniqueFacilityLines_key_iff.
  - split; [by apply uniqueFacilityLines_fixed|].
    rewrite <- (mergeUniqueStrings_self toLowerCase).
    by apply mergeUniqueStrings_fixed.
Qed.

(** X10.  [flattenFacilityGroupLines] loses no line and invents none: the
    name, the description and every facility of every group is among its
    lines, up to white space and case, when it is not blank; and each of its
    lines is the normal form of a name, a description or a facility of a
    group. *)
Theorem flattenFacilityGroupLines_complete
    (toLowerCase : list N -> list N) (groups : list raw_group) :
  (forall g v, g ∈ groups ->
     v = raw_name g \/ v = raw_description g \/ v ∈ raw_facilities g ->
     normalizeFacilityText v <> [] ->
     toLowerCase (normalizeFacilityText v)
       ∈ toLowerCase <$> flattenFacilityGroupLines toLowerCase groups) /\
  (forall t, t ∈ flattenFacilityGroupLines toLowerCase groups ->
     t <> [] /\
     exists g v, g ∈ groups /\
       (v = raw_name g \/ v = raw_description g \/ v ∈ raw_facilities g) /\
       t = normalizeFacilityText v).
Proof.
  assert (forall v, normalizeFacilityText v <> [] -> or_empty v = v) as Hor.
  { intros v Hv. unfold or_empty. destruct v as [| | | | |[|c s]|s]; done. }
  assert (forall v, normalizeFacilityText (VString (normalizeFacilityText v))
                    = normalizeFacilityText v) as Hidem.
  { intros v. apply tidy_fixed. destruct v; try done. apply normalize_tidy. }
  split.
  - intros g v Hg Hv Hne. unfold flattenFacilityGroupLines.
    apply uniqueFacilityLines_key_iff.
    destruct Hv as [->|[->|Hv]].
    + exists (VString (normalizeFacilityText (raw_name g))).
      rewrite Hidem. split; [|done].
      apply list_elem_of_In, in_flat_map. exists g.
      split; [by apply list_elem_of_In|]. apply list_elem_of_In.
      unfold group_lines. rewrite (Hor _ Hne).
      destruct (normalizeFacilityText (raw_name g)); [done|]. by left.
    + exists (VString (normalizeFacilityText (raw_description g))).
      rewrite Hidem. split; [|done].
      apply list_elem_of_In, in_flat_map. exists g.
      split; [by apply list_elem_of_In|]. apply list_elem_of_In.
      unfold group_lines. rewrite (Hor _ Hne).
      apply elem_of_app. right. apply elem_of_app. left.
      destruct (normalizeFacilityText (raw_description g)); [done|]. by left.
    + exists v. split; [|done].
      apply list_elem_of_In, in_flat_map. exists g.
      split; [by apply list_elem_of_In|]. apply list_elem_of_In.
      unfold group_lines. apply elem_of_app. right. apply elem_of_app.
      by right.
  - intros t Ht. unfold flattenFacilityGroupLines in Ht.
    pose proof (uniqueFacilityLines_normal toLowerCase
                  (flat_map (group_lines) groups)) as Hn.
    destruct (normal_strings_elem toLowerCase _ t Hn Ht) as [_ Hne].
    split; [done|].
    apply uniqueFacilityLines_from in Ht as (line & Hline & ->).
    apply list_elem_of_In, in_flat_map in Hline as (g & Hg & Hline).
    apply list_elem_of_In in Hg, Hline. exists g.
    unfold group_lines in Hline.
    apply elem_of_app in Hline as [Hline|Hline];
      [|apply elem_of_app in Hline as [Hline|Hline]].
    + destruct (normalizeFacilityText (or_empty (raw_name g))) eqn:Hname;
        [by apply elem_of_nil in Hline|].
      apply list_elem_of_singleton in Hline. subst line.
      exists (raw_name g). split; [done|]. split; [by left|].
      rewrite <- Hname, Hidem. f_equal. unfold or_empty in *.
      by destruct (truthy (raw_name g)).
    + destruct (normalizeFacilityText (or_empty (raw_description g)))
        eqn:Hdesc; [by apply elem_of_nil in Hline|].
      apply list_elem_of_singleton in Hline. subst line.
      exists (raw_description g). split; [done|]. split; [by right; left|].
      rewrite <- Hdesc, Hidem. f_equal. unfold or_empty in *.
      by destruct (truthy (raw_description g)).
    + exists line. split; [done|]. split; [by right; right|done].
Qed.

(** X10 on one group. *)
Lemma flattenFacilityGroupLines_complete_witness :
  flattenFacilityGroupLines (fun s => s)
    [RawGroup (VString (str "Bathroom")) VUndefined
       [VString (str " Free  toiletries"); VString (str "Bathroom")]]
  = [str "Bathroom"; str "Free toiletries"] /\
  str "Free toiletries"
    ∈ flattenFacilityGroupLines (fun s => s)
        [RawGroup (VString (str "Bathroom")) VUndefined
           [VString (str " Free  toiletries"); VString (str "Bathroom")]].
Proof.
  split; [reflexivity|].
  destruct (flattenFacilityGroupLines_complete (fun s => s)
              [RawGroup (VString (str "Bathroom")) VUndefined
                 [VString (str " Free  toiletries");
                  VString (str "Bathroom")]]) as [Hc _].
  specialize (Hc (RawGroup (VString (str "Bathroom")) VUndefined
                    [VString (str " Free  toiletries");
                     VString (str "Bathroom")])
                 (VString (str " Free  toiletries"))).
  rewrite list_fmap_id in Hc. apply Hc.
  - by left.
  - right. right. by left.
  - vm_compute. discriminate.
Defined.

Section Differences.
Variable toLowerCase : list N -> list N.
Local Abbreviation norm := (normalizeCompareValue toLowerCase).

Lemma hasCompareDifferences_true values :
  hasCompareDifferences toLowerCase values = true <->
  exists v w, v ∈ values /\ w ∈ values /\ norm v <> norm w.
Proof.
  unfold hasCompareDifferences. destruct values as [|first rest].
  { split; [done|]. intros (v & w & Hv & _). by apply elem_of_nil in Hv. }
  destruct (Nat.leb_spec (length (first :: rest)) 1) as [Hle|Hgt].
  { destruct rest; [|simpl in Hle; lia]. split; [done|].
    intros (v & w & Hv & Hw & Hne).
    apply list_elem_of_singleton in Hv, Hw. by subst. }
  rewrite existsb_exists. split.
  - intros (v & Hv & Hne). apply negb_true_iff, bool_decide_eq_false in Hne.
    exists v, first. split; [by apply list_elem_of_In|]. split; [by left|done].
  - intros (v & w & Hv & Hw & Hne).
    destruct (decide (norm v = norm first)) as [Heq|Hneq].
    + exists w. split; [by apply list_elem_of_In|].
      apply negb_true_iff, bool_decide_eq_false. congruence.
    + exists v. split; [by apply list_elem_of_In|].
      by apply negb_true_iff, bool_decide_eq_false.
Qed.
End Differences.

(** X11.  [hasCompareDifferences] compares every value with the first one
    only, and yet it tells whether any two values of the row differ after
    normalisation; so the answer does not depend on the order of the hotels.
    A row of fewer than two values has no difference, and [undefined],
    [null] and the empty string count as the same value. *)
Theorem hasCompareDifferences_spec
    (toLowerCase : list N -> list N) (values : list cell) :
  (hasCompareDifferences toLowerCase values = true <->
   exists v w, v ∈ values /\ w ∈ values /\
     normalizeCompareValue toLowerCase v
     <> normalizeCompareValue toLowerCase w) /\
  (forall values', values ≡ₚ values' ->
     hasCompareDifferences toLowerCase values'
     = hasCompareDifferences toLowerCase values) /\
  ((length values <= 1)%nat ->
   hasCompareDifferences toLowerCase values = false) /\
  (toLowerCase [] = [] ->
   hasCompareDifferences toLowerCase [CUndefined; CNull; COther []] = false).
Proof.
  split; [apply hasCompareDifferences_true|]. split; [|split].
  - intros values' Hperm.
    destruct (hasCompareDifferences toLowerCase values) eqn:H.
    + apply hasCompareDifferences_true.
      apply hasCompareDifferences_true in H as (v & w & Hv & Hw & Hne).
      exists v, w. by rewrite <- Hperm.
    + destruct (hasCompareDifferences toLowerCase values') eqn:H'; [|done].
      apply hasCompareDifferences_true in H' as (v & w & Hv & Hw & Hne).
      rewrite <- H. symmetry. apply hasCompareDifferences_true.
      exists v, w. by rewrite Hperm.
  - intros Hlen. destruct values as [|v [|w ?]]; simpl in *; try done. lia.
  - intros Hlow. unfold hasCompareDifferences. simpl.
    change (trim []) with (@nil N). by rewrite Hlow.
Qed.

(** X11 on a row of three hotels of which the last has a value. *)
Lemma hasCompareDifferences_spec_witness :
  hasCompareDifferences (fun s => s)
    [CUndefined; COther (str " "); COther (str "1 km")] = true /\
  hasCompareDifferences (fun s => s) [COther (str "1 km")] = false.
Proof.
  destruct (hasCompareDifferences_spec (fun s => s)
              [CUndefined; COther (str " "); COther (str "1 km")])
    as (Htrue & _).
  destruct (hasCompareDifferences_spec (fun s => s) [COther (str "1 km")])
    as (_ & _ & Hshort & _).
  split; [|apply Hshort; simpl; lia].
  apply Htrue. exists CUndefined, (COther (str "1 km")).
  split; [by left|]. split; [by right; right; left|]. vm_compute. discriminate.
Defined.
(* ----------------------------------------------------------------- *)
(** ** Badge rendering *)

Section BadgeInv.
(** While a close transition is pending the badge still shows its loader,
    a transition never ends in a loader, and a badge of class [bpc-loaded]
    shows no loader. *)
Definition badge_inv (b : badge) : Prop :=
  (forall html isLoaded, pending b = Some (html, isLoaded) ->
     has_loader (shown b) = true /\ has_loader html = false) /\
  (loaded b = true -> has_loader (shown b) = false).

Lemma badge_inv_new : badge_inv new_badge.
Proof. by split. Qed.

Lemma setBadgeContent_inv html isLoaded b :
  badge_inv b -> badge_inv (setBadgeContent html isLoaded b).
Proof.
  intros [Hp Hl]. unfold setBadgeContent.
  destruct (has_loader html) eqn:Hh; [by split|].
  destruct (has_loader (shown b)) eqn:Hs.
  - assert (forall e, badge_inv (Badge (shown b) (loaded b) e
                                       (Some (html, isLoaded)))) as H.
    { intros e. split; simpl.
      - by intros ? ? [= <- <-].
      - intros Hl'. apply Hl in Hl'. congruence. }
    destruct (pending b); apply H.
  - split; simpl; [|done]. intros h l Hpend.
    destruct (Hp _ _ Hpend) as [Hs' _]. congruence.
Qed.

Lemma transition_end_inv b : badge_inv b -> badge_inv (transition_end b).
Proof.
  intros Hb. unfold transition_end.
  destruct (pending b) as [[html isLoaded]|] eqn:Hpend; [|done].
  destruct Hb as [Hp Hl]. destruct (Hp _ _ Hpend) as [_ Hh]. by split.
Qed.

Lemma badge_step_inv date b ev : badge_inv b -> badge_inv (badge_step date b ev).
Proof.
  destruct ev; simpl; [apply setBadgeContent_inv|apply transition_end_inv].
Qed.

Lemma badge_run_inv date evs b :
  badge_inv b -> badge_inv (fold_left (badge_step date) evs b).
Proof.
  revert b. induction evs as [|ev evs IH]; intros b Hb; simpl; [done|].
  by apply IH, badge_step_inv.
Qed.

Lemma setBadgeContent_settles html isLoaded b :
  badge_inv b ->
  transition_end (setBadgeContent html isLoaded b)
  = Badge html (isLoaded && negb (has_loader html)) false None.
Proof.
  intros [Hp Hl]. unfold setBadgeContent.
  destruct (has_loader html) eqn:Hh.
  { by rewrite andb_false_r. }
  rewrite andb_true_r.
  destruct (has_loader (shown b)) eqn:Hs.
  - by destruct (pending b).
  - unfold transition_end. simpl.
    destruct (pending b) as [[h l]|] eqn:Hpend; [|done].
    by destruct (Hp _ _ eq_refl) as [Hs' _].
Qed.
Lemma badge_markup_loaded symbol d s :
  (badge_markup symbol (Some d) s).2 = true <->
  exists st, badge_min s d = Some (stat_min st) /\
    exists title, (badge_markup symbol (Some d) s).1 = PriceBlock symbol st title.
Proof.
  unfold badge_markup, badge_min.
  destruct (getBadgeDates d s) as [[ci co]|]; simpl.
  - destruct (priceCache s !! cacheKey ci co) as [[| |st]|]; simpl.
    + split; [done|]. by intros (? & ? & _).
    + split; [done|]. by intros (? & ? & _).
    + split; [|done]. intros _. exists st. split; [done|]. by eexists.
    + destruct (is_null _); simpl; (split; [done|]); by intros (? & ? & _).
  - split; [done|]. by intros (? & ? & _).
Qed.
End BadgeInv.

(** X12.  A badge ends up showing what was asked last.  Whatever renders
    and timers a badge has been through since it was created, after one
    more [renderBadge] in a state of the page and the end of the close
    transition (if one is pending) the badge shows the markup of that state
    for its date, has the class [bpc-loaded] exactly when that markup is a
    price block, and no transition is left; and at every moment a badge of
    class [bpc-loaded] shows no loader. *)
Theorem badge_shows_last_render
    (date : option Z) (evs : list badge_event) (symbol : list N) (s : state) :
  let b := fold_left (badge_step date) evs new_badge in
  let b' := transition_end (renderBadge symbol date s b) in
  shown b' = (badge_markup symbol date s).1 /\
  loaded b' = (badge_markup symbol date s).2 /\
  pending b' = None /\
  (loaded b = true -> has_loader (shown b) = false) /\
  (loaded b' = true <->
   exists d st, date = Some d /\ badge_min s d = Some (stat_min st) /\
                exists title, shown b' = PriceBlock symbol st title).
Proof.
  intros b b'.
  pose proof (badge_run_inv date evs new_badge badge_inv_new) as Hinv.
  fold b in Hinv.
  assert (b' = Badge (badge_markup symbol date s).1
                     ((badge_markup symbol date s).2
                      && negb (has_loader (badge_markup symbol date s).1))
                     false None) as Hb'.
  { by apply setBadgeContent_settles. }
  assert ((badge_markup symbol date s).2
          && negb (has_loader (badge_markup symbol date s).1)
          = (badge_markup symbol date s).2) as Hflag.
  { unfold badge_markup. destruct date as [d|]; [|done].
    destruct (getBadgeDates d s) as [[ci co]|]; [|done].
    destruct (priceCache s !! cacheKey ci co) as [[| |st]|]; try done.
    by destruct (is_null _). }
  rewrite Hflag in Hb'. rewrite Hb'. simpl.
  split; [done|]. split; [done|]. split; [done|].
  split; [apply Hinv|].
  destruct date as [d|].
  - rewrite badge_markup_loaded. split.
    + intros (st & Hmin & Hshown). by exists d, st.
    + intros (d' & st & [= <-] & Hmin & Hshown). by exists st.
  - simpl. split; [done|]. by intros (? & ? & ? & _).
Qed.

(** X12 on a badge that showed the loader and whose price has arrived. *)
Lemma badge_shows_last_render_witness :
  let s0 := init (Some (Params 100 101 1)) in
  let s1 := scrapeCurrentPage [120; 80]%Q s0 in
  let b := fold_left (badge_step (Some 100%Z)) [BadgeRender [36%N] s0] new_badge in
  shown b = Loader /\
  pending (renderBadge [36%N] (Some 100%Z) s1 b) <> None /\
  loaded (transition_end (renderBadge [36%N] (Some 100%Z) s1 b)) = true.
Proof.
  intros s0 s1 b.
  destruct (badge_shows_last_render (Some 100%Z) [BadgeRender [36%N] s0]
              [36%N] s1) as (_ & H2 & _).
  split; [reflexivity|]. split; [discriminate|]. exact H2.
Defined.
(* ----------------------------------------------------------------- *)
(** ** Photo lists *)

Section PhotoLists.
Variable normalizeHotelPhotoUrl : value -> list N.
Variable getHotelPhotoKey : list N -> list N.
Local Abbreviation add := (add_photo normalizeHotelPhotoUrl getHotelPhotoKey).
Local Abbreviation pstate := (list (list N) * gset (list N))%type.

Definition photos_inv (urls : list value) (st : pstate) : Prop :=
  NoDup (getHotelPhotoKey <$> st.1) /\
  (forall k, k ∈ st.2 <-> k ∈ getHotelPhotoKey <$> st.1) /\
  (forall u, u ∈ st.1 ->
     u <> [] /\ exists url, url ∈ urls /\ u = normalizeHotelPhotoUrl url) /\
  (forall url, url ∈ urls -> normalizeHotelPhotoUrl url <> [] ->
     getHotelPhotoKey (normalizeHotelPhotoUrl url) ∈ st.2).

Lemma add_photo_inv urls st url :
  photos_inv urls st -> photos_inv (urls ++ [url]) (add st url).
Proof.
  destruct st as [out seen]. intros (Hnd & Hseen & Hfrom & Hall).
  cbn [fst snd] in *.
  assert (forall u, u ∈ urls -> u ∈ urls ++ [url]) as Hmono.
  { intros u Hu. apply elem_of_app. by left. }
  assert (url ∈ urls ++ [url]) as Hlast.
  { apply elem_of_app. right. by apply list_elem_of_singleton. }
  unfold add_photo.
  destruct (normalizeHotelPhotoUrl url) as [|c n] eqn:Hn; cbn [is_empty];
    unfold photos_inv; cbn [fst snd].
  { split; [done|]. split; [done|]. split.
    - intros u Hu. destruct (Hfrom u Hu) as (Hne & url' & Hin & ->).
      split; [done|]. exists url'. auto.
    - intros url' Hin Hne. apply elem_of_app in Hin as [Hin|Hin]; [auto|].
      apply list_elem_of_singleton in Hin. subst url'. by rewrite Hn in Hne. }
  destruct (decide (getHotelPhotoKey (c :: n) ∈ seen)) as [Hin|Hnin];
    unfold photos_inv; cbn [fst snd].
  { split; [done|]. split; [done|]. split.
    - intros u Hu. destruct (Hfrom u Hu) as (Hne & url' & Hin' & ->).
      split; [done|]. exists url'. auto.
    - intros url' Hin' Hne. apply elem_of_app in Hin' as [Hin'|Hin']; [auto|].
      apply list_elem_of_singleton in Hin'. subst url'. by rewrite Hn. }
  split; [|split; [|split]].
  - rewrite fmap_app. apply NoDup_app. split; [done|]. split.
    + intros k Hk Hk'. apply list_elem_of_singleton in Hk'. simpl in Hk'.
      subst k. by apply Hnin, Hseen.
    + apply NoDup_singleton.
  - intros k. rewrite fmap_app, elem_of_app, elem_of_union, <- Hseen.
    simpl. rewrite list_elem_of_singleton, elem_of_singleton. tauto.
  - intros u Hu. apply elem_of_app in Hu as [Hu|Hu].
    + destruct (Hfrom u Hu) as (Hne & url' & Hin' & ->).
      split; [done|]. exists url'. auto.
    + apply list_elem_of_singleton in Hu. subst u. split; [done|].
      exists url. by rewrite Hn.
  - intros url' Hin' Hne. apply elem_of_union.
    apply elem_of_app in Hin' as [Hin'|Hin']; [right; auto|].
    apply list_elem_of_singleton in Hin'. subst url'. left.
    rewrite Hn. by apply elem_of_singleton.
Qed.

Lemma fold_add_photo_inv l urls st :
  photos_inv urls st -> photos_inv (urls ++ l) (fold_left add l st).
Proof.
  revert urls st. induction l as [|url l IH]; intros urls st Hst; simpl.
  { by rewrite app_nil_r. }
  replace (urls ++ url :: l) with ((urls ++ [url]) ++ l)
    by by rewrite <- app_assoc.
  by apply IH, add_photo_inv.
Qed.

Lemma add_photo_prefix st url : st.1 `prefix_of` (add st url).1.
Proof.
  destruct st as [out seen]. unfold add_photo.
  destruct (is_empty _); [done|]. destruct (decide _); [done|].
  by exists [normalizeHotelPhotoUrl url].
Qed.

Lemma fold_add_photo_prefix l st : st.1 `prefix_of` (fold_left add l st).1.
Proof.
  revert st. induction l as [|url l IH]; intros st; simpl; [done|].
  etrans; [apply add_photo_prefix|apply IH].
Qed.
End PhotoLists.

(** X13.  [mergePhotoUrls] returns at most [maxCount] photos, no two with
    the same photo key, each the non-empty normal form of a URL of [base]
    or [extra]; the photos of [base] come first; and below the limit no
    photo is lost: every URL with a non-empty normal form has its key in
    the result. *)
Theorem mergePhotoUrls_spec
    (normalizeHotelPhotoUrl : value -> list N)
    (getHotelPhotoKey : list N -> list N)
    (base extra : list value) (maxCount : nat) :
  let out :=
    mergePhotoUrls normalizeHotelPhotoUrl getHotelPhotoKey base extra maxCount in
  (length out <= maxCount)%nat /\
  NoDup (getHotelPhotoKey <$> out) /\
  (forall u, u ∈ out ->
     u <> [] /\
     exists url, url ∈ base ++ extra /\ u = normalizeHotelPhotoUrl url) /\
  mergePhotoUrls normalizeHotelPhotoUrl getHotelPhotoKey base [] maxCount
    `prefix_of` out /\
  ((length out < maxCount)%nat ->
   forall url, url ∈ base ++ extra -> normalizeHotelPhotoUrl url <> [] ->
     getHotelPhotoKey (normalizeHotelPhotoUrl url) ∈ getHotelPhotoKey <$> out).
Proof.
  intros out. unfold mergePhotoUrls in out.
  set (add := add_photo normalizeHotelPhotoUrl getHotelPhotoKey) in *.
  set (st1 := fold_left add base ([], ∅)) in *.
  set (st2 := fold_left add extra st1) in *.
  assert (photos_inv normalizeHotelPhotoUrl getHotelPhotoKey
            (base ++ extra) st2) as (Hnd & Hseen & Hfrom & Hall).
  { apply fold_add_photo_inv.
    apply (fold_add_photo_inv _ _ base [] ([], ∅)).
    split; [constructor|]. split; [|split].
    - intros k. simpl. split; intros Hk;
        [by apply elem_of_empty in Hk|by apply elem_of_nil in Hk].
    - intros u Hu. by apply elem_of_nil in Hu.
    - intros url Hu. by apply elem_of_nil in Hu. }
  split; [subst out; rewrite length_take; lia|]. split; [|split; [|split]].
  - eapply sublist_NoDup; [exact Hnd|]. apply fmap_sublist, sublist_take.
  - intros u Hu. apply Hfrom. eapply elem_of_sublist; [exact Hu|].
    apply sublist_take.
  - unfold mergePhotoUrls. simpl. fold add. fold st1.
    destruct (fold_add_photo_prefix normalizeHotelPhotoUrl getHotelPhotoKey
                extra st1) as [rest Hrest].
    fold add in Hrest. fold st2 in Hrest. subst out. rewrite Hrest.
    rewrite take_app. apply prefix_app_r. done.
  - intros Hlt url Hin Hne.
    assert (out = st2.1) as ->.
    { subst out. apply take_ge. rewrite length_take in Hlt. lia. }
    by apply Hseen, Hall.
Qed.

(** X13 with the trimmed text as the normal form, the URL as its own key and a
    limit of three photos. *)
Lemma mergePhotoUrls_spec_witness :
  mergePhotoUrls trimmed_text (fun u => u)
    [VString (str "a"); VNull] [VString (str "b"); VString (str "a")] 3
  = [str "a"; str "b"] /\
  str "b" ∈ mergePhotoUrls trimmed_text (fun u => u)
    [VString (str "a"); VNull] [VString (str "b"); VString (str "a")] 3.
Proof.
  split; [reflexivity|].
  destruct (mergePhotoUrls_spec trimmed_text (fun u => u)
              [VString (str "a"); VNull]
              [VString (str "b"); VString (str "a")] 3)
    as (_ & _ & _ & _ & Hall).
  specialize (Hall ltac:(vm_compute; lia) (VString (str "b"))).
  rewrite list_fmap_id in Hall. apply Hall.
  - right. right. by left.
  - vm_compute. discriminate.
Defined.
(* ----------------------------------------------------------------- *)
(** ** Price extraction *)

Section Extraction.
Local Open Scope Q_scope.

(** The prices found so far are prices of node texts, within the bounds of
    [parsePrice], no two equal, and [seen] holds them. *)
Definition scan_inv (texts : list (list N)) (acc : scan) : Prop :=
  scan_seen acc = scan_prices acc /\
  Forall (fun p => 1 < p /\ p < 999999) (scan_prices acc) /\
  NoDup (Qred <$> scan_prices acc) /\
  (forall p, p ∈ scan_prices acc ->
     exists text, text ∈ texts /\ p = parsePrice text) /\
  (forall text, text ∈ texts -> 0 < parsePrice text ->
     seen_has (scan_seen acc) (parsePrice text) = true).

Lemma seen_has_Qred seen p :
  seen_has seen p = true <-> Qred p ∈ Qred <$> seen.
Proof.
  unfold seen_has. rewrite existsb_exists, list_elem_of_fmap. split.
  - intros (q & Hq & Heq). exists q. split; [|by apply list_elem_of_In].
    by apply Qred_eq_iff, Qeq_bool_iff.
  - intros (q & Heq & Hq). exists q. split; [by apply list_elem_of_In|].
    by apply Qeq_bool_iff, Qred_eq_iff.
Qed.

Lemma seen_has_app seen p q :
  seen_has seen p = true -> seen_has (seen ++ [q]) p = true.
Proof.
  unfold seen_has. rewrite existsb_app. intros ->. done.
Qed.

Lemma positive_price text :
  Qle_bool (parsePrice text) 0 = false <-> 0 < parsePrice text.
Proof.
  split.
  - intros H. apply Qnot_le_lt. intros Hle. apply Qle_bool_iff in Hle.
    congruence.
  - intros H. destruct (Qle_bool (parsePrice text) 0) eqn:E; [|done].
    apply Qle_bool_iff in E. exfalso. by eapply Qlt_not_le.
Qed.

Lemma scan_node_inv texts acc text :
  scan_inv texts acc -> scan_inv (texts ++ [text]) (scan_node acc text).
Proof.
  intros (Hseen & Hrange & Hnd & Hfrom & Hall).
  assert (forall t, t ∈ texts -> t ∈ texts ++ [text]) as Hmono.
  { intros t Ht. apply elem_of_app. by left. }
  unfold scan_node.
  destruct (Qle_bool (parsePrice text) 0) eqn:Hpos; cbn [negb andb].
  { split; [done|]. split; [done|]. split; [done|]. split.
    - intros p Hp. destruct (Hfrom p Hp) as (t & Ht & ->). eauto.
    - intros t Ht Hlt. apply elem_of_app in Ht as [Ht|Ht]; [auto|].
      apply list_elem_of_singleton in Ht. subst t.
      apply positive_price in Hlt. congruence. }
  destruct (seen_has (scan_seen acc) (parsePrice text)) eqn:Hhas;
    cbn [negb andb]; unfold scan_inv; cbn [scan_prices scan_seen].
  { split; [done|]. split; [done|]. split; [done|]. split.
    - intros p Hp. destruct (Hfrom p Hp) as (t & Ht & ->). eauto.
    - intros t Ht Hlt. apply elem_of_app in Ht as [Ht|Ht]; [auto|].
      apply list_elem_of_singleton in Ht. by subst t. }
  split; [by rewrite Hseen|]. split; [|split; [|split]].
  - apply Forall_app. split; [done|]. constructor; [|done].
    destruct (parsePrice_range text) as [H0|H]; [|done].
    apply positive_price in Hpos. rewrite H0 in Hpos.
    by apply Qlt_irrefl in Hpos.
  - rewrite fmap_app. apply NoDup_app. split; [done|]. split.
    + intros q Hq Hq'. apply list_elem_of_singleton in Hq'. simpl in Hq'.
      subst q. rewrite <- Hseen in Hq. apply seen_has_Qred in Hq. congruence.
    + apply NoDup_singleton.
  - intros p Hp. apply elem_of_app in Hp as [Hp|Hp].
    + destruct (Hfrom p Hp) as (t & Ht & ->). eauto.
    + apply list_elem_of_singleton in Hp. subst p. exists text.
      split; [|done]. apply elem_of_app. right. by left.
  - intros t Ht Hlt. apply elem_of_app in Ht as [Ht|Ht].
    + by apply seen_has_app, Hall.
    + apply list_elem_of_singleton in Ht. subst t.
      unfold seen_has. rewrite existsb_app. simpl.
      rewrite (proj2 (Qeq_bool_iff _ _) (Qeq_refl _)).
      by rewrite orb_true_r.
Qed.

Lemma fold_scan_node_inv nodes texts acc :
  scan_inv texts acc -> scan_inv (texts ++ nodes) (fold_left scan_node nodes acc).
Proof.
  revert texts acc. induction nodes as [|text nodes IH]; intros texts acc H;
    simpl.
  { by rewrite app_nil_r. }
  replace (texts ++ text :: nodes) with ((texts ++ [text]) ++ nodes)
    by by rewrite <- app_assoc.
  by apply IH, scan_node_inv.
Qed.

(** The selectors the loop has been through when it ends. *)
Fixpoint scanned (found : list (list (list N))) (acc : scan)
  : list (list (list N)) :=
  match found with
  | [] => []
  | nodes :: rest =>
      if is_empty nodes then nodes :: scanned rest acc
      else
        let acc' := fold_left scan_node nodes acc in
        if (3 <=? length (scan_prices acc'))%nat then [nodes]
        else nodes :: scanned rest acc'
  end.

Lemma scanned_prefix found acc : scanned found acc `prefix_of` found.
Proof.
  revert acc. induction found as [|nodes rest IH]; intros acc; [done|].
  cbn [scanned]. destruct (is_empty nodes); [by apply prefix_cons|].
  destruct (3 <=? length (scan_prices (fold_left scan_node nodes acc)))%nat;
    [|by apply prefix_cons].
  by exists rest.
Qed.

Lemma scan_selectors_inv found texts acc :
  scan_inv texts acc ->
  scan_inv (texts ++ concat (scanned found acc)) (scan_selectors found acc).
Proof.
  revert texts acc. induction found as [|nodes rest IH]; intros texts acc H.
  { simpl. by rewrite app_nil_r. }
  cbn [scanned scan_selectors].
  destruct nodes as [|text nodes]; cbn [is_empty]; [by apply IH|].
  set (acc' := fold_left scan_node (text :: nodes) acc).
  assert (scan_inv (texts ++ text :: nodes) acc') as H'.
  { by apply (fold_scan_node_inv (text :: nodes)). }
  destruct (3 <=? length (scan_prices acc'))%nat.
  - cbn [concat]. by rewrite app_nil_r.
  - cbn [concat]. rewrite app_assoc. by apply IH.
Qed.

Lemma scan_selectors_stop found acc :
  (length (scan_prices acc) < 3)%nat ->
  scanned found acc = found \/
  (3 <= length (scan_prices (scan_selectors found acc)))%nat.
Proof.
  revert acc. induction found as [|nodes rest IH]; intros acc Hlt;
    [by left|].
  cbn [scanned scan_selectors]. destruct (is_empty nodes).
  { destruct (IH acc Hlt) as [->|H]; [by left|by right]. }
  destruct (Nat.leb_spec 3 (length (scan_prices (fold_left scan_node nodes acc))))
    as [Hge|Hlt']; [by right|].
  destruct (IH _ Hlt') as [->|H]; [by left|by right].
Qed.

Lemma scan_inv_start currency : scan_inv [] (Scan [] [] currency).
Proof.
  split; [done|]. split; [constructor|]. split; [constructor|]. split.
  - intros p Hp. by apply elem_of_nil in Hp.
  - intros t Ht. by apply elem_of_nil in Ht.
Qed.
End Extraction.

(** X14.  The prices [extractPricesFromDoc] takes from the nodes of the
    selectors lie strictly between 1 and 999,999, no two are equal (as
    numbers: their reduced fractions are distinct), and each
    is the price of the text of a node.  If the text of some node of some
    selector has a price, the result is not empty and the two fallbacks are
    not used; three prices or more are returned unless every selector was
    gone through; and when no node text has a price the result is what
    JSON-LD gives, or, when that is empty, what the Next.js data give. *)
Theorem extractPricesFromDoc_spec (doc : document) (currency : currency_info) :
  let prices := (extractPricesFromDoc doc currency).1 in
  let texts := concat (selector_texts doc) in
  ((exists text, text ∈ texts /\ (0 < parsePrice text)%Q) ->
   prices <> [] /\
   Forall (fun p => (1 < p)%Q /\ (p < 999999)%Q) prices /\
   NoDup (Qred <$> prices) /\
   (forall p, p ∈ prices -> exists text, text ∈ texts /\ p = parsePrice text) /\
   ((3 <= length prices)%nat \/
    forall text, text ∈ texts -> (0 < parsePrice text)%Q ->
      Qred (parsePrice text) ∈ Qred <$> prices)) /\
  ((forall text, text ∈ texts -> ~ (0 < parsePrice text)%Q) ->
   prices = if is_empty (json_ld doc) then next_data doc else json_ld doc).
Proof.
  intros prices texts.
  pose proof (scan_selectors_inv (selector_texts doc) []
                (Scan [] [] currency) (scan_inv_start currency))
    as (Hseen & Hrange & Hnd & Hfrom & Hall).
  simpl in Hfrom, Hall.
  set (acc := scan_selectors (selector_texts doc) (Scan [] [] currency)) in *.
  assert (forall t, t ∈ concat (scanned (selector_texts doc)
                                  (Scan [] [] currency)) -> t ∈ texts)
    as Hsub.
  { intros t Ht. destruct (scanned_prefix (selector_texts doc)
                             (Scan [] [] currency)) as [rest Hrest].
    unfold texts. rewrite Hrest, concat_app. apply elem_of_app. by left. }
  assert (prices = if is_empty (scan_prices acc)
                   then (if is_empty (json_ld doc) then next_data doc
                         else json_ld doc)
                   else scan_prices acc) as Hprices.
  { unfold prices, extractPricesFromDoc. fold acc. simpl.
    destruct (scan_prices acc); simpl; [|done].
    by destruct (json_ld doc). }
  split.
  - intros (text & Htext & Hpos).
    assert (scan_prices acc <> []) as Hne.
    { destruct (scan_selectors_stop (selector_texts doc)
                  (Scan [] [] currency)) as [Hall'|Hthree]; [simpl; lia| |].
      - rewrite Hall' in Hall. specialize (Hall text Htext Hpos).
        rewrite Hseen in Hall. by destruct (scan_prices acc).
      - fold acc in Hthree. destruct (scan_prices acc); [simpl in *; lia|done]. }
    assert (prices = scan_prices acc) as ->.
    { rewrite Hprices. by destruct (scan_prices acc). }
    split; [done|]. split; [done|]. split; [done|]. split.
    + intros p Hp. destruct (Hfrom p Hp) as (t & Ht & ->). eauto.
    + destruct (scan_selectors_stop (selector_texts doc)
                  (Scan [] [] currency)) as [Hall'|Hthree]; [simpl; lia| |].
      * right. intros t Ht Hp. rewrite Hall' in Hall.
        apply seen_has_Qred. rewrite <- Hseen. by apply Hall.
      * by left.
  - intros Hnone. rewrite Hprices.
    destruct (scan_prices acc) as [|p l] eqn:Hp; [done|]. exfalso.
    destruct (Hfrom p) as (t & Ht & Hpt); [by left|].
    apply (Hnone t (Hsub t Ht)).
    apply Forall_cons in Hrange as [[H1 _] _]. rewrite <- Hpt.
    eapply Qlt_trans; [|exact H1]. done.
Qed.

(** X14 on a document whose first selector finds two nodes with the same
    price. *)
Lemma extractPricesFromDoc_spec_witness :
  let doc := Document [[]; [str "US$120"; str "$ 120.00"; str "from 95"]]
                      [7%Q] [] in
  (extractPricesFromDoc doc USD).1 <> [] /\
  length (extractPricesFromDoc doc USD).1 = 2%nat.
Proof.
  intros doc.
  destruct (extractPricesFromDoc_spec doc USD) as [Hsome _].
  split; [|reflexivity].
  apply Hsome. exists (str "from 95"). split; [|reflexivity].
  right. right. by left.
Defined.

Section Currency.
(** The code is three capital letters, and the symbol is one of the table
    or the code with a narrow no-break space after it. *)
Definition currency_ok (c : currency_info) : Prop :=
  length (cur_code c) = 3%nat /\
  Forall (fun x => is_upper x = true) (cur_code c) /\
  (c ∈ CURRENCY_MAP.*2 \/ cur_symbol c = cur_code c ++ [narrow_space]).

Lemma find_split {A} (p : A -> bool) (l : list A) (x : A) :
  List.find p l = Some x ->
  exists pre post, l = pre ++ x :: post /\ p x = true /\
                   Forall (fun y => p y = false) pre.
Proof.
  induction l as [|y l IH]; simpl; [done|].
  destruct (p y) eqn:Hy.
  - intros [= <-]. exists [], l. by repeat split; [|constructor].
  - intros H. destruct (IH H) as (pre & post & -> & Hx & Hpre).
    exists (y :: pre), post. repeat split; [done|by constructor].
Qed.

Lemma find_none {A} (p : A -> bool) (l : list A) :
  List.find p l = None <-> Forall (fun y => p y = false) l.
Proof.
  induction l as [|y l IH]; simpl; [by split; [constructor|]|].
  destruct (p y) eqn:Hy.
  - split; [done|]. intros H. apply Forall_cons in H as [H _]. congruence.
  - rewrite IH. split; [by constructor|]. intros H.
    by apply Forall_cons in H as [_ H].
Qed.

Lemma match_code_Some prev s code :
  match_code prev s = Some code ->
  exists a b, s = a ++ code ++ b /\
    length code = 3%nat /\ Forall (fun x => is_upper x = true) code /\
    word_ends b = true /\
    match last a with Some c => is_word c | None => prev end = false.
Proof.
  revert prev. induction s as [|c s IH]; intros prev; [done|].
  cbn [match_code].
  destruct (match c :: s with
            | a :: b :: d :: rest =>
                negb prev && is_upper a && is_upper b && is_upper d
                && word_ends rest
            | _ => false
            end) eqn:Hhere.
  - intros [= <-]. destruct s as [|b [|d rest]]; try done.
    repeat (apply andb_true_iff in Hhere as [Hhere ?]).
    exists [], rest. simpl. split; [done|]. split; [done|].
    split; [by repeat constructor|]. split; [done|].
    by apply negb_true_iff.
  - intros H. destruct (IH _ H) as (a & b & -> & Hlen & Hup & Hend & Hprev).
    exists (c :: a), b. split; [done|]. split; [done|]. split; [done|].
    split; [done|]. destruct a as [|x a]; [exact Hprev|].
    change (last (c :: x :: a)) with (last (x :: a)).
    destruct (last (x :: a)) eqn:E; [exact Hprev|].
    by apply last_None in E.
Qed.

Lemma table_codes_ok c : c ∈ CURRENCY_MAP.*2 -> currency_ok c.
Proof.
  intros H. split; [|split; [|by left]];
    repeat (apply elem_of_cons in H as [->|H]; [by repeat constructor|]);
    by apply elem_of_nil in H.
Qed.
End Currency.

(** X15.  [detectCurrency]: a text that holds a symbol of the table sets the
    currency to the first entry of the table whose symbol it holds, whatever
    else the text holds; a text without any sets it to a word of three
    capital letters of the text, if there is one, with a narrow no-break
    space after the code as its symbol; otherwise the currency is left as it
    is.  So the code stays three capital letters, and the symbol is one of the
    table or the code and that space. *)
Theorem detectCurrency_spec (text : list N) (currency : currency_info) :
  (forall entry, List.find (fun e => includes e.1 text) CURRENCY_MAP = Some entry ->
     detectCurrency text currency = entry.2 /\
     includes entry.1 text = true /\
     exists pre post, CURRENCY_MAP = pre ++ entry :: post /\
       Forall (fun e => includes e.1 text = false) pre) /\
  (Forall (fun e => includes e.1 text = false) CURRENCY_MAP ->
   detectCurrency text currency = currency \/
   exists a code b, text = a ++ code ++ b /\
     length code = 3%nat /\ Forall (fun x => is_upper x = true) code /\
     word_ends b = true /\
     match last a with Some c => is_word c | None => false end = false /\
     detectCurrency text currency = Currency (code ++ [narrow_space]) code) /\
  (currency_ok currency -> currency_ok (detectCurrency text currency)).
Proof.
  split; [|split].
  - intros [sym info] Hfind. unfold detectCurrency. rewrite Hfind.
    destruct (find_split _ _ _ Hfind) as (pre & post & Heq & Hin & Hpre).
    assert (is_empty text = false) as ->.
    { destruct text; [|done]. simpl in Hin. done. }
    split; [done|]. split; [done|]. by exists pre, post.
  - intros Hnone. unfold detectCurrency.
    destruct (is_empty text); [by left|].
    apply find_none in Hnone. rewrite Hnone.
    destruct (match_code false text) as [code|] eqn:Hcode; [|by left].
    right. destruct (match_code_Some _ _ _ Hcode)
      as (a & b & -> & Hlen & Hup & Hend & Hprev).
    by exists a, code, b.
  - intros Hok. unfold detectCurrency.
    destruct (is_empty text); [done|].
    destruct (List.find _ CURRENCY_MAP) as [[sym info]|] eqn:Hfind.
    + apply table_codes_ok. apply find_some in Hfind as [Hin _].
      apply list_elem_of_fmap. exists (sym, info). split; [done|].
      by apply list_elem_of_In.
    + destruct (match_code false text) as [code|] eqn:Hcode; [|done].
      destruct (match_code_Some _ _ _ Hcode)
        as (a & b & _ & Hlen & Hup & _).
      split; [done|]. split; [done|]. by right.
Qed.

(** X15 on a price in Swiss francs and one in euros. *)
Lemma detectCurrency_spec_witness :
  detectCurrency (str "CHF 120") USD = Currency (str "CHF" ++ [narrow_space]) (str "CHF") /\
  currency_ok (detectCurrency (str "CHF 120") USD) /\
  cur_code (detectCurrency ([8364; 32; 49; 50; 48; 32; 85; 83; 36]%N) USD)
  = str "EUR".
Proof.
  destruct (detectCurrency_spec (str "CHF 120") USD) as (_ & _ & Hok).
  destruct (detectCurrency_spec ([8364; 32; 49; 50; 48; 32; 85; 83; 36]%N) USD)
    as (Hsym & _).
  split; [reflexivity|]. split.
  - apply Hok. apply table_codes_ok. vm_compute. by do 6 right; left.
  - by destruct (Hsym (8364%N, Currency [8364%N] (str "EUR")) eq_refl) as (-> & _).
Defined.
(* ----------------------------------------------------------------- *)
(** ** More on the scheduler: what one [drain] does, and that the queue
       cannot stall *)

Section DrainTurn.
Lemma drain_loop_turn queue s :
  exists skipped dispatched,
    queue = skipped ++ dispatched ++ fetchQueue (drain_loop queue s) /\
    Forall (fun j => has (priceCache s) (job_key j) = true) skipped /\
    Forall (fun j => has (priceCache s) (job_key j) = false) dispatched /\
    (length dispatched <= 1)%nat /\
    inflight (drain_loop queue s) = inflight s ++ dispatched /\
    activeFetches (drain_loop queue s)
    = (activeFetches s + Z.of_nat (length dispatched))%Z /\
    timers (drain_loop queue s)
    = timers s ++
      (if is_empty dispatched || is_empty (fetchQueue (drain_loop queue s))
       then [] else [(180%Z, TResume)]) /\
    priceCache (drain_loop queue s) = priceCache s /\
    (dispatched <> [] -> (activeFetches s < MAX_CONCURRENT)%Z) /\
    (dispatched = [] -> fetchQueue (drain_loop queue s) <> [] ->
     (MAX_CONCURRENT <= activeFetches s)%Z).
Proof.
  induction queue as [|item rest IH].
  { exists [], []. simpl. rewrite !app_nil_r, Z.add_0_r.
    repeat split; try done; try (simpl; lia); constructor. }
  simpl. destruct (Z.ltb_spec (activeFetches s) MAX_CONCURRENT) as [Hlt|Hge].
  - destruct (has (priceCache s) (job_key item)) eqn:Hhas.
    + destruct IH as (skipped & dispatched & Hq & Hsk & Hdi & Hlen & Hrest).
      exists (item :: skipped), dispatched.
      split; [simpl; by f_equal|]. split; [by constructor|done].
    + exists [], [item].
      assert (fetchQueue (if is_empty rest
                          then dispatch item (set_fetchQueue rest s)
                          else setTimeout TResume 180
                                 (dispatch item (set_fetchQueue rest s)))
              = rest) as Hq by by destruct rest.
      rewrite Hq. split; [done|]. split; [constructor|].
      split; [by repeat constructor|]. split; [simpl; lia|].
      destruct rest; simpl; rewrite ?app_nil_r; repeat split; done.
  - exists [], []. simpl. rewrite !app_nil_r, Z.add_0_r.
    repeat split; try done; try (simpl; lia); constructor.
Qed.
End DrainTurn.

(** X16.  One turn of [drain]: the jobs at the head of the queue whose key
    is cached are dropped, then at most one job, whose key is not cached,
    is dispatched (and only below the ceiling); the jobs behind it stay
    queued in their order, with a continuation after 180 ms when a job was
    dispatched and jobs are left.  The cache is not written.  When nothing
    is dispatched and jobs are left, the ceiling is reached. *)
Theorem drain_turn (s : state) :
  exists skipped dispatched,
    fetchQueue s = skipped ++ dispatched ++ fetchQueue (drain s) /\
    Forall (fun j => has (priceCache s) (job_key j) = true) skipped /\
    Forall (fun j => has (priceCache s) (job_key j) = false) dispatched /\
    (length dispatched <= 1)%nat /\
    inflight (drain s) = inflight s ++ dispatched /\
    activeFetches (drain s)
    = (activeFetches s + Z.of_nat (length dispatched))%Z /\
    timers (drain s)
    = timers s ++
      (if is_empty dispatched || is_empty (fetchQueue (drain s))
       then [] else [(180%Z, TResume)]) /\
    priceCache (drain s) = priceCache s /\
    (dispatched <> [] -> (activeFetches s < MAX_CONCURRENT)%Z) /\
    (dispatched = [] -> fetchQueue (drain s) <> [] ->
     (MAX_CONCURRENT <= activeFetches s)%Z).
Proof. apply drain_loop_turn. Qed.

Section Stall.
(** The timers whose callback runs [drain]. *)
Definition wakes (t : task) : bool :=
  match t with
  | TDrain | TResume | TRetry _ => true
  | TScrape | TClosePicker => false
  end.

(** Something is under way that will run [drain]: a fetch whose response
    or [finally] callback is due, or a timer of [drain]. *)
Definition wakeup_pending (s : state) : Prop :=
  inflight s <> [] \/ (0 < settled s)%nat \/
  exists ms t, (ms, t) ∈ timers s /\ wakes t = true.

Definition no_stall (s : state) : Prop :=
  fetchQueue s = [] \/ wakeup_pending s.

Lemma wakeup_pending_mono s s' :
  (inflight s <> [] -> inflight s' <> []) ->
  (0 < settled s -> 0 < settled s')%nat ->
  (forall ms t, wakes t = true -> (ms, t) ∈ timers s -> (ms, t) ∈ timers s') ->
  wakeup_pending s -> wakeup_pending s'.
Proof.
  intros Hi Hs Ht [H|[H|(ms & t & H & Hw)]].
  - left. auto.
  - right. left. auto.
  - right. right. exists ms, t. auto.
Qed.

Lemma no_stall_frame s s' :
  fetchQueue s' = fetchQueue s -> inflight s' = inflight s ->
  settled s' = settled s ->
  (forall ms t, wakes t = true -> (ms, t) ∈ timers s -> (ms, t) ∈ timers s') ->
  no_stall s -> no_stall s'.
Proof.
  intros Hq Hi Hs Ht [H|H]; [left; congruence|right].
  eapply wakeup_pending_mono; [| |exact Ht|exact H]; congruence.
Qed.

Lemma no_stall_setTimeout t ms s : no_stall s -> no_stall (setTimeout t ms s).
Proof.
  apply no_stall_frame; try done. intros ms' t' _ H. simpl.
  apply elem_of_app. by left.
Qed.

Lemma no_stall_cache_set key v s : no_stall s -> no_stall (cache_set key v s).
Proof. by apply no_stall_frame. Qed.

Lemma timer_survives (l : list (Z * task)) i ms t ms' t' :
  l !! i = Some (ms', t') -> wakes t' = false -> wakes t = true ->
  (ms, t) ∈ l -> (ms, t) ∈ delete i l.
Proof.
  intros Hi Hw' Hw Hin. apply list_elem_of_lookup in Hin as [k Hk].
  assert (k <> i) as Hne.
  { intros ->. rewrite Hi in Hk. injection Hk as -> ->. congruence. }
  apply list_elem_of_lookup.
  destruct (decide (k < i)%nat) as [Hlt|Hge].
  - exists k. by rewrite list_lookup_delete_lt.
  - exists (pred k). rewrite list_lookup_delete_ge by lia.
    by replace (S (pred k)) with k by lia.
Qed.

Lemma settled_drain_loop queue s : settled (drain_loop queue s) = settled s.
Proof.
  apply (drain_loop_invariant (fun s' => settled s' = settled s)); auto.
Qed.

Lemma no_stall_drain s : slots_inv s -> no_stall (drain s).
Proof.
  intros [Heq Hle]. unfold drain.
  destruct (drain_loop_turn (fetchQueue s) s)
    as (skipped & dispatched & _ & _ & _ & _ & Hin & _ & _ & _ & _ & Hfull).
  destruct dispatched as [|j ?].
  - destruct (fetchQueue (drain_loop (fetchQueue s) s)) as [|j q] eqn:Hq;
      [by left|right].
    specialize (Hfull eq_refl).
    specialize (Hfull ltac:(done)). unfold MAX_CONCURRENT in Hfull.
    rewrite app_nil_r in Hin.
    destruct (inflight s) as [|j' ?] eqn:Hi.
    + right. left. rewrite settled_drain_loop. simpl in Heq. lia.
    + left. rewrite Hin. done.
  - right. left. rewrite Hin. by destruct (inflight s).
Qed.

Lemma slots_inv_enqueues {A} (f : state -> A -> state) (l : list A) s :
  (forall s x, slots_inv s -> slots_inv (f s x)) ->
  slots_inv s -> slots_inv (fold_left f l s).
Proof. apply (fold_left_invariant slots_inv). Qed.

Lemma no_stall_handleDateClick date dest s :
  slots_inv s -> no_stall s -> no_stall (handleDateClick date dest s).
Proof.
  intros Hs Hn. unfold handleDateClick.
  destruct (match selectedCheckin s with
            | Some selected => (daysBetween selected date <=? 0)%Z
            | None => true end).
  - simpl. destruct (searchParams s).
    + apply no_stall_drain, slots_inv_enqueue_window.
      by apply (slots_inv_frame s).
    + destruct dest; [|by apply (no_stall_frame s)].
      apply (for_1_to_10_invariant no_stall).
      { intros i s' H. by apply (no_stall_frame s'). }
      apply (for_1_to_10_invariant no_stall).
      { intros i s' H. destruct (has _ _); [done|by apply no_stall_cache_set]. }
      by apply (no_stall_frame s).
  - apply no_stall_setTimeout. by apply (no_stall_frame s).
Qed.

Lemma no_stall_queueFetchesForCells cells s :
  slots_inv s -> no_stall s -> no_stall (queueFetchesForCells cells s).
Proof.
  intros Hs Hn. unfold queueFetchesForCells.
  destruct (searchParams s) as [sp|]; [|done].
  apply no_stall_drain.
  set (s1 := fold_left _ cells s).
  assert (slots_inv s1) as Hs1.
  { apply fold_left_invariant; [|done]. intros s0 [date|] Hs0; [|done].
    apply enqueue_invariant; [apply slots_inv_set_fetchQueue|done]. }
  destruct (selectedCheckin s1); [|done].
  by apply slots_inv_enqueue_window.
Qed.

Lemma no_stall_step s ev s' :
  step s ev = Some s' -> slots_inv s -> no_stall s -> no_stall s'.
Proof.
  intros Hstep Hs Hn.
  destruct ev as [date dest|cells|i prices|i|i r| |i r|fresh]; simpl in Hstep.
  - injection Hstep as <-. by apply no_stall_handleDateClick.
  - injection Hstep as <-. by apply no_stall_queueFetchesForCells.
  - destruct (timers s !! i) as [[ms []]|] eqn:Hi; try done.
    injection Hstep as <-.
    assert (no_stall (set_timers (delete i (timers s)) s)) as Hn'.
    { apply (no_stall_frame s); try done. intros ms' t' Hw Hin. simpl.
      by eapply timer_survives. }
    unfold scrapeCurrentPage.
    destruct (is_empty prices); [by apply no_stall_setTimeout|].
    simpl. destruct (searchParams s); [|done]. by apply no_stall_cache_set.
  - destruct (timers s !! i) as [[ms t]|] eqn:Hi; [|done].
    assert (slots_inv (set_timers (delete i (timers s)) s)) as Hs'
      by by apply (slots_inv_frame s).
    destruct t; try done; injection Hstep as <-;
      try by apply no_stall_drain.
    + unfold retry. apply no_stall_drain.
      destruct (has _ _); [done|by apply slots_inv_set_fetchQueue].
    + apply (no_stall_frame s); try done. intros ms' t' Hw Hin. simpl.
      by eapply timer_survives.
  - destruct (inflight s !! i) as [j|] eqn:Hi; [|done].
    injection Hstep as <-. right. right. left. simpl. lia.
  - destruct (settled s) as [|n] eqn:Hse; [done|]. injection Hstep as <-.
    unfold finally. simpl.
    destruct (fetchQueue s) as [|j q] eqn:Hq; simpl; [by left|].
    right. right. right. exists FETCH_DELAY_MS, TDrain. split; [|done].
    simpl. apply elem_of_app. right. by apply list_elem_of_singleton.
  - destruct (homepage s !! i) as [[checkinSnap key]|]; [|done].
    injection Hstep as <-. unfold homepage_settle. simpl.
    destruct (bool_decide _); [apply no_stall_cache_set|];
      by apply (no_stall_frame s).
  - injection Hstep as <-. unfold navigate.
    apply no_stall_setTimeout.
    destruct Hn as [Hn|Hn].
    + left. simpl. rewrite Hn. by destruct (match searchParams s with
                                             | Some _ => _ | None => _ end).
    + right. by eapply wakeup_pending_mono; [| | |exact Hn].
Qed.

Lemma no_stall_run s evs s' :
  run s evs = Some s' -> slots_inv s -> no_stall s -> no_stall s'.
Proof.
  revert s. induction evs as [|ev evs IH]; intros s Hrun Hs Hn; simpl in Hrun.
  { by injection Hrun as <-. }
  destruct (step s ev) as [s1|] eqn:Hstep; [|done].
  eapply IH; [done|by eapply slots_inv_step|by eapply no_stall_step].
Qed.
End Stall.

(** X17.  The queue cannot stall.  In every state the page reaches from
    [init], whenever jobs wait in [fetchQueue] something is under way that
    will run [drain] again: a fetch of the queue awaits its response or its
    [finally] callback, or a timer of [drain] (after a dispatch, after a
    completed fetch, or the retry of a rate-limited job) is pending. *)
Theorem queue_never_stalls (sp : option params) (evs : list event) (s : state) :
  run (init sp) evs = Some s ->
  fetchQueue s <> [] ->
  inflight s <> [] \/ (0 < settled s)%nat \/
  exists ms t, (ms, t) ∈ timers s /\
    (t = TDrain \/ t = TResume \/ exists j, t = TRetry j).
Proof.
  intros Hrun Hq.
  destruct (no_stall_run _ _ _ Hrun (slots_inv_init sp)) as [H|H];
    [by left|done|].
  destruct H as [H|[H|(ms & t & Hin & Hw)]]; [by left|by right; left|].
  right. right. exists ms, t. split; [done|].
  destruct t; try done; eauto.
Qed.

(** X17 after a rate-limited response: the fetch is over, six jobs
    wait, and a timer of [drain] is pending. *)
Lemma queue_never_stalls_witness :
  exists s,
    run (init (Some (Params 100 101 1)))
        [EvRefresh ((fun d => Some d) <$> seqZ 200 7);
         EvResponse 0 (Http 429 []); EvFinally] = Some s /\
    length (fetchQueue s) = 6%nat /\ inflight s = [] /\ settled s = 0%nat /\
    exists ms t, (ms, t) ∈ timers s /\
      (t = TDrain \/ t = TResume \/ exists j, t = TRetry j).
Proof.
  destruct (run (init (Some (Params 100 101 1)))
              [EvRefresh ((fun d => Some d) <$> seqZ 200 7);
               EvResponse 0 (Http 429 []); EvFinally]) as [s|] eqn:E;
    [|vm_compute in E; discriminate].
  exists s. split; [reflexivity|].
  pose proof (queue_never_stalls _ _ _ E) as H.
  vm_compute in E. injection E as <-.
  split; [reflexivity|]. split; [reflexivity|]. split; [reflexivity|].
  destruct H as [H|[H|H]]; [discriminate|done|simpl in H; lia|exact H].
Defined.

Section Stays.
(** The numbers of nights of the search parameters the page has had: those
    of [init] and of the navigations. *)
Definition nights_seen (sp : option params) (evs : list event) : list Z :=
  match sp with Some p => [sp_nights p] | None => [] end
  ++ omap (fun ev => match ev with
                     | EvNavigate fresh => Some (sp_nights fresh)
                     | _ => None
                     end) evs.

(** A job is stored under the key of its two dates, and its stay is one of
    the window of a selected check-in or has the nights of a search. *)
Definition stay_ok (ns : list Z) (j : job) : Prop :=
  job_key j = cacheKey (job_checkin j) (job_checkout j) /\
  ((1 <= daysBetween (job_checkin j) (job_checkout j) <= 10)%Z \/
   daysBetween (job_checkin j) (job_checkout j) ∈ ns).

Definition stays_inv (ns : list Z) (s : state) : Prop :=
  (forall p, searchParams s = Some p -> sp_nights p ∈ ns) /\
  Forall (stay_ok ns) (fetchQueue s) /\
  Forall (stay_ok ns) (inflight s) /\
  (forall ms j, (ms, TRetry j) ∈ timers s -> stay_ok ns j).

Variable ns : list Z.

Lemma fold_left_invariant_in {A} (P : state -> Prop) (f : state -> A -> state)
    (l : list A) s :
  (forall s x, x ∈ l -> P s -> P (f s x)) -> P s -> P (fold_left f l s).
Proof.
  revert s. induction l as [|x l IH]; intros s Hf Hs; simpl; [done|].
  apply IH.
  - intros s' y Hy. apply Hf. by right.
  - apply Hf; [by left|done].
Qed.

Lemma stays_inv_frame s s' :
  searchParams s' = searchParams s -> fetchQueue s' = fetchQueue s ->
  inflight s' = inflight s ->
  (forall ms j, (ms, TRetry j) ∈ timers s' -> (ms, TRetry j) ∈ timers s) ->
  stays_inv ns s -> stays_inv ns s'.
Proof.
  intros Hp Hq Hi Ht (H1 & H2 & H3 & H4). unfold stays_inv.
  rewrite Hp, Hq, Hi. split; [done|]. split; [done|]. split; [done|].
  intros ms j Hin. by eapply H4, Ht.
Qed.

Lemma stays_inv_setTimeout t ms s :
  (forall j, t = TRetry j -> stay_ok ns j) ->
  stays_inv ns s -> stays_inv ns (setTimeout t ms s).
Proof.
  intros Ht (H1 & H2 & H3 & H4).
  split; [done|]. split; [done|]. split; [done|].
  intros ms' j Hin. simpl in Hin. apply elem_of_app in Hin as [Hin|Hin].
  - by eapply H4.
  - apply list_elem_of_singleton in Hin. injection Hin as _ <-. by apply Ht.
Qed.

Lemma stays_inv_cache_set key v s :
  stays_inv ns s -> stays_inv ns (cache_set key v s).
Proof. by apply stays_inv_frame. Qed.

Lemma stays_inv_push j s :
  stay_ok ns j -> stays_inv ns s ->
  stays_inv ns (set_fetchQueue (fetchQueue s ++ [j]) s).
Proof.
  intros Hj (H1 & H2 & H3 & H4).
  split; [done|]. split; [|by split]. simpl.
  apply Forall_app. split; [done|]. by constructor.
Qed.

Lemma stays_inv_enqueue checkin checkout s :
  (1 <= daysBetween checkin checkout <= 10)%Z \/
    daysBetween checkin checkout ∈ ns ->
  stays_inv ns s -> stays_inv ns (enqueue checkin checkout s).
Proof.
  intros Hd Hs. unfold enqueue. destruct (_ && _); [|done].
  by apply stays_inv_push.
Qed.

Lemma stays_inv_enqueue_window checkin s :
  stays_inv ns s -> stays_inv ns (enqueue_window checkin s).
Proof.
  intros Hs. unfold enqueue_window, for_1_to_10.
  apply fold_left_invariant_in; [|done].
  intros s' i Hi Hs'. apply elem_of_seqZ in Hi.
  apply stays_inv_enqueue; [|done]. left. unfold daysBetween, addDays. lia.
Qed.

Lemma stays_inv_drain s : stays_inv ns s -> stays_inv ns (drain s).
Proof.
  intros (H1 & H2 & H3 & H4). unfold drain.
  destruct (drain_loop_turn (fetchQueue s) s)
    as (skipped & dispatched & Hq & _ & _ & _ & Hin & _ & Ht & _).
  rewrite Hq in H2. apply Forall_app in H2 as [_ H2].
  apply Forall_app in H2 as [Hd Hq'].
  split; [|split; [done|split]].
  - intros p Hp. apply H1. rewrite <- Hp. symmetry.
    by apply (drain_loop_invariant
                (fun s' => searchParams s' = searchParams s)).
  - rewrite Hin. by apply Forall_app.
  - intros ms j Hj. rewrite Ht in Hj. apply elem_of_app in Hj as [Hj|Hj].
    + by eapply H4.
    + destruct (_ || _); [by apply elem_of_nil in Hj|].
      by apply list_elem_of_singleton in Hj.
Qed.

Lemma timer_deleted (l : list (Z * task)) i x : x ∈ delete i l -> x ∈ l.
Proof.
  intros H. eapply elem_of_sublist; [exact H|]. apply sublist_delete.
Qed.

Lemma stays_inv_timer_deleted i s :
  stays_inv ns s -> stays_inv ns (set_timers (delete i (timers s)) s).
Proof.
  apply stays_inv_frame; try done. intros ms j. apply timer_deleted.
Qed.

Lemma stays_inv_step s ev s' :
  (forall fresh, ev = EvNavigate fresh -> sp_nights fresh ∈ ns) ->
  step s ev = Some s' -> stays_inv ns s -> stays_inv ns s'.
Proof.
  intros Hnav Hstep Hs.
  destruct ev as [date dest|cells|i prices|i|i r| |i r|fresh]; simpl in Hstep.
  - injection Hstep as <-. unfold handleDateClick.
    destruct (match selectedCheckin s with
              | Some selected => (daysBetween selected date <=? 0)%Z
              | None => true end).
    + simpl. destruct (searchParams s) eqn:Hp.
      * apply stays_inv_drain, stays_inv_enqueue_window.
        by apply (stays_inv_frame s).
      * destruct dest; [|by apply (stays_inv_frame s)].
        apply (for_1_to_10_invariant (stays_inv ns)).
        { intros i s1 H. by apply (stays_inv_frame s1). }
        apply (for_1_to_10_invariant (stays_inv ns)).
        { intros i s1 H. destruct (has _ _); [done|].
          by apply stays_inv_cache_set. }
        by apply (stays_inv_frame s).
    + apply stays_inv_setTimeout; [done|]. by apply (stays_inv_frame s).
  - injection Hstep as <-. unfold queueFetchesForCells.
    destruct (searchParams s) as [p|] eqn:Hp; [|done].
    apply stays_inv_drain.
    set (s1 := fold_left _ cells s).
    assert (stays_inv ns s1) as Hs1.
    { apply fold_left_invariant; [|done]. intros s0 [date|] Hs0; [|done].
      apply stays_inv_enqueue; [|done]. right.
      unfold daysBetween, addDays.
      replace (date + sp_nights p - date)%Z with (sp_nights p) by lia.
      destruct Hs as [H1 _]. by apply H1. }
    destruct (selectedCheckin s1); [|done].
    by apply stays_inv_enqueue_window.
  - destruct (timers s !! i) as [[ms []]|] eqn:Hi; try done.
    injection Hstep as <-.
    pose proof (stays_inv_timer_deleted i s Hs) as Hs'.
    unfold scrapeCurrentPage.
    destruct (is_empty prices); [by apply stays_inv_setTimeout|].
    simpl. destruct (searchParams s); [|done]. by apply stays_inv_cache_set.
  - destruct (timers s !! i) as [[ms t]|] eqn:Hi; [|done].
    pose proof (stays_inv_timer_deleted i s Hs) as Hs'.
    destruct t; try done; injection Hstep as <-; try done;
      try by apply stays_inv_drain.
    unfold retry. apply stays_inv_drain.
    destruct (has _ _); [done|]. apply stays_inv_push; [|done].
    destruct Hs as (_ & _ & _ & H4). apply (H4 ms).
    by eapply list_elem_of_lookup_2.
  - destruct (inflight s !! i) as [j|] eqn:Hi; [|done].
    injection Hstep as <-.
    assert (stay_ok ns j) as Hj.
    { destruct Hs as (_ & _ & H3 & _).
      eapply Forall_forall in H3; [exact H3|].
      by eapply list_elem_of_lookup_2. }
    assert (stays_inv ns (doFetch_settle j r s)) as (H1 & H2 & H3 & H4).
    { unfold doFetch_settle. destruct r as [|status prices].
      - by apply stays_inv_cache_set.
      - destruct (_ || _).
        + apply stays_inv_setTimeout; [|done]. by intros ? [= <-].
        + destruct (negb _); by apply stays_inv_cache_set. }
    split; [done|]. split; [done|]. split; [|done]. simpl.
    eapply Forall_forall. intros x Hx.
    eapply Forall_forall in H3; [exact H3|].
    eapply elem_of_sublist; [exact Hx|]. apply sublist_delete.
  - destruct (settled s) as [|n] eqn:Hse; [done|]. injection Hstep as <-.
    unfold finally. simpl.
    destruct (is_empty (fetchQueue s)).
    + by apply (stays_inv_frame s).
    + apply stays_inv_setTimeout; [done|]. by apply (stays_inv_frame s).
  - destruct (homepage s !! i) as [[checkinSnap key]|]; [|done].
    injection Hstep as <-. unfold homepage_settle. simpl.
    destruct (bool_decide _); [apply stays_inv_cache_set|];
      by apply (stays_inv_frame s).
  - injection Hstep as <-. unfold navigate.
    apply stays_inv_setTimeout; [done|].
    destruct Hs as (H1 & H2 & H3 & H4).
    split; [|split; [|by split]].
    + simpl. intros p [= <-]. by apply Hnav.
    + simpl. by destruct (match searchParams s with
                          | Some _ => _ | None => _ end).
Qed.

Lemma stays_inv_run s evs s' :
  (forall fresh, EvNavigate fresh ∈ evs -> sp_nights fresh ∈ ns) ->
  run s evs = Some s' -> stays_inv ns s -> stays_inv ns s'.
Proof.
  revert s. induction evs as [|ev evs IH]; intros s Hnav Hrun Hs;
    simpl in Hrun.
  { by injection Hrun as <-. }
  destruct (step s ev) as [s1|] eqn:Hstep; [|done].
  eapply IH; [|done|].
  - intros fresh Hin. apply Hnav. by right.
  - eapply stays_inv_step; [|done|done]. intros fresh ->. apply Hnav. by left.
Qed.
End Stays.

(** X18.  Every job of the scheduler, queued or in flight, is stored under
    the key of its own two dates, and its stay is either one of the ten
    stays of the window of a selected check-in (1 to 10 nights) or has the
    number of nights of search parameters the page has had.  So a result is
    cached under the dates it was fetched for, and no other stay is ever
    fetched. *)
Theorem jobs_consistent (sp : option params) (evs : list event) (s : state)
    (j : job) :
  run (init sp) evs = Some s ->
  j ∈ fetchQueue s ++ inflight s ->
  job_key j = cacheKey (job_checkin j) (job_checkout j) /\
  ((1 <= daysBetween (job_checkin j) (job_checkout j) <= 10)%Z \/
   daysBetween (job_checkin j) (job_checkout j) ∈ nights_seen sp evs).
Proof.
  intros Hrun Hj.
  assert (stays_inv (nights_seen sp evs) s) as (_ & H2 & H3 & _).
  { eapply stays_inv_run; [|exact Hrun|].
    - intros fresh Hin. unfold nights_seen. apply elem_of_app. right.
      apply list_elem_of_omap. by exists (EvNavigate fresh).
    - split; [|split; [by constructor|split; [by constructor|]]]; simpl.
      + intros p ->. unfold nights_seen. apply elem_of_app. left.
        by apply list_elem_of_singleton.
      + intros ms j' Hin. destruct sp; simpl in Hin.
        * by apply list_elem_of_singleton in Hin.
        * by apply elem_of_nil in Hin. }
  apply elem_of_app in Hj as [Hj|Hj].
  - eapply Forall_forall in H2; [exact H2|done].
  - eapply Forall_forall in H3; [exact H3|done].
Qed.

(** X18 on a results page of two nights with a selected check-in: the job in
    flight is a stay of the window. *)
Lemma jobs_consistent_witness :
  exists s j,
    run (init (Some (Params 100 102 2)))
        [EvClick 300 false; EvRefresh [Some 200%Z]] = Some s /\
    inflight s !! 0%nat = Some j /\
    job_key j = cacheKey (job_checkin j) (job_checkout j).
Proof.
  destruct (run (init (Some (Params 100 102 2)))
              [EvClick 300 false; EvRefresh [Some 200%Z]]) as [s|] eqn:E;
    [|vm_compute in E; discriminate].
  exists s, (Job (300, 301)%Z 300 301). split; [reflexivity|].
  pose proof (jobs_consistent _ _ _ (Job (300, 301)%Z 300 301) E) as H.
  vm_compute in E. injection E as <-.
  split; [reflexivity|]. apply H. apply elem_of_app. right. by left.
Defined.

Section Badges.
Lemma searchParams_handleDateClick date dest s :
  searchParams (handleDateClick date dest s) = searchParams s.
Proof.
  unfold handleDateClick.
  destruct (match selectedCheckin s with
            | Some selected => (daysBetween selected date <=? 0)%Z
            | None => true end); [|done].
  simpl. destruct (searchParams s) eqn:Hp.
  - unfold drain.
    rewrite (drain_loop_invariant
               (fun s' => searchParams s' = searchParams s)); try done.
    by apply (enqueue_window_invariant
                (fun s' => searchParams s' = searchParams s)).
  - destruct dest; [|done].
    apply (for_1_to_10_invariant (fun s' => searchParams s' = None)); [done|].
    apply (for_1_to_10_invariant (fun s' => searchParams s' = None)); [|done].
    intros i s' H. by destruct (has _ _).
Qed.
End Badges.

(** X19.  After a check-in is picked, each badge of the ten days that follow
    it shows the stay from the check-in to its own date, and on a results
    page that stay is cached, queued or in flight; every badge outside this
    window shows the stay of the search's number of nights that begins at
    its date, or nothing on a page without search parameters. *)
Theorem window_badges (date : Z) (dest : bool) (s : state) :
  picks_checkin date s ->
  (forall i, (1 <= i <= 10)%Z ->
     getBadgeDates (addDays date i) (handleDateClick date dest s)
     = Some (date, addDays date i) /\
     (is_Some (searchParams s) ->
      covered_key (cacheKey date (addDays date i))
                  (handleDateClick date dest s))) /\
  (forall d, ~ (1 <= daysBetween date d <= 10)%Z ->
     getBadgeDates d (handleDateClick date dest s)
     = (fun sp => (d, addDays d (sp_nights sp))) <$> searchParams s).
Proof.
  intros Hpick.
  pose proof (handleDateClick_checkin date dest s Hpick) as Hsel.
  pose proof (searchParams_handleDateClick date dest s) as Hsp.
  split.
  - intros i Hi. split; [|intros Hsome; by apply handleDateClick_window].
    unfold getBadgeDates. rewrite Hsel. unfold daysBetween, addDays.
    replace (date + i - date)%Z with i by lia.
    destruct (Z.leb_spec 1 i); [|lia]. destruct (Z.leb_spec i 10); [|lia].
    done.
  - intros d Hd. unfold getBadgeDates. rewrite Hsel, Hsp.
    destruct (Z.leb_spec 1 (daysBetween date d));
      destruct (Z.leb_spec (daysBetween date d) 10); simpl;
      try lia; by destruct (searchParams s).
Qed.

(** X19 on a results page of one night. *)
Lemma window_badges_witness :
  getBadgeDates 8 (handleDateClick 5 false (init (Some (Params 100 101 1))))
  = Some (5, 8)%Z /\
  getBadgeDates 20 (handleDateClick 5 false (init (Some (Params 100 101 1))))
  = Some (20, 21)%Z.
Proof.
  destruct (window_badges 5 false (init (Some (Params 100 101 1))))
    as [Hin Hout]; [by left|].
  split.
  - apply (Hin 3%Z). lia.
  - apply (Hout 20%Z). unfold daysBetween. lia.
Defined.
(* ----------------------------------------------------------------- *)
(** ** The filters of the comparison table *)

Section Filters.
Variable tab : list N.
Variable d : bool.

Lemma set_hidden_same r : set_hidden (row_hidden r) r = r.
Proof. by destruct r. Qed.

Lemma elem_on_rows f l r' :
  Some r' ∈ on_rows f l <-> exists r, Some r ∈ l /\ r' = f r.
Proof.
  unfold on_rows. rewrite list_elem_of_fmap. split.
  - intros ([r|] & H & Hin); simpl in H; [|done].
    injection H as ->. by exists r.
  - intros (r & Hin & ->). by exists (Some r).
Qed.

Lemma rows_of_elem l r : r ∈ rows_of l <-> Some r ∈ l.
Proof.
  unfold rows_of. rewrite list_elem_of_omap. split.
  - by intros (? & ? & ->).
  - intros H. by exists (Some r).
Qed.

Lemma existsb_rows (p : row -> bool) l :
  existsb p (rows_of l) = true <-> exists r, Some r ∈ l /\ p r = true.
Proof.
  rewrite existsb_exists. split; intros (r & Hin & Hp); exists r;
    (split; [|done]).
  - by apply rows_of_elem, list_elem_of_In.
  - by apply list_elem_of_In, rows_of_elem.
Qed.

Lemma update_first_elem p f l r' :
  Some r' ∈ update_first p f l ->
  Some r' ∈ l \/ exists r, Some r ∈ l /\ p r = true /\ r' = f r.
Proof.
  induction l as [|[r|] l IH]; simpl; [by left| |].
  - destruct (p r) eqn:Hp.
    + intros [[= ->]|H]%elem_of_cons.
      * right. exists r. split; [by left|done].
      * left. by right.
    + intros [[= ->]|H]%elem_of_cons; [left; by left|].
      destruct (IH H) as [H'|(r0 & H' & Hr0)]; [left; by right|].
      right. exists r0. split; [by right|done].
  - intros [?|H]%elem_of_cons; [done|].
    destruct (IH H) as [H'|(r0 & H' & Hr0)]; [left; by right|].
    right. exists r0. split; [by right|done].
Qed.

Lemma update_first_keeps p f l r :
  Some r ∈ l -> p r = false -> Some r ∈ update_first p f l.
Proof.
  intros Hin Hp. induction l as [|[r0|] l IH]; simpl; [done| |].
  - apply elem_of_cons in Hin as [[= <-]|Hin].
    + rewrite Hp. by left.
    + destruct (p r0); right; [done|by apply IH].
  - apply elem_of_cons in Hin as [?|Hin]; [done|]. right. by apply IH.
Qed.

Lemma update_first_hit p f l :
  existsb p (rows_of l) = true ->
  exists r, Some r ∈ l /\ p r = true /\ Some (f r) ∈ update_first p f l.
Proof.
  induction l as [|[r|] l IH]; simpl; [done| |].
  - destruct (p r) eqn:Hp; simpl.
    + intros _. exists r. split; [by left|]. split; [done|by left].
    + intros H.
      destruct (IH H) as (r0 & Hin & Hp0 & Hout).
      exists r0. split; [by right|]. split; [done|by right].
  - intros H. destruct (IH H) as (r0 & Hin & Hp0 & Hout).
    exists r0. split; [by right|]. split; [done|by right].
Qed.

Lemma filter_subsections_keeps l r :
  Some r ∈ l -> kind_is (str "subsection") r = false ->
  Some r ∈ filter_subsections tab l.
Proof.
  intros Hin Hk. induction l as [|[r0|] l IH]; simpl; [done| |].
  - apply elem_of_cons in Hin as [[= <-]|Hin].
    + rewrite Hk. by left.
    + right. by apply IH.
  - apply elem_of_cons in Hin as [?|Hin]; [done|]. right. by apply IH.
Qed.

Lemma filter_subsections_elem l r' :
  Some r' ∈ filter_subsections tab l ->
  (Some r' ∈ l /\ kind_is (str "subsection") r' = false) \/
  (kind_is (str "subsection") r' = true /\
   exists r pre next, l = pre ++ Some r :: next /\
     r' = set_hidden (if tab_shows tab (section_of r)
                      then negb (has_visible_rows next) else true) r).
Proof.
  induction l as [|[r|] l IH]; simpl; [by intros ?%elem_of_nil| |].
  - intros [H|H]%elem_of_cons.
    + destruct (kind_is (str "subsection") r) eqn:Hk.
      * injection H as ->. right. split; [done|]. by exists r, [], l.
      * injection H as ->. left. split; [by left|done].
    + destruct (IH H) as [[Hin Hk]|(Hk & r0 & pre & next & -> & ->)].
      * left. split; [by right|done].
      * right. split; [done|]. by exists r0, (Some r :: pre), next.
  - intros [?|H]%elem_of_cons; [done|].
    destruct (IH H) as [[Hin Hk]|(Hk & r0 & pre & next & -> & ->)].
    + left. split; [by right|done].
    + right. split; [done|]. by exists r0, (None :: pre), next.
Qed.

Lemma count_up_positive (sec sec' : list N) (m : gmap (list N) nat) :
  (0 < default 0 (count_up sec' m !! sec))%nat <->
  sec = sec' \/ (0 < default 0 (m !! sec))%nat.
Proof.
  unfold count_up. destruct (decide (sec = sec')) as [->|Hne].
  - rewrite lookup_insert_eq. simpl. split; [by left|lia].
  - rewrite lookup_insert_ne by done. split; [by right|]. by intros [?|?].
Qed.

Lemma counts_positive (rows : list row) (m : gmap (list N) nat)
    (sec : list N) :
  (0 < default 0 (fold_left (count_row tab d) rows m !! sec))%nat <->
  (0 < default 0 (m !! sec))%nat \/
  exists r, r ∈ rows /\ is_header r = false /\
            row_visible tab d r = true /\ section_of r = sec.
Proof.
  revert m. induction rows as [|r rows IH]; intros m; simpl.
  { split; [by left|]. intros [?|(r & Hr & _)]; [done|].
    by apply elem_of_nil in Hr. }
  rewrite IH. unfold count_row.
  destruct (is_header r) eqn:Hh;
    [|destruct (row_visible tab d r) eqn:Hv].
  - split; (intros [?|(r0 & Hr0 & H)]; [by left|right]).
    + exists r0. split; [by right|done].
    + apply elem_of_cons in Hr0 as [->|Hr0].
      * destruct H as [H _]. congruence.
      * by exists r0.
  - rewrite count_up_positive. split.
    + intros [[->|?]|(r0 & Hr0 & H)].
      * right. exists r. split; [by left|done].
      * by left.
      * right. exists r0. split; [by right|done].
    + intros [?|(r0 & Hr0 & H)]; [left; by right|].
      apply elem_of_cons in Hr0 as [->|Hr0].
      * left. left. by destruct H as (_ & _ & <-).
      * right. by exists r0.
  - split; (intros [?|(r0 & Hr0 & H)]; [by left|right]).
    + exists r0. split; [by right|done].
    + apply elem_of_cons in Hr0 as [->|Hr0].
      * destruct H as (_ & H & _). congruence.
      * by exists r0.
Qed.

Lemma kind_is_other k1 k2 r :
  k1 <> k2 -> kind_is k1 r = true -> kind_is k2 r = false.
Proof.
  unfold kind_is. intros Hne H1. apply bool_decide_eq_true in H1.
  apply bool_decide_eq_false. congruence.
Qed.

Lemma kind_clash k1 k2 r :
  kind_is k1 r = true -> kind_is k2 r = true -> k1 = k2.
Proof.
  unfold kind_is. intros H1 H2. apply bool_decide_eq_true in H1, H2.
  congruence.
Qed.

Lemma filter_subsections_app pre l :
  exists pre', filter_subsections tab (pre ++ l)
               = pre' ++ filter_subsections tab l.
Proof.
  induction pre as [|[r|] pre [pre' IH]]; simpl.
  - by exists [].
  - rewrite IH. by eexists (_ :: pre').
  - rewrite IH. by exists (None :: pre').
Qed.

Lemma has_visible_rows_subsections l :
  has_visible_rows (filter_subsections tab l) = has_visible_rows l.
Proof.
  induction l as [|[r|] l IH]; simpl; [done| |done].
  destruct (kind_is (str "subsection") r) eqn:Hk; simpl.
  - unfold kind_is in *. simpl. by rewrite Hk.
  - rewrite Hk. simpl. destruct (kind_is (str "section") r); [done|].
    by rewrite IH.
Qed.

Lemma has_visible_rows_sections counts l :
  has_visible_rows (on_rows (filter_section tab counts) l)
  = has_visible_rows l.
Proof.
  unfold on_rows. induction l as [|[r|] l IH]; [reflexivity| |reflexivity].
  rewrite fmap_cons. cbn [has_visible_rows fmap option_fmap option_map].
  unfold filter_section at 1 2 3.
  destruct (kind_is (str "section") r) eqn:Hk.
  - change (kind_is (str "section") (set_hidden ?h r))
      with (kind_is (str "section") r). rewrite Hk. by rewrite !orb_true_r.
  - rewrite Hk. destruct (kind_is (str "subsection") r); [done|].
    simpl. by rewrite IH.
Qed.
End Filters.

(** X20.  What [applyCompareFilters] leaves visible.  A row that is shown
    belongs to the active tab (or the tab is [all]); with "only differences"
    on, a field row that is shown is marked as differing; a section header
    that is shown has a visible row of its section below the headers, or,
    for the features, the visible "no differences" row; and a subsection
    header that is shown has a visible row among the siblings that follow
    it, before the next header. *)
Theorem applyCompareFilters_visible (m : modal) (r : row) :
  let activeTab := or_default (active_tab m) (str "all") in
  let differencesOnly := bool_decide (diff_only m = Some (str "1")) in
  let out := modal_rows (applyCompareFilters m) in
  Some r ∈ out -> row_hidden r = false ->
  (kind_is (str "feature-empty-diff") r = false ->
   tab_shows activeTab (section_of r) = true) /\
  (differencesOnly = true ->
   kind_is (str "field") r || kind_is (str "feature-field") r = true ->
   row_diff r = Some (str "1")) /\
  (kind_is (str "section") r = true ->
   exists r', Some r' ∈ out /\ row_hidden r' = false /\
     kind_is (str "section") r' = false /\
     kind_is (str "subsection") r' = false /\
     (section_of r' = section_of r \/
      kind_is (str "feature-empty-diff") r' = true /\
      section_of r = str "features")) /\
  (kind_is (str "subsection") r = true ->
   exists pre next, out = pre ++ Some r :: next /\
                    has_visible_rows next = true).
Proof.
  intros tab d out Hin Hvis.
  unfold out, applyCompareFilters in *. fold tab in Hin |- *. fold d in Hin |- *.
  cbn [modal_rows] in *.
  set (items1 := on_rows (filter_row tab d) (modal_rows m)) in *.
  set (counts1 := fold_left (count_row tab d) (rows_of (modal_rows m)) ∅) in *.
  set (fde := existsb (kind_is (str "feature-empty-diff")) (rows_of items1)) in *.
  set (show := showDiffEmpty tab d (rows_of items1)) in *.
  set (items2 := update_first (kind_is (str "feature-empty-diff"))
                   (set_hidden (negb show)) items1) in *.
  set (counts2 := if fde && show then count_up (str "features") counts1
                  else counts1) in *.
  set (items3 := filter_subsections tab items2) in *.
  (* rows below the headers go through the later loops as they are *)
  assert (forall r0, Some r0 ∈ items2 ->
            kind_is (str "section") r0 = false ->
            kind_is (str "subsection") r0 = false ->
            Some r0 ∈ on_rows (filter_section tab counts2) items3) as Hkeep.
  { intros r0 H0 Hs Hss. apply elem_on_rows. exists r0.
    split; [by apply filter_subsections_keeps|].
    unfold filter_section. by rewrite Hs. }
  apply elem_on_rows in Hin as (r3 & Hin3 & ->).
  unfold filter_section in *.
  destruct (kind_is (str "section") r3) eqn:Hsec.
  - (* a section header *)
    simpl in Hvis. apply negb_false_iff, andb_true_iff in Hvis as [Htab Hcnt].
    apply Nat.ltb_lt in Hcnt.
    assert (section_of (set_hidden (negb (tab_shows tab (section_of r3)
              && (0 <? default 0 (counts2 !! section_of r3))%nat)) r3)
            = section_of r3) as Hsame by done.
    split; [done|]. split; [|split].
    + intros _ Hk. apply orb_true_iff in Hk as [Hk|Hk];
        unfold kind_is in *; simpl in Hk;
        apply bool_decide_eq_true in Hsec, Hk; by rewrite Hsec in Hk.
    + intros _. rewrite Hsame.
      assert ((fde && show = true /\ section_of r3 = str "features") \/
              (0 < default 0 (counts1 !! section_of r3))%nat) as [[Hf Hs]|Hc].
      { unfold counts2 in Hcnt. destruct (fde && show) eqn:Hfs; [|by right].
        apply count_up_positive in Hcnt as [?|?]; [by left|by right]. }
      * apply andb_true_iff in Hf as [Hfde Hshow].
        destruct (update_first_hit (kind_is (str "feature-empty-diff"))
                    (set_hidden (negb show)) items1 Hfde)
          as (r1 & _ & Hk1 & Hout1).
        exists (set_hidden (negb show) r1).
        assert (kind_is (str "section") (set_hidden (negb show) r1) = false)
          as Hk2 by by apply (kind_is_other (str "feature-empty-diff")).
        assert (kind_is (str "subsection") (set_hidden (negb show) r1) = false)
          as Hk3 by by apply (kind_is_other (str "feature-empty-diff")).
        split; [by apply Hkeep|].
        split; [simpl; by rewrite Hshow|].
        split; [done|]. split; [done|]. by right.
      * apply counts_positive in Hc as [Hc|(r0 & Hr0 & Hh & Hv & Hs)].
        { rewrite lookup_empty in Hc. simpl in Hc. lia. }
        apply orb_false_iff in Hh as Hh'. destruct Hh' as [Hh' Hk3].
        apply orb_false_iff in Hh' as [Hk1 Hk2].
        exists (set_hidden false r0).
        split; [|by repeat split; try done; left].
        apply Hkeep; [|done|done].
        apply update_first_keeps; [|done].
        apply elem_on_rows. exists r0. split; [by apply rows_of_elem|].
        unfold filter_row. by rewrite Hh, Hv.
    + intros Hk. unfold kind_is in *. simpl in Hk.
      apply bool_decide_eq_true in Hsec, Hk. by rewrite Hsec in Hk.
  - (* not a section header *)
    apply filter_subsections_elem in Hin3
      as [[Hin2 Hsub]|(Hsub & r2 & pre & next & Heq & ->)].
    + (* below the headers, or the "no differences" row *)
      split; [|split; [|split]]; [| |by rewrite Hsec|by rewrite Hsub].
      * intros Hfde.
        apply update_first_elem in Hin2 as [Hin1|(r1 & _ & Hk1 & ->)];
          [|change (kind_is (str "feature-empty-diff") r1 = false) in Hfde;
            congruence].
        apply elem_on_rows in Hin1 as (r0 & Hr0 & ->).
        unfold filter_row in *. destruct (is_header r0) eqn:Hh.
        { unfold is_header in Hh. by rewrite Hsec, Hsub, Hfde in Hh. }
        simpl in Hvis. apply negb_false_iff in Hvis.
        unfold row_visible in Hvis.
        change (section_of (set_hidden _ r0)) with (section_of r0).
        destruct (tab_shows tab (section_of r0)); [done|].
        by simpl in Hvis.
      * intros Hd Hfield.
        apply update_first_elem in Hin2 as [Hin1|(r1 & _ & Hk1 & ->)].
        -- apply elem_on_rows in Hin1 as (r0 & Hr0 & ->).
           unfold filter_row in *. destruct (is_header r0) eqn:Hh.
           { unfold is_header in Hh. rewrite Hsec, Hsub in Hh. simpl in Hh.
             apply orb_true_iff in Hfield as [Hf|Hf];
               discriminate (kind_clash _ _ _ Hf Hh). }
           simpl in Hvis. apply negb_false_iff in Hvis.
           unfold row_visible in Hvis.
           change (kind_is (str "field") r0
                   || kind_is (str "feature-field") r0 = true) in Hfield.
           rewrite Hfield, Hd in Hvis.
           destruct (tab_shows tab (section_of r0)); [|done].
           simpl in Hvis. by apply bool_decide_eq_true in Hvis.
        -- change (kind_is (str "field") r1
                   || kind_is (str "feature-field") r1 = true) in Hfield.
           apply orb_true_iff in Hfield as [Hf|Hf];
             discriminate (kind_clash _ _ _ Hf Hk1).
    + (* a subsection header *)
      simpl in Hvis.
      destruct (tab_shows tab (section_of r2)) eqn:Htab; [|done].
      apply negb_false_iff in Hvis.
      split; [done|]. split; [|split].
      * intros _ Hfield.
        change (kind_is (str "field") r2
                || kind_is (str "feature-field") r2 = true) in Hfield.
        change (kind_is (str "subsection") r2 = true) in Hsub.
        apply orb_true_iff in Hfield as [Hf|Hf];
          discriminate (kind_clash _ _ _ Hf Hsub).
      * by rewrite Hsec.
      * intros _. unfold items3. rewrite Heq.
        destruct (filter_subsections_app tab pre (Some r2 :: next))
          as [pre' ->].
        cbn [filter_subsections].
        change (kind_is (str "subsection") r2 = true) in Hsub.
        rewrite Hsub, Htab. unfold on_rows. rewrite fmap_app, fmap_cons.
        exists ((fun item : option row =>
                   filter_section tab counts2 <$> item) <$> pre'),
               (on_rows (filter_section tab counts2)
                  (filter_subsections tab next)).
        split.
        { f_equal. f_equal. cbn [fmap option_fmap option_map]. f_equal.
          unfold filter_section. by rewrite Hsec. }
        by rewrite (has_visible_rows_sections tab counts2),
          has_visible_rows_subsections.
Qed.

(** X20 on a table of one section with two fields, with "only differences"
    on: the field that does not differ is hidden, and the header stays for
    the one that does. *)
Lemma applyCompareFilters_visible_witness :
  let header := Row (str "section") (Some (str "general")) None true in
  let same := Row (str "field") (Some (str "general")) (Some (str "0")) false in
  let differs := Row (str "field") (Some (str "general")) (Some (str "1")) true in
  let m := Modal None (Some (str "1")) [Some header; Some same; Some differs] [] in
  row_hidden <$> rows_of (modal_rows (applyCompareFilters m))
  = [false; true; false] /\
  exists r', Some r' ∈ modal_rows (applyCompareFilters m) /\
             row_hidden r' = false /\ kind_is (str "section") r' = false.
Proof.
  intros header same differs m.
  split; [reflexivity|].
  destruct (applyCompareFilters_visible m (set_hidden false header))
    as (_ & _ & Hsec & _); [vm_compute; by left|reflexivity|].
  destruct (Hsec eq_refl) as (r' & Hin & Hvis & Hkind & _).
  by exists r'.
Defined.

Section Idempotence.
Variable tab : list N.
Variable d : bool.
Variable counts : gmap (list N) nat.
Variable show : bool.
Local Abbreviation P1 := (on_rows (filter_row tab d)).
Local Abbreviation S2 :=
  (update_first (kind_is (str "feature-empty-diff")) (set_hidden (negb show))).
Local Abbreviation P3 := (filter_subsections tab).
Local Abbreviation P4 := (on_rows (filter_section tab counts)).

(** The attributes of the rows, which no loop changes. *)
Definition erase (l : list (option row)) : list (option row) :=
  on_rows (set_hidden false) l.

Lemma on_rows_Some f r l : on_rows f (Some r :: l) = Some (f r) :: on_rows f l.
Proof. done. Qed.

Lemma on_rows_None f l : on_rows f (None :: l) = None :: on_rows f l.
Proof. done. Qed.

Lemma rows_of_Some r l : rows_of (Some r :: l) = r :: rows_of l.
Proof. done. Qed.

Lemma rows_of_None l : rows_of (None :: l) = rows_of l.
Proof. done. Qed.

Lemma on_rows_id f l : (forall r, Some r ∈ l -> f r = r) -> on_rows f l = l.
Proof.
  induction l as [|[r|] l IH]; intros Hf; [done| |].
  - rewrite on_rows_Some, (Hf r) by by left.
    f_equal. apply IH. intros r0 H0. apply Hf. by right.
  - rewrite on_rows_None. f_equal. apply IH. intros r0 H0. apply Hf.
    by right.
Qed.

Lemma erase_on_rows f l :
  (forall r, set_hidden false (f r) = set_hidden false r) ->
  erase (on_rows f l) = erase l.
Proof.
  intros Hf. unfold erase. induction l as [|[r|] l IH]; [done| |].
  - by rewrite !on_rows_Some, Hf, IH.
  - by rewrite !on_rows_None, IH.
Qed.

Lemma erase_update_first p h l : erase (update_first p (set_hidden h) l) = erase l.
Proof.
  unfold erase. induction l as [|[r|] l IH]; [done| |].
  - cbn [update_first]. destruct (p r); [done|].
    by rewrite !on_rows_Some, IH.
  - cbn [update_first]. by rewrite !on_rows_None, IH.
Qed.

Lemma erase_filter_subsections l : erase (P3 l) = erase l.
Proof.
  unfold erase. induction l as [|[r|] l IH]; [done| |].
  - cbn [filter_subsections].
    destruct (kind_is (str "subsection") r); by rewrite !on_rows_Some, IH.
  - cbn [filter_subsections]. by rewrite !on_rows_None, IH.
Qed.

Lemma rows_of_erase l : rows_of (erase l) = set_hidden false <$> rows_of l.
Proof.
  unfold erase. induction l as [|[r|] l IH]; [done| |].
  - by rewrite on_rows_Some, !rows_of_Some, fmap_cons, IH.
  - by rewrite on_rows_None, !rows_of_None, IH.
Qed.

Lemma counts_erased (rows : list row) (m : gmap (list N) nat) :
  fold_left (count_row tab d) (set_hidden false <$> rows) m
  = fold_left (count_row tab d) rows m.
Proof.
  revert m. induction rows as [|r rows IH]; intros m; [done|].
  rewrite fmap_cons. cbn [fold_left]. by rewrite IH.
Qed.

Lemma kinds_erased k rows :
  existsb (kind_is k) (set_hidden false <$> rows) = existsb (kind_is k) rows.
Proof.
  induction rows as [|r rows IH]; [done|].
  rewrite fmap_cons. cbn [existsb]. by rewrite IH.
Qed.

Lemma existsb_on_rows (g : row -> bool) f l :
  (forall r, g (f r) = g r) ->
  existsb g (rows_of (on_rows f l)) = existsb g (rows_of l).
Proof.
  intros Hg. induction l as [|[r|] l IH]; [done| |].
  - rewrite on_rows_Some, !rows_of_Some. cbn [existsb]. by rewrite Hg, IH.
  - by rewrite on_rows_None, !rows_of_None.
Qed.

Lemma existsb_update_first (g : row -> bool) p f l :
  (forall r, p r = true -> g (f r) = g r) ->
  existsb g (rows_of (update_first p f l)) = existsb g (rows_of l).
Proof.
  intros Hg. induction l as [|[r|] l IH]; [done| |].
  - cbn [update_first]. destruct (p r) eqn:Hp.
    + rewrite !rows_of_Some. cbn [existsb]. by rewrite Hg.
    + rewrite !rows_of_Some. cbn [existsb]. by rewrite IH.
  - cbn [update_first]. by rewrite !rows_of_None.
Qed.

Lemma existsb_filter_subsections (g : row -> bool) l :
  (forall r h, kind_is (str "subsection") r = true ->
               g (set_hidden h r) = g r) ->
  existsb g (rows_of (P3 l)) = existsb g (rows_of l).
Proof.
  intros Hg. induction l as [|[r|] l IH]; [done| |].
  - cbn [filter_subsections].
    destruct (kind_is (str "subsection") r) eqn:Hk;
      rewrite !rows_of_Some; cbn [existsb]; rewrite IH; [|done].
    by rewrite Hg.
  - cbn [filter_subsections]. by rewrite !rows_of_None.
Qed.

Lemma filter_row_idemp r :
  filter_row tab d (filter_row tab d r) = filter_row tab d r.
Proof.
  unfold filter_row. destruct (is_header r) eqn:Hh; [by rewrite Hh|].
  change (is_header (set_hidden ?h r)) with (is_header r). by rewrite Hh.
Qed.

Lemma filter_row_header r h :
  is_header r = true -> filter_row tab d (set_hidden h r) = set_hidden h r.
Proof.
  intros Hh. unfold filter_row.
  change (is_header (set_hidden h r)) with (is_header r). by rewrite Hh.
Qed.

Lemma filter_section_idemp r :
  filter_section tab counts (filter_section tab counts r)
  = filter_section tab counts r.
Proof.
  unfold filter_section. destruct (kind_is (str "section") r) eqn:Hk;
    [|by rewrite Hk].
  change (kind_is (str "section") (set_hidden ?h r))
    with (kind_is (str "section") r). by rewrite Hk.
Qed.

Lemma filter_section_other r :
  kind_is (str "section") r = false -> filter_section tab counts r = r.
Proof. intros Hk. unfold filter_section. by rewrite Hk. Qed.

Lemma header_kinds r :
  is_header r = true ->
  kind_is (str "section") r = true \/ kind_is (str "subsection") r = true
  \/ kind_is (str "feature-empty-diff") r = true.
Proof.
  unfold is_header. intros H. apply orb_true_iff in H as [H|H]; [|by right; right].
  apply orb_true_iff in H as [H|H]; [by left|by right; left].
Qed.

Lemma is_header_of k r :
  kind_is k r = true ->
  k = str "section" \/ k = str "subsection" \/ k = str "feature-empty-diff" ->
  is_header r = true.
Proof.
  intros Hk [->|[->| ->]]; unfold is_header; rewrite Hk; simpl;
    by rewrite ?orb_true_r.
Qed.

(** The first loop leaves the result of the four loops as it is. *)
Lemma stable_first l : P1 (P4 (P3 (S2 (P1 l)))) = P4 (P3 (S2 (P1 l))).
Proof.
  apply on_rows_id. intros r Hr.
  apply elem_on_rows in Hr as (r3 & Hr3 & ->).
  unfold filter_section. destruct (kind_is (str "section") r3) eqn:Hsec.
  { apply filter_row_header. by apply (is_header_of (str "section")); [|left]. }
  apply filter_subsections_elem in Hr3
    as [[Hr2 Hsub]|(Hsub & r2 & pre & next & Heq & ->)].
  - apply update_first_elem in Hr2 as [Hr1|(r1 & _ & Hk1 & ->)].
    + apply elem_on_rows in Hr1 as (r0 & _ & ->). apply filter_row_idemp.
    + apply filter_row_header.
      by apply (is_header_of (str "feature-empty-diff")); [|right; right].
  - apply filter_row_header.
    by apply (is_header_of (str "subsection")); [|right; left].
Qed.

Lemma update_first_idemp k h l :
  update_first (kind_is k) (set_hidden h)
    (update_first (kind_is k) (set_hidden h) l)
  = update_first (kind_is k) (set_hidden h) l.
Proof.
  induction l as [|[r|] l IH]; [done| |].
  - cbn [update_first]. destruct (kind_is k r) eqn:Hp; cbn [update_first].
    + change (kind_is k (set_hidden h r)) with (kind_is k r). by rewrite Hp.
    + by rewrite Hp, IH.
  - cbn [update_first]. by rewrite IH.
Qed.

Lemma stable_second_subsections l : S2 l = l -> S2 (P3 l) = P3 l.
Proof.
  induction l as [|[r|] l IH]; [done| |].
  - cbn [update_first filter_subsections].
    destruct (kind_is (str "feature-empty-diff") r) eqn:Hk.
    + intros [= Hr].
      rewrite (kind_is_other (str "feature-empty-diff") (str "subsection") _ ltac:(done) Hk).
      cbn [update_first]. by rewrite Hk, Hr.
    + intros [= Hl]. destruct (kind_is (str "subsection") r);
        cbn [update_first].
      * change (kind_is (str "feature-empty-diff") (set_hidden ?h r))
          with (kind_is (str "feature-empty-diff") r).
        by rewrite Hk, IH.
      * by rewrite Hk, IH.
  - cbn [update_first filter_subsections]. intros [= Hl]. by rewrite IH.
Qed.

Lemma second_sections l : S2 (P4 l) = P4 (S2 l).
Proof.
  induction l as [|[r|] l IH]; [done| |].
  - rewrite on_rows_Some. cbn [update_first].
    destruct (kind_is (str "feature-empty-diff") r) eqn:Hk.
    + pose proof (kind_is_other (str "feature-empty-diff") (str "section") _ ltac:(done) Hk) as Hs.
      rewrite (filter_section_other r Hs), Hk, on_rows_Some.
      by rewrite (filter_section_other (set_hidden (negb show) r)).
    + assert (kind_is (str "feature-empty-diff") (filter_section tab counts r)
              = false) as ->.
      { unfold filter_section. by destruct (kind_is (str "section") r). }
      by rewrite on_rows_Some, IH.
  - rewrite on_rows_None. cbn [update_first]. by rewrite on_rows_None, IH.
Qed.

Lemma subsections_sections l : P3 (P4 l) = P4 (P3 l).
Proof.
  induction l as [|[r|] l IH]; [done| |].
  - rewrite on_rows_Some. cbn [filter_subsections].
    rewrite IH, (has_visible_rows_sections tab counts l).
    destruct (kind_is (str "subsection") r) eqn:Hk.
    + pose proof (kind_is_other (str "subsection") (str "section") _ ltac:(done) Hk) as Hs.
      rewrite (filter_section_other r Hs), Hk, on_rows_Some.
      by rewrite (filter_section_other (set_hidden _ r)).
    + assert (kind_is (str "subsection") (filter_section tab counts r)
              = false) as ->; [|by rewrite on_rows_Some].
      unfold filter_section. by destruct (kind_is (str "section") r).
  - rewrite on_rows_None. cbn [filter_subsections].
    by rewrite on_rows_None, IH.
Qed.

Lemma subsections_idemp l : P3 (P3 l) = P3 l.
Proof.
  induction l as [|[r|] l IH]; [done| |].
  - cbn [filter_subsections].
    destruct (kind_is (str "subsection") r) eqn:Hk; cbn [filter_subsections].
    + change (kind_is (str "subsection") (set_hidden ?h r))
        with (kind_is (str "subsection") r).
      by rewrite Hk, IH, has_visible_rows_subsections.
    + by rewrite Hk, IH.
  - cbn [filter_subsections]. by rewrite IH.
Qed.

Lemma sections_idemp l : P4 (P4 l) = P4 l.
Proof.
  apply on_rows_id. intros r Hr. apply elem_on_rows in Hr as (r0 & _ & ->).
  apply filter_section_idemp.
Qed.

(** The four loops, run on their own result, change nothing. *)
Lemma loops_stable l :
  let x := P4 (P3 (S2 (P1 l))) in
  P1 x = x /\ S2 x = x /\ P3 x = x /\ P4 x = x.
Proof.
  intros x. split; [apply stable_first|]. split; [|split].
  - unfold x. rewrite second_sections.
    by rewrite stable_second_subsections by apply update_first_idemp.
  - unfold x. by rewrite subsections_sections, subsections_idemp.
  - apply sections_idemp.
Qed.

(** What the second and the fourth loop depend on is the same after the
    loops as after the first loop. *)
Lemma loops_observed l :
  let x := P4 (P3 (S2 (P1 l))) in
  fold_left (count_row tab d) (rows_of x) ∅
  = fold_left (count_row tab d) (rows_of l) ∅ /\
  existsb (kind_is (str "feature-empty-diff")) (rows_of x)
  = existsb (kind_is (str "feature-empty-diff")) (rows_of (P1 l)) /\
  showDiffEmpty tab d (rows_of x) = showDiffEmpty tab d (rows_of (P1 l)).
Proof.
  intros x.
  assert (erase x = erase l) as Herase.
  { unfold x. rewrite erase_on_rows, erase_filter_subsections,
      erase_update_first, erase_on_rows; [done| |].
    - intros r. unfold filter_row. by destruct (is_header r).
    - intros r. unfold filter_section.
      by destruct (kind_is (str "section") r). }
  assert (erase (P1 l) = erase l) as Herase1.
  { apply erase_on_rows. intros r. unfold filter_row.
    by destruct (is_header r). }
  assert (forall k, existsb (kind_is k) (rows_of x)
                    = existsb (kind_is k) (rows_of (P1 l))) as Hkinds.
  { intros k. rewrite <- (kinds_erased k (rows_of x)),
      <- (kinds_erased k (rows_of (P1 l))).
    by rewrite <- !rows_of_erase, Herase, Herase1. }
  split; [|split].
  - rewrite <- (counts_erased (rows_of x)), <- (counts_erased (rows_of l)).
    by rewrite <- !rows_of_erase, Herase.
  - apply Hkinds.
  - unfold showDiffEmpty. rewrite Hkinds. f_equal. f_equal.
    unfold x. rewrite existsb_on_rows, existsb_filter_subsections,
      existsb_update_first; [done| | |].
    + intros r Hk. simpl.
      change (kind_is (str "feature-field") (set_hidden ?h r))
        with (kind_is (str "feature-field") r).
      by rewrite (kind_is_other (str "feature-empty-diff") (str "feature-field") _ ltac:(done) Hk).
    + intros r h Hk. simpl.
      change (kind_is (str "feature-field") (set_hidden ?h r))
        with (kind_is (str "feature-field") r).
      by rewrite (kind_is_other (str "subsection") (str "feature-field") _ ltac:(done) Hk).
    + intros r. unfold filter_section.
      destruct (kind_is (str "section") r) eqn:Hk; [|done]. simpl.
      change (kind_is (str "feature-field") (set_hidden ?h r))
        with (kind_is (str "feature-field") r).
      by rewrite (kind_is_other (str "section") (str "feature-field") _ ltac:(done) Hk).
Qed.
End Idempotence.

(** X21.  [applyCompareFilters] is idempotent: run again on a modal it has
    just filtered, with the tab and the toggle as they are, it changes no
    row and no tab button.  So what is shown depends on the attributes of
    the rows, the tab and the toggle only, not on how often or in which
    order the handlers have run. *)
Theorem applyCompareFilters_idempotent (m : modal) :
  applyCompareFilters (applyCompareFilters m) = applyCompareFilters m.
Proof.
  unfold applyCompareFilters at 1.
  set (tab := or_default (active_tab m) (str "all")).
  set (d := bool_decide (diff_only m = Some (str "1"))).
  assert (active_tab (applyCompareFilters m) = active_tab m) as -> by done.
  assert (diff_only (applyCompareFilters m) = diff_only m) as -> by done.
  fold tab. fold d.
  set (counts1 := fold_left (count_row tab d) (rows_of (modal_rows m)) ∅).
  set (items1 := on_rows (filter_row tab d) (modal_rows m)).
  set (fde := existsb (kind_is (str "feature-empty-diff")) (rows_of items1)).
  set (show := showDiffEmpty tab d (rows_of items1)).
  set (counts2 := if fde && show then count_up (str "features") counts1
                  else counts1).
  assert (modal_rows (applyCompareFilters m)
          = on_rows (filter_section tab counts2)
              (filter_subsections tab
                 (update_first (kind_is (str "feature-empty-diff"))
                    (set_hidden (negb show)) items1))) as Hx by done.
  set (x := modal_rows (applyCompareFilters m)) in *.
  destruct (loops_stable tab d counts2 show (modal_rows m))
    as (H1 & H2 & H3 & H4).
  destruct (loops_observed tab d counts2 show (modal_rows m))
    as (Hc & Hf & Hs).
  fold items1 in H1, H2, H3, H4, Hc, Hf, Hs. rewrite <- Hx in *.
  rewrite H1, Hc, Hf, Hs. fold counts1 fde show counts2.
  rewrite H2, H3, H4.
  unfold applyCompareFilters at 2. fold tab d. fold counts1 items1.
  fold fde show. fold counts2. rewrite <- Hx.
  f_equal.
  change (tab_buttons (applyCompareFilters m))
    with ((fun btn : list N * bool => (btn.1, bool_decide (btn.1 = tab)))
            <$> tab_buttons m).
  rewrite <- list_fmap_compose. by apply list_fmap_ext.
Qed.
(* ----------------------------------------------------------------- *)
(** ** Prices of embedded data *)

Section JsonInduction.
Context {A : Type} (P : json A -> Prop).
Hypothesis Hnull : P JNull.
Hypothesis Hatom : forall a, P (JAtom a).
Hypothesis Harray : forall items, Forall P items -> P (JArray items).
Hypothesis Hobject :
  forall entries, Forall (fun entry => P entry.2) entries -> P (JObject entries).

Fixpoint json_induction (j : json A) : P j :=
  match j with
  | JNull => Hnull
  | JAtom a => Hatom a
  | JArray items =>
      Harray items
        ((fix all (l : list (json A)) : Forall P l :=
            match l with
            | [] => @List.Forall_nil _ P
            | x :: l' => @List.Forall_cons _ P x l' (json_induction x) (all l')
            end) items)
  | JObject entries =>
      Hobject entries
        ((fix all (l : list (list N * json A))
            : Forall (fun entry => P entry.2) l :=
            match l with
            | [] => @List.Forall_nil _ _
            | x :: l' => @List.Forall_cons _ _ x l' (json_induction x.2) (all l')
            end) entries)
  end.
End JsonInduction.

Section Collected.
Local Open Scope Q_scope.
Context {A : Type} (parseFloat_of : json A -> option Q).
Local Abbreviation collect := (collectPricesFromObject A parseFloat_of).

(** The call only appends, and what it appends is within the bounds. *)
Definition appends (f : list Q -> list Q) : Prop :=
  forall prices, exists added,
    f prices = prices ++ added /\
    Forall (fun p => 1 < p /\ p < 999999) added.

Lemma appends_id : appends (fun prices => prices).
Proof. intros prices. exists []. by rewrite app_nil_r. Qed.

Lemma appends_compose f g :
  appends f -> appends g -> appends (fun prices => g (f prices)).
Proof.
  intros Hf Hg prices. destruct (Hf prices) as (a1 & -> & H1).
  destruct (Hg (prices ++ a1)) as (a2 & -> & H2).
  exists (a1 ++ a2). rewrite app_assoc. split; [done|]. by apply Forall_app.
Qed.

Lemma appends_entry matches val : appends (collect_entry A parseFloat_of matches val).
Proof.
  intros prices. unfold collect_entry.
  destruct matches; [|by apply appends_id].
  destruct (parseFloat_of val) as [n|]; [|by apply appends_id].
  destruct (Qlt_le_dec 1 n); [|by apply appends_id].
  destruct (Qlt_le_dec n 999999); [|by apply appends_id].
  exists [n]. split; [done|]. by repeat constructor.
Qed.

Lemma appends_fold {B} (step : list Q -> B -> list Q) (l : list B) :
  Forall (fun x => appends (fun prices => step prices x)) l ->
  appends (fold_left step l).
Proof.
  induction 1 as [|x l Hx Hl IH]; simpl; [apply appends_id|].
  by apply (appends_compose (fun prices => step prices x) (fold_left step l)).
Qed.

Lemma collect_appends obj depth :
  appends (fun prices => collect obj prices depth).
Proof.
  revert depth. induction obj as [|a|items IH|entries IH] using json_induction;
    intros depth prices; cbn [collectPricesFromObject];
    destruct ((12 <? depth)%nat || (60 <? length prices)%nat);
    try by apply appends_id.
  - apply appends_fold. eapply Forall_impl; [exact IH|].
    intros val Hval. cbv beta.
    apply (appends_compose (collect_entry A parseFloat_of false val)
             (fun p => if is_object A val then collect val p (S depth)
                       else p));
      [apply appends_entry|].
    destruct (is_object A val); [apply Hval|apply appends_id].
  - apply appends_fold. eapply Forall_impl; [exact IH|].
    intros [key val] Hval. cbn [fst snd] in *.
    apply (appends_compose
             (collect_entry A parseFloat_of (price_like key) val)
             (fun p => if is_object A val then collect val p (S depth)
                       else p));
      [apply appends_entry|].
    destruct (is_object A val); [apply Hval|apply appends_id].
Qed.
End Collected.

(** X22.  [collectPricesFromObject] only appends to [prices], and every
    price it appends lies strictly between 1 and 999,999; it appends nothing
    deeper than 12 levels, to an array that holds more than 60 prices already, or
    for a value that is [null] or not an object.  So do the prices of
    [extractFromNextData]. *)
Theorem collectPricesFromObject_spec
    (A : Type) (parseFloat_of : json A -> option Q)
    (obj : json A) (prices : list Q) (depth : nat) :
  (exists added,
     collectPricesFromObject A parseFloat_of obj prices depth
     = prices ++ added /\
     Forall (fun p => (1 < p)%Q /\ (p < 999999)%Q) added) /\
  ((12 < depth)%nat \/ (60 < length prices)%nat \/ is_object A obj = false \/
   obj = JNull ->
   collectPricesFromObject A parseFloat_of obj prices depth = prices) /\
  (forall root,
     Forall (fun p => (1 < p)%Q /\ (p < 999999)%Q)
            (extractFromNextData A parseFloat_of root)).
Proof.
  split; [apply collect_appends|]. split.
  - intros H. destruct obj; cbn [collectPricesFromObject];
      destruct ((12 <? depth)%nat || (60 <? length prices)%nat) eqn:Hg;
      try done;
      destruct H as [H|[H|[H|H]]]; try done;
      apply orb_false_iff in Hg as [H1 H2];
      apply Nat.ltb_ge in H1, H2; lia.
  - intros [root|]; [|constructor]. simpl.
    by destruct (collect_appends parseFloat_of root 0%nat []) as (added & -> & H).
Qed.

(** X22 on an object with a price, a rate that is out of bounds and a
    nested amount; the atoms are numbers. *)
Lemma collectPricesFromObject_spec_witness :
  extractFromNextData Q (fun val => match val with JAtom n => Some n | _ => None end)
    (Some (JObject [(str "minPrice", JAtom 120%Q);
                    (str "taxRate", JAtom (1 # 5)%Q);
                    (str "room", JObject [(str "Amount", JAtom 95%Q)])]))
  = [120; 95]%Q /\
  collectPricesFromObject Q (fun val => match val with JAtom n => Some n | _ => None end)
    (JObject [(str "price", JAtom 120%Q)]) [] 13 = [].
Proof.
  split; [reflexivity|].
  apply collectPricesFromObject_spec. left. lia.
Defined.
(* ----------------------------------------------------------------- *)
(** ** Dates of the search URL, and the order of the prices *)

Section Dates.
Lemma padStart2_digits s :
  (1 <= length s <= 2)%nat -> Forall (fun c => is_digit c = true) s ->
  exists a b, padStart2 s = [a; b] /\ is_digit a = true /\ is_digit b = true.
Proof.
  intros Hlen Hd. destruct s as [|a [|b [|c s]]]; simpl in Hlen; try lia.
  - exists digit_zero, a. apply Forall_cons in Hd as [Ha _]. by repeat split.
  - exists a, b. apply Forall_cons in Hd as [Ha Hd].
    apply Forall_cons in Hd as [Hb _]. by repeat split.
Qed.
End Dates.

(** X23.  [resolveDate] gives the ISO parameter when it has the form
    [YYYY-MM-DD], whatever the legacy parameters say; otherwise, from a
    year of four digits and a month and a day of one or two digits, it
    builds a date of that same form, with the month and the day padded to
    two digits; and it gives nothing exactly when the ISO parameter is not
    of the form and a legacy parameter is missing or empty. *)
Theorem resolveDate_spec (get : list N -> option (list N)) (key : list N) :
  (forall iso, get key = Some iso -> is_iso_date iso = true ->
     resolveDate get key = Some iso) /\
  (forall y m d,
     (forall iso, get key = Some iso -> is_iso_date iso = false) ->
     get (key ++ str "_year") = Some y ->
     get (key ++ str "_month") = Some m ->
     get (key ++ str "_monthday") = Some d ->
     length y = 4%nat -> Forall (fun c => is_digit c = true) y ->
     (1 <= length m <= 2)%nat -> Forall (fun c => is_digit c = true) m ->
     (1 <= length d <= 2)%nat -> Forall (fun c => is_digit c = true) d ->
     exists date,
       resolveDate get key = Some date /\ is_iso_date date = true /\
       date = y ++ hyphen :: padStart2 m ++ hyphen :: padStart2 d) /\
  (resolveDate get key = None <->
   (forall iso, get key = Some iso -> is_iso_date iso = false) /\
   (forall y m d,
      get (key ++ str "_year") = Some y ->
      get (key ++ str "_month") = Some m ->
      get (key ++ str "_monthday") = Some d ->
      y = [] \/ m = [] \/ d = [])).
Proof.
  split; [|split].
  - intros iso Hget Hiso. unfold resolveDate. rewrite Hget, Hiso.
    by destruct iso.
  - intros y m d Hno Hy Hm Hd Hly Hdy Hlm Hdm Hld Hdd.
    assert (resolveDate get key
            = Some (y ++ hyphen :: padStart2 m ++ hyphen :: padStart2 d))
      as Hres.
    { unfold resolveDate. rewrite Hy, Hm, Hd.
      assert (negb (is_empty y) && negb (is_empty m) && negb (is_empty d)
              = true) as ->.
      { destruct y, m, d; simpl in *; try lia; done. }
      destruct (get key) as [iso|] eqn:Hget; [|done].
      by rewrite (Hno iso eq_refl), andb_false_r. }
    eexists. split; [exact Hres|]. split; [|done].
    destruct (padStart2_digits m Hlm Hdm) as (m1 & m2 & -> & Hm1 & Hm2).
    destruct (padStart2_digits d Hld Hdd) as (d1 & d2 & -> & Hd1 & Hd2).
    destruct y as [|y1 [|y2 [|y3 [|y4 [|? ?]]]]]; simpl in Hly; try lia.
    apply Forall_cons in Hdy as [Hy1 Hdy]. apply Forall_cons in Hdy as [Hy2 Hdy].
    apply Forall_cons in Hdy as [Hy3 Hdy]. apply Forall_cons in Hdy as [Hy4 _].
    cbn [is_iso_date app]. by rewrite Hy1, Hy2, Hy3, Hy4, Hm1, Hm2, Hd1, Hd2.
  - unfold resolveDate. split.
    + intros Hnone. split.
      * intros iso Hget. rewrite Hget in Hnone.
        destruct (is_iso_date iso) eqn:Hiso; [|done].
        destruct iso; [done|]. by simpl in Hnone.
      * intros y m d Hy Hm Hd. rewrite Hy, Hm, Hd in Hnone.
        assert (negb (is_empty y) && negb (is_empty m) && negb (is_empty d)
                = false) as Hempty.
        { destruct (negb (is_empty y) && negb (is_empty m)
                    && negb (is_empty d)); [|done].
          destruct (get key) as [iso|]; [|done].
          by destruct (negb (is_empty iso) && is_iso_date iso). }
        destruct y; [by left|]. destruct m; [by right; left|].
        destruct d; [by right; right|]. done.
    + intros [Hno Hlegacy].
      assert (match get (key ++ str "_year"), get (key ++ str "_month"),
                    get (key ++ str "_monthday") with
              | Some y, Some m, Some d =>
                  if negb (is_empty y) && negb (is_empty m)
                     && negb (is_empty d)
                  then Some (y ++ hyphen :: padStart2 m
                               ++ hyphen :: padStart2 d)
                  else None
              | _, _, _ => None
              end = None) as ->.
      { destruct (get (key ++ str "_year")) as [y|]; [|done].
        destruct (get (key ++ str "_month")) as [m|]; [|done].
        destruct (get (key ++ str "_monthday")) as [d|]; [|done].
        by destruct (Hlegacy y m d eq_refl eq_refl eq_refl)
          as [->|[->| ->]]; rewrite ?andb_false_r. }
      destruct (get key) as [iso|]; [|done].
      by rewrite (Hno iso eq_refl), andb_false_r.
Qed.

(** X23 on the legacy parameters of 21 February 2026. *)
Lemma resolveDate_spec_witness :
  resolveDate
    (fun name =>
       if bool_decide (name = str "checkin_year") then Some (str "2026")
       else if bool_decide (name = str "checkin_month") then Some (str "2")
       else if bool_decide (name = str "checkin_monthday") then Some (str "21")
       else None)
    (str "checkin")
  = Some (str "2026-02-21").
Proof.
  destruct (resolveDate_spec
              (fun name =>
                 if bool_decide (name = str "checkin_year") then Some (str "2026")
                 else if bool_decide (name = str "checkin_month") then Some (str "2")
                 else if bool_decide (name = str "checkin_monthday") then Some (str "21")
                 else None)
              (str "checkin")) as (_ & Hlegacy & _).
  destruct (Hlegacy (str "2026") (str "2") (str "21")) as (date & -> & _ & ->);
    try reflexivity; try (simpl; lia); try (by repeat constructor).
Defined.

Section Order.
Local Open Scope Q_scope.

Lemma calcStats_count P st : calcStats P = Some st -> stat_count st = length P.
Proof.
  unfold calcStats. pose proof (sort_perm P) as Hperm.
  destruct (sort ascending P) as [|first rest] eqn:Hsort; [done|].
  intros [= <-]. simpl. by rewrite <- Hperm.
Qed.

(** Two ascending lists of reduced fractions with the same elements are the
    same list. *)
Lemma sorted_reduced_unique l1 l2 :
  StronglySorted Qle l1 -> StronglySorted Qle l2 -> l1 ≡ₚ l2 ->
  Forall (fun x => Qred x = x) l1 -> l1 = l2.
Proof.
  revert l2. induction l1 as [|x l1 IH]; intros l2 Hs1 Hs2 Hperm Hred.
  { by apply Permutation_nil in Hperm. }
  destruct l2 as [|y l2]; [by apply Permutation_nil_r in Hperm|].
  assert (x = y) as <-.
  { assert (y ∈ x :: l1) as Hy by (rewrite Hperm; left).
    assert (x ∈ y :: l2) as Hx by (rewrite <- Hperm; left).
    pose proof (sorted_head_least _ _ Hs1 y Hy) as Hxy.
    pose proof (sorted_head_least _ _ Hs2 x Hx) as Hyx.
    rewrite Forall_forall in Hred.
    rewrite <- (Hred x) by left. rewrite <- (Hred y) by done.
    apply Qred_complete. by apply Qle_antisym. }
  f_equal. apply StronglySorted_inv in Hs1 as [Hs1 _].
  apply StronglySorted_inv in Hs2 as [Hs2 _].
  apply Forall_cons in Hred as [_ Hred].
  apply IH; [done|done| |done]. by eapply Permutation_cons_inv.
Qed.

Lemma sorted_Qred l : StronglySorted Qle l -> StronglySorted Qle (Qred <$> l).
Proof.
  induction 1 as [|x l Hs IH Hx]; simpl; constructor; [done|].
  apply Forall_fmap. eapply Forall_impl; [exact Hx|].
  intros y Hy. simpl. by rewrite !Qred_correct.
Qed.

(** The computed mean of the sorted prices does not depend on their
    order. *)
Lemma number_mean_perm P P' :
  P ≡ₚ P' -> number_mean (sort ascending P) = number_mean (sort ascending P').
Proof.
  intros Hperm.
  assert (Qred <$> sort ascending P = Qred <$> sort ascending P') as Heq.
  { apply sorted_reduced_unique.
    - apply sorted_Qred, sort_sorted.
    - apply sorted_Qred, sort_sorted.
    - by rewrite !sort_perm, Hperm.
    - apply Forall_fmap, Forall_forall. intros x _. simpl.
      apply Qred_complete, Qred_correct. }
  unfold number_mean, Qlen.
  rewrite <- (number_sum_Qred (sort ascending P)),
    <- (number_sum_Qred (sort ascending P')), Heq.
  assert (length (sort ascending P) = length (sort ascending P')) as ->; [|done].
  apply Permutation_length. by rewrite !sort_perm.
Qed.
End Order.

(** X24.  The statistics do not depend on the order in which the prices
    were found: for two lists with the same prices, [calcStats] gives the
    same count and the same rounded mean, and a minimum and a maximum that
    are equal as numbers. *)
Theorem calcStats_order (P P' : list Q) (st : stats) :
  P ≡ₚ P' -> calcStats P = Some st ->
  exists st', calcStats P' = Some st' /\
    stat_count st' = stat_count st /\
    stat_avg st' = stat_avg st /\
    (stat_min st' == stat_min st)%Q /\
    (stat_max st' == stat_max st)%Q.
Proof.
  intros Hperm Hst.
  assert (P' <> []) as Hne.
  { intros ->. apply Permutation_nil_r in Hperm. subst P. done. }
  destruct (calcStats_nonempty P' Hne) as [st' Hst'].
  exists st'. split; [done|].
  destruct (calcStats_extrema P st Hst) as [[Hmin Hlow] [Hmax Hup]].
  destruct (calcStats_extrema P' st' Hst') as [[Hmin' Hlow'] [Hmax' Hup']].
  split; [|split; [|split]].
  - rewrite (calcStats_count P st Hst), (calcStats_count P' st' Hst').
    by rewrite Hperm.
  - rewrite (calcStats_avg_number P st Hst), (calcStats_avg_number P' st' Hst').
    f_equal. symmetry. by apply number_mean_perm.
  - apply Qle_antisym.
    + apply Hlow'. by rewrite <- Hperm.
    + apply Hlow. by rewrite Hperm.
  - apply Qle_antisym.
    + apply Hup. by rewrite Hperm.
    + apply Hup'. by rewrite <- Hperm.
Qed.

(** X24 on three prices. *)
Lemma calcStats_order_witness :
  exists st', calcStats [104; 89; 210]%Q = Some st' /\
    stat_count st' = 3%nat /\ (stat_min st' == 89)%Q.
Proof.
  destruct (calcStats_order [210; 104; 89]%Q [104; 89; 210]%Q
              (mkStats 89 210 (Finite 134) 3)) as (st' & H & Hc & _ & Hmin & _);
    [|reflexivity|].
  - apply perm_trans with [104; 210; 89]%Q; [apply perm_swap|].
    apply perm_skip, perm_swap.
  - by exists st'.
Defined.
(* ----------------------------------------------------------------- *)
(** ** The cache of hotel details *)

Section DetailsOnce.
Context {D : Type}.
Local Abbreviation dstate := (details_state D).

(** A URL that is being fetched has the mark [null], and is being fetched
    once. *)
Definition details_inv (s : dstate) : Prop :=
  NoDup (fetching D s) /\
  forall u, u ∈ fetching D s -> detailsCache D s !! u = Some None.

Lemma details_step_inv s ev s' o :
  details_step D s ev = Some (s', o) -> details_inv s -> details_inv s'.
Proof.
  intros Hstep [Hnd Hmark]. destruct ev as [u|i result]; simpl in Hstep.
  - unfold fetchHotelDetails_call in Hstep.
    destruct (detailsCache D s !! u) as [v|] eqn:Hu; simpl in Hstep.
    + by injection Hstep as <- <-.
    + injection Hstep as <- <-. split; simpl.
      * apply NoDup_app. split; [done|]. split; [|apply NoDup_singleton].
        intros x Hx Hx'. apply list_elem_of_singleton in Hx'. subst x.
        rewrite (Hmark u Hx) in Hu. done.
      * intros x Hx. apply elem_of_app in Hx as [Hx|Hx].
        -- destruct (decide (x = u)) as [->|Hne].
           ++ by rewrite lookup_insert_eq.
           ++ rewrite lookup_insert_ne by done. by apply Hmark.
        -- apply list_elem_of_singleton in Hx. subst x.
           by rewrite lookup_insert_eq.
  - destruct (fetching D s !! i) as [u|] eqn:Hi; [|done].
    injection Hstep as <- <-.
    assert (NoDup (delete i (fetching D s))) as Hnd'.
    { eapply sublist_NoDup; [exact Hnd|apply sublist_delete]. }
    assert (forall x, x ∈ delete i (fetching D s) -> x ∈ fetching D s) as Hsub.
    { intros x Hx. eapply elem_of_sublist; [exact Hx|apply sublist_delete]. }
    assert (u ∉ delete i (fetching D s)) as Hgone.
    { intros Hin. apply list_elem_of_lookup in Hin as [j Hj].
      destruct (decide (j < i)%nat) as [Hlt|Hge].
      - rewrite list_lookup_delete_lt in Hj by done.
        pose proof (NoDup_lookup _ _ _ _ Hnd Hi Hj). lia.
      - rewrite list_lookup_delete_ge in Hj by lia.
        pose proof (NoDup_lookup _ _ _ _ Hnd Hi Hj). lia. }
    destruct result as [details|]; simpl.
    + split; simpl; [done|]. intros x Hx.
      rewrite lookup_insert_ne by (intros ->; done). by apply Hmark, Hsub.
    + split; simpl; [done|]. intros x Hx. by apply Hmark, Hsub.
Qed.

Lemma details_step_known s ev s' o u :
  details_step D s ev = Some (s', o) ->
  is_Some (detailsCache D s !! u) -> is_Some (detailsCache D s' !! u).
Proof.
  intros Hstep Hu. destruct ev as [u'|i result]; simpl in Hstep.
  - unfold fetchHotelDetails_call in Hstep.
    destruct (detailsCache D s !! u') as [v|] eqn:Hu'; simpl in Hstep.
    + by injection Hstep as <- <-.
    + injection Hstep as <- <-. simpl. apply lookup_insert_is_Some'. by right.
  - destruct (fetching D s !! i) as [u'|]; [|done].
    injection Hstep as <- <-. destruct result; simpl; [|done].
    apply lookup_insert_is_Some'. by right.
Qed.

Lemma details_step_kept s ev s' o u details :
  details_step D s ev = Some (s', o) -> details_inv s ->
  detailsCache D s !! u = Some (Some details) ->
  detailsCache D s' !! u = Some (Some details).
Proof.
  intros Hstep [Hnd Hmark] Hu. destruct ev as [u'|i result]; simpl in Hstep.
  - unfold fetchHotelDetails_call in Hstep.
    destruct (detailsCache D s !! u') as [v|] eqn:Hu'; simpl in Hstep.
    + by injection Hstep as <- <-.
    + injection Hstep as <- <-. simpl.
      rewrite lookup_insert_ne; [done|]. intros ->. congruence.
  - destruct (fetching D s !! i) as [u'|] eqn:Hi; [|done].
    injection Hstep as <- <-. destruct result; simpl; [|done].
    rewrite lookup_insert_ne; [done|]. intros ->.
    assert (u ∈ fetching D s) as Hin by by eapply list_elem_of_lookup_2.
    rewrite (Hmark u Hin) in Hu. done.
Qed.

Lemma details_run_facts evs s s' outcomes u :
  details_run D s evs = Some (s', outcomes) -> details_inv s ->
  details_inv s' /\
  (is_Some (detailsCache D s !! u) ->
   is_Some (detailsCache D s' !! u) /\ (u, Started D) ∉ outcomes) /\
  (forall details, detailsCache D s !! u = Some (Some details) ->
     detailsCache D s' !! u = Some (Some details) /\
     forall o, (u, o) ∈ outcomes -> o = Returned D (Some details)).
Proof.
  revert s s' outcomes. induction evs as [|ev evs IH];
    intros s s' outcomes Hrun Hinv; simpl in Hrun.
  { injection Hrun as <- <-. split; [done|]. split.
    - intros Hu. split; [done|]. by intros ?%elem_of_nil.
    - intros details Hu. split; [done|]. by intros o ?%elem_of_nil. }
  destruct (details_step D s ev) as [[s1 o1]|] eqn:Hstep; [|done].
  destruct (details_run D s1 evs) as [[s2 outs]|] eqn:Hrest; [|done].
  injection Hrun as <- <-.
  pose proof (details_step_inv _ _ _ _ Hstep Hinv) as Hinv1.
  destruct (IH _ _ _ Hrest Hinv1) as (Hinv2 & Hknown & Hkept).
  split; [done|]. split.
  - intros Hu.
    destruct (Hknown (details_step_known _ _ _ _ u Hstep Hu)) as [Hu2 Hnot].
    split; [done|]. destruct ev as [u'|i result]; simpl in Hstep.
    + unfold fetchHotelDetails_call in Hstep.
      destruct (detailsCache D s !! u') as [v|] eqn:Hu'; simpl in Hstep.
      * injection Hstep as <- <-.
        intros [Heq|?]%elem_of_cons; [congruence|done].
      * injection Hstep as <- <-.
        intros [Heq|?]%elem_of_cons; [|done].
        injection Heq as ->. rewrite Hu' in Hu. by destruct Hu.
    + destruct (fetching D s !! i); [|done]. by injection Hstep as <- <-.
  - intros details Hu.
    destruct (Hkept details (details_step_kept _ _ _ _ u details Hstep Hinv Hu))
      as [Hu2 Hret].
    split; [done|]. intros o Ho. destruct ev as [u'|i result]; simpl in Hstep.
    + unfold fetchHotelDetails_call in Hstep.
      destruct (detailsCache D s !! u') as [v|] eqn:Hu'; simpl in Hstep.
      * injection Hstep as <- <-.
        apply elem_of_cons in Ho as [[= -> ->]|Ho]; [|by apply Hret].
        congruence.
      * injection Hstep as <- <-.
        apply elem_of_cons in Ho as [[= -> ->]|Ho]; [|by apply Hret].
        congruence.
    + destruct (fetching D s !! i); [|done]. injection Hstep as <- <-.
      by apply Hret.
Qed.
End DetailsOnce.

(** X25.  The details of a hotel are fetched at most once per page load.
    Over any sequence of calls of [fetchHotelDetails] and ends of fetches
    from a fresh page: once a URL is in the cache no later call for it
    starts a fetch, whether the first fetch is still under way, has failed
    or has given details; and once the cache holds details for a URL, every
    later call returns these details, and they are never replaced. *)
Theorem fetchHotelDetails_once
    (D : Type) (before after : list (details_event D))
    (s s' : details_state D)
    (outcomes outcomes' : list (list N * call_outcome D)) (u : list N) :
  details_run D (details_init D) before = Some (s, outcomes) ->
  details_run D s after = Some (s', outcomes') ->
  (is_Some (detailsCache D s !! u) ->
   is_Some (detailsCache D s' !! u) /\ (u, Started D) ∉ outcomes') /\
  (forall details, detailsCache D s !! u = Some (Some details) ->
     detailsCache D s' !! u = Some (Some details) /\
     forall o, (u, o) ∈ outcomes' -> o = Returned D (Some details)) /\
  (u ∈ fetching D s -> detailsCache D s !! u = Some None).
Proof.
  intros Hbefore Hafter.
  assert (details_inv (details_init D)) as Hinit.
  { split; [constructor|]. by intros x ?%elem_of_nil. }
  destruct (details_run_facts before _ _ _ u Hbefore Hinit) as (Hinv & _).
  destruct (details_run_facts after _ _ _ u Hafter Hinv) as (_ & H1 & H2).
  split; [done|]. split; [done|]. apply Hinv.
Qed.

(** X25: a call while the fetch is under way returns [null], and so does a
    call after the fetch has failed. *)
Lemma fetchHotelDetails_once_witness :
  exists s s' outcomes',
    details_run nat (details_init nat) [DetailsCall nat (str "/hotel/a")]
    = Some (s, [(str "/hotel/a", Started nat)]) /\
    details_run nat s
      [DetailsCall nat (str "/hotel/a"); DetailsEnd nat 0 None;
       DetailsCall nat (str "/hotel/a")] = Some (s', outcomes') /\
    outcomes' = [(str "/hotel/a", Returned nat None);
                 (str "/hotel/a", Returned nat None)] /\
    (str "/hotel/a", Started nat) ∉ outcomes'.
Proof.
  destruct (details_run nat (details_init nat)
              [DetailsCall nat (str "/hotel/a")]) as [[s o]|] eqn:E1;
    [|vm_compute in E1; discriminate].
  destruct (details_run nat s
              [DetailsCall nat (str "/hotel/a"); DetailsEnd nat 0 None;
               DetailsCall nat (str "/hotel/a")]) as [[s' o']|] eqn:E2;
    [|vm_compute in E1; injection E1 as <- <-; vm_compute in E2; discriminate].
  exists s, s', o'.
  destruct (fetchHotelDetails_once nat _ _ _ _ _ _ (str "/hotel/a") E1 E2)
    as (Honce & _).
  vm_compute in E1. injection E1 as <- <-.
  pose proof E2 as E2'. vm_compute in E2'. injection E2' as <- <-.
  split; [reflexivity|]. split; [reflexivity|]. split; [reflexivity|].
  apply Honce. vm_compute. by eexists.
Defined.
